(** * Storm: bit vectors, Markov automata and the state elimination engine

    A shallow embedding of

    - [src/storage/BitVector.cpp]: the bucketed bit vector, and the PRISM
      module that the file carries after it;
    - [src/storm/models/sparse/MarkovAutomaton.cpp]: closing a Markov
      automaton;
    - the state elimination engine described in the specification, whose
      implementation files are not among the sources.

    Conventions.  A [uint64_t] bucket is a [Z] in [0, 2^64) and every
    operation on buckets writes its wrap-around out.  An index or a length is
    a machine integer too, but one that counts bits or buckets of a vector
    held in memory and so never comes near [2^64]; it is a [nat].  The one
    place where the source lets such a number wrap ([size() - 1] on an empty
    vector, in [full]) is written out. *)

From Stdlib Require Import ZArith List Bool Lia Arith PeanoNat.
From Stdlib Require Import QArith Qreduction Qfield Lqa.
From Stdlib Require Import Permutation Sorted Setoid Morphisms.
From Stdlib Require String.
Import ListNotations.

Close Scope Q_scope.
Set Implicit Arguments.

(** ** 64-bit words *)

Module Word64.
Local Open Scope Z_scope.

Definition modulus : Z := 2 ^ 64.

(** Reduction of an integer to the 64 bits a [uint64_t] keeps. *)
Definition wrap (z : Z) : Z := z mod modulus.

(** [-1ull], the bucket with all bits set. *)
Definition allOnes : Z := modulus - 1.

(** [x << n].  C++ defines the shift for counts 0..63 only.  The source also
    shifts by 64 (in [full] and [resize], when the length is a multiple of
    64); there the model follows the shift instructions of x86-64 and
    AArch64, which use the count modulo 64. *)
Definition shl (x : Z) (n : nat) : Z := wrap (Z.shiftl x (Z.of_nat (n mod 64))).

(** [~x] on 64 bits. *)
Definition not (x : Z) : Z := wrap (Z.lnot x).

(** [x - y] on 64 bits; [1ll << n] minus [1ll] wraps the same way. *)
Definition sub (x y : Z) : Z := wrap (x - y).

(** [__builtin_popcountll]: the number of set bits of a bucket.  The bits are
    enumerated from the most significant one, the order in which a bit
    vector numbers them. *)
Definition popcount (x : Z) : nat :=
  length (filter (fun k => Z.testbit x (Z.of_nat (63 - k))) (seq 0 64)).

(** A bucket holds a 64-bit value. *)
Definition wordOK (w : Z) : Prop := 0 <= w < modulus.

(** Bit [k] of a bucket in the numbering of the bit vector: bit 0 is the
    most significant one. *)
Definition bitOf (w : Z) (k : nat) : bool := Z.testbit w (Z.of_nat (63 - k)).

(** The mask [~((1 << (64 - k)) - 1)] of [truncateLastBucket], [full] and
    [getNumberOfSetBitsBeforeIndex]. *)
Definition topMask (k : nat) : Z := not (sub (shl 1 (64 - k)) 1).

(** The mask [(1 << (64 - k)) - 1] of [getNextSetIndex] and [resize]. *)
Definition lowMask (k : nat) : Z := sub (shl 1 (64 - k)) 1.

End Word64.

(** ** BitVector.cpp *)

Module BitVector.
Import Word64.

(** Modelled from the spec: the constant [mod64mask] is declared in
    BitVector.h, which is not among the sources; the code uses it next to
    [>> 6] to take an index modulo 64, so it is [(1 << 6) - 1]. *)
Definition mod64mask : nat := 63.

Record BitVector : Type := mkBitVector
  { bitCount : nat;
    bucketVector : list Z }.

(** [std::vector::operator[]] on the buckets.  Reading outside the vector is
    undefined in C++; the default 0 is never relied upon by a theorem. *)
Definition bucketAt (l : list Z) (i : nat) : Z := nth i l 0%Z.

(** [bucketVector[i] = f(bucketVector[i])]. *)
Fixpoint updateAt (f : Z -> Z) (i : nat) (l : list Z) : list Z :=
  match l, i with
  | [], _ => []
  | x :: r, O => f x :: r
  | x :: r, S j => x :: updateAt f j r
  end.

(** [bucketVector.back() = f(bucketVector.back())]; [None] on an empty
    vector, where [back()] has no element to refer to. *)
Definition updateBack (f : Z -> Z) (l : list Z) : option (list Z) :=
  match l with
  | [] => None
  | _ => Some (updateAt f (length l - 1) l)
  end.

(** [std::vector::resize(n, v)]. *)
Definition vresize (n : nat) (v : Z) (l : list Z) : list Z :=
  firstn n l ++ repeat v (n - length l).

(** The number of buckets for [length] bits, as the constructor and [resize]
    compute it. *)
Definition bucketCountFor (length : nat) : nat :=
  let bucketCount := Nat.shiftr length 6 in
  if negb (Nat.land length mod64mask =? 0) then S bucketCount else bucketCount.

(** [BitVector::truncateLastBucket]. *)
Definition truncateLastBucket (b : BitVector) : option BitVector :=
  if negb (Nat.land (bitCount b) mod64mask =? 0) then
    match updateBack
            (fun w => Z.land w (not (sub (shl 1 (64 - Nat.land (bitCount b) mod64mask)) 1)))
            (bucketVector b) with
    | Some l => Some (mkBitVector (bitCount b) l)
    | None => None
    end
  else Some b.

(** [BitVector::BitVector()]. *)
Definition empty_vector : BitVector := mkBitVector 0 [].

(** [BitVector::BitVector(length, init)]. *)
Definition make (length : nat) (init : bool) : option BitVector :=
  let bucketCount := bucketCountFor length in
  if init then truncateLastBucket (mkBitVector length (repeat allOnes bucketCount))
  else Some (mkBitVector length (repeat 0%Z bucketCount)).

(** [BitVector::BitVector(length)], the constructor with [init = false],
    which has no failing path. *)
Definition zeros (length : nat) : BitVector :=
  mkBitVector length (repeat 0%Z (bucketCountFor length)).

(** [BitVector::operator[]]. *)
Definition index (b : BitVector) (i : nat) : bool :=
  let bucket := Nat.shiftr i 6 in
  let mask := shl 1 (63 - Nat.land i mod64mask) in
  (Z.land (bucketAt (bucketVector b) bucket) mask =? mask)%Z.

(** [BitVector::get(index)], which asserts [index < bitCount]. *)
Definition get (b : BitVector) (i : nat) : bool := index b i.

(** [BitVector::set(index, value)], which asserts [index < bitCount].  The
    assertion macro is compiled out of release builds; the model is the code
    without it, and the theorems take the asserted condition as a
    hypothesis. *)
Definition set (i : nat) (value : bool) (b : BitVector) : BitVector :=
  let bucket := Nat.shiftr i 6 in
  let mask := shl 1 (63 - Nat.land i mod64mask) in
  if value then mkBitVector (bitCount b) (updateAt (fun w => Z.lor w mask) bucket (bucketVector b))
  else mkBitVector (bitCount b) (updateAt (fun w => Z.land w (not mask)) bucket (bucketVector b)).

(** [BitVector::operator==]: the lengths, then the buckets one by one, along
    the buckets of the left operand. *)
Definition bucketsEqual (l1 l2 : list Z) : bool :=
  forallb (fun i => (bucketAt l1 i =? bucketAt l2 i)%Z) (seq 0 (length l1)).

Definition eqb (b other : BitVector) : bool :=
  if negb (bitCount b =? bitCount other) then false
  else bucketsEqual (bucketVector b) (bucketVector other).

(** The loop shared by the operators that build a fresh result: bucket [i]
    of the result is [f] of bucket [i] of the operands, for every bucket of
    the result. *)
Definition bucketwise (f : Z -> Z -> Z) (n : nat) (l1 l2 : list Z) : list Z :=
  map (fun i => f (bucketAt l1 i) (bucketAt l2 i)) (seq 0 n).

(** The loop of the compound assignments: it stops with the shorter of the
    two bucket vectors. *)
Fixpoint inplace (f : Z -> Z -> Z) (l1 l2 : list Z) : list Z :=
  match l1, l2 with
  | x :: r1, y :: r2 => f x y :: inplace f r1 r2
  | _, _ => l1
  end.

(** The binary operators assert that the two lengths agree; as for [set],
    the theorems take that as a hypothesis. *)

(** [BitVector::operator&]. *)
Definition and (b other : BitVector) : BitVector :=
  mkBitVector (bitCount b)
    (bucketwise Z.land (bucketCountFor (bitCount b)) (bucketVector b) (bucketVector other)).

(** [BitVector::operator&=]. *)
Definition and_assign (b other : BitVector) : BitVector :=
  mkBitVector (bitCount b) (inplace Z.land (bucketVector b) (bucketVector other)).

(** [BitVector::operator|]. *)
Definition or (b other : BitVector) : BitVector :=
  mkBitVector (bitCount b)
    (bucketwise Z.lor (bucketCountFor (bitCount b)) (bucketVector b) (bucketVector other)).

(** [BitVector::operator|=]. *)
Definition or_assign (b other : BitVector) : BitVector :=
  mkBitVector (bitCount b) (inplace Z.lor (bucketVector b) (bucketVector other)).

(** [BitVector::operator^]. *)
Definition xor (b other : BitVector) : option BitVector :=
  truncateLastBucket
    (mkBitVector (bitCount b)
       (bucketwise Z.lxor (bucketCountFor (bitCount b)) (bucketVector b) (bucketVector other))).

(** [BitVector::operator~]. *)
Definition complemented (b : BitVector) : option BitVector :=
  truncateLastBucket
    (mkBitVector (bitCount b)
       (map (fun i => not (bucketAt (bucketVector b) i)) (seq 0 (bucketCountFor (bitCount b))))).

(** [BitVector::complement]. *)
Definition complement (b : BitVector) : option BitVector :=
  truncateLastBucket (mkBitVector (bitCount b) (map not (bucketVector b))).

(** [BitVector::implies]. *)
Definition implies (b other : BitVector) : option BitVector :=
  truncateLastBucket
    (mkBitVector (bitCount b)
       (bucketwise (fun x y => Z.lor (not x) y) (bucketCountFor (bitCount b))
          (bucketVector b) (bucketVector other))).

(** [BitVector::resize(newLength, init)]. *)
Definition resize (newLength : nat) (init : bool) (b : BitVector) : option BitVector :=
  let fill w := Z.lor w (sub (shl 1 (64 - Nat.land (bitCount b) mod64mask)) 1) in
  if bitCount b <? newLength then
    let newBucketCount := bucketCountFor newLength in
    if length (bucketVector b) <? newBucketCount then
      if init then
        match updateBack fill (bucketVector b) with
        | Some l => truncateLastBucket (mkBitVector newLength (vresize newBucketCount allOnes l))
        | None => None
        end
      else truncateLastBucket (mkBitVector newLength (vresize newBucketCount 0%Z (bucketVector b)))
    else
      if init then
        match updateBack fill (bucketVector b) with
        | Some l => truncateLastBucket (mkBitVector newLength l)
        | None => None
        end
      else truncateLastBucket (mkBitVector newLength (bucketVector b))
  else
    let newBucketCount := bucketCountFor newLength in
    truncateLastBucket (mkBitVector newLength (vresize newBucketCount 0%Z (bucketVector b))).

(** [BitVector::full].  The loop bound [bucketVector.size() - 1] is computed
    on unsigned integers: on an empty vector it wraps to [2^64 - 1] and the
    loop, like the [back()] after it, reads buckets that do not exist:
    [None]. *)
Definition full (b : BitVector) : option bool :=
  match bucketVector b with
  | [] => None
  | _ =>
      let n := length (bucketVector b) in
      if forallb (fun w => (w =? allOnes)%Z) (firstn (n - 1) (bucketVector b)) then
        let mask := not (sub (shl 1 (64 - Nat.land (bitCount b) mod64mask)) 1) in
        if negb (Z.land (bucketAt (bucketVector b) (n - 1)) mask =? mask)%Z then Some false
        else Some true
      else Some false
  end.

(** [BitVector::getNumberOfSetBitsBeforeIndex]. *)
Definition getNumberOfSetBitsBeforeIndex (b : BitVector) (i : nat) : nat :=
  let bucket := Nat.shiftr i 6 in
  let result := fold_left (fun acc k => acc + popcount (bucketAt (bucketVector b) k)) (seq 0 bucket) 0 in
  let tmp := Nat.land i mod64mask in
  if negb (tmp =? 0) then
    let tmp' := Z.land (not (sub (shl 1 (64 - Nat.land tmp mod64mask)) 1))
                       (bucketAt (bucketVector b) bucket) in
    result + popcount tmp'
  else result.

(** [BitVector::getNumberOfSetBits]. *)
Definition getNumberOfSetBits (b : BitVector) : nat :=
  getNumberOfSetBitsBeforeIndex b (Nat.shiftl (length (bucketVector b)) 6).

(** The inner loop of [getNextSetIndex]: move [currentBitInByte] to the
    first set bit of [remainingInBucket].  A non-zero bucket stops it within
    64 rounds, which is the fuel. *)
Fixpoint advanceToSetBit (fuel : nat) (remainingInBucket : Z) (currentBitInByte : nat) : nat :=
  match fuel with
  | O => currentBitInByte
  | S fuel' =>
      if (Z.land remainingInBucket (shl 1 (63 - currentBitInByte)) =? 0)%Z
      then advanceToSetBit fuel' remainingInBucket (S currentBitInByte)
      else currentBitInByte
  end.

(** The outer loop of [getNextSetIndex], over the buckets from [bucketIt]
    on.  Running out of buckets before [endIndex] is a read past the
    storage; it does not happen on a vector with enough buckets for its
    length. *)
Fixpoint nextSetLoop (bucketIt : list Z) (startingIndex endIndex : nat) (mask : Z)
         (currentBitInByte : nat) : nat :=
  match bucketIt with
  | [] => endIndex
  | w :: rest =>
      if startingIndex <? endIndex then
        let remainingInBucket := Z.land w mask in
        if negb (remainingInBucket =? 0)%Z then
          let c := advanceToSetBit 64 remainingInBucket currentBitInByte in
          if startingIndex + c <? endIndex then startingIndex + c else endIndex
        else nextSetLoop rest (startingIndex + 64) endIndex allOnes 0
      else endIndex
  end.

(** [BitVector::getNextSetIndex(dataPtr, startingIndex, endIndex)]. *)
Definition getNextSetIndexIn (data : list Z) (startingIndex endIndex : nat) : nat :=
  let currentBitInByte := Nat.land startingIndex mod64mask in
  let bucketIt := skipn (Nat.shiftr startingIndex 6) data in
  let startingIndex' := Nat.shiftl (Nat.shiftr startingIndex 6) 6 in
  let mask := if currentBitInByte =? 0 then allOnes
              else sub (shl 1 (64 - currentBitInByte)) 1 in
  nextSetLoop bucketIt startingIndex' endIndex mask currentBitInByte.

(** [BitVector::getNextSetIndex(startingIndex)]. *)
Definition getNextSetIndex (b : BitVector) (startingIndex : nat) : nat :=
  getNextSetIndexIn (bucketVector b) startingIndex (bitCount b).

(** A range-based [for] over the set bits: [begin()] is the first set index,
    [operator++] looks for the next one in the storage as it is at that
    moment, and the loop ends at [end()], the length.  The state [St] holds
    whatever the body changes; [data] reads the buckets of the vector that
    is iterated over out of the current state, so that a body which changes
    this very vector is seen by the iterator.  Every round moves the index
    forward, so [endIndex] rounds of fuel are enough. *)
Section Iteration.
Variable St : Type.
Variable data : St -> list Z.
Variable endIndex : nat.
Variable body : nat -> St -> St.

Fixpoint iterate (fuel : nat) (currentIndex : nat) (s : St) : St :=
  match fuel with
  | O => s
  | S fuel' =>
      if currentIndex =? endIndex then s
      else
        let s' := body currentIndex s in
        iterate fuel' (getNextSetIndexIn (data s') (S currentIndex) endIndex) s'
  end.

Definition forEachSetBit (s : St) : St :=
  iterate endIndex (getNextSetIndexIn (data s) 0 endIndex) s.
End Iteration.

(** The first branch of [operator%]: walk over the set bits of [filter]. *)
Definition modByFilter (b filter : BitVector) : BitVector :=
  snd (forEachSetBit (fun _ => bucketVector filter) (bitCount filter)
         (fun bit st =>
            let '(position, result) := st in
            (S position, if index b bit then set position true result else result))
         (0, zeros (getNumberOfSetBits filter))).

(** The second branch of [operator%]: walk over the set bits of the vector
    itself. *)
Definition modBySelf (b filter : BitVector) : BitVector :=
  forEachSetBit (fun _ => bucketVector b) (bitCount b)
    (fun bit result =>
       if index filter bit then set (getNumberOfSetBitsBeforeIndex filter bit) true result
       else result)
    (zeros (getNumberOfSetBits filter)).

(** [BitVector::operator%]. *)
Definition modulo (b filter : BitVector) : BitVector :=
  if getNumberOfSetBits filter / 10 <? getNumberOfSetBits b
  then modByFilter b filter
  else modBySelf b filter.

(** *** What the storage is expected to look like *)

(** Bit [i] of a bucket vector: bit [i mod 64] of bucket [i / 64]. *)
Definition bitIn (data : list Z) (i : nat) : bool :=
  bitOf (bucketAt data (i / 64)) (i mod 64).

(** The mask that [getNextSetIndex] starts with keeps the bits from
    [currentBitInByte] on. *)
Definition scanMask (c : nat) : Z := if c =? 0 then allOnes else sub (shl 1 (64 - c)) 1.

(** The number of set bits before [i]. *)
Definition rank (data : list Z) (i : nat) : nat :=
  length (filter (bitIn data) (seq 0 i)).

(** The buckets cover exactly the length, and each holds a 64-bit value. *)
Definition stored (b : BitVector) : Prop :=
  length (bucketVector b) = bucketCountFor (bitCount b) /\
  Forall wordOK (bucketVector b).

(** The invariant of the class: the bits of the last bucket at positions from
    [bitCount] on are zero. *)
Definition truncated (b : BitVector) : Prop :=
  forall i, bitCount b <= i < 64 * length (bucketVector b) -> index b i = false.

Definition wf (b : BitVector) : Prop := stored b /\ truncated b.

(** The same as a test, for vectors that are written out. *)
Definition wordOKb (w : Z) : bool := ((0 <=? w) && (w <? modulus))%Z.

Definition wfb (b : BitVector) : bool :=
  (length (bucketVector b) =? bucketCountFor (bitCount b))
  && forallb wordOKb (bucketVector b)
  && forallb (fun i => negb (index b i))
             (seq (bitCount b) (64 * length (bucketVector b) - bitCount b)).

(** The indices of the set bits, in increasing order. *)
Definition setBits (b : BitVector) : list nat := filter (index b) (seq 0 (bitCount b)).

(** Two vectors of 70 bits, over two buckets. *)
Definition exampleVector : BitVector :=
  fold_left (fun b i => set i true b) [0; 3; 64; 69] (zeros 70).

Definition exampleFilter : BitVector :=
  fold_left (fun b i => set i true b) [1; 3; 5; 64; 68; 69] (zeros 70).

End BitVector.


(** ** BitVector.cpp, the remaining operations *)

Module BitVectorOps.
Import Word64 BitVector.

(** [x >> n] on 64 bits, with the shift count taken as in [shl]. *)
Definition shr (x : Z) (n : nat) : Z := Z.shiftr x (Z.of_nat (n mod 64)).

(** [x >> c] for a count that is itself a 64-bit value. *)
Definition shrBy (x c : Z) : Z := Z.shiftr x (c mod 64).

(** [BitVector::operator!=]. *)
Definition neqb (b other : BitVector) : bool := negb (eqb b other).

(** The loop of [operator<], over the indices of the buckets of the left
    operand that are still to be compared. *)
Fixpoint lessLoop (indices : list nat) (l1 l2 : list Z) : bool :=
  match indices with
  | [] => false
  | i :: rest =>
      if (bucketAt l1 i <? bucketAt l2 i)%Z then true
      else if (bucketAt l2 i <? bucketAt l1 i)%Z then false
      else lessLoop rest l1 l2
  end.

(** [BitVector::operator<]. *)
Definition ltb (b other : BitVector) : bool :=
  if bitCount b <? bitCount other then true
  else if bitCount other <? bitCount b then false
  else lessLoop (seq 0 (length (bucketVector b))) (bucketVector b) (bucketVector other).

(** [BitVector::set(begin, end)]: [set] of every element of the range.
    The default [true] of the second argument of [set] is declared in
    BitVector.h, which is not among the sources. *)
Definition setAll (indices : list nat) (b : BitVector) : BitVector :=
  fold_left (fun b i => set i true b) indices b.

(** [BitVector::BitVector(length, begin, end)]. *)
Definition fromIndices (length : nat) (indices : list nat) : BitVector :=
  setAll indices (zeros length).

(** [BitVector::isSubsetOf], which asserts that the lengths agree. *)
Definition isSubsetOf (b other : BitVector) : bool :=
  forallb (fun i => (Z.land (bucketAt (bucketVector b) i) (bucketAt (bucketVector other) i)
                     =? bucketAt (bucketVector b) i)%Z)
          (seq 0 (length (bucketVector b))).

(** [BitVector::isDisjointFrom], which asserts that the lengths agree. *)
Definition isDisjointFrom (b other : BitVector) : bool :=
  forallb (fun i => (Z.land (bucketAt (bucketVector b) i) (bucketAt (bucketVector other) i)
                     =? 0)%Z)
          (seq 0 (length (bucketVector b))).

(** [BitVector::matches(bitIndex, other)], which asserts that [bitIndex] is
    a multiple of 64 and that [other] fits: the buckets of [other] against
    the buckets from [bitIndex >> 6] on. *)
Definition matches (bitIndex : nat) (other b : BitVector) : bool :=
  let index := Nat.shiftr bitIndex 6 in
  forallb (fun j => (bucketAt (bucketVector b) (index + j) =? bucketAt (bucketVector other) j)%Z)
          (seq 0 (length (bucketVector other))).

(** [BitVector::set(bitIndex, other)], with the same assertions: the buckets
    of [other] are copied over the buckets from [bitIndex >> 6] on. *)
Definition setVector (bitIndex : nat) (other b : BitVector) : BitVector :=
  let index := Nat.shiftr bitIndex 6 in
  mkBitVector (bitCount b)
    (fold_left (fun l j => updateAt (fun _ => bucketAt (bucketVector other) j) (index + j) l)
       (seq 0 (length (bucketVector other))) (bucketVector b)).

(** [BitVector::get(bitIndex, numberOfBits)]: the private constructor
    [BitVector(bucketCount, bitCount)] makes [numberOfBits >> 6] buckets
    for a length of [numberOfBits], and the buckets from [bitIndex >> 6] on
    are copied into them.  The function asserts that these buckets
    exist. *)
Definition getVector (bitIndex numberOfBits : nat) (b : BitVector) : BitVector :=
  let numberOfBuckets := Nat.shiftr numberOfBits 6 in
  let index := Nat.shiftr bitIndex 6 in
  mkBitVector numberOfBits
    (map (fun j => bucketAt (bucketVector b) (index + j)) (seq 0 numberOfBuckets)).

(** [BitVector::getAsInt(bitIndex, numberOfBits)]. *)
Definition getAsInt (bitIndex numberOfBits : nat) (b : BitVector) : Z :=
  let bucket := Nat.shiftr bitIndex 6 in
  let bitIndexInBucket := Nat.land bitIndex mod64mask in
  let mask := if bitIndexInBucket =? 0 then allOnes
              else sub (shl 1 (64 - bitIndexInBucket)) 1 in
  if bitIndexInBucket + numberOfBits <? 64 then
    let mask' := Z.land mask (not (sub (shl 1 (64 - (bitIndexInBucket + numberOfBits))) 1)) in
    shr (Z.land (bucketAt (bucketVector b) bucket) mask')
        (64 - (bitIndexInBucket + numberOfBits))
  else if 64 <? bitIndexInBucket + numberOfBits then
    let result := Z.land (bucketAt (bucketVector b) bucket) mask in
    let bucket' := S bucket in
    let numberOfBits' := numberOfBits - (64 - bitIndexInBucket) in
    let result' := shl result numberOfBits' in
    let mask' := not (sub (shl 1 (64 - numberOfBits')) 1) in
    let lowerBits := Z.land (bucketAt (bucketVector b) bucket') mask' in
    Z.lor result' (shr lowerBits (64 - numberOfBits'))
  else Z.land (bucketAt (bucketVector b) bucket) mask.

(** [BitVector::setFromInt(bitIndex, numberOfBits, value)], which asserts
    that the value fits into the bits.  In the branch that crosses into the
    next bucket, the shift count [numberOfBits + (bitIndexInBucket - 64)] is
    computed on unsigned integers, where the wrap of the difference is
    undone by the sum. *)
Definition setFromInt (bitIndex numberOfBits : nat) (value : Z) (b : BitVector) : BitVector :=
  let bucket := Nat.shiftr bitIndex 6 in
  let bitIndexInBucket := Nat.land bitIndex mod64mask in
  let mask := if bitIndexInBucket =? 0 then allOnes
              else sub (shl 1 (64 - bitIndexInBucket)) 1 in
  if bitIndexInBucket + numberOfBits <? 64 then
    let mask' := Z.land mask (not (sub (shl 1 (64 - (bitIndexInBucket + numberOfBits))) 1)) in
    mkBitVector (bitCount b)
      (updateAt (fun w => Z.lor (Z.land w (not mask'))
                            (shl value (64 - (bitIndexInBucket + numberOfBits))))
         bucket (bucketVector b))
  else if 64 <? bitIndexInBucket + numberOfBits then
    let l1 :=
      updateAt (fun w => Z.lor (Z.land w (not mask))
                           (shr value (numberOfBits + bitIndexInBucket - 64)))
        bucket (bucketVector b) in
    let bucket' := S bucket in
    let numberOfBits' := numberOfBits - (64 - bitIndexInBucket) in
    let value' := shl value (64 - numberOfBits') in
    let mask' := sub (shl 1 (64 - numberOfBits')) 1 in
    mkBitVector (bitCount b)
      (updateAt (fun w => Z.lor (Z.land w mask') value') bucket' l1)
  else
    mkBitVector (bitCount b)
      (updateAt (fun w => Z.lor (Z.land w (not mask)) value) bucket (bucketVector b)).

(** [BitVector::empty]. *)
Definition empty (b : BitVector) : bool :=
  forallb (fun element => (element =? 0)%Z) (bucketVector b).

(** [BitVector::clear]. *)
Definition clear (b : BitVector) : BitVector :=
  mkBitVector (bitCount b) (map (fun _ => 0%Z) (bucketVector b)).

(** [BitVector::size]. *)
Definition size (b : BitVector) : nat := bitCount b.

(** [NonZeroBitVectorHash::operator()], on the 64 bits of [std::size_t]. *)
Definition nonZeroBitVectorHash (bv : BitVector) : Z :=
  let result :=
    fold_left
      (fun result index =>
         let result1 := Z.lxor result (shl result 3) in
         Z.lxor result1 (shrBy result1 (getAsInt (Nat.shiftl index 6) 5 bv)))
      (seq 0 (length (bucketVector bv))) 0%Z in
  wrap (Z.land result (not 1) + 1).

(** Bit [p] of an integer, counted from the least significant bit. *)
Definition lowBit (w : Z) (p : nat) : bool := Z.testbit w (Z.of_nat p).

(** Bit [position] of a value of [width] bits, counted from its most
    significant bit, the order in which [getAsInt] and [setFromInt] lay the
    value out. *)
Definition valueBit (width : nat) (value : Z) (position : nat) : bool :=
  lowBit value (width - 1 - position).

(** A vector of 130 bits over three buckets. *)
Definition wideVector : BitVector :=
  fold_left (fun b i => set i true b) [1; 62; 63; 64; 66; 127; 129] (zeros 130).

End BitVectorOps.

(** ** MarkovAutomaton.cpp *)

Module MarkovAutomaton.
Import BitVector.

(** Modelled from the spec: the class [SparseMatrix] is not among the
    sources.  A matrix with row groups is the list of its groups, one per
    state, each the list of the rows (choices) of that state; a row is the
    list of its (column, value) entries.  The accessors below are the ones
    MarkovAutomaton.cpp calls. *)
Definition Row : Type := list (nat * Q).

Record SparseMatrix : Type := mkSparseMatrix
  { rowGroups : list (list Row) }.

(** [getRowGroupCount]: the number of states. *)
Definition getRowGroupCount (M : SparseMatrix) : nat := length (rowGroups M).

(** [getRowGroupSize(state)]: the number of choices of the state. *)
Definition getRowGroupSize (M : SparseMatrix) (state : nat) : nat :=
  length (nth state (rowGroups M) []).

(** [getRowGroupIndices()[state]]: the index of the first row of the state
    among all rows. *)
Definition getRowGroupIndex (M : SparseMatrix) (state : nat) : nat :=
  list_sum (map (@length Row) (firstn state (rowGroups M))).

(** [getRowCount]: the number of choices of the model. *)
Definition getRowCount (M : SparseMatrix) : nat :=
  list_sum (map (@length Row) (rowGroups M)).

(** [getRow(row)], by the index of the row among all rows. *)
Definition getRow (M : SparseMatrix) (row : nat) : Row :=
  nth row (concat (rowGroups M)) [].

(** [getRowSum(row)]. *)
Definition getRowSum (M : SparseMatrix) (row : nat) : Q :=
  fold_left (fun acc (e : nat * Q) => Qred (acc + snd e)) (getRow M row) 0%Q.

(** The parts of a Markov automaton that MarkovAutomaton.cpp works on; the
    labelling and the reward models are carried along untouched by every
    function modelled here and are left out. *)
Record MarkovAutomaton : Type := mkMarkovAutomaton
  { transitionMatrix : SparseMatrix;
    markovianStates : BitVector;
    exitRates : list Q;
    closed : bool }.

Definition getNumberOfStates (m : MarkovAutomaton) : nat :=
  getRowGroupCount (transitionMatrix m).

Definition getNumberOfChoices (m : MarkovAutomaton) : nat :=
  getRowCount (transitionMatrix m).

(** [MarkovAutomaton::isClosed]. *)
Definition isClosed (m : MarkovAutomaton) : bool := closed m.

(** [MarkovAutomaton::isMarkovianState]. *)
Definition isMarkovianState (m : MarkovAutomaton) (state : nat) : bool :=
  get (markovianStates m) state.

(** [MarkovAutomaton::isProbabilisticState]. *)
Definition isProbabilisticState (m : MarkovAutomaton) (state : nat) : bool :=
  negb (get (markovianStates m) state).

(** [MarkovAutomaton::isHybridState]. *)
Definition isHybridState (m : MarkovAutomaton) (state : nat) : bool :=
  isMarkovianState m state && (1 <? getRowGroupSize (transitionMatrix m) state).

(** [MarkovAutomaton::checkIsClosed].  The loop state is [Some v] once the
    function has returned [v] from inside the loop. *)
Definition checkIsClosed (m : MarkovAutomaton) : bool :=
  match forEachSetBit (fun _ => bucketVector (markovianStates m))
          (bitCount (markovianStates m))
          (fun state (returned : option bool) =>
             match returned with
             | Some v => Some v
             | None => if 1 <? getRowGroupSize (transitionMatrix m) state
                       then Some false else None
             end)
          None with
  | Some v => v
  | None => true
  end.

(** [exitRates[state] = value]. *)
Fixpoint assign (state : nat) (value : Q) (l : list Q) : list Q :=
  match l, state with
  | [], _ => []
  | _ :: r, O => value :: r
  | x :: r, S j => x :: assign j value r
  end.

(** What the loop of [close] changes: the kept choices, the Markovian states
    and the exit rates. *)
Record CloseState : Type := mkCloseState
  { keptChoices : BitVector;
    markovian : BitVector;
    rates : list Q }.

(** The body of the loop of [close]. *)
Definition closeStep (M : SparseMatrix) (state : nat) (st : CloseState) : CloseState :=
  if 1 <? getRowGroupSize M state then
    mkCloseState
      (set (getRowGroupIndex M state) false (keptChoices st))
      (set state false (markovian st))
      (assign state 0%Q (rates st))
  else st.

Section Close.

(** [storm::transformer::buildSubsystem(model, states, choices,
    keepUnreachableStates)], followed by the cast of the result to a Markov
    automaton.  The transformer is not among the sources; [close] is stated
    over any function in its place, and the theorems say what they need of
    it. *)
Variable buildSubsystem : MarkovAutomaton -> BitVector -> BitVector -> bool -> MarkovAutomaton.

(** [MarkovAutomaton::close].  The loop runs over the set bits of
    [markovianStates] while its body clears bits of that same vector; the
    iterator reads the buckets as they are when it moves on.  [None] stands
    for a call of [full] or of a constructor that has no defined result. *)
Definition close (m : MarkovAutomaton) : option MarkovAutomaton :=
  if negb (closed m) then
    match make (getNumberOfChoices m) true with
    | None => None
    | Some allChoices =>
        let st :=
          forEachSetBit (fun st => bucketVector (markovian st))
            (bitCount (markovianStates m))
            (closeStep (transitionMatrix m))
            (mkCloseState allChoices (markovianStates m) (exitRates m)) in
        let m1 := mkMarkovAutomaton (transitionMatrix m) (markovian st) (rates st) (closed m) in
        match full (keptChoices st) with
        | None => None
        | Some isFull =>
            if negb isFull then
              match make (getNumberOfStates m1) true with
              | None => None
              | Some allStates =>
                  let m2 := buildSubsystem m1 allStates (keptChoices st) false in
                  Some (mkMarkovAutomaton (transitionMatrix m2) (markovianStates m2)
                          (exitRates m2) true)
              end
            else
              Some (mkMarkovAutomaton (transitionMatrix m1) (markovianStates m1)
                      (exitRates m1) true)
        end
    end
  else Some m.

End Close.

(** *** What is expected of an automaton and of the subsystem builder *)

(** An automaton as the constructors leave it: one Markovian bit per state,
    at least one choice in every state, and [closed] set to what
    [checkIsClosed] returned. *)
Definition wellFormed (m : MarkovAutomaton) : Prop :=
  wf (markovianStates m) /\
  bitCount (markovianStates m) = getNumberOfStates m /\
  (forall state, state < getNumberOfStates m -> 1 <= getRowGroupSize (transitionMatrix m) state) /\
  closed m = checkIsClosed m.

(** The number of choices of a state that a choice selection keeps. *)
Definition keptInGroup (M : SparseMatrix) (choices : BitVector) (state : nat) : nat :=
  length (filter (index choices)
            (seq (getRowGroupIndex M state) (getRowGroupSize M state))).

(** A subsystem builder gives an automaton with one Markovian bit per state,
    each of whose states stems from a state of the given automaton, with
    the Markovian bit of that state and with those of its choices that are
    selected. *)
Definition subsystemContract
  (build : MarkovAutomaton -> BitVector -> BitVector -> bool -> MarkovAutomaton) : Prop :=
  forall m states choices keepUnreachableStates,
    wf (markovianStates m) -> bitCount (markovianStates m) = getNumberOfStates m ->
    let m' := build m states choices keepUnreachableStates in
    wf (markovianStates m') /\
    bitCount (markovianStates m') = getNumberOfStates m' /\
    forall state', state' < getNumberOfStates m' ->
      exists state, state < getNumberOfStates m /\
        isMarkovianState m' state' = isMarkovianState m state /\
        getRowGroupSize (transitionMatrix m') state' =
          keptInGroup (transitionMatrix m) choices state.

(** A builder that keeps every state and, of each state, the selected
    choices.  It is what [buildSubsystem] does on a model whose states are
    all reachable. *)
Definition keepChoices (m : MarkovAutomaton) (states choices : BitVector)
  (keepUnreachableStates : bool) : MarkovAutomaton :=
  let M := transitionMatrix m in
  let M' := mkSparseMatrix
              (map (fun state =>
                      map (fun row => getRow M row)
                        (filter (index choices)
                           (seq (getRowGroupIndex M state) (getRowGroupSize M state))))
                   (seq 0 (getRowGroupCount M))) in
  let m' := mkMarkovAutomaton M' (markovianStates m) (exitRates m) false in
  mkMarkovAutomaton M' (markovianStates m) (exitRates m) (checkIsClosed m').

(** An automaton with a hybrid state: state 0 is Markovian and has a second,
    probabilistic choice; state 1 is probabilistic. *)
Definition hybridExample : MarkovAutomaton :=
  mkMarkovAutomaton
    (mkSparseMatrix [ [ [(1, 1%Q)]; [(0, 1%Q)] ]; [ [(1, 1%Q)] ] ])
    (set 0 true (zeros 2))
    [1%Q; 0%Q]
    false.

(** *** The constructors *)

(** The one exception that MarkovAutomaton.cpp throws. *)
Inductive Exception : Type := InvalidArgumentException.

(** The sum that [getRowSum] forms, of a row at hand. *)
Definition rowSumOf (row : Row) : Q :=
  fold_left (fun acc (e : nat * Q) => Qred (acc + snd e)) row 0%Q.

(** Modelled from the spec: [ConstantsComparator] is not among the sources;
    for an exact value type [isZero] and [isOne] compare with the
    constants. *)
Definition isZero (v : Q) : bool := Qeq_bool v 0.
Definition isOne (v : Q) : bool := Qeq_bool v 1.

(** The rows of the matrix in one sequence, as the row indices count them,
    and the way back to row groups of the given sizes. *)
Definition allRows (M : SparseMatrix) : list Row := concat (rowGroups M).

Fixpoint regroup (sizes : list nat) (rows : list Row) : list (list Row) :=
  match sizes with
  | [] => []
  | size :: sizes' => firstn size rows :: regroup sizes' (skipn size rows)
  end.

(** [getRow(row)] written to. *)
Fixpoint setRowAt (row : nat) (r : Row) (rows : list Row) : list Row :=
  match rows, row with
  | [], _ => []
  | _ :: rest, O => r :: rest
  | x :: rest, S j => x :: setRowAt j r rest
  end.

(** The last loop of the body of [turnRatesToProbabilities]: the rows from
    [row] up to the first row of the next state must each sum to one. *)
Definition checkProbabilisticRows (rows : list Row) (row next : nat) : bool :=
  forallb (fun r => isOne (rowSumOf (nth r rows []))) (seq row (next - row)).

(** The body of the loop of [turnRatesToProbabilities], on the rows and the
    exit rates as they are; [inl] is the exception thrown. *)
Definition ratesStep (M : SparseMatrix) (markovianStates : BitVector) (assertRates : bool)
  (state : nat) (st : list Row * list Q) : Exception + (list Row * list Q) :=
  let (rows, rates) := st in
  let row := getRowGroupIndex M state in
  let next := getRowGroupIndex M (S state) in
  if get markovianStates state then
    let sum := rowSumOf (nth row rows []) in
    if assertRates && negb (Qeq_bool (nth state rates 0%Q) sum)
    then inl InvalidArgumentException
    else
      let rates' := if assertRates then rates else rates ++ [sum] in
      let rate := nth state rates' 0%Q in
      let rows' :=
        setRowAt row (map (fun e : nat * Q => (fst e, Qred (snd e / rate))) (nth row rows []))
          rows in
      if checkProbabilisticRows rows' (S row) next
      then inr (rows', rates')
      else inl InvalidArgumentException
  else
    if assertRates && negb (isZero (nth state rates 0%Q))
    then inl InvalidArgumentException
    else
      let rates' := if assertRates then rates else rates ++ [0%Q] in
      if checkProbabilisticRows rows row next
      then inr (rows, rates')
      else inl InvalidArgumentException.

(** The loop over the states; once an exception is thrown nothing more is
    done. *)
Definition ratesLoop (M : SparseMatrix) (markovianStates : BitVector) (assertRates : bool)
  (states : list nat) (st : Exception + (list Row * list Q))
  : Exception + (list Row * list Q) :=
  fold_left (fun acc state =>
               match acc with
               | inl e => inl e
               | inr st => ratesStep M markovianStates assertRates state st
               end) states st.

(** [MarkovAutomaton::turnRatesToProbabilities]. *)
Definition turnRatesToProbabilities (m : MarkovAutomaton) : Exception + MarkovAutomaton :=
  let M := transitionMatrix m in
  let assertRates := length (exitRates m) =? getNumberOfStates m in
  if negb assertRates && negb (length (exitRates m) =? 0)
  then inl InvalidArgumentException
  else
    match ratesLoop M (markovianStates m) assertRates (seq 0 (getNumberOfStates m))
            (inr (allRows M, exitRates m)) with
    | inl e => inl e
    | inr (rows, rates) =>
        inr (mkMarkovAutomaton
               (mkSparseMatrix (regroup (map (@length Row) (rowGroups M)) rows))
               (markovianStates m) rates (closed m))
    end.

(** Modelled from the spec: the class [ModelComponents] is not among the
    sources; these are the components that the constructors read. *)
Record ModelComponents : Type := mkModelComponents
  { componentsTransitionMatrix : SparseMatrix;
    componentsMarkovianStates : BitVector;
    componentsExitRates : option (list Q);
    rateTransitions : bool }.

(** [MarkovAutomaton::MarkovAutomaton(ModelComponents)].  The constructor of
    the base class, which is not among the sources, is taken to store the
    components. *)
Definition fromComponents (components : ModelComponents) : Exception + MarkovAutomaton :=
  let m0 := mkMarkovAutomaton (componentsTransitionMatrix components)
              (componentsMarkovianStates components)
              (match componentsExitRates components with Some r => r | None => [] end)
              false in
  match (if rateTransitions components then turnRatesToProbabilities m0 else inr m0) with
  | inl e => inl e
  | inr m1 =>
      inr (mkMarkovAutomaton (transitionMatrix m1) (markovianStates m1) (exitRates m1)
             (checkIsClosed m1))
  end.

(** [MarkovAutomaton::MarkovAutomaton(transitionMatrix, stateLabeling,
    markovianStates, rewardModels)]: the components with [rateTransitions]
    set and no exit rates. *)
Definition fromMatrix (transitionMatrix : SparseMatrix) (markovianStates : BitVector)
  : Exception + MarkovAutomaton :=
  fromComponents (mkModelComponents transitionMatrix markovianStates None true).

(** The choice [k] of a state is probabilistic when the state is not
    Markovian or the choice is not its first. *)
Definition probabilisticChoice (markovianStates : BitVector) (state k : nat) : bool :=
  negb (get markovianStates state) || (1 <=? k).

(** The row of the choice [k] of a state. *)
Definition choiceRow (M : SparseMatrix) (state k : nat) : Row :=
  nth k (nth state (rowGroups M) []) [].

(** A rate matrix with a probabilistic choice of sum one half: state 0 is
    Markovian with exit rate 3, state 1 is probabilistic. *)
Definition lossyRates : SparseMatrix :=
  mkSparseMatrix [ [ [(1, 3%Q)] ]; [ [(0, (1 # 2)%Q)] ] ].

(** An automaton given by rates. *)
Definition soundRates : SparseMatrix :=
  mkSparseMatrix [ [ [(0, 1%Q); (1, 3%Q)] ]; [ [(0, (1 # 2)%Q); (1, (1 # 2)%Q)] ] ].

End MarkovAutomaton.

(** ** MarkovAutomaton.cpp, the remaining queries *)

Module MarkovAutomatonOps.
Import BitVector MarkovAutomaton.

(** [MarkovAutomaton::getExitRate]. *)
Definition getExitRate (m : MarkovAutomaton) (state : nat) : Q := nth state (exitRates m) 0%Q.

(** [MarkovAutomaton::isConvertibleToCtmc]: [isClosed() &&
    markovianStates.full()], where [&&] calls [full] only on a closed
    automaton. *)
Definition isConvertibleToCtmc (m : MarkovAutomaton) : option bool :=
  if isClosed m then full (markovianStates m) else Some false.

(** [MarkovAutomaton::hasOnlyTrivialNondeterminism]: the loop returns false
    at the first state with more than one choice.  The assertions are
    compiled out of release builds. *)
Definition hasOnlyTrivialNondeterminism (m : MarkovAutomaton) : bool :=
  forallb (fun state =>
             let numberChoices :=
               getRowGroupIndex (transitionMatrix m) (S state)
               - getRowGroupIndex (transitionMatrix m) state in
             negb (1 <? numberChoices))
          (seq 0 (getNumberOfStates m)).

(** The row of rates of a Markovian state, turned into probabilities by the
    exit rate. *)
Definition normalised (rate : Q) (row : Row) : Row :=
  map (fun e : nat * Q => (fst e, Qred (snd e / rate)%Q)) row.

(** The automaton that the matrix [soundRates] of rates gives, with state 0
    Markovian. *)
Definition soundComponents : ModelComponents :=
  mkModelComponents soundRates (set 0 true (zeros 2)) None true.

End MarkovAutomatonOps.

(** ** The PRISM module, from the second part of BitVector.cpp *)

(** The source file carries, after the bit vector, the implementation of
    [storm::prism::Module].  The classes of the variables, the commands and
    the expressions are not among the sources: a [Language] names what a
    module asks of them, and the module is written over any such language.
    The base class [LocatedInformation], which holds a file name and a line
    number, is not among the sources either and is left out. *)

Module Prism.
Import String List ListNotations.

Inductive Exception : Type :=
| InvalidArgumentException
| InvalidAccessException
| OutOfRangeException.

(** What a call gives: a value, an exception, or a read of a vector outside
    of its bounds, which has no defined result. *)
Inductive Result (A : Type) : Type :=
| Returned (a : A)
| Thrown (e : Exception)
| Undefined.

Arguments Thrown {A} e.
Arguments Undefined {A}.

Class Language : Type := mkLanguage
  { BooleanVariable : Type;
    IntegerVariable : Type;
    ClockVariable : Type;
    Command : Type;
    Expression : Type;
    (** [BooleanVariable::getName], [IntegerVariable::getName] and
        [ClockVariable::getName]. *)
    booleanName : BooleanVariable -> string;
    integerName : IntegerVariable -> string;
    clockName : ClockVariable -> string;
    (** [Command::isLabeled], [Command::getActionIndex],
        [Command::getGlobalIndex]. *)
    isLabeled : Command -> bool;
    getActionIndex : Command -> nat;
    getGlobalIndex : Command -> nat }.

(** *** Maps and sets of the standard library *)

Section Maps.
Variables K V : Type.
Variable sameKey : K -> K -> bool.

(** [std::map::find], with [None] for [end()]. *)
Fixpoint mapFind (key : K) (m : list (K * V)) : option V :=
  match m with
  | [] => None
  | (k, v) :: rest => if sameKey k key then Some v else mapFind key rest
  end.

(** [m[key] = value]: the value of an existing key is replaced, a new key is
    added. *)
Fixpoint mapAssign (key : K) (value : V) (m : list (K * V)) : list (K * V) :=
  match m with
  | [] => [(key, value)]
  | (k, v) :: rest =>
      if sameKey k key then (k, value) :: rest else (k, v) :: mapAssign key value rest
  end.

End Maps.

(** [std::set<uint_fast64_t>::insert]: the elements are kept in increasing
    order, which is the order in which a loop over the set sees them, and an
    element that is there is not added again. *)
Fixpoint setInsert (x : nat) (s : list nat) : list nat :=
  match s with
  | [] => [x]
  | y :: rest =>
      if x <? y then x :: s else if x =? y then s else y :: setInsert x rest
  end.

(** [FlatSet::find(x) != end()]. *)
Definition contains (x : nat) (s : list nat) : bool := existsb (Nat.eqb x) s.

(** The elements of a vector with their indices, as a loop
    [for (i = 0; i < v.size(); ++i)] over [v[i]] sees them. *)
Definition indexed (A : Type) (v : list A) : list (nat * A) :=
  combine (seq 0 (length v)) v.

(** *** The module *)

Record PrismModule {L : Language} : Type := mkModule
  { moduleName : string;
    booleanVariables : list BooleanVariable;
    booleanVariableToIndexMap : list (string * nat);
    integerVariables : list IntegerVariable;
    integerVariableToIndexMap : list (string * nat);
    clockVariables : list ClockVariable;
    clockVariableToIndexMap : list (string * nat);
    invariant : Expression;
    commands : list Command;
    synchronizingActionIndices : list nat;
    actionIndicesToCommandIndexMap : list (nat * list nat);
    renamedFromModule : string;
    renaming : list (string * string) }.

Arguments mkModule {L}.

Section Module.
Context {L : Language}.

(** The body of the loop of [createMappings] over the commands, for the
    command with index [i]. *)
Definition commandStep (st : list (nat * list nat) * list nat) (entry : nat * Command)
  : list (nat * list nat) * list nat :=
  let (actionMap, synchronizing) := st in
  let (i, command) := entry in
  if isLabeled command then
    let actionIndex := getActionIndex command in
    let actionMap1 :=
      match mapFind Nat.eqb actionIndex actionMap with
      | None => mapAssign Nat.eqb actionIndex [] actionMap
      | Some _ => actionMap
      end in
    let indices :=
      match mapFind Nat.eqb actionIndex actionMap1 with
      | Some s => s
      | None => []
      end in
    let actionMap2 := mapAssign Nat.eqb actionIndex (setInsert i indices) actionMap1 in
    (actionMap2,
     if negb (actionIndex =? 0) then setInsert actionIndex synchronizing else synchronizing)
  else st.

(** The last loop of [createMappings], over the synchronizing action
    indices. *)
Definition addMissing (actionMap : list (nat * list nat)) (actionIndex : nat)
  : list (nat * list nat) :=
  match mapFind Nat.eqb actionIndex actionMap with
  | None => mapAssign Nat.eqb actionIndex [] actionMap
  | Some _ => actionMap
  end.

(** [Module::createMappings].  It clears the map of the actions and the maps
    of the boolean and of the integer variables, and nothing else; the
    names of the clock variables are written into the map of the boolean
    variables. *)
Definition createMappings (m : PrismModule) : PrismModule :=
  let booleanMap :=
    fold_left (fun map e => mapAssign String.eqb (booleanName (snd e)) (fst e) map)
      (indexed (booleanVariables m)) [] in
  let integerMap :=
    fold_left (fun map e => mapAssign String.eqb (integerName (snd e)) (fst e) map)
      (indexed (integerVariables m)) [] in
  let booleanMap' :=
    fold_left (fun map e => mapAssign String.eqb (clockName (snd e)) (fst e) map)
      (indexed (clockVariables m)) booleanMap in
  let st := fold_left commandStep (indexed (commands m)) ([], synchronizingActionIndices m) in
  let actionMap := fold_left addMissing (snd st) (fst st) in
  mkModule (moduleName m)
    (booleanVariables m) booleanMap'
    (integerVariables m) integerMap
    (clockVariables m) (clockVariableToIndexMap m)
    (invariant m) (commands m)
    (snd st) actionMap
    (renamedFromModule m) (renaming m).

(** [Module::Module], the constructor with [renamedFromModule] and
    [renaming]. *)
Definition newRenamedModule (moduleName : string)
  (booleanVariables : list BooleanVariable) (integerVariables : list IntegerVariable)
  (clockVariables : list ClockVariable) (invariant : Expression) (commands : list Command)
  (renamedFromModule : string) (renaming : list (string * string)) : PrismModule :=
  createMappings
    (mkModule moduleName booleanVariables [] integerVariables [] clockVariables []
       invariant commands [] [] renamedFromModule renaming).

(** [Module::Module], the constructor without them. *)
Definition newModule (moduleName : string)
  (booleanVariables : list BooleanVariable) (integerVariables : list IntegerVariable)
  (clockVariables : list ClockVariable) (invariant : Expression) (commands : list Command)
  : PrismModule :=
  newRenamedModule moduleName booleanVariables integerVariables clockVariables invariant
    commands EmptyString [].

(** [v[i]] for an index that a map gave. *)
Definition at_ (A : Type) (v : list A) (i : nat) : Result A :=
  match nth_error v i with
  | Some a => Returned a
  | None => Undefined
  end.

Definition getNumberOfBooleanVariables (m : PrismModule) : nat := length (booleanVariables m).
Definition getNumberOfIntegerVariables (m : PrismModule) : nat := length (integerVariables m).
Definition getNumberOfClockVariables (m : PrismModule) : nat := length (clockVariables m).
Definition getNumberOfCommands (m : PrismModule) : nat := length (commands m).

(** [Module::getBooleanVariable]. *)
Definition getBooleanVariable (variableName : string) (m : PrismModule)
  : Result BooleanVariable :=
  match mapFind String.eqb variableName (booleanVariableToIndexMap m) with
  | None => Thrown InvalidArgumentException
  | Some i => at_ (booleanVariables m) i
  end.

(** [Module::getIntegerVariable]. *)
Definition getIntegerVariable (variableName : string) (m : PrismModule)
  : Result IntegerVariable :=
  match mapFind String.eqb variableName (integerVariableToIndexMap m) with
  | None => Thrown InvalidArgumentException
  | Some i => at_ (integerVariables m) i
  end.

(** [Module::getClockVariable]. *)
Definition getClockVariable (variableName : string) (m : PrismModule)
  : Result ClockVariable :=
  match mapFind String.eqb variableName (clockVariableToIndexMap m) with
  | None => Thrown InvalidArgumentException
  | Some i => at_ (clockVariables m) i
  end.

(** [Module::getCommand]. *)
Definition getCommand (index : nat) (m : PrismModule) : Result Command :=
  at_ (commands m) index.

(** [Module::hasActionIndex]. *)
Definition hasActionIndex (actionIndex : nat) (m : PrismModule) : bool :=
  match mapFind Nat.eqb actionIndex (actionIndicesToCommandIndexMap m) with
  | Some _ => true
  | None => false
  end.

(** [Module::isRenamedFromModule]. *)
Definition isRenamedFromModule (m : PrismModule) : bool :=
  negb (String.eqb (renamedFromModule m) EmptyString).

(** [Module::getBaseModule]. *)
Definition getBaseModule (m : PrismModule) : Result string :=
  if isRenamedFromModule m then Returned (renamedFromModule m)
  else Thrown InvalidAccessException.

(** [Module::getRenaming]. *)
Definition getRenaming (m : PrismModule) : Result (list (string * string)) :=
  if isRenamedFromModule m then Returned (renaming m)
  else Thrown InvalidAccessException.

(** [Module::getCommandIndicesByActionIndex]. *)
Definition getCommandIndicesByActionIndex (actionIndex : nat) (m : PrismModule)
  : Result (list nat) :=
  match mapFind Nat.eqb actionIndex (actionIndicesToCommandIndexMap m) with
  | Some s => Returned s
  | None => Thrown OutOfRangeException
  end.

(** [Module::restrictCommands]. *)
Definition restrictCommands (indexSet : list nat) (m : PrismModule) : PrismModule :=
  let newCommands :=
    filter (fun command => contains (getGlobalIndex command) indexSet) (commands m) in
  newModule (moduleName m) (booleanVariables m) (integerVariables m) (clockVariables m)
    (invariant m) newCommands.

(** [Module::restrictActionIndices]. *)
Definition restrictActionIndices (actionIndices : list nat) (m : PrismModule) : PrismModule :=
  let newCommands :=
    filter (fun command => contains (getActionIndex command) actionIndices) (commands m) in
  newModule (moduleName m) (booleanVariables m) (integerVariables m) (clockVariables m)
    (invariant m) newCommands.

(** The command with index [i] is labeled with the action. *)
Definition labeledAt (commands : list Command) (actionIndex i : nat) : Prop :=
  exists command, nth_error commands i = Some command /\
                  isLabeled command = true /\ getActionIndex command = actionIndex.

End Module.

(** A language for examples: a variable is its name, a command is the triple
    of its label flag, its action index and its global index. *)
Definition exampleLanguage : Language :=
  @mkLanguage string string string (bool * nat * nat) unit
    (fun name => name) (fun name => name) (fun name => name)
    (fun command => fst (fst command)) (fun command => snd (fst command))
    (fun command => snd command).

(** A module with two boolean variables, an integer variable, a clock, and
    four commands, of which the second is not labeled. *)
Definition exampleModule : @PrismModule exampleLanguage :=
  @newModule exampleLanguage "station"
    ["busy"%string; "done"%string] ["queue"%string] ["timer"%string] tt
    [(true, 1, 10); (false, 0, 11); (true, 2, 12); (true, 1, 13)].

End Prism.

(** ** The state elimination engine *)

(** The files of the engine (the flexible matrix, the state eliminator and
    the elimination model checker) are not among the sources; this module
    follows sections 3 and 4 of the specification.  The value type is the
    exact one: a weight is a rational number, kept as a fraction, and
    [simplify] cancels the common factor of numerator and denominator.
    Floating-point weights are not modelled. *)

Module StateElimination.
Local Open Scope Q_scope.

(** Modelled from the spec: the simplify operation of section 4.2, which the
    engine's files would define; for exact rational weights it is algebraic
    simplification by factor cancellation. *)
Definition simplify (value : Q) : Q := Qred value.

(** Modelled from the spec: a row of the flexible transition matrix of
    sections 3 and 4.1, an ordered sequence of (target, weight) pairs. *)
Definition FlexibleRow : Type := list (nat * Q).

(** Modelled from the spec: the flexible transition matrix, an ordered
    sequence of rows. *)
Definition FlexibleSparseMatrix : Type := list FlexibleRow.

(** Modelled from the spec: [getRow(state)] of section 4.1. *)
Definition getRow (M : FlexibleSparseMatrix) (state : nat) : FlexibleRow := nth state M [].

(** Modelled from the spec: writing a row back through the mutable
    [getRow(state)] of section 4.1. *)
Fixpoint setRow (state : nat) (row : FlexibleRow) (M : FlexibleSparseMatrix)
  : FlexibleSparseMatrix :=
  match M, state with
  | [], _ => []
  | _ :: rest, O => row :: rest
  | r :: rest, S j => r :: setRow j row rest
  end.

(** Modelled from the spec: [hasSelfLoop(state)] of section 4.1. *)
Definition hasSelfLoop (M : FlexibleSparseMatrix) (state : nat) : bool :=
  existsb (fun entry => (fst entry =? state)%nat) (getRow M state).

(** Modelled from the spec: the scan of a row for the entry with a given
    target (steps 1 and 3 of section 4.2). *)
Fixpoint findEntry (column : nat) (row : FlexibleRow) : option Q :=
  match row with
  | [] => None
  | (c, w) :: rest => if (c =? column)%nat then Some w else findEntry column rest
  end.

(** Modelled from the spec: the removal of the entry found by the scan
    (step 1 of section 4.2). *)
Fixpoint eraseEntry (column : nat) (row : FlexibleRow) : FlexibleRow :=
  match row with
  | [] => []
  | (c, w) :: rest => if (c =? column)%nat then rest else (c, w) :: eraseEntry column rest
  end.

(** Modelled from the spec: step 2 of section 4.2, the scaling of every
    other outgoing entry of the state. *)
Definition scaleOthers (column : nat) (factor : Q) (row : FlexibleRow) : FlexibleRow :=
  map (fun entry => if (fst entry =? column)%nat then entry
                    else (fst entry, simplify (snd entry * factor))) row.

(** Modelled from the spec: the one-step probability vector of section 3, read
    and written by state. *)
Definition valueAt (values : list Q) (state : nat) : Q := nth state values 0.

(** Modelled from the spec: the assignment to one entry of the one-step
    probability vector. *)
Fixpoint setValue (state : nat) (value : Q) (values : list Q) : list Q :=
  match values, state with
  | [], _ => []
  | _ :: rest, O => value :: rest
  | v :: rest, S j => v :: setValue j value rest
  end.

(** Modelled from the spec: the merge of step 3 of section 4.2 (and of
    section 4.1): a linear merge of the predecessor's row with the row of the
    eliminated state, which adds [m * w] on a shared target, takes [m * w]
    for a target of the eliminated state alone, and drops the eliminated
    state as a target. *)
Fixpoint mergeRows (state : nat) (m : Q) (row1 : FlexibleRow) : FlexibleRow -> FlexibleRow :=
  fix mergeWith (row2 : FlexibleRow) : FlexibleRow :=
    match row1, row2 with
    | [], [] => []
    | (c1, w1) :: rest1, [] =>
        if (c1 =? state)%nat then mergeRows state m rest1 []
        else (c1, w1) :: mergeRows state m rest1 []
    | [], (c2, w2) :: rest2 =>
        if (c2 =? state)%nat then mergeWith rest2
        else (c2, simplify (m * w2)) :: mergeWith rest2
    | (c1, w1) :: rest1, (c2, w2) :: rest2 =>
        if (c1 =? state)%nat then mergeRows state m rest1 row2
        else if (c2 =? state)%nat then mergeWith rest2
        else if (c1 <? c2)%nat then (c1, w1) :: mergeRows state m rest1 row2
        else if (c2 <? c1)%nat then (c2, simplify (m * w2)) :: mergeWith rest2
        else (c1, simplify (w1 + simplify (m * w2))) :: mergeRows state m rest1 rest2
    end.

(** Modelled from the spec: the merge of predecessor lists of step 4 of
    section 4.2, a sorted-set union. *)
Fixpoint unionRows (row1 : FlexibleRow) : FlexibleRow -> FlexibleRow :=
  fix unionWith (row2 : FlexibleRow) : FlexibleRow :=
    match row1, row2 with
    | [], _ => row2
    | _, [] => row1
    | (c1, w1) :: rest1, (c2, w2) :: rest2 =>
        if (c1 <? c2)%nat then (c1, w1) :: unionRows rest1 row2
        else if (c2 <? c1)%nat then (c2, w2) :: unionWith rest2
        else (c1, w1) :: unionRows rest1 rest2
    end.

(** Modelled from the spec: what one elimination works on (section 3): the
    forward matrix, the backward matrix with the same edges transposed, and
    the one-step probability vector.  The engine is modelled in probability
    mode; the reward vector is left out. *)
Record Elimination : Type := mkElimination
  { matrix : FlexibleSparseMatrix;
    backward : FlexibleSparseMatrix;
    oneStepProbabilities : list Q }.

(** Modelled from the spec: steps 1 and 2 of section 4.2.  The result is the
    row of the state after the self-loop has been dealt with and the
    one-step vector; [None] is the fatal assertion for a self-loop of
    probability one.  A weight is a probability, so the test [L > 0] of the
    specification is [L <> 0]. *)
Definition eliminateLoop (state : nat) (removeForwardTransitions : bool)
  (row : FlexibleRow) (values : list Q) : option (FlexibleRow * list Q) :=
  let loop := findEntry state row in
  let row1 := if removeForwardTransitions then row else eraseEntry state row in
  match loop with
  | None => Some (row1, values)
  | Some L =>
      if Qeq_bool L 0 then Some (row1, values)
      else if Qeq_bool L 1 then None
      else
        let factor := simplify (1 / (1 - L)) in
        Some (scaleOthers state factor row1,
              setValue state (simplify (valueAt values state * factor)) values)
  end.

(** Modelled from the spec: step 3 of section 4.2 for one predecessor;
    [None] is the fatal assertion for a missing transition into the
    eliminated state. *)
Definition eliminateInPredecessor (state : nat) (row : FlexibleRow)
  (predecessor : nat) (acc : FlexibleSparseMatrix * list Q)
  : option (FlexibleSparseMatrix * list Q) :=
  let '(M, values) := acc in
  match findEntry state (getRow M predecessor) with
  | None => None
  | Some m =>
      Some (setRow predecessor (mergeRows state m (getRow M predecessor) row) M,
            setValue predecessor
              (simplify (valueAt values predecessor + simplify (m * valueAt values state)))
              values)
  end.

(** Modelled from the spec: the loop of step 3 over the predecessors. *)
Fixpoint eliminateInPredecessors (state : nat) (row : FlexibleRow)
  (predecessors : list nat) (acc : FlexibleSparseMatrix * list Q)
  : option (FlexibleSparseMatrix * list Q) :=
  match predecessors with
  | [] => Some acc
  | p :: rest =>
      match eliminateInPredecessor state row p acc with
      | None => None
      | Some acc' => eliminateInPredecessors state row rest acc'
      end
  end.

(** Modelled from the spec: step 4 of section 4.2, the update of the
    predecessor lists of the successors. *)
Definition updateSuccessors (state : nat) (removeForwardTransitions : bool)
  (newPredecessors : FlexibleRow) (successors : list nat) (B : FlexibleSparseMatrix)
  : FlexibleSparseMatrix :=
  fold_left
    (fun B successor =>
       let own := getRow B successor in
       let own' := if removeForwardTransitions then eraseEntry state own else own in
       setRow successor (unionRows own' newPredecessors) B)
    successors B.

(** Modelled from the spec: the state elimination of section 4.2.  The
    optional [predecessorFilter] constrains the elimination; a predecessor
    outside the filter is skipped and kept as a predecessor. *)
Definition eliminateState (state : nat) (removeForwardTransitions : bool)
  (predecessorFilter : option (nat -> bool)) (E : Elimination) : option Elimination :=
  match eliminateLoop state removeForwardTransitions (getRow (matrix E) state)
          (oneStepProbabilities E) with
  | None => None
  | Some (row, values) =>
      let M1 := setRow state row (matrix E) in
      let allowed p := match predecessorFilter with Some f => f p | None => true end in
      let predecessors := getRow (backward E) state in
      let treated :=
        filter (fun entry => negb (fst entry =? state)%nat && allowed (fst entry)) predecessors in
      let skipped :=
        filter (fun entry => negb (fst entry =? state)%nat && negb (allowed (fst entry)))
               predecessors in
      match eliminateInPredecessors state row (map fst treated) (M1, values) with
      | None => None
      | Some (M2, values2) =>
          let successors :=
            map fst (filter (fun entry => negb (fst entry =? state)%nat) row) in
          let B1 := updateSuccessors state removeForwardTransitions treated successors
                      (backward E) in
          let M3 := if removeForwardTransitions then setRow state [] M2 else M2 in
          let B2 := setRow state skipped B1 in
          Some (mkElimination M3 B2 values2)
      end
  end.

(** Modelled from the spec: the flat elimination of step 6 of section 4.5,
    one state after the other in the given order. *)
Fixpoint eliminateStates (order : list nat) (E : Elimination) : option Elimination :=
  match order with
  | [] => Some E
  | state :: rest =>
      match eliminateState state true None E with
      | None => None
      | Some E' => eliminateStates rest E'
      end
  end.

(** Modelled from the spec: steps 6 to 8 of section 4.5 for a probability
    query with the flat method: eliminate the states in the given order,
    eliminate what is left of the transitions into the initial state, and
    return its one-step value, simplified.  The second component counts the
    calls of the state elimination, as an instrumentation would. *)
Definition computeReachabilityValue (order : list nat) (initialState : nat)
  (E : Elimination) : option (Q * nat) :=
  match eliminateStates order E with
  | None => None
  | Some E1 =>
      match getRow (backward E1) initialState with
      | [] => Some (simplify (valueAt (oneStepProbabilities E1) initialState), length order)
      | _ =>
          match eliminateState initialState false None E1 with
          | None => None
          | Some E2 =>
              Some (simplify (valueAt (oneStepProbabilities E2) initialState),
                    S (length order))
          end
      end
  end.

(** *** Elimination orders (section 4.3) *)

(** Modelled from the spec: the configuration value that selects the
    elimination order. *)
Inductive EliminationOrder : Type :=
  | Forward | ForwardReversed | Backward | BackwardReversed | Random.

(** Modelled from the spec: a stable sort of a state list by a key,
    ascending or descending; the ordering policies sort by distance and the
    engine sorts by priority. *)
Fixpoint insertBy (key : nat -> nat) (descending : bool) (state : nat) (sorted : list nat)
  : list nat :=
  match sorted with
  | [] => [state]
  | s :: rest =>
      if (if descending then key s <? key state else key state <? key s)%nat
      then state :: s :: rest
      else s :: insertBy key descending state rest
  end.

Definition sortBy (key : nat -> nat) (descending : bool) (states : list nat) : list nat :=
  fold_right (insertBy key descending) [] states.

(** Modelled from the spec: the position of a state in a sequence of states
    (its length when the state does not occur). *)
Fixpoint positionIn (state : nat) (sequence : list nat) : nat :=
  match sequence with
  | [] => O
  | s :: rest => if (s =? state)%nat then O else S (positionIn state rest)
  end.

Section Ordering.

(** Modelled from the spec: [getDistances(matrix, sourceSet)] of the graph
    utility collaborator (section 6), the breadth-first distance per
    state. *)
Variable getDistances : FlexibleSparseMatrix -> list nat -> list nat.

(** Modelled from the spec: the source of randomness of the [Random] policy,
    which turns the state sequence into the shuffled one. *)
Variable shuffle : list nat -> list nat.

(** Modelled from the spec: [computePriorities] of section 4.3.  The result
    gives every state its priority, the position of the state in the
    sequence that the policy puts the states in. *)
Definition computePriorities (order : EliminationOrder)
  (forwardMatrix backwardMatrix : FlexibleSparseMatrix) (initialStates : list nat)
  (oneStep : list Q) : list nat :=
  let n := length forwardMatrix in
  let states := seq 0 n in
  let pseudoTargets :=
    filter (fun state => negb (Qeq_bool (valueAt oneStep state) 0)) states in
  let forwardDistances := getDistances forwardMatrix initialStates in
  let backwardDistances := getDistances backwardMatrix pseudoTargets in
  let sequence :=
    match order with
    | Random => shuffle states
    | Forward => sortBy (fun s => nth s forwardDistances O) false states
    | ForwardReversed => sortBy (fun s => nth s forwardDistances O) true states
    | Backward => sortBy (fun s => nth s backwardDistances O) false states
    | BackwardReversed => sortBy (fun s => nth s backwardDistances O) true states
    end in
  map (fun state => positionIn state sequence) states.

(** Modelled from the spec: steps 5 to 8 of section 4.5 with the flat
    method: the states other than the initial one are eliminated in the
    order of their priority. *)
Definition computeUntilValue (order : EliminationOrder) (initialState : nat)
  (E : Elimination) : option (Q * nat) :=
  let priorities :=
    computePriorities order (matrix E) (backward E) [initialState]
      (oneStepProbabilities E) in
  let states :=
    filter (fun state => negb (state =? initialState)%nat) (seq 0 (length (matrix E))) in
  computeReachabilityValue (sortBy (fun s => nth s priorities O) false states)
    initialState E.

End Ordering.

(** *** Reachability probabilities *)

(** The value of a row under an assignment of values to the states: the sum
    of weight times value of the target. *)
Fixpoint rowValue (row : FlexibleRow) (x : nat -> Q) : Q :=
  match row with
  | [] => 0
  | (c, w) :: rest => w * x c + rowValue rest x
  end.

(** [x] satisfies the equations of reachability on the states in [live]: the
    value of a state is its one-step probability plus the value of its
    row. *)
Definition solves (live : nat -> Prop) (E : Elimination) (x : nat -> Q) : Prop :=
  forall i, live i ->
    x i == valueAt (oneStepProbabilities E) i + rowValue (getRow (matrix E) i) x.

(** The probabilities of eventually reaching the targets from the states in
    [live] are the least non-negative solution of these equations. *)
Definition reachabilityProbabilities (live : nat -> Prop) (E : Elimination)
  (x : nat -> Q) : Prop :=
  solves live E x /\
  (forall i, live i -> 0 <= x i) /\
  (forall y, solves live E y -> (forall i, live i -> 0 <= y i) ->
             forall i, live i -> x i <= y i).

(** The probability of eventually reaching the targets from [state] is
    [value]. *)
Definition reachabilityProbability (live : nat -> Prop) (E : Elimination)
  (state : nat) (value : Q) : Prop :=
  exists x, reachabilityProbabilities live E x /\ x state == value.

(** The weights and one-step values of the live states are probabilities in
    that they are not negative. *)
Definition nonnegative (live : nat -> Prop) (E : Elimination) : Prop :=
  forall i, live i ->
    0 <= valueAt (oneStepProbabilities E) i /\
    forall c w, In (c, w) (getRow (matrix E) i) -> 0 <= w.

(** The targets of a row. *)
Definition columns (row : FlexibleRow) : list nat := map fst row.

(** The row without the entries for a target. *)
Definition dropColumn (column : nat) (row : FlexibleRow) : FlexibleRow :=
  filter (fun entry => negb (fst entry =? column)%nat) row.

(** [row'] has the entries of [row] with every weight scaled by [factor]. *)
Definition scaledBy (factor : Q) (row row' : FlexibleRow) : Prop :=
  Forall2 (fun entry entry' => fst entry' = fst entry /\ snd entry' == snd entry * factor)
          row row'.

(** The invariant of the flexible matrix (section 3): a row is strictly
    increasing in the target. *)
Definition sortedRow (row : FlexibleRow) : Prop := StronglySorted lt (columns row).

(** The same as a test. *)
Fixpoint sortedRowb (row : FlexibleRow) : bool :=
  match row with
  | [] => true
  | (c, _) :: rest =>
      forallb (fun entry => (c <? fst entry)%nat) rest && sortedRowb rest
  end.

(** What an elimination over [n] states expects of its data on the states
    [live] that have not been eliminated: the three containers have one slot
    per state; the rows are sorted; a transition of a live state leads to a
    live state and is listed in the backward row of its target. *)
Record consistent (n : nat) (live : nat -> Prop) (E : Elimination) : Prop :=
  mkConsistent
  { c_matrix : length (matrix E) = n;
    c_backward : length (backward E) = n;
    c_values : length (oneStepProbabilities E) = n;
    c_live : forall i, live i -> (i < n)%nat;
    c_sorted : forall i, live i -> sortedRow (getRow (matrix E) i);
    c_targets : forall i c, live i -> In c (columns (getRow (matrix E) i)) -> live c;
    c_listed : forall i c, live i -> In c (columns (getRow (matrix E) i)) ->
                           In i (columns (getRow (backward E) c)) }.

(** The same as a test, for all states below [n] live. *)
Definition consistentb (n : nat) (E : Elimination) : bool :=
  (length (matrix E) =? n)%nat && (length (backward E) =? n)%nat
  && (length (oneStepProbabilities E) =? n)%nat
  && forallb (fun i =>
        sortedRowb (getRow (matrix E) i)
        && forallb (fun c => (c <? n)%nat
                             && existsb (fun p => (p =? i)%nat) (columns (getRow (backward E) c)))
                   (columns (getRow (matrix E) i)))
       (seq 0 n).

(** *** Examples *)

(** The chain of the self-loop test of section 8: state 0 (A) with a
    self-loop 1/2 and an edge 1/2 to state 1 (B); B has no transitions left
    in the subsystem and one-step probability 1; A has one-step probability
    0. *)
Definition selfLoopChain : Elimination :=
  mkElimination
    [ [(0%nat, 1#2); (1%nat, 1#2)]; [] ]
    [ [(0%nat, 1)]; [(0%nat, 1)] ]
    [ 0; 1 ].

(** A chain of three states: state 0, the initial state, moves to state 1 or
    to state 2; state 1 moves to state 2 or reaches the target; state 2
    moves back to state 0, or reaches the target, or is lost. *)
Definition smallChain : Elimination :=
  mkElimination
    [ [(1%nat, 1#2); (2%nat, 1#2)]; [(2%nat, 1#3)]; [(0%nat, 1#4)] ]
    [ [(2%nat, 1)]; [(0%nat, 1)]; [(0%nat, 1); (1%nat, 1)] ]
    [ 0; 2#3; 1#2 ].

(** Stand-ins for the two collaborators of the ordering policies: distances
    that count the states down, and a shuffle that reverses. *)
Definition exampleDistances (M : FlexibleSparseMatrix) (sources : list nat) : list nat :=
  rev (seq 0 (length M)).

Definition exampleShuffle (states : list nat) : list nat := rev states.

End StateElimination.

(** ** The orchestration of a query (sections 4.4 and 4.5 of the design) *)

Module Orchestration.
Import BitVector StateElimination.
Local Open Scope Q_scope.

(** Modelled from the spec: the configuration surface of section 6. *)
Inductive EliminationMethod : Type := State | Hybrid.

Record EliminationSettings : Type := mkEliminationSettings
  { eliminationMethod : EliminationMethod;
    eliminationOrder : EliminationOrder;
    maximalSccSize : nat;
    eliminateEntryStatesLast : bool }.

(** Modelled from the spec: what the engine reads of the model (section 6):
    the transition matrix, one row per state, and the initial states. *)
Record Dtmc : Type := mkDtmc
  { transitionMatrix : FlexibleSparseMatrix;
    initialStates : BitVector }.

(** *** The prepared subsystem (steps 3 and 4 of section 4.5) *)

(** Modelled from the spec: the sum of the outgoing transition weights of a
    row (section 8). *)
Definition rowSum (row : FlexibleRow) : Q :=
  fold_right (fun (entry : nat * Q) acc => snd entry + acc) 0 row.

(** Modelled from the spec: the entries of a row whose target is in a state
    set. *)
Definition restrictRow (states : BitVector) (row : FlexibleRow) : FlexibleRow :=
  filter (fun entry : nat * Q => get states (fst entry)) row.

(** Modelled from the spec: the induced submatrix of step 3.  The states of
    the set are numbered in increasing order; a row keeps the transitions
    into the set, under the new numbers. *)
Definition getSubmatrix (M : FlexibleSparseMatrix) (states : BitVector)
  : FlexibleSparseMatrix :=
  map (fun state =>
         map (fun entry : nat * Q =>
                (getNumberOfSetBitsBeforeIndex states (fst entry), snd entry))
             (restrictRow states (getRow M state)))
      (setBits states).

(** Modelled from the spec: the transpose of step 3, built with unit
    weights as section 4.1 has it for the backward matrix. *)
Definition transpose (M : FlexibleSparseMatrix) : FlexibleSparseMatrix :=
  map (fun column =>
         map (fun state => (state, 1))
             (filter (fun state => existsb (Nat.eqb column) (columns (getRow M state)))
                     (seq 0 (length M))))
      (seq 0 (length M)).

(** Modelled from the spec: the one-step probabilities of step 4, for every
    state of the set the weight of its transitions into the probability-1
    states. *)
Definition getOneStepProbabilities (M : FlexibleSparseMatrix) (states prob1 : BitVector)
  : list Q :=
  map (fun state => rowSum (restrictRow prob1 (getRow M state))) (setBits states).

(** Modelled from the spec: steps 3 and 4 together, the data that the
    elimination starts from. *)
Definition prepareSubsystem (M : FlexibleSparseMatrix) (maybeStates prob1 : BitVector)
  : Elimination :=
  let submatrix := getSubmatrix M maybeStates in
  mkElimination submatrix (transpose submatrix)
    (getOneStepProbabilities M maybeStates prob1).

(** The weight of the transitions of a row that lead neither into the
    subsystem nor into a probability-1 state. *)
Definition lostWeight (maybeStates prob1 : BitVector) (row : FlexibleRow) : Q :=
  rowSum (filter (fun entry : nat * Q =>
                    negb (get maybeStates (fst entry)) && negb (get prob1 (fst entry)))
                 row).

(** *** The hybrid driver (section 4.4) *)

(** Modelled from the spec: state subsets of the driver, as state lists;
    membership and the difference [scc \ entryStates]. *)
Definition member (state : nat) (states : list nat) : bool :=
  existsb (Nat.eqb state) states.

Definition without (states excluded : list nat) : list nat :=
  filter (fun state => negb (member state excluded)) states.

(** Modelled from the spec: a block of the decomposition is trivial when it
    is a single state. *)
Definition isTrivial (block : list nat) : bool := (length block <=? 1)%nat.

(** Modelled from the spec: the entry states of a block, its states with a
    predecessor outside the block. *)
Definition entryStatesOf (backwardMatrix : FlexibleSparseMatrix) (block : list nat)
  : list nat :=
  filter (fun state =>
            existsb (fun entry : nat * Q => negb (member (fst entry) block))
                    (getRow backwardMatrix state))
         block.

(** Modelled from the spec: what the driver works on and hands on: the
    matrices and values, the queue of entry
    states left to the caller, the maximal recursion depth reached and the
    number of calls of the state elimination. *)
Record DriverState : Type := mkDriverState
  { elimination : Elimination;
    entryStateQueue : list nat;
    maximalDepth : nat;
    eliminationCalls : nat }.

Section Driver.

(** Modelled from the spec: the SCC decomposition of a state subset
    (section 3), a collaborator of the driver. *)
Variable decompose : FlexibleSparseMatrix -> list nat -> list (list nat).

Variable forwardTransitions : FlexibleSparseMatrix.
Variable priority : nat -> nat.
Variable settings : EliminationSettings.

(** Modelled from the spec: the elimination of a state list in priority
    order. *)
Definition eliminateByPriority (states : list nat) (d : DriverState) : option DriverState :=
  match eliminateStates (sortBy priority false states) (elimination d) with
  | None => None
  | Some E' =>
      Some (mkDriverState E' (entryStateQueue d) (maximalDepth d)
              (eliminationCalls d + length states))
  end.

(** Modelled from the spec: what the driver does when it does not recurse: the states other than
    the entry states are eliminated, then the entry states are eliminated or
    queued. *)
Definition withoutRecursion (states entryStates : list nat) (flag : bool) (level : nat)
  (d : DriverState) : option DriverState :=
  match eliminateByPriority states
          (mkDriverState (elimination d) (entryStateQueue d)
             (Nat.max level (maximalDepth d)) (eliminationCalls d)) with
  | None => None
  | Some d2 =>
      if flag then eliminateByPriority entryStates d2
      else Some (mkDriverState (elimination d2) (entryStateQueue d2 ++ entryStates)
                   (maximalDepth d2) (eliminationCalls d2))
  end.

(** Modelled from the spec: the driver of section 4.4.  [fuel] bounds the
    depth of the recursion; [None] stands for a failed assertion of the
    elimination or for fuel used up. *)
Fixpoint treatScc (fuel : nat) (entryStates scc : list nat) (eliminateEntryStates : bool)
  (level : nat) (d : DriverState) : option DriverState :=
  match fuel with
  | O => None
  | S fuel' =>
      let handled :=
        if (maximalSccSize settings <? length scc)%nat then
          let blocks := decompose forwardTransitions (without scc entryStates) in
          let trivialStates := concat (filter isTrivial blocks) in
          let remaining := filter (fun block => negb (isTrivial block)) blocks in
          fold_left
            (fun acc block =>
               match acc with
               | None => None
               | Some d1 =>
                   treatScc fuel' (entryStatesOf (backward (elimination d1)) block) block
                     (eliminateEntryStates || negb (eliminateEntryStatesLast settings))
                     (S level) d1
               end)
            remaining
            (eliminateByPriority trivialStates
               (mkDriverState (elimination d) (entryStateQueue d)
                  (Nat.max level (maximalDepth d)) (eliminationCalls d)))
        else
          eliminateByPriority (without scc entryStates)
            (mkDriverState (elimination d) (entryStateQueue d)
               (Nat.max level (maximalDepth d)) (eliminationCalls d)) in
      match handled with
      | None => None
      | Some d2 =>
          if eliminateEntryStates
          then eliminateByPriority entryStates d2
          else Some (mkDriverState (elimination d2) (entryStateQueue d2 ++ entryStates)
                       (maximalDepth d2) (eliminationCalls d2))
      end
  end.

End Driver.

(** *** The until-probability procedure (section 4.5) *)

Section Until.

(** Modelled from the spec: the collaborators of section 6, the graph
    utilities and the SCC decomposition, and the source of randomness. *)
Variable performProb01 : Dtmc -> BitVector -> BitVector -> BitVector * BitVector.
Variable getReachableStates :
  FlexibleSparseMatrix -> BitVector -> BitVector -> BitVector -> BitVector.
Variable getDistances : FlexibleSparseMatrix -> list nat -> list nat.
Variable shuffle : list nat -> list nat.
Variable decompose : FlexibleSparseMatrix -> list nat -> list (list nat).

Variable settings : EliminationSettings.

(** Modelled from the spec: steps 2 to 4, the maybe states and the prepared
    subsystem; [inl] is the value of the short-circuit of step 2. *)
Definition prepareUntil (model : Dtmc) (phiStates psiStates : BitVector)
  : option (Q + (BitVector * Elimination)) :=
  let initialState := getNextSetIndex (initialStates model) 0 in
  let (prob0, prob1) := performProb01 model phiStates psiStates in
  match complemented (or prob0 prob1) with
  | None => None
  | Some maybeStates =>
      if negb (get maybeStates initialState)
      then Some (inl (if get prob0 initialState then 0 else 1))
      else
        let reachable :=
          getReachableStates (transitionMatrix model) (initialStates model) maybeStates
            (or prob0 prob1) in
        let maybeStates' := and maybeStates reachable in
        Some (inr (maybeStates',
                   prepareSubsystem (transitionMatrix model) maybeStates' prob1))
  end.

(** Modelled from the spec: steps 5 to 8 with the hybrid method: the driver
    on all states with the initial state as the entry state, the queued
    entry states, then what is left of the transitions into the initial
    state. *)
Definition computeHybridValue (initialState : nat) (E : Elimination) : option (Q * nat) :=
  let n := length (matrix E) in
  let priorities :=
    computePriorities getDistances shuffle (eliminationOrder settings) (matrix E)
      (backward E) [initialState] (oneStepProbabilities E) in
  let priority := fun state => nth state priorities O in
  match treatScc decompose (matrix E) priority settings (S n) [initialState] (seq 0 n)
          false 0 (mkDriverState E [] 0 0) with
  | None => None
  | Some d =>
      match eliminateByPriority priority (without (entryStateQueue d) [initialState]) d with
      | None => None
      | Some d' =>
          match computeReachabilityValue [] initialState (elimination d') with
          | None => None
          | Some (value, calls) => Some (value, (eliminationCalls d' + calls)%nat)
          end
      end
  end.

(** Modelled from the spec: the procedure for an until formula, steps 2 to
    8.  The result is the probability of the initial state and the number of
    calls of the state elimination; [None] stands for a fatal error, among
    them a model that does not have exactly one initial state. *)
Definition computeUntilProbabilities (model : Dtmc) (phiStates psiStates : BitVector)
  : option (Q * nat) :=
  if (getNumberOfSetBits (initialStates model) =? 1)%nat then
    let initialState := getNextSetIndex (initialStates model) 0 in
    match prepareUntil model phiStates psiStates with
    | None => None
    | Some (inl value) => Some (value, O)
    | Some (inr (maybeStates, E)) =>
        let initialState' := getNumberOfSetBitsBeforeIndex maybeStates initialState in
        match eliminationMethod settings with
        | State =>
            computeUntilValue getDistances shuffle (eliminationOrder settings)
              initialState' E
        | Hybrid => computeHybridValue initialState' E
        end
    end
  else None.

End Until.

(** *** Graph utilities for the examples *)

(** The state set of a predicate on the states below [n]. *)
Definition statesWhere (n : nat) (p : nat -> bool) : BitVector :=
  fold_left (fun b state => if p state then set state true b else b) (seq 0 n) (zeros n).

(** Whether a row has a transition of non-zero weight into a state set. *)
Definition leadsInto (row : FlexibleRow) (states : nat -> bool) : bool :=
  existsb (fun entry : nat * Q => negb (Qeq_bool (snd entry) 0) && states (fst entry)) row.

(** The states that reach [target] in at most [k] steps through states in
    [through]. *)
Fixpoint reaching (M : FlexibleSparseMatrix) (through target : nat -> bool) (k : nat)
  : nat -> bool :=
  match k with
  | O => target
  | S k' =>
      let reached := reaching M through target k' in
      fun state => reached state || (through state && leadsInto (getRow M state) reached)
  end.

(** Modelled from the spec: a [performProb01] (section 6), the
    probability-0 and probability-1 states of an until formula by the
    backward analysis of the graph. *)
Definition graphProb01 (model : Dtmc) (phiStates psiStates : BitVector)
  : BitVector * BitVector :=
  let M := transitionMatrix model in
  let n := length M in
  let through := fun state => get phiStates state && negb (get psiStates state) in
  let positive := reaching M through (get psiStates) n in
  let prob0 := fun state => negb (positive state) in
  let notOne := reaching M through prob0 n in
  (statesWhere n prob0, statesWhere n (fun state => negb (notOne state))).

(** Modelled from the spec: a stand-in for [getReachableStates] (section 6)
    on models whose states can all be reached from the initial state. *)
Definition allReachable (M : FlexibleSparseMatrix) (from within stopAt : BitVector)
  : BitVector := within.

(** The states that [state] reaches in at most [k] steps inside [subset]. *)
Fixpoint reachesWithin (M : FlexibleSparseMatrix) (subset : list nat) (k : nat)
  (state target : nat) : bool :=
  match k with
  | O => (state =? target)%nat
  | S k' =>
      (state =? target)%nat
      || existsb (fun entry : nat * Q =>
                    negb (Qeq_bool (snd entry) 0) && member (fst entry) subset
                    && reachesWithin M subset k' (fst entry) target)
                 (getRow M state)
  end.

(** Modelled from the spec: an SCC decomposition (section 3), the classes of
    mutual reachability inside the subset. *)
Definition mutualReachability (M : FlexibleSparseMatrix) (subset : list nat)
  : list (list nat) :=
  let n := length subset in
  fold_left
    (fun blocks state =>
       if existsb (member state) blocks then blocks
       else blocks ++ [filter (fun other => reachesWithin M subset n state other
                                            && reachesWithin M subset n other state)
                              subset])
    subset [].

(** *** Examples *)

(** A chain that loses weight: state 0, the initial state, reaches the
    target state 1 with probability 1/2 and the sink state 2 with
    probability 1/2. *)
Definition lossyChain : Dtmc :=
  mkDtmc [ [(1%nat, 1#2); (2%nat, 1#2)]; [(1%nat, 1)]; [(2%nat, 1)] ]
         (statesWhere 3 (fun state => (state =? 0)%nat)).

Definition allStates (n : nat) : BitVector := statesWhere n (fun _ => true).

Definition onlyState (n state : nat) : BitVector :=
  statesWhere n (fun other => (other =? state)%nat).

(** A chain whose initial state reaches the target state 1 for sure, by way
    of itself. *)
Definition sureChain : Dtmc :=
  mkDtmc [ [(0%nat, 1#2); (1%nat, 1#2)]; [(1%nat, 1)] ] (onlyState 2 0).

(** A chain whose initial state never reaches the target state 1. *)
Definition hopelessChain : Dtmc :=
  mkDtmc [ [(0%nat, 1)]; [(1%nat, 1)] ] (onlyState 2 0).

(** A cycle of two states that both reach the target with probability 1/2
    in one step. *)
Definition twoCycle : Elimination :=
  mkElimination
    [ [(1%nat, 1#2)]; [(0%nat, 1#2)] ]
    [ [(1%nat, 1)]; [(0%nat, 1)] ]
    [ 1#2; 1#2 ].

(** A cycle of three states. *)
Definition threeCycle : Elimination :=
  mkElimination
    [ [(1%nat, 1#2)]; [(2%nat, 1#2)]; [(0%nat, 1#2); (1%nat, 1#4)] ]
    [ [(2%nat, 1)]; [(0%nat, 1); (2%nat, 1)]; [(1%nat, 1)] ]
    [ 1#2; 1#2; 1#4 ].

Definition exampleSettings (method : EliminationMethod) (threshold : nat)
  : EliminationSettings :=
  mkEliminationSettings method Forward threshold false.

End Orchestration.

(** ** Parametric weights *)

Module RationalFunction.

(** Modelled from the spec: a parametric transition weight is a rational
    function over named parameters (section 3), a fraction of two
    polynomials.  The polynomials and their arithmetic belong to the
    computer algebra library that the checker is built on; what the
    simplification uses of them is the product, the greatest common divisor
    and the exact quotient. *)
Record GcdDomain : Type := mkGcdDomain
  { carrier : Type;
    zero : carrier;
    one : carrier;
    mul : carrier -> carrier -> carrier;
    gcd : carrier -> carrier -> carrier;
    quot : carrier -> carrier -> carrier }.

Definition divides (P : GcdDomain) (a b : carrier P) : Prop :=
  exists c, b = mul P c a.

(** The laws of the product, of a greatest common divisor that is
    normalised, so that it is [one] whenever it divides [one], and of the
    exact quotient. *)
Record GcdDomainLaws (P : GcdDomain) : Prop := mkGcdDomainLaws
  { mul_comm : forall a b, mul P a b = mul P b a;
    mul_assoc : forall a b c, mul P a (mul P b c) = mul P (mul P a b) c;
    mul_one : forall a, mul P (one P) a = a;
    mul_zero : forall a, mul P a (zero P) = zero P;
    mul_cancel : forall a b c, c <> zero P -> mul P a c = mul P b c -> a = b;
    gcd_left : forall a b, divides P (gcd P a b) a;
    gcd_right : forall a b, divides P (gcd P a b) b;
    gcd_greatest : forall a b c, divides P c a -> divides P c b -> divides P c (gcd P a b);
    gcd_normal : forall a b, divides P (gcd P a b) (one P) -> gcd P a b = one P;
    quot_exact : forall a b, b <> zero P -> divides P b a -> mul P (quot P a b) b = a }.

(** Modelled from the spec: a rational function, numerator and
    denominator. *)
Definition RationalFunction (P : GcdDomain) : Type := (carrier P * carrier P)%type.

(** Modelled from the spec: the simplify operation of section 4.2 on a
    rational function, the cancellation of the common factor of numerator
    and denominator. *)
Definition simplify (P : GcdDomain) (w : RationalFunction P) : RationalFunction P :=
  let g := gcd P (fst w) (snd w) in
  (quot P (fst w) g, quot P (snd w) g).

(** The integers, whose fractions are the rational numbers. *)
Definition integers : GcdDomain := mkGcdDomain 0%Z 1%Z Z.mul Z.gcd Z.div.

End RationalFunction.
(** ** Bits of a 64-bit word *)

Module Word64Facts.
Import Word64.
Local Open Scope Z_scope.

Lemma modulus_pos : 0 < modulus.
Proof. reflexivity. Qed.

Lemma wrap_ok z : wordOK (wrap z).
Proof. unfold wordOK, wrap. apply Z.mod_pos_bound. apply modulus_pos. Qed.

Lemma wrap_small w : wordOK w -> wrap w = w.
Proof. intros H. apply Z.mod_small. exact H. Qed.

Lemma allOnes_ok : wordOK allOnes.
Proof. unfold wordOK, allOnes, modulus. lia. Qed.

Lemma zero_ok : wordOK 0.
Proof. unfold wordOK, modulus. lia. Qed.

Lemma not_ok w : wordOK (not w).
Proof. apply wrap_ok. Qed.

Lemma shl_ok x n : wordOK (shl x n).
Proof. apply wrap_ok. Qed.

Lemma sub_ok x y : wordOK (sub x y).
Proof. apply wrap_ok. Qed.

Lemma testbit_high w i : wordOK w -> 64 <= i -> Z.testbit w i = false.
Proof.
  intros Hw Hi. rewrite <- (wrap_small Hw). unfold wrap, modulus.
  apply Z.mod_pow2_bits_high. lia.
Qed.

(** A non-negative integer without bits from 64 on fits a bucket. *)
Lemma ok_of_bits w :
  0 <= w -> (forall i, 64 <= i -> Z.testbit w i = false) -> wordOK w.
Proof.
  intros H0 H. split; [exact H0|].
  destruct (Z.eq_dec w 0) as [E|E]; [rewrite E; apply modulus_pos|].
  apply Z.log2_lt_pow2; [lia|].
  destruct (Z_lt_le_dec (Z.log2 w) 64) as [L|L]; [exact L|].
  assert (B : Z.testbit w (Z.log2 w) = true) by (apply Z.bit_log2; lia).
  rewrite (H _ L) in B. discriminate.
Qed.

Lemma land_ok x y : wordOK x -> wordOK y -> wordOK (Z.land x y).
Proof.
  intros Hx Hy. apply ok_of_bits.
  - apply Z.land_nonneg. left. apply Hx.
  - intros i Hi. rewrite Z.land_spec, (testbit_high Hx Hi). reflexivity.
Qed.

Lemma lor_ok x y : wordOK x -> wordOK y -> wordOK (Z.lor x y).
Proof.
  intros Hx Hy. apply ok_of_bits.
  - apply Z.lor_nonneg. split; [apply Hx|apply Hy].
  - intros i Hi. rewrite Z.lor_spec, (testbit_high Hx Hi), (testbit_high Hy Hi). reflexivity.
Qed.

Lemma lxor_ok x y : wordOK x -> wordOK y -> wordOK (Z.lxor x y).
Proof.
  intros Hx Hy. apply ok_of_bits.
  - apply Z.lxor_nonneg. unfold wordOK in *. lia.
  - intros i Hi. rewrite Z.lxor_spec, (testbit_high Hx Hi), (testbit_high Hy Hi). reflexivity.
Qed.

(** Two buckets with the same 64 bits are the same bucket. *)
Lemma word_ext w1 w2 :
  wordOK w1 -> wordOK w2 ->
  (forall k, (k < 64)%nat -> bitOf w1 k = bitOf w2 k) -> w1 = w2.
Proof.
  intros H1 H2 H. apply Z.bits_inj'. intros n Hn.
  destruct (Z_lt_le_dec n 64) as [L|L].
  - specialize (H (63 - Z.to_nat n)%nat). unfold bitOf in H.
    replace (Z.of_nat (63 - (63 - Z.to_nat n))) with n in H by lia.
    apply H. lia.
  - rewrite (testbit_high H1 L), (testbit_high H2 L). reflexivity.
Qed.

Lemma bitOf_land x y k : bitOf (Z.land x y) k = bitOf x k && bitOf y k.
Proof. unfold bitOf. apply Z.land_spec. Qed.

Lemma bitOf_lor x y k : bitOf (Z.lor x y) k = bitOf x k || bitOf y k.
Proof. unfold bitOf. apply Z.lor_spec. Qed.

Lemma bitOf_lxor x y k : bitOf (Z.lxor x y) k = xorb (bitOf x k) (bitOf y k).
Proof. unfold bitOf. apply Z.lxor_spec. Qed.

Lemma bitOf_not x k : (k < 64)%nat -> bitOf (not x) k = negb (bitOf x k).
Proof.
  intros Hk. unfold bitOf, not, wrap, modulus.
  rewrite Z.mod_pow2_bits_low by lia. apply Z.lnot_spec. lia.
Qed.

Lemma bitOf_zero k : bitOf 0 k = false.
Proof. unfold bitOf. apply Z.bits_0. Qed.

Lemma bitOf_allOnes k : (k < 64)%nat -> bitOf allOnes k = true.
Proof.
  intros Hk. unfold bitOf, allOnes, modulus.
  change (2 ^ 64 - 1) with (Z.ones 64). apply Z.ones_spec_low. lia.
Qed.

(** The masks are tabulated: 64 shift counts, 64 bits each. *)
Lemma bitOf_bit k p :
  (k < 64)%nat -> (p < 64)%nat -> bitOf (shl 1 (63 - k)) p = (p =? k)%nat.
Proof.
  intros Hk Hp.
  assert (T : forallb (fun k => forallb (fun p => Bool.eqb (bitOf (shl 1 (63 - k)) p) (p =? k)%nat)
                                  (seq 0 64)) (seq 0 64) = true)
    by (vm_compute; reflexivity).
  rewrite forallb_forall in T. specialize (T k). rewrite in_seq in T.
  specialize (T (conj (Nat.le_0_l _) Hk)). rewrite forallb_forall in T.
  specialize (T p). rewrite in_seq in T. apply Bool.eqb_prop. apply T. lia.
Qed.

Lemma bitOf_topMask k p :
  (0 < k < 64)%nat -> (p < 64)%nat -> bitOf (topMask k) p = (p <? k)%nat.
Proof.
  intros Hk Hp.
  assert (T : forallb (fun k => forallb (fun p => Bool.eqb (bitOf (topMask k) p) (p <? k)%nat)
                                  (seq 0 64)) (seq 1 63) = true)
    by (vm_compute; reflexivity).
  rewrite forallb_forall in T. specialize (T k). rewrite in_seq in T.
  assert (Hk' : (1 <= k < 1 + 63)%nat) by lia.
  specialize (T Hk'). rewrite forallb_forall in T.
  specialize (T p). rewrite in_seq in T. apply Bool.eqb_prop. apply T. lia.
Qed.

(** For a length that is a multiple of 64 the mask of [full] is built with a
    shift by 64 and comes out as the full bucket. *)
Lemma topMask_0 : topMask 0 = allOnes.
Proof. vm_compute. reflexivity. Qed.

Lemma lowMask_0 : lowMask 0 = 0.
Proof. vm_compute. reflexivity. Qed.

Lemma bitOf_lowMask k p :
  (0 < k < 64)%nat -> (p < 64)%nat -> bitOf (lowMask k) p = (k <=? p)%nat.
Proof.
  intros Hk Hp.
  assert (T : forallb (fun k => forallb (fun p => Bool.eqb (bitOf (lowMask k) p) (k <=? p)%nat)
                                  (seq 0 64)) (seq 1 63) = true)
    by (vm_compute; reflexivity).
  rewrite forallb_forall in T. specialize (T k). rewrite in_seq in T.
  assert (Hk' : (1 <= k < 1 + 63)%nat) by lia.
  specialize (T Hk'). rewrite forallb_forall in T.
  specialize (T p). rewrite in_seq in T. apply Bool.eqb_prop. apply T. lia.
Qed.

(** Testing a bucket against a one-bit mask reads that bit. *)
Lemma test_bit w k :
  (k < 64)%nat ->
  (Z.land w (shl 1 (63 - k)) =? shl 1 (63 - k)) = bitOf w k.
Proof.
  intros Hk. unfold shl, wrap, modulus.
  rewrite Nat.mod_small by lia. rewrite Z.shiftl_1_l.
  rewrite Z.mod_small.
  2:{ split; [apply Z.pow_nonneg; lia|]. apply Z.pow_lt_mono_r; lia. }
  unfold bitOf. set (n := Z.of_nat (63 - k)).
  assert (Hn : 0 <= n) by (unfold n; lia).
  destruct (Z.testbit w n) eqn:E.
  - apply Z.eqb_eq. apply Z.bits_inj'. intros m Hm.
    rewrite Z.land_spec. destruct (Z.eq_dec m n) as [->|Hne].
    + rewrite E, Z.pow2_bits_true by lia. reflexivity.
    + rewrite Z.pow2_bits_false by lia. apply andb_false_r.
  - apply Z.eqb_neq. intros C.
    assert (B : Z.testbit (Z.land w (2 ^ n)) n = true).
    { rewrite C. apply Z.pow2_bits_true. lia. }
    rewrite Z.land_spec, E in B. discriminate.
Qed.

Lemma test_bit_zero w k :
  (k < 64)%nat ->
  (Z.land w (shl 1 (63 - k)) =? 0) = negb (bitOf w k).
Proof.
  intros Hk. unfold shl, wrap, modulus.
  rewrite Nat.mod_small by lia. rewrite Z.shiftl_1_l.
  rewrite Z.mod_small.
  2:{ split; [apply Z.pow_nonneg; lia|]. apply Z.pow_lt_mono_r; lia. }
  unfold bitOf. set (n := Z.of_nat (63 - k)).
  assert (Hn : 0 <= n) by (unfold n; lia).
  destruct (Z.testbit w n) eqn:E; simpl.
  - apply Z.eqb_neq. intros C.
    assert (B : Z.testbit (Z.land w (2 ^ n)) n = false) by (rewrite C; apply Z.bits_0).
    rewrite Z.land_spec, E, Z.pow2_bits_true in B by lia. discriminate.
  - apply Z.eqb_eq. apply Z.bits_inj'. intros m Hm.
    rewrite Z.land_spec, Z.bits_0. destruct (Z.eq_dec m n) as [->|Hne].
    + rewrite E. reflexivity.
    + rewrite Z.pow2_bits_false by lia. apply andb_false_r.
Qed.

(** [popcount] counts the bits that [bitOf] reads. *)
Lemma popcount_bitOf w : popcount w = length (filter (bitOf w) (seq 0 64)).
Proof. reflexivity. Qed.

End Word64Facts.

(** ** Bit vectors: storage and single bits *)

Module BitVectorFacts.
Import Word64 Word64Facts BitVector.

Ltac divmod64 i :=
  pose proof (Nat.div_mod_eq i 64);
  pose proof (Nat.mod_upper_bound i 64 ltac:(discriminate)).

Lemma shiftr6 i : Nat.shiftr i 6 = i / 64.
Proof. rewrite Nat.shiftr_div_pow2. reflexivity. Qed.

Lemma land63 i : Nat.land i mod64mask = i mod 64.
Proof. unfold mod64mask. change 63 with (Nat.ones 6). rewrite Nat.land_ones. reflexivity. Qed.

Lemma shiftl6 i : Nat.shiftl i 6 = i * 64.
Proof. rewrite Nat.shiftl_mul_pow2. reflexivity. Qed.

Lemma bucketCountFor_eq n :
  bucketCountFor n = if n mod 64 =? 0 then n / 64 else S (n / 64).
Proof.
  unfold bucketCountFor. rewrite shiftr6, land63.
  destruct (n mod 64 =? 0); reflexivity.
Qed.

Lemma bucketCountFor_bounds n : n <= 64 * bucketCountFor n < n + 64.
Proof.
  rewrite bucketCountFor_eq. divmod64 n.
  destruct (n mod 64 =? 0) eqn:E.
  - apply Nat.eqb_eq in E. lia.
  - apply Nat.eqb_neq in E. lia.
Qed.

Lemma bucketCountFor_mul n : bucketCountFor (64 * n) = n.
Proof.
  rewrite bucketCountFor_eq. replace (64 * n) with (n * 64) by lia.
  rewrite Nat.Div0.mod_mul, Nat.div_mul by discriminate. reflexivity.
Qed.

(** *** Reading buckets *)

Lemma bucketAt_beyond l i : length l <= i -> bucketAt l i = 0%Z.
Proof. intros H. unfold bucketAt. apply nth_overflow. exact H. Qed.

Lemma bucketAt_ok l i : Forall wordOK l -> wordOK (bucketAt l i).
Proof.
  intros H. unfold bucketAt. destruct (Nat.lt_ge_cases i (length l)) as [L|L].
  - rewrite Forall_forall in H. apply H. apply nth_In. exact L.
  - rewrite nth_overflow by exact L. apply zero_ok.
Qed.

Lemma length_updateAt f i l : length (updateAt f i l) = length l.
Proof.
  revert i. induction l as [|x r IH]; intros [|j]; simpl; try reflexivity.
  rewrite IH. reflexivity.
Qed.

Lemma bucketAt_updateAt f i l j :
  bucketAt (updateAt f i l) j =
  if (j =? i) && (i <? length l) then f (bucketAt l j) else bucketAt l j.
Proof.
  unfold bucketAt. revert i j. induction l as [|x r IH]; intros i j.
  - destruct i, j; simpl; rewrite ?andb_false_r; reflexivity.
  - destruct i as [|i], j as [|j]; simpl; try reflexivity.
    rewrite IH. reflexivity.
Qed.

Lemma Forall_updateAt f i l :
  (forall w, wordOK w -> wordOK (f w)) -> Forall wordOK l -> Forall wordOK (updateAt f i l).
Proof.
  intros Hf. revert i. induction l as [|x r IH]; intros i H; simpl.
  - destruct i; constructor.
  - inversion H; subst. destruct i; constructor; auto.
Qed.

Lemma updateBack_some f l :
  l <> [] -> updateBack f l = Some (updateAt f (length l - 1) l).
Proof. destruct l; [congruence|reflexivity]. Qed.

Lemma list_ext_bucketAt l1 l2 :
  length l1 = length l2 ->
  (forall i, i < length l1 -> bucketAt l1 i = bucketAt l2 i) -> l1 = l2.
Proof.
  revert l2. induction l1 as [|x r IH]; intros [|y s] HL H; simpl in *; try discriminate.
  - reflexivity.
  - f_equal.
    + apply (H 0). lia.
    + apply IH; [lia|]. intros i Hi. apply (H (S i)). lia.
Qed.

(** *** Reading and writing one bit *)

(** [operator[]] reads bit [i mod 64] of bucket [i / 64]. *)
Lemma index_bitOf b i :
  index b i = bitOf (bucketAt (bucketVector b) (i / 64)) (i mod 64).
Proof.
  unfold index. rewrite shiftr6, land63. apply test_bit.
  apply Nat.mod_upper_bound. discriminate.
Qed.

Lemma index_beyond b i : 64 * length (bucketVector b) <= i -> index b i = false.
Proof.
  intros H. rewrite index_bitOf, bucketAt_beyond.
  - apply bitOf_zero.
  - divmod64 i. lia.
Qed.

Lemma bitCount_set i v b : bitCount (set i v b) = bitCount b.
Proof. unfold set. destruct v; reflexivity. Qed.

Lemma length_set i v b : length (bucketVector (set i v b)) = length (bucketVector b).
Proof. unfold set. destruct v; simpl; apply length_updateAt. Qed.

Lemma index_set i v b j :
  i < 64 * length (bucketVector b) ->
  index (set i v b) j = if j =? i then v else index b j.
Proof.
  intros Hi. rewrite !index_bitOf. unfold set. rewrite shiftr6, land63.
  divmod64 i. divmod64 j.
  assert (Hlt : (i / 64 <? length (bucketVector b)) = true) by (apply Nat.ltb_lt; lia).
  destruct v; cbn [bucketVector]; rewrite bucketAt_updateAt, Hlt, andb_true_r.
  - destruct (j / 64 =? i / 64) eqn:E.
    + apply Nat.eqb_eq in E. rewrite bitOf_lor, bitOf_bit by assumption.
      destruct (j mod 64 =? i mod 64) eqn:E2.
      * apply Nat.eqb_eq in E2. replace (j =? i) with true by (symmetry; apply Nat.eqb_eq; lia).
        apply orb_true_r.
      * apply Nat.eqb_neq in E2. replace (j =? i) with false by (symmetry; apply Nat.eqb_neq; lia).
        apply orb_false_r.
    + apply Nat.eqb_neq in E. replace (j =? i) with false; [reflexivity|].
      symmetry. apply Nat.eqb_neq. intros ->. congruence.
  - destruct (j / 64 =? i / 64) eqn:E.
    + apply Nat.eqb_eq in E. rewrite bitOf_land, bitOf_not, bitOf_bit by assumption.
      destruct (j mod 64 =? i mod 64) eqn:E2.
      * apply Nat.eqb_eq in E2. replace (j =? i) with true by (symmetry; apply Nat.eqb_eq; lia).
        apply andb_false_r.
      * apply Nat.eqb_neq in E2. replace (j =? i) with false by (symmetry; apply Nat.eqb_neq; lia).
        apply andb_true_r.
    + apply Nat.eqb_neq in E. replace (j =? i) with false; [reflexivity|].
      symmetry. apply Nat.eqb_neq. intros ->. congruence.
Qed.

Lemma stored_set i v b : stored b -> stored (set i v b).
Proof.
  intros [HL HW]. split.
  - rewrite length_set, bitCount_set. exact HL.
  - unfold set. destruct v; simpl; apply Forall_updateAt; try assumption; intros w Hw.
    + apply lor_ok; [assumption|apply shl_ok].
    + apply land_ok; [assumption|apply not_ok].
Qed.

Lemma stored_covers b : stored b -> bitCount b <= 64 * length (bucketVector b).
Proof. intros [HL _]. rewrite HL. apply bucketCountFor_bounds. Qed.

(** [set] keeps the invariant when the asserted [index < bitCount] holds. *)
Lemma wf_set i v b : wf b -> i < bitCount b -> wf (set i v b).
Proof.
  intros [HS HT] Hi. split; [apply stored_set; exact HS|].
  intros j Hj. rewrite bitCount_set, length_set in Hj.
  pose proof (stored_covers HS).
  rewrite index_set by lia.
  replace (j =? i) with false by (symmetry; apply Nat.eqb_neq; lia).
  apply HT. exact Hj.
Qed.

(** Two bit vectors with the same length, the same bits and the expected
    storage are the same object. *)
Lemma bitvector_ext b1 b2 :
  stored b1 -> stored b2 -> bitCount b1 = bitCount b2 ->
  (forall i, index b1 i = index b2 i) -> b1 = b2.
Proof.
  intros [L1 W1] [L2 W2] HC H.
  destruct b1 as [n1 l1], b2 as [n2 l2]. cbn [bitCount bucketVector] in *. subst n2. f_equal.
  apply list_ext_bucketAt; [congruence|].
  intros i Hi. apply word_ext; try (apply bucketAt_ok; assumption).
  intros k Hk. specialize (H (64 * i + k)). rewrite !index_bitOf in H.
  cbn [bucketVector] in H.
  assert (D : (64 * i + k) / 64 = i) by (symmetry; apply Nat.div_unique with k; lia).
  assert (M : (64 * i + k) mod 64 = k) by (symmetry; apply Nat.mod_unique with i; lia).
  rewrite D, M in H. exact H.
Qed.

Lemma wf_ext b1 b2 :
  wf b1 -> wf b2 -> bitCount b1 = bitCount b2 ->
  (forall i, i < bitCount b1 -> index b1 i = index b2 i) -> b1 = b2.
Proof.
  intros [S1 T1] [S2 T2] HC H. apply bitvector_ext; try assumption.
  intros i. destruct (Nat.lt_ge_cases i (bitCount b1)) as [L|L]; [apply H; exact L|].
  assert (E : length (bucketVector b1) = length (bucketVector b2)).
  { destruct S1 as [-> _], S2 as [-> _]. congruence. }
  destruct (Nat.lt_ge_cases i (64 * length (bucketVector b1))) as [L2|L2].
  - rewrite T1 by lia. rewrite T2 by lia. reflexivity.
  - rewrite !index_beyond by lia. reflexivity.
Qed.

(** *** [truncateLastBucket] *)

Lemma index_mk n l i :
  index (mkBitVector n l) i = bitOf (bucketAt l (i / 64)) (i mod 64).
Proof. apply index_bitOf. Qed.

(** On a vector whose buckets cover its length, [truncateLastBucket] finds a
    last bucket whenever it needs one, and clears exactly the bits from
    [bitCount] on. *)
Lemma truncateLastBucket_spec b :
  length (bucketVector b) = bucketCountFor (bitCount b) ->
  exists r, truncateLastBucket b = Some r /\ bitCount r = bitCount b /\
    length (bucketVector r) = length (bucketVector b) /\
    (Forall wordOK (bucketVector b) -> Forall wordOK (bucketVector r)) /\
    forall i, index r i = index b i && (i <? bitCount b).
Proof.
  intros HL. unfold truncateLastBucket. rewrite land63.
  rewrite bucketCountFor_eq in HL. divmod64 (bitCount b).
  destruct (bitCount b mod 64 =? 0) eqn:E; cbn [negb].
  - apply Nat.eqb_eq in E. exists b. repeat split; auto.
    intros i. destruct (i <? bitCount b) eqn:L; [rewrite andb_true_r; reflexivity|].
    apply Nat.ltb_ge in L. rewrite index_beyond by lia. reflexivity.
  - apply Nat.eqb_neq in E.
    rewrite updateBack_some by (intros C; rewrite C in HL; discriminate).
    eexists. split; [reflexivity|]. cbn [bitCount bucketVector].
    split; [reflexivity|]. split; [apply length_updateAt|]. split.
    + intros HW. apply Forall_updateAt; [|exact HW].
      intros w Hw. apply land_ok; [exact Hw|apply not_ok].
    + intros i. rewrite index_mk, bucketAt_updateAt, (index_bitOf b).
      divmod64 i.
      replace (length (bucketVector b) - 1 <? length (bucketVector b)) with true
        by (symmetry; apply Nat.ltb_lt; lia).
      rewrite andb_true_r.
      destruct (i / 64 =? length (bucketVector b) - 1) eqn:E2.
      * apply Nat.eqb_eq in E2.
        change (Word64.not (sub (shl 1 (64 - bitCount b mod 64)) 1))
          with (topMask (bitCount b mod 64)).
        rewrite bitOf_land, bitOf_topMask by lia. f_equal.
        destruct (i mod 64 <? bitCount b mod 64) eqn:L1; symmetry.
        -- apply Nat.ltb_lt in L1. apply Nat.ltb_lt. lia.
        -- apply Nat.ltb_ge in L1. apply Nat.ltb_ge. lia.
      * apply Nat.eqb_neq in E2.
        destruct (Nat.lt_ge_cases (i / 64) (length (bucketVector b))) as [L|L].
        -- replace (i <? bitCount b) with true by (symmetry; apply Nat.ltb_lt; lia).
           rewrite andb_true_r. reflexivity.
        -- rewrite bucketAt_beyond by exact L. rewrite bitOf_zero. reflexivity.
Qed.

(** What comes out of [truncateLastBucket] satisfies the invariant. *)
Lemma truncateLastBucket_wf b :
  stored b ->
  exists r, truncateLastBucket b = Some r /\ wf r /\ bitCount r = bitCount b /\
    forall i, index r i = index b i && (i <? bitCount b).
Proof.
  intros [HL HW]. destruct (truncateLastBucket_spec b HL) as (r & E & HC & HLr & HWr & HI).
  exists r. split; [exact E|]. split; [|split; assumption].
  split; [split|].
  - rewrite HLr, HC. exact HL.
  - auto.
  - intros i Hi. rewrite HI. rewrite HC in Hi.
    replace (i <? bitCount b) with false by (symmetry; apply Nat.ltb_ge; lia).
    apply andb_false_r.
Qed.

(** *** The bucket loops *)

Lemma length_bucketwise f n l1 l2 : length (bucketwise f n l1 l2) = n.
Proof. unfold bucketwise. rewrite length_map, length_seq. reflexivity. Qed.

Lemma bucketAt_bucketwise f n l1 l2 i :
  i < n -> bucketAt (bucketwise f n l1 l2) i = f (bucketAt l1 i) (bucketAt l2 i).
Proof.
  intros Hi. unfold bucketwise, bucketAt at 1.
  rewrite nth_indep with (d' := f (bucketAt l1 0) (bucketAt l2 0))
    by (rewrite length_map, length_seq; exact Hi).
  rewrite (map_nth (fun i => f (bucketAt l1 i) (bucketAt l2 i)) (seq 0 n) 0 i).
  rewrite seq_nth by exact Hi. reflexivity.
Qed.

Lemma Forall_bucketwise f n l1 l2 :
  (forall x y, wordOK x -> wordOK y -> wordOK (f x y)) ->
  Forall wordOK l1 -> Forall wordOK l2 -> Forall wordOK (bucketwise f n l1 l2).
Proof.
  intros Hf H1 H2. unfold bucketwise. apply Forall_forall. intros w Hw.
  apply in_map_iff in Hw. destruct Hw as (i & <- & _).
  apply Hf; apply bucketAt_ok; assumption.
Qed.

Lemma length_inplace f l1 l2 : length (inplace f l1 l2) = length l1.
Proof.
  revert l2. induction l1 as [|x r IH]; intros [|y s]; simpl; try reflexivity.
  rewrite IH. reflexivity.
Qed.

Lemma bucketAt_inplace f l1 l2 i :
  length l1 = length l2 -> i < length l1 ->
  bucketAt (inplace f l1 l2) i = f (bucketAt l1 i) (bucketAt l2 i).
Proof.
  unfold bucketAt. revert l2 i. induction l1 as [|x r IH]; intros [|y s] i HL Hi;
    simpl in *; try lia.
  destruct i as [|i]; [reflexivity|]. apply IH; lia.
Qed.

Lemma Forall_inplace f l1 l2 :
  (forall x y, wordOK x -> wordOK y -> wordOK (f x y)) ->
  Forall wordOK l1 -> Forall wordOK l2 -> Forall wordOK (inplace f l1 l2).
Proof.
  intros Hf. revert l2. induction l1 as [|x r IH]; intros [|y s] H1 H2; simpl; auto.
  inversion H1; inversion H2; subst. constructor; auto.
Qed.

(** The bits of a bucket-wise combination, for a bit operation [g] that maps
    two cleared bits to a cleared bit. *)
Lemma index_bucketwise f g b other i :
  (forall x y k, k < 64 -> bitOf (f x y) k = g (bitOf x k) (bitOf y k)) ->
  g false false = false ->
  stored b -> stored other -> bitCount b = bitCount other ->
  index (mkBitVector (bitCount b)
           (bucketwise f (bucketCountFor (bitCount b)) (bucketVector b) (bucketVector other))) i
  = g (index b i) (index other i).
Proof.
  intros Hf Hg [L1 _] [L2 _] HC. rewrite <- HC in L2.
  rewrite index_mk, !index_bitOf. divmod64 i.
  destruct (Nat.lt_ge_cases (i / 64) (bucketCountFor (bitCount b))) as [L|L].
  - rewrite bucketAt_bucketwise by exact L. apply Hf. lia.
  - rewrite (bucketAt_beyond (bucketwise _ _ _ _)) by (rewrite length_bucketwise; lia).
    rewrite (bucketAt_beyond (bucketVector b)) by lia.
    rewrite (bucketAt_beyond (bucketVector other)) by lia.
    rewrite bitOf_zero. symmetry. exact Hg.
Qed.

Lemma index_inplace f g b other i :
  (forall x y k, k < 64 -> bitOf (f x y) k = g (bitOf x k) (bitOf y k)) ->
  g false false = false ->
  stored b -> stored other -> bitCount b = bitCount other ->
  index (mkBitVector (bitCount b) (inplace f (bucketVector b) (bucketVector other))) i
  = g (index b i) (index other i).
Proof.
  intros Hf Hg [L1 _] [L2 _] HC. rewrite <- HC in L2.
  rewrite index_mk, !index_bitOf. divmod64 i.
  destruct (Nat.lt_ge_cases (i / 64) (length (bucketVector b))) as [L|L].
  - rewrite bucketAt_inplace by (congruence || exact L). apply Hf. lia.
  - rewrite (bucketAt_beyond (inplace _ _ _)) by (rewrite length_inplace; lia).
    rewrite (bucketAt_beyond (bucketVector b)) by lia.
    rewrite (bucketAt_beyond (bucketVector other)) by lia.
    rewrite bitOf_zero. symmetry. exact Hg.
Qed.

(** *** The constructors and the operators keep the invariant *)

Lemma bucketAt_repeat v n i : bucketAt (repeat v n) i = if i <? n then v else 0%Z.
Proof.
  unfold bucketAt. destruct (i <? n) eqn:E.
  - apply Nat.ltb_lt in E. apply nth_repeat_lt. exact E.
  - apply Nat.ltb_ge in E. apply nth_overflow. rewrite repeat_length. exact E.
Qed.

Lemma Forall_repeat v n : wordOK v -> Forall wordOK (repeat v n).
Proof. intros Hv. apply Forall_forall. intros w Hw. apply repeat_spec in Hw. subst. exact Hv. Qed.

Lemma index_zeros n i : index (zeros n) i = false.
Proof.
  unfold zeros. rewrite index_mk, bucketAt_repeat.
  destruct (_ <? _); apply bitOf_zero.
Qed.

Lemma wf_zeros n : wf (zeros n).
Proof.
  split; [split|].
  - apply repeat_length.
  - apply Forall_repeat, zero_ok.
  - intros i _. apply index_zeros.
Qed.

Lemma make_spec n init :
  exists r, make n init = Some r /\ wf r /\ bitCount r = n /\
    forall i, i < n -> index r i = init.
Proof.
  unfold make. destruct init.
  - destruct (truncateLastBucket_wf (b := mkBitVector n (repeat allOnes (bucketCountFor n))))
      as (r & E & W & C & I).
    { split; [apply repeat_length|apply Forall_repeat, allOnes_ok]. }
    exists r. repeat split; try apply W; try assumption.
    intros i Hi. rewrite I. cbn [bitCount].
    replace (i <? n) with true by (symmetry; apply Nat.ltb_lt; exact Hi).
    rewrite andb_true_r, index_mk, bucketAt_repeat. divmod64 i.
    pose proof (bucketCountFor_bounds n).
    replace (i / 64 <? bucketCountFor n) with true by (symmetry; apply Nat.ltb_lt; lia).
    apply bitOf_allOnes. lia.
  - exists (zeros n). repeat split; try apply wf_zeros.
    intros i _. apply index_zeros.
Qed.

Lemma and_spec b other :
  wf b -> wf other -> bitCount b = bitCount other ->
  wf (and b other) /\ bitCount (and b other) = bitCount b /\
  forall i, index (and b other) i = index b i && index other i.
Proof.
  intros [S1 T1] [S2 T2] HC.
  assert (I : forall i, index (and b other) i = index b i && index other i).
  { intros i. unfold and. apply index_bucketwise; auto. intros; apply bitOf_land. }
  split; [|split; [reflexivity|exact I]]. split; [split|].
  - apply length_bucketwise.
  - apply Forall_bucketwise; [apply land_ok|apply S1|apply S2].
  - intros i Hi. rewrite I. unfold and in Hi. cbn [bitCount bucketVector] in Hi.
    rewrite length_bucketwise in Hi. destruct S1 as [L1 _]. rewrite <- L1 in Hi.
    rewrite T1 by exact Hi. reflexivity.
Qed.

Lemma or_spec b other :
  wf b -> wf other -> bitCount b = bitCount other ->
  wf (or b other) /\ bitCount (or b other) = bitCount b /\
  forall i, index (or b other) i = index b i || index other i.
Proof.
  intros [S1 T1] [S2 T2] HC.
  assert (I : forall i, index (or b other) i = index b i || index other i).
  { intros i. unfold or. apply index_bucketwise; auto. intros; apply bitOf_lor. }
  split; [|split; [reflexivity|exact I]]. split; [split|].
  - apply length_bucketwise.
  - apply Forall_bucketwise; [apply lor_ok|apply S1|apply S2].
  - intros i Hi. rewrite I. unfold or in Hi. cbn [bitCount bucketVector] in Hi.
    rewrite length_bucketwise in Hi. destruct S1 as [L1 _], S2 as [L2 _].
    rewrite T1 by lia. rewrite T2; [reflexivity|]. rewrite L2, <- HC. lia.
Qed.

Lemma and_assign_spec b other :
  wf b -> wf other -> bitCount b = bitCount other ->
  wf (and_assign b other) /\ bitCount (and_assign b other) = bitCount b /\
  forall i, index (and_assign b other) i = index b i && index other i.
Proof.
  intros [S1 T1] [S2 T2] HC.
  assert (I : forall i, index (and_assign b other) i = index b i && index other i).
  { intros i. unfold and_assign. apply index_inplace; auto. intros; apply bitOf_land. }
  split; [|split; [reflexivity|exact I]]. split; [split|].
  - cbn. rewrite length_inplace. apply S1.
  - apply Forall_inplace; [apply land_ok|apply S1|apply S2].
  - intros i Hi. rewrite I. unfold and_assign in Hi. cbn [bitCount bucketVector] in Hi.
    rewrite length_inplace in Hi. rewrite T1 by exact Hi. reflexivity.
Qed.

Lemma or_assign_spec b other :
  wf b -> wf other -> bitCount b = bitCount other ->
  wf (or_assign b other) /\ bitCount (or_assign b other) = bitCount b /\
  forall i, index (or_assign b other) i = index b i || index other i.
Proof.
  intros [S1 T1] [S2 T2] HC.
  assert (I : forall i, index (or_assign b other) i = index b i || index other i).
  { intros i. unfold or_assign. apply index_inplace; auto. intros; apply bitOf_lor. }
  split; [|split; [reflexivity|exact I]]. split; [split|].
  - cbn. rewrite length_inplace. apply S1.
  - apply Forall_inplace; [apply lor_ok|apply S1|apply S2].
  - intros i Hi. rewrite I. unfold or_assign in Hi. cbn [bitCount bucketVector] in Hi.
    rewrite length_inplace in Hi. destruct S1 as [L1 _], S2 as [L2 _].
    rewrite T1 by lia. rewrite T2; [reflexivity|]. rewrite L2, <- HC, <- L1. lia.
Qed.

Lemma xor_spec b other :
  wf b -> wf other -> bitCount b = bitCount other ->
  exists r, xor b other = Some r /\ wf r /\ bitCount r = bitCount b /\
    forall i, index r i = xorb (index b i) (index other i).
Proof.
  intros [S1 T1] [S2 T2] HC. unfold xor.
  match goal with |- context [truncateLastBucket ?x] =>
    destruct (truncateLastBucket_wf (b := x)) as (r & E & W & C & I) end.
  { split; [apply length_bucketwise|].
    apply Forall_bucketwise; [apply lxor_ok|apply S1|apply S2]. }
  exists r. repeat split; try apply W; try assumption.
  intros i. rewrite I. cbn [bitCount].
  rewrite (@index_bucketwise Z.lxor xorb); auto; [|intros; apply bitOf_lxor].
  destruct (i <? bitCount b) eqn:L; [apply andb_true_r|].
  apply Nat.ltb_ge in L. rewrite andb_false_r.
  destruct (Nat.lt_ge_cases i (64 * length (bucketVector b))) as [L2|L2].
  - destruct S1 as [L1 _], S2 as [L3 _].
    rewrite T1 by lia. rewrite T2; [reflexivity|]. rewrite L3, <- HC, <- L1. lia.
  - destruct S1 as [L1 _], S2 as [L3 _].
    rewrite !index_beyond; try reflexivity; try lia. rewrite L3, <- HC, <- L1. lia.
Qed.

Lemma index_bucketwise_in f g n l1 l2 m i :
  (forall x y k, k < 64 -> bitOf (f x y) k = g (bitOf x k) (bitOf y k)) ->
  i < 64 * m ->
  index (mkBitVector n (bucketwise f m l1 l2)) i
  = g (index (mkBitVector n l1) i) (index (mkBitVector n l2) i).
Proof.
  intros Hf Hi. rewrite !index_mk. divmod64 i.
  rewrite bucketAt_bucketwise by lia. apply Hf. lia.
Qed.

Lemma index_irrel n m l i : index (mkBitVector n l) i = index (mkBitVector m l) i.
Proof. reflexivity. Qed.

Lemma index_eta b i : index (mkBitVector (bitCount b) (bucketVector b)) i = index b i.
Proof. reflexivity. Qed.

Lemma implies_spec b other :
  wf b -> wf other -> bitCount b = bitCount other ->
  exists r, implies b other = Some r /\ wf r /\ bitCount r = bitCount b /\
    forall i, index r i = (negb (index b i) || index other i) && (i <? bitCount b).
Proof.
  intros [S1 T1] [S2 T2] HC. unfold implies.
  match goal with |- context [truncateLastBucket ?x] =>
    destruct (truncateLastBucket_wf (b := x)) as (r & E & W & C & I) end.
  { split; [apply length_bucketwise|].
    apply Forall_bucketwise; [|apply S1|apply S2].
    intros x y Hx Hy. apply lor_ok; [apply not_ok|exact Hy]. }
  exists r. repeat split; try apply W; try assumption.
  intros i. rewrite I. cbn [bitCount].
  destruct (i <? bitCount b) eqn:L; [|rewrite !andb_false_r; reflexivity].
  apply Nat.ltb_lt in L. rewrite !andb_true_r.
  pose proof (bucketCountFor_bounds (bitCount b)).
  rewrite (@index_bucketwise_in (fun x y => Z.lor (Word64.not x) y)
             (fun x y => negb x || y)); [reflexivity| |lia].
  intros x y k Hk. rewrite bitOf_lor, bitOf_not by exact Hk. reflexivity.
Qed.

Lemma bucketAt_map f l i :
  bucketAt (map f l) i = if i <? length l then f (bucketAt l i) else 0%Z.
Proof.
  unfold bucketAt. destruct (i <? length l) eqn:E.
  - apply Nat.ltb_lt in E. rewrite nth_indep with (d' := f 0%Z) by (rewrite length_map; exact E).
    apply map_nth.
  - apply Nat.ltb_ge in E. apply nth_overflow. rewrite length_map. exact E.
Qed.

Lemma complement_spec b :
  wf b ->
  exists r, complement b = Some r /\ wf r /\ bitCount r = bitCount b /\
    forall i, index r i = negb (index b i) && (i <? bitCount b).
Proof.
  intros [S1 T1]. unfold complement.
  match goal with |- context [truncateLastBucket ?x] =>
    destruct (truncateLastBucket_wf (b := x)) as (r & E & W & C & I) end.
  { split; [cbn; rewrite length_map; apply S1|].
    cbn. apply Forall_forall. intros w Hw. apply in_map_iff in Hw.
    destruct Hw as (x & <- & _). apply not_ok. }
  exists r. repeat split; try apply W; try assumption.
  intros i. rewrite I. cbn [bitCount].
  destruct (i <? bitCount b) eqn:L; [|rewrite !andb_false_r; reflexivity].
  apply Nat.ltb_lt in L. rewrite !andb_true_r.
  rewrite index_mk, bucketAt_map, (index_bitOf b). divmod64 i.
  pose proof (stored_covers S1).
  replace (i / 64 <? length (bucketVector b)) with true by (symmetry; apply Nat.ltb_lt; lia).
  apply bitOf_not. lia.
Qed.

Lemma complemented_spec b :
  wf b ->
  exists r, complemented b = Some r /\ wf r /\ bitCount r = bitCount b /\
    forall i, index r i = negb (index b i) && (i <? bitCount b).
Proof.
  intros [S1 T1]. unfold complemented.
  match goal with |- context [truncateLastBucket ?x] =>
    destruct (truncateLastBucket_wf (b := x)) as (r & E & W & C & I) end.
  { split; [cbn; rewrite length_map, length_seq; reflexivity|].
    cbn. apply Forall_forall. intros w Hw. apply in_map_iff in Hw.
    destruct Hw as (x & <- & _). apply not_ok. }
  exists r. repeat split; try apply W; try assumption.
  intros i. rewrite I. cbn [bitCount].
  destruct (i <? bitCount b) eqn:L; [|rewrite !andb_false_r; reflexivity].
  apply Nat.ltb_lt in L. rewrite !andb_true_r.
  rewrite index_mk, (index_bitOf b). divmod64 i.
  pose proof (bucketCountFor_bounds (bitCount b)).
  unfold bucketAt at 1.
  rewrite nth_indep with (d' := Word64.not (bucketAt (bucketVector b) 0))
    by (rewrite length_map, length_seq; lia).
  rewrite (map_nth (fun i => Word64.not (bucketAt (bucketVector b) i))).
  rewrite seq_nth by lia. apply bitOf_not. lia.
Qed.

(** *** [resize] *)

Lemma length_vresize n v l : length (vresize n v l) = n.
Proof.
  unfold vresize. rewrite length_app, length_firstn, repeat_length. lia.
Qed.

Lemma bucketAt_vresize n v l i :
  bucketAt (vresize n v l) i =
  if i <? n then (if i <? length l then bucketAt l i else v) else 0%Z.
Proof.
  unfold vresize, bucketAt.
  destruct (i <? n) eqn:E1.
  - apply Nat.ltb_lt in E1. destruct (i <? length l) eqn:E2.
    + apply Nat.ltb_lt in E2. rewrite app_nth1 by (rewrite length_firstn; lia).
      rewrite nth_firstn. replace (i <? n) with true by (symmetry; apply Nat.ltb_lt; lia).
      reflexivity.
    + apply Nat.ltb_ge in E2. rewrite app_nth2 by (rewrite length_firstn; lia).
      rewrite length_firstn. apply nth_repeat_lt. lia.
  - apply Nat.ltb_ge in E1. apply nth_overflow.
    rewrite length_app, length_firstn, repeat_length. lia.
Qed.

Lemma Forall_vresize n v l : wordOK v -> Forall wordOK l -> Forall wordOK (vresize n v l).
Proof.
  intros Hv Hl. unfold vresize. apply Forall_app. split.
  - apply Forall_forall. intros w Hw. rewrite Forall_forall in Hl. apply Hl.
    rewrite <- (firstn_skipn n l). apply in_or_app. left. exact Hw.
  - apply Forall_repeat. exact Hv.
Qed.

Lemma bucketCountFor_mono n m : n <= m -> bucketCountFor n <= bucketCountFor m.
Proof.
  intros H. rewrite !bucketCountFor_eq. divmod64 n. divmod64 m.
  destruct (n mod 64 =? 0) eqn:E1; destruct (m mod 64 =? 0) eqn:E2;
    rewrite ?Nat.eqb_eq, ?Nat.eqb_neq in *; lia.
Qed.

(** The bits of the bucket that [resize] fills with ones before it grows the
    vector. *)
Lemma bitOf_fill w n p :
  p < 64 ->
  bitOf (Z.lor w (sub (shl 1 (64 - n mod 64)) 1)) p =
  bitOf w p || (negb (n mod 64 =? 0) && (n mod 64 <=? p)).
Proof.
  intros Hp. rewrite bitOf_lor. f_equal. divmod64 n.
  change (sub (shl 1 (64 - n mod 64)) 1) with (lowMask (n mod 64)).
  destruct (n mod 64 =? 0) eqn:E.
  - apply Nat.eqb_eq in E. rewrite E, lowMask_0. apply bitOf_zero.
  - apply Nat.eqb_neq in E. rewrite bitOf_lowMask by lia. reflexivity.
Qed.

(** [resize] on a vector that satisfies the invariant.  Growing an empty
    vector with [init = true] is excluded: the code then takes [back()] of
    an empty bucket vector. *)
Lemma resize_spec newLength init b :
  wf b ->
  (init = true -> bitCount b < newLength -> bitCount b <> 0) ->
  exists r, resize newLength init b = Some r /\ wf r /\ bitCount r = newLength /\
    forall i, i < newLength -> index r i = if i <? bitCount b then index b i else init.
Proof.
  intros [[HL HW] HT] Hinit.
  assert (Fin : forall pre,
             stored pre -> bitCount pre = newLength ->
             (forall i, i < newLength ->
                        index pre i = if i <? bitCount b then index b i else init) ->
             exists r, truncateLastBucket pre = Some r /\ wf r /\ bitCount r = newLength /\
               forall i, i < newLength -> index r i = if i <? bitCount b then index b i else init).
  { intros pre SP CP IP. destruct (truncateLastBucket_wf SP) as (r & E & W & C & I).
    exists r. repeat split; try apply W; try congruence.
    intros i Hi. rewrite I, CP.
    replace (i <? newLength) with true by (symmetry; apply Nat.ltb_lt; exact Hi).
    rewrite andb_true_r. apply IP. exact Hi. }
  pose proof (bucketCountFor_bounds (bitCount b)) as Bb.
  pose proof (bucketCountFor_bounds newLength) as Bn.
  assert (Fill : forall w, wordOK w ->
            wordOK (Z.lor w (sub (shl 1 (64 - Nat.land (bitCount b) mod64mask)) 1))).
  { intros w Hw. apply lor_ok; [exact Hw|apply sub_ok]. }
  assert (Old : forall i, i < bitCount b -> i / 64 < length (bucketVector b)).
  { intros i Hi. divmod64 i. lia. }
  unfold resize. destruct (bitCount b <? newLength) eqn:G.
  - apply Nat.ltb_lt in G.
    pose proof (bucketCountFor_mono (n := bitCount b) (m := newLength) ltac:(lia)) as Mono.
    destruct (length (bucketVector b) <? bucketCountFor newLength) eqn:G2.
    + apply Nat.ltb_lt in G2. destruct init.
      * rewrite updateBack_some.
        2:{ intros C. specialize (Hinit eq_refl G). rewrite C in HL. simpl in HL.
            rewrite <- HL in Bb. lia. }
        apply Fin; [split| |].
        -- apply length_vresize.
        -- apply Forall_vresize; [apply allOnes_ok|]. apply Forall_updateAt; assumption.
        -- reflexivity.
        -- intros i Hi. rewrite index_mk, bucketAt_vresize, length_updateAt, bucketAt_updateAt.
           divmod64 i. divmod64 (bitCount b). rewrite bucketCountFor_eq in HL.
           replace (i / 64 <? bucketCountFor newLength) with true
             by (symmetry; apply Nat.ltb_lt; lia).
           rewrite (index_bitOf b), land63.
           destruct (i / 64 <? length (bucketVector b)) eqn:E1.
           ++ apply Nat.ltb_lt in E1.
              replace (length (bucketVector b) - 1 <? length (bucketVector b)) with true
                by (symmetry; apply Nat.ltb_lt; lia).
              rewrite andb_true_r.
              destruct (i / 64 =? length (bucketVector b) - 1) eqn:E2.
              ** apply Nat.eqb_eq in E2. rewrite bitOf_fill by lia.
                 destruct (bitCount b mod 64 =? 0) eqn:E3.
                 --- apply Nat.eqb_eq in E3. cbn [negb andb]. rewrite orb_false_r.
                     replace (i <? bitCount b) with true by (symmetry; apply Nat.ltb_lt; lia).
                     reflexivity.
                 --- apply Nat.eqb_neq in E3. cbn [negb andb].
                     destruct (i <? bitCount b) eqn:E4.
                     +++ apply Nat.ltb_lt in E4.
                         replace (bitCount b mod 64 <=? i mod 64) with false
                           by (symmetry; apply Nat.leb_gt; lia).
                         apply orb_false_r.
                     +++ apply Nat.ltb_ge in E4.
                         replace (bitCount b mod 64 <=? i mod 64) with true
                           by (symmetry; apply Nat.leb_le; lia).
                         apply orb_true_r.
              ** apply Nat.eqb_neq in E2.
                 replace (i <? bitCount b) with true; [reflexivity|].
                 symmetry. apply Nat.ltb_lt.
                 destruct (bitCount b mod 64 =? 0) eqn:E3;
                   rewrite ?Nat.eqb_eq, ?Nat.eqb_neq in E3; lia.
           ++ apply Nat.ltb_ge in E1.
              replace (i <? bitCount b) with false.
              ** apply bitOf_allOnes. lia.
              ** symmetry. apply Nat.ltb_ge.
                 destruct (bitCount b mod 64 =? 0) eqn:E3;
                   rewrite ?Nat.eqb_eq, ?Nat.eqb_neq in E3; lia.
      * apply Fin; [split| |].
        -- apply length_vresize.
        -- apply Forall_vresize; [apply zero_ok|assumption].
        -- reflexivity.
        -- intros i Hi. rewrite index_mk, bucketAt_vresize. divmod64 i.
           replace (i / 64 <? bucketCountFor newLength) with true
             by (symmetry; apply Nat.ltb_lt; lia).
           destruct (i / 64 <? length (bucketVector b)) eqn:E1.
           ++ apply Nat.ltb_lt in E1. rewrite <- index_bitOf.
              destruct (i <? bitCount b) eqn:E4; [reflexivity|].
              apply Nat.ltb_ge in E4. apply HT. lia.
           ++ apply Nat.ltb_ge in E1.
              replace (i <? bitCount b) with false; [apply bitOf_zero|].
              symmetry. apply Nat.ltb_ge. lia.
    + apply Nat.ltb_ge in G2.
      assert (EL : length (bucketVector b) = bucketCountFor newLength) by lia.
      destruct init.
      * rewrite updateBack_some.
        2:{ intros C. rewrite C in EL. simpl in EL. lia. }
        apply Fin; [split| |].
        -- cbn. rewrite length_updateAt. exact EL.
        -- apply Forall_updateAt; assumption.
        -- reflexivity.
        -- intros i Hi. rewrite index_mk, bucketAt_updateAt.
           divmod64 i. divmod64 (bitCount b). rewrite bucketCountFor_eq in HL.
           rewrite (index_bitOf b), land63.
           replace (length (bucketVector b) - 1 <? length (bucketVector b)) with true
             by (symmetry; apply Nat.ltb_lt; lia).
           rewrite andb_true_r.
           destruct (bitCount b mod 64 =? 0) eqn:E3;
             rewrite ?Nat.eqb_eq, ?Nat.eqb_neq in E3; [lia|].
           destruct (i / 64 =? length (bucketVector b) - 1) eqn:E2.
           ++ apply Nat.eqb_eq in E2. rewrite bitOf_fill by lia.
              replace (bitCount b mod 64 =? 0) with false by (symmetry; apply Nat.eqb_neq; lia).
              cbn [negb andb].
              destruct (i <? bitCount b) eqn:E4.
              ** apply Nat.ltb_lt in E4.
                 replace (bitCount b mod 64 <=? i mod 64) with false
                   by (symmetry; apply Nat.leb_gt; lia).
                 apply orb_false_r.
              ** apply Nat.ltb_ge in E4.
                 replace (bitCount b mod 64 <=? i mod 64) with true
                   by (symmetry; apply Nat.leb_le; lia).
                 apply orb_true_r.
           ++ apply Nat.eqb_neq in E2.
              replace (i <? bitCount b) with true; [reflexivity|].
              symmetry. apply Nat.ltb_lt. lia.
      * apply Fin; [split| |]; try assumption; try reflexivity.
        intros i Hi. rewrite index_irrel with (m := bitCount b), index_eta.
        destruct (i <? bitCount b) eqn:E4; [reflexivity|].
        apply Nat.ltb_ge in E4. apply HT. lia.
  - apply Nat.ltb_ge in G.
    pose proof (bucketCountFor_mono (n := newLength) (m := bitCount b) G) as Mono.
    apply Fin; [split| |].
    + apply length_vresize.
    + apply Forall_vresize; [apply zero_ok|assumption].
    + reflexivity.
    + intros i Hi. rewrite index_mk, bucketAt_vresize. divmod64 i.
      replace (i / 64 <? bucketCountFor newLength) with true
        by (symmetry; apply Nat.ltb_lt; lia).
      replace (i / 64 <? length (bucketVector b)) with true
        by (symmetry; apply Nat.ltb_lt; lia).
      replace (i <? bitCount b) with true by (symmetry; apply Nat.ltb_lt; lia).
      symmetry. apply index_bitOf.
Qed.

(** *** [operator==] and [full] *)

Lemma bucketsEqual_spec l1 l2 :
  bucketsEqual l1 l2 = true <-> forall i, i < length l1 -> bucketAt l1 i = bucketAt l2 i.
Proof.
  unfold bucketsEqual. rewrite forallb_forall. split.
  - intros H i Hi. apply Z.eqb_eq. apply H. apply in_seq. lia.
  - intros H i Hi. apply in_seq in Hi. apply Z.eqb_eq. apply H. lia.
Qed.

(** Under the invariant the bucket-wise [operator==] is equality of the
    lengths and of the bits below the length. *)
Lemma eqb_spec b other :
  wf b -> wf other ->
  (eqb b other = true <->
   bitCount b = bitCount other /\ forall i, i < bitCount b -> get b i = get other i).
Proof.
  intros W1 W2. unfold eqb, get. split.
  - destruct (bitCount b =? bitCount other) eqn:E; cbn [negb]; [|discriminate].
    apply Nat.eqb_eq in E. intros H. split; [exact E|]. intros i Hi.
    rewrite bucketsEqual_spec in H. rewrite !index_bitOf.
    rewrite H; [reflexivity|]. pose proof (stored_covers (proj1 W1)). divmod64 i. lia.
  - intros [E H]. rewrite (wf_ext W1 W2 E H). rewrite Nat.eqb_refl. cbn [negb].
    apply bucketsEqual_spec. reflexivity.
Qed.

Lemma forallb_firstn_allOnes l n :
  forallb (fun w => (w =? allOnes)%Z) (firstn n l) = true <->
  forall i, i < n -> i < length l -> bucketAt l i = allOnes.
Proof.
  unfold bucketAt. revert n. induction l as [|x r IH]; intros n.
  - rewrite firstn_nil. split; [intros _ i _ Hi; simpl in Hi; lia|reflexivity].
  - destruct n as [|n]; [split; [intros _ i Hi; lia|reflexivity]|].
    rewrite firstn_cons. cbn [forallb]. rewrite andb_true_iff, IH, Z.eqb_eq. split.
    + intros [Hx Hr] [|i] Hi Hl; [exact Hx|]. apply Hr; simpl in Hl; lia.
    + intros H. split; [apply (H 0); simpl; lia|].
      intros i Hi Hl. apply (H (S i)); simpl; lia.
Qed.

(** On a non-empty vector that satisfies the invariant, [full] returns, and
    returns true exactly when every bit below the length is set. *)
Lemma full_spec b :
  wf b -> bitCount b <> 0 ->
  exists v, full b = Some v /\
    (v = true <-> forall i, i < bitCount b -> get b i = true).
Proof.
  intros [[HL HW] HT] H0. unfold full, get.
  pose proof (bucketCountFor_bounds (bitCount b)) as Bb. rewrite <- HL in Bb.
  destruct (bucketVector b) as [|w0 rest] eqn:EB; [simpl in Bb; lia|].
  rewrite <- EB in *. clear EB w0 rest. rewrite land63.
  set (n := length (bucketVector b)) in *.
  set (k := bitCount b mod 64).
  change (Word64.not (sub (shl 1 (64 - k)) 1)) with (topMask k).
  assert (Hn : 0 < n) by lia.
  assert (Hk : k < 64) by (apply Nat.mod_upper_bound; discriminate).
  assert (Last : bitCount b = 64 * (n - 1) + (if k =? 0 then 64 else k)).
  { unfold n, k in *. rewrite HL, bucketCountFor_eq. divmod64 (bitCount b).
    destruct (bitCount b mod 64 =? 0) eqn:E; rewrite ?Nat.eqb_eq, ?Nat.eqb_neq in E; lia. }
  assert (Mask : forall p, p < 64 -> bitOf (topMask k) p = (p <? (if k =? 0 then 64 else k))).
  { intros p Hp. destruct (k =? 0) eqn:E.
    - apply Nat.eqb_eq in E. rewrite E, topMask_0, bitOf_allOnes by exact Hp.
      symmetry. apply Nat.ltb_lt. exact Hp.
    - apply Nat.eqb_neq in E. apply bitOf_topMask; lia. }
  destruct (forallb (fun w => (w =? allOnes)%Z) (firstn (n - 1) (bucketVector b))) eqn:EF.
  - rewrite forallb_firstn_allOnes in EF.
    destruct (Z.land (bucketAt (bucketVector b) (n - 1)) (topMask k) =? topMask k)%Z eqn:EM;
      cbn [negb].
    + apply Z.eqb_eq in EM. exists true. split; [reflexivity|]. split; [|reflexivity].
      intros _ i Hi. rewrite index_bitOf. divmod64 i.
      destruct (Nat.eq_dec (i / 64) (n - 1)) as [E|E].
      * rewrite E.
        assert (B : bitOf (Z.land (bucketAt (bucketVector b) (n - 1)) (topMask k)) (i mod 64)
                    = bitOf (topMask k) (i mod 64)) by (rewrite EM; reflexivity).
        rewrite bitOf_land, Mask in B by lia.
        replace (i mod 64 <? (if k =? 0 then 64 else k)) with true in B
          by (symmetry; apply Nat.ltb_lt; lia).
        rewrite andb_true_r in B. exact B.
      * rewrite EF by (fold n; lia). apply bitOf_allOnes. lia.
    + apply Z.eqb_neq in EM. exists false. split; [reflexivity|].
      split; [discriminate|]. intros H. exfalso. apply EM.
      apply word_ext.
      * apply land_ok; [apply bucketAt_ok; exact HW|apply not_ok].
      * apply not_ok.
      * intros p Hp. rewrite bitOf_land, Mask by exact Hp.
        destruct (p <? (if k =? 0 then 64 else k)) eqn:EP; [|apply andb_false_r].
        apply Nat.ltb_lt in EP. rewrite andb_true_r.
        specialize (H (64 * (n - 1) + p)). rewrite index_bitOf in H.
        assert (D : (64 * (n - 1) + p) / 64 = n - 1)
          by (symmetry; apply Nat.div_unique with p; lia).
        assert (M : (64 * (n - 1) + p) mod 64 = p)
          by (symmetry; apply Nat.mod_unique with (n - 1); lia).
        rewrite D, M in H. apply H. lia.
  - exists false. split; [reflexivity|]. split; [discriminate|].
    intros H. exfalso. rewrite <- not_true_iff_false in EF. apply EF.
    apply forallb_firstn_allOnes. intros i Hi Hl.
    apply word_ext; [apply bucketAt_ok; exact HW|apply allOnes_ok|].
    intros p Hp. rewrite bitOf_allOnes by exact Hp.
    specialize (H (64 * i + p)). rewrite index_bitOf in H.
    assert (D : (64 * i + p) / 64 = i) by (symmetry; apply Nat.div_unique with p; lia).
    assert (M : (64 * i + p) mod 64 = p) by (symmetry; apply Nat.mod_unique with i; lia).
    rewrite D, M in H. apply H. lia.
Qed.

(** *** Writing a bit leaves the others alone *)

Lemma updateAt_beyond f i l : length l <= i -> updateAt f i l = l.
Proof.
  revert i. induction l as [|x r IH]; intros i H; [destruct i; reflexivity|].
  destruct i as [|i]; simpl in *; [lia|]. rewrite IH by lia. reflexivity.
Qed.

Lemma index_set_other i v b j : j <> i -> index (set i v b) j = index b j.
Proof.
  intros Hne. destruct (Nat.lt_ge_cases i (64 * length (bucketVector b))) as [L|L].
  - rewrite index_set by exact L.
    replace (j =? i) with false by (symmetry; apply Nat.eqb_neq; exact Hne). reflexivity.
  - rewrite !index_bitOf. unfold set. rewrite shiftr6. divmod64 i.
    destruct v; cbn [bucketVector]; rewrite updateAt_beyond by lia; reflexivity.
Qed.

Lemma wfb_wf b : wfb b = true -> wf b.
Proof.
  unfold wfb. rewrite !andb_true_iff. intros [[HL HW] HT].
  apply Nat.eqb_eq in HL. rewrite forallb_forall in HW, HT.
  split; [split|].
  - exact HL.
  - apply Forall_forall. intros w Hw. specialize (HW w Hw). unfold wordOKb in HW.
    apply andb_true_iff in HW. destruct HW as [H0 H1].
    apply Z.leb_le in H0. apply Z.ltb_lt in H1. split; assumption.
  - intros i Hi. specialize (HT i). rewrite in_seq in HT.
    apply negb_true_iff. apply HT. lia.
Qed.

(** *** The empty vector *)

(** C8, at the input where the code leaves the claim.  The vector that the
    default constructor builds has no bits and no buckets and satisfies the
    invariant.  On it [full] has no defined result, where the claim asks for
    true, all of its zero bits being set: the loop bound
    [bucketVector.size() - 1] wraps and the loop and the [back()] after it
    read buckets that do not exist.  [resize] with [init = true] has no
    defined result on it either: it takes [back()] of the empty bucket
    vector before it grows it.  With [init = false] the same [resize] is
    fine, and so is [full] on the vector it returns. *)
Theorem empty_vector_full_and_resize :
  wf empty_vector /\
  full empty_vector = None /\
  resize 70 true empty_vector = None /\
  (exists b, resize 70 false empty_vector = Some b /\ wf b /\ full b = Some false).
Proof.
  split; [apply wfb_wf; reflexivity|]. split; [reflexivity|]. split; [reflexivity|].
  eexists. split; [vm_compute; reflexivity|]. split; [apply wfb_wf; vm_compute; reflexivity|].
  vm_compute. reflexivity.
Qed.

End BitVectorFacts.

(** ** Bit vectors: iteration and counting *)

Module BitVectorIteration.
Import Word64 Word64Facts BitVector BitVectorFacts.

Lemma index_bitIn b i : index b i = bitIn (bucketVector b) i.
Proof. apply index_bitOf. Qed.

Lemma land_ok_r x y : wordOK y -> wordOK (Z.land x y).
Proof.
  intros Hy. apply ok_of_bits.
  - apply Z.land_nonneg. right. apply Hy.
  - intros i Hi. rewrite Z.land_spec, (testbit_high Hy Hi). apply andb_false_r.
Qed.

Lemma scanMask_ok c : wordOK (scanMask c).
Proof. unfold scanMask. destruct (c =? 0); [apply allOnes_ok|apply sub_ok]. Qed.

Lemma bitOf_scanMask c p : c < 64 -> p < 64 -> bitOf (scanMask c) p = (c <=? p).
Proof.
  intros Hc Hp. unfold scanMask. destruct (c =? 0) eqn:E.
  - apply Nat.eqb_eq in E. subst c. rewrite bitOf_allOnes by exact Hp. reflexivity.
  - apply Nat.eqb_neq in E. apply (bitOf_lowMask (k := c)); lia.
Qed.

(** The inner loop stops on the first set bit at or after its start. *)
Lemma advanceToSetBit_spec w fuel c p :
  p < 64 -> c <= p -> p - c < fuel ->
  bitOf w p = true ->
  (forall q, c <= q < p -> bitOf w q = false) ->
  advanceToSetBit fuel w c = p.
Proof.
  revert c. induction fuel as [|fuel IH]; intros c Hp Hc Hf Hb Hz; [lia|].
  cbn [advanceToSetBit]. rewrite test_bit_zero by lia.
  destruct (Nat.eq_dec c p) as [->|Hne].
  - rewrite Hb. reflexivity.
  - rewrite Hz by lia. cbn [negb]. apply IH; try lia; try assumption.
    intros q Hq. apply Hz. lia.
Qed.

(** Among the bits [c..63] of a word, either all are cleared or there is a
    first set one. *)
Lemma first_set_bit w c :
  c <= 64 ->
  (forall q, c <= q < 64 -> bitOf w q = false) \/
  exists p, c <= p < 64 /\ bitOf w p = true /\ forall q, c <= q < p -> bitOf w q = false.
Proof.
  intros Hc. remember (64 - c) as n eqn:En. revert c Hc En.
  induction n as [|n IH]; intros c Hc En.
  - left. intros q Hq. lia.
  - destruct (bitOf w c) eqn:E.
    + right. exists c. split; [lia|]. split; [exact E|]. intros q Hq. lia.
    + destruct (IH (S c)) as [H|(p & Hp & Hb & Hz)]; try lia.
      * left. intros q Hq. destruct (Nat.eq_dec q c) as [->|Hne]; [exact E|]. apply H. lia.
      * right. exists p. split; [lia|]. split; [exact Hb|].
        intros q Hq. destruct (Nat.eq_dec q c) as [->|Hne]; [exact E|]. apply Hz. lia.
Qed.

Lemma nextSetLoop_done rest s e mask c : e <= s -> nextSetLoop rest s e mask c = e.
Proof.
  intros H. destruct rest; cbn [nextSetLoop]; [reflexivity|].
  replace (s <? e) with false by (symmetry; apply Nat.ltb_ge; exact H). reflexivity.
Qed.

Lemma bitIn_at data q p : p < 64 -> bitIn data (64 * q + p) = bitOf (bucketAt data q) p.
Proof.
  intros Hp. unfold bitIn.
  assert (D : (64 * q + p) / 64 = q) by (symmetry; apply Nat.div_unique with p; lia).
  assert (M : (64 * q + p) mod 64 = p) by (symmetry; apply Nat.mod_unique with q; lia).
  rewrite D, M. reflexivity.
Qed.

Lemma bitIn_split data i : bitIn data i = bitOf (bucketAt data (i / 64)) (i mod 64).
Proof. reflexivity. Qed.

Lemma skipn_cons_inv (data : list Z) q w rest :
  skipn q data = w :: rest -> bucketAt data q = w /\ skipn (S q) data = rest.
Proof.
  unfold bucketAt. revert data. induction q as [|q IH]; intros data H.
  - simpl in H. subst data. split; reflexivity.
  - destruct data as [|x data]; [discriminate|]. apply (IH data). exact H.
Qed.

Lemma skipn_nil_inv (data : list Z) q : skipn q data = [] -> length data <= q.
Proof.
  revert data. induction q as [|q IH]; intros data H.
  - simpl in H. subst. simpl. lia.
  - destruct data as [|x data]; simpl; [lia|]. specialize (IH data H). lia.
Qed.

(** The outer loop, started in bucket [q] at bit [c] of that bucket. *)
Lemma nextSetLoop_spec data e rest :
  forall q c, skipn q data = rest -> c < 64 ->
  let r := nextSetLoop rest (64 * q) e (scanMask c) c in
  r <= e /\ (64 * q + c <= e -> 64 * q + c <= r) /\
  (forall i, 64 * q + c <= i < r -> bitIn data i = false) /\
  (r < e -> bitIn data r = true).
Proof.
  induction rest as [|w rest IH]; intros q c Hs Hc r; subst r.
  - cbn [nextSetLoop]. apply skipn_nil_inv in Hs. repeat split; try lia.
    intros i Hi. rewrite bitIn_split, bucketAt_beyond; [apply bitOf_zero|].
    divmod64 i. lia.
  - apply skipn_cons_inv in Hs. destruct Hs as [Hw Hs].
    cbn [nextSetLoop]. destruct (64 * q <? e) eqn:L.
    2:{ apply Nat.ltb_ge in L. repeat split; try lia. }
    apply Nat.ltb_lt in L.
    assert (Rem : forall p, p < 64 -> bitOf (Z.land w (scanMask c)) p = bitOf w p && (c <=? p)).
    { intros p Hp. rewrite bitOf_land, bitOf_scanMask by assumption. reflexivity. }
    destruct (first_set_bit w (c := c) ltac:(lia)) as [Hz|(p & Hp & Hb & Hz)].
    + (* nothing left in this bucket *)
      assert (Z0 : Z.land w (scanMask c) = 0%Z).
      { apply word_ext; [apply land_ok_r, scanMask_ok|apply zero_ok|].
        intros p Hp. rewrite Rem, bitOf_zero by exact Hp.
        destruct (c <=? p) eqn:E; [|apply andb_false_r].
        apply Nat.leb_le in E. rewrite Hz by lia. reflexivity. }
      rewrite Z0. cbn [Z.eqb negb].
      specialize (IH (S q) 0 Hs ltac:(lia)). cbn zeta in IH.
      change (scanMask 0) with allOnes in IH.
      replace (64 * S q) with (64 * q + 64) in IH by lia.
      destruct IH as (R1 & R2 & R3 & R4).
      destruct (Nat.le_gt_cases e (64 * q + 64)) as [Le|Gt].
      * rewrite nextSetLoop_done in * by lia. repeat split; try lia.
        intros i Hi. replace i with (64 * q + (i - 64 * q)) by lia.
        rewrite bitIn_at, Hw by lia. apply Hz. lia.
      * repeat split; try lia.
        -- intros i Hi. destruct (Nat.lt_ge_cases i (64 * q + 64)) as [Li|Li].
           ++ replace i with (64 * q + (i - 64 * q)) by lia.
              rewrite bitIn_at, Hw by lia. apply Hz. lia.
           ++ apply R3. lia.
        -- exact R4.
    + (* the first set bit of this bucket *)
      assert (NZ : (Z.land w (scanMask c) =? 0)%Z = false).
      { apply Z.eqb_neq. intros C.
        assert (B : bitOf (Z.land w (scanMask c)) p = false) by (rewrite C; apply bitOf_zero).
        rewrite Rem, Hb in B by lia.
        replace (c <=? p) with true in B by (symmetry; apply Nat.leb_le; lia).
        discriminate. }
      rewrite NZ. cbn [negb].
      rewrite (@advanceToSetBit_spec (Z.land w (scanMask c)) 64 c p); try lia.
      2:{ rewrite Rem, Hb by lia. apply Nat.leb_le. lia. }
      2:{ intros k Hk. rewrite Rem, Hz by lia. reflexivity. }
      assert (Before : forall i, 64 * q + c <= i < 64 * q + p -> bitIn data i = false).
      { intros i Hi. replace i with (64 * q + (i - 64 * q)) by lia.
        rewrite bitIn_at, Hw by lia. apply Hz. lia. }
      destruct (64 * q + p <? e) eqn:L2.
      * apply Nat.ltb_lt in L2. repeat split; try lia; try assumption.
        intros _. rewrite bitIn_at, Hw by lia. exact Hb.
      * apply Nat.ltb_ge in L2. repeat split; try lia.
        intros i Hi. apply Before. lia.
Qed.

(** [getNextSetIndex] returns the first set index in
    [startingIndex .. endIndex - 1], and [endIndex] when there is none. *)
Lemma getNextSetIndexIn_spec data start e :
  let r := getNextSetIndexIn data start e in
  r <= e /\ (start <= e -> start <= r) /\
  (forall i, start <= i < r -> bitIn data i = false) /\
  (r < e -> bitIn data r = true).
Proof.
  unfold getNextSetIndexIn. rewrite land63, shiftr6, shiftl6.
  divmod64 start.
  pose proof (@nextSetLoop_spec data e (skipn (start / 64) data) (start / 64) (start mod 64)
                eq_refl ltac:(lia)) as H1.
  cbn zeta in *. unfold scanMask in H1.
  replace (start / 64 * 64) with (64 * (start / 64)) by lia.
  replace (64 * (start / 64) + start mod 64) with start in H1 by lia.
  exact H1.
Qed.

(** *** The range-based loop *)

Lemma filter_all_false (P : nat -> bool) l :
  (forall x, In x l -> P x = false) -> filter P l = [].
Proof.
  induction l as [|x l IH]; intros H; [reflexivity|].
  simpl. rewrite H by (left; reflexivity). apply IH. intros y Hy. apply H. right. exact Hy.
Qed.


Section Loop.
Variable St : Type.
Variable data : St -> list Z.
Variable e : nat.
Variable body : nat -> St -> St.

(** The body may change the vector it iterates over, but not after the
    current index. *)
Hypothesis body_later :
  forall i s j, i < j -> bitIn (data (body i s)) j = bitIn (data s) j.

Lemma iterate_spec fuel start s :
  start <= e -> e - start <= fuel ->
  iterate data e body fuel (getNextSetIndexIn (data s) start e) s =
  fold_left (fun s i => body i s) (filter (bitIn (data s)) (seq start (e - start))) s.
Proof.
  revert start s. induction fuel as [|fuel IH]; intros start s Hs Hf.
  - replace (e - start) with 0 by lia. reflexivity.
  - destruct (getNextSetIndexIn_spec (data s) start e) as (R1 & R2 & R3 & R4).
    set (r := getNextSetIndexIn (data s) start e) in *. specialize (R2 Hs).
    assert (Split : seq start (e - start) = seq start (r - start) ++ seq r (e - r)).
    { replace (e - start) with ((r - start) + (e - r)) by lia.
      rewrite seq_app. replace (start + (r - start)) with r by lia. reflexivity. }
    rewrite Split, filter_app.
    rewrite filter_all_false by (intros x Hx; apply in_seq in Hx; apply R3; lia).
    cbn [app iterate]. destruct (r =? e) eqn:E.
    + apply Nat.eqb_eq in E. rewrite E, Nat.sub_diag. reflexivity.
    + apply Nat.eqb_neq in E.
      replace (e - r) with (S (e - S r)) by lia. cbn [seq filter].
      rewrite R4 by lia. cbn [fold_left].
      rewrite IH by lia. f_equal. apply filter_ext_in.
      intros x Hx. apply in_seq in Hx. apply body_later. lia.
Qed.

Lemma forEachSetBit_spec s :
  forEachSetBit data e body s =
  fold_left (fun s i => body i s) (filter (bitIn (data s)) (seq 0 e)) s.
Proof.
  unfold forEachSetBit. rewrite iterate_spec by lia.
  rewrite Nat.sub_0_r. reflexivity.
Qed.

End Loop.

(** *** Counting set bits *)

Lemma filter_length_ext (P Q : nat -> bool) l :
  (forall x, In x l -> P x = Q x) -> length (filter P l) = length (filter Q l).
Proof. intros H. rewrite (filter_ext_in P Q l H). reflexivity. Qed.

Lemma seq_as_map a n : seq a n = map (fun p => a + p) (seq 0 n).
Proof.
  revert a. induction n as [|n IH]; intros a; [reflexivity|].
  cbn [seq map]. rewrite Nat.add_0_r. f_equal.
  rewrite (IH (S a)), <- seq_shift, map_map. apply map_ext. intros p. lia.
Qed.

Lemma filter_seq_shift (P : nat -> bool) a n :
  filter P (seq a n) = map (fun p => a + p) (filter (fun p => P (a + p)) (seq 0 n)).
Proof. rewrite (seq_as_map a n). apply filter_map_swap. Qed.

(** The set bits of bucket [q], counted by [popcount]. *)
Lemma popcount_bucket data q :
  popcount (bucketAt data q) = length (filter (bitIn data) (seq (64 * q) 64)).
Proof.
  rewrite popcount_bitOf, (filter_seq_shift (bitIn data) (64 * q) 64), length_map.
  apply filter_length_ext. intros p Hp. apply in_seq in Hp.
  symmetry. apply bitIn_at. lia.
Qed.

Lemma popcount_loop data n acc :
  fold_left (fun acc k => acc + popcount (bucketAt data k)) (seq 0 n) acc
  = acc + rank data (64 * n).
Proof.
  unfold rank. induction n as [|n IH].
  - simpl. lia.
  - rewrite seq_S, fold_left_app, IH. cbn [fold_left Nat.add].
    replace (64 * S n) with (64 * n + 64) by lia.
    rewrite seq_app, filter_app, length_app, popcount_bucket. cbn [Nat.add]. lia.
Qed.

(** The part of a bucket that [getNumberOfSetBitsBeforeIndex] counts. *)
Lemma popcount_masked w k :
  0 < k < 64 -> popcount (Z.land (topMask k) w) = length (filter (bitOf w) (seq 0 k)).
Proof.
  intros Hk. rewrite popcount_bitOf.
  replace 64 with (k + (64 - k)) at 1 by lia.
  rewrite seq_app, filter_app, length_app.
  rewrite (@filter_all_false (bitOf (Z.land (topMask k) w)) (seq (0 + k) (64 - k))).
  - cbn [length]. rewrite Nat.add_0_r. apply filter_length_ext.
    intros p Hp. apply in_seq in Hp. rewrite bitOf_land, bitOf_topMask by lia.
    replace (p <? k) with true by (symmetry; apply Nat.ltb_lt; lia). reflexivity.
  - intros p Hp. apply in_seq in Hp. rewrite bitOf_land, bitOf_topMask by lia.
    replace (p <? k) with false by (symmetry; apply Nat.ltb_ge; lia). reflexivity.
Qed.

(** [getNumberOfSetBitsBeforeIndex] counts the set bits before the index. *)
Lemma getNumberOfSetBitsBeforeIndex_spec b i :
  getNumberOfSetBitsBeforeIndex b i = rank (bucketVector b) i.
Proof.
  unfold getNumberOfSetBitsBeforeIndex. rewrite popcount_loop, shiftr6, !land63.
  divmod64 i. cbn [Nat.add]. rewrite Nat.Div0.mod_mod.
  destruct (i mod 64 =? 0) eqn:E; cbn [negb].
  - apply Nat.eqb_eq in E. f_equal. lia.
  - apply Nat.eqb_neq in E.
    change (Word64.not (sub (shl 1 (64 - i mod 64)) 1)) with (topMask (i mod 64)).
    rewrite popcount_masked by lia. unfold rank.
    replace i with (64 * (i / 64) + i mod 64) at 4 by lia.
    rewrite seq_app, filter_app, length_app. f_equal.
    rewrite (filter_seq_shift (bitIn (bucketVector b)) (0 + 64 * (i / 64)) (i mod 64)), length_map.
    cbn [Nat.add].
    apply filter_length_ext. intros p Hp. apply in_seq in Hp.
    symmetry. apply bitIn_at. lia.
Qed.

Lemma setBits_eq b : setBits b = filter (bitIn (bucketVector b)) (seq 0 (bitCount b)).
Proof. unfold setBits. apply filter_ext. intros i. apply index_bitIn. Qed.

(** Under the invariant, [getNumberOfSetBits] is the number of set bits
    below the length. *)
Lemma getNumberOfSetBits_spec b : wf b -> getNumberOfSetBits b = length (setBits b).
Proof.
  intros [HS HT]. unfold getNumberOfSetBits.
  rewrite getNumberOfSetBitsBeforeIndex_spec, shiftl6, setBits_eq. unfold rank.
  pose proof (stored_covers HS) as Hc.
  replace (length (bucketVector b) * 64)
    with (bitCount b + (64 * length (bucketVector b) - bitCount b)) by lia.
  rewrite seq_app, filter_app, length_app.
  rewrite (@filter_all_false (bitIn (bucketVector b))
             (seq (0 + bitCount b) (64 * length (bucketVector b) - bitCount b))).
  - cbn [length]. lia.
  - intros i Hi. apply in_seq in Hi. rewrite <- index_bitIn. apply HT. lia.
Qed.

(** *** Positions in the list of set bits *)

Section Ranks.
Variable P : nat -> bool.
Variable n : nat.

Lemma filter_seq_split x :
  x < n -> P x = true ->
  filter P (seq 0 n) = filter P (seq 0 x) ++ x :: filter P (seq (S x) (n - S x)).
Proof.
  intros Hx Hp. replace n with (x + S (n - S x)) at 1 by lia.
  rewrite seq_app, filter_app. cbn [Nat.add seq filter]. rewrite Hp. reflexivity.
Qed.

(** A set bit sits in the list of set bits at the position given by the
    number of set bits before it. *)
Lemma nth_rank x d :
  x < n -> P x = true ->
  length (filter P (seq 0 x)) < length (filter P (seq 0 n)) /\
  nth (length (filter P (seq 0 x))) (filter P (seq 0 n)) d = x.
Proof.
  intros Hx Hp. rewrite (filter_seq_split Hx Hp). split.
  - rewrite length_app. cbn [length]. lia.
  - rewrite app_nth2 by lia. rewrite Nat.sub_diag. reflexivity.
Qed.

(** Conversely the element at position [p] is a set bit with [p] set bits
    before it. *)
Lemma rank_nth p d :
  p < length (filter P (seq 0 n)) ->
  let x := nth p (filter P (seq 0 n)) d in
  x < n /\ P x = true /\ length (filter P (seq 0 x)) = p.
Proof.
  intros Hp x.
  assert (Hin : In x (filter P (seq 0 n))) by (apply nth_In; exact Hp).
  apply filter_In in Hin. destruct Hin as [Hs Px]. apply in_seq in Hs.
  split; [lia|]. split; [exact Px|].
  destruct (@nth_rank x d ltac:(lia) Px) as [L E].
  assert (ND : NoDup (filter P (seq 0 n))) by (apply NoDup_filter, seq_NoDup).
  rewrite NoDup_nth with (d := d) in ND. apply ND; try assumption.
Qed.

End Ranks.

End BitVectorIteration.

(** ** [operator%] *)

Module BitVectorModulo.
Import Word64 Word64Facts BitVector BitVectorFacts BitVectorIteration.

(** The loop of the first branch: the set bits of the filter are numbered as
    they come, and the result gets the bits of [b] at those indices. *)
Lemma modByFilter_loop b L :
  forall pos res,
  wf res -> pos + length L <= bitCount res ->
  let st := fold_left
              (fun (st : nat * BitVector) bit =>
                 let '(position, result) := st in
                 (S position, if index b bit then set position true result else result))
              L (pos, res) in
  wf (snd st) /\ bitCount (snd st) = bitCount res /\
  forall p, index (snd st) p =
            index res p || ((pos <=? p) && (p <? pos + length L) && index b (nth (p - pos) L 0)).
Proof.
  induction L as [|x L IH]; intros pos res W Hl st; subst st.
  - cbn [fold_left snd length]. split; [exact W|]. split; [reflexivity|].
    intros p. destruct (pos <=? p) eqn:A; destruct (p <? pos + 0) eqn:B; cbn [andb];
      rewrite ?orb_false_r; try reflexivity.
    apply Nat.leb_le in A. apply Nat.ltb_lt in B. lia.
  - cbn [fold_left length] in *.
    set (res1 := if index b x then set pos true res else res).
    assert (W1 : wf res1).
    { unfold res1. destruct (index b x); [|exact W]. apply wf_set; [exact W|lia]. }
    assert (C1 : bitCount res1 = bitCount res).
    { unfold res1. destruct (index b x); [apply bitCount_set|reflexivity]. }
    assert (I1 : forall p, index res1 p = index res p || ((p =? pos) && index b x)).
    { intros p. unfold res1. destruct (index b x) eqn:E.
      - rewrite index_set.
        + destruct (p =? pos); [rewrite orb_true_r|rewrite orb_false_r]; reflexivity.
        + pose proof (stored_covers (proj1 W)). lia.
      - rewrite andb_false_r, orb_false_r. reflexivity. }
    destruct (IH (S pos) res1 W1 ltac:(lia)) as (W2 & C2 & I2).
    split; [exact W2|]. split; [congruence|].
    intros p. rewrite I2, I1.
    destruct (Nat.lt_trichotomy p pos) as [Lt|[Eq|Gt]].
    + replace (p =? pos) with false by (symmetry; apply Nat.eqb_neq; lia).
      replace (S pos <=? p) with false by (symmetry; apply Nat.leb_gt; lia).
      replace (pos <=? p) with false by (symmetry; apply Nat.leb_gt; lia).
      cbn [andb orb]. rewrite ?orb_false_r. reflexivity.
    + subst p. rewrite Nat.eqb_refl, Nat.sub_diag.
      replace (S pos <=? pos) with false by (symmetry; apply Nat.leb_gt; lia).
      replace (pos <=? pos) with true by (symmetry; apply Nat.leb_le; lia).
      replace (pos <? pos + S (length L)) with true by (symmetry; apply Nat.ltb_lt; lia).
      cbn [nth andb orb]. rewrite ?orb_false_r. reflexivity.
    + replace (p =? pos) with false by (symmetry; apply Nat.eqb_neq; lia).
      replace (S pos <=? p) with true by (symmetry; apply Nat.leb_le; lia).
      replace (pos <=? p) with true by (symmetry; apply Nat.leb_le; lia).
      replace (p - pos) with (S (p - S pos)) by lia.
      replace (pos + S (length L)) with (S pos + length L) by lia.
      cbn [nth andb orb]. rewrite ?orb_false_r. reflexivity.
Qed.

Lemma modByFilter_spec b filter :
  wf filter ->
  wf (modByFilter b filter) /\
  bitCount (modByFilter b filter) = length (setBits filter) /\
  forall p, p < length (setBits filter) ->
            index (modByFilter b filter) p = index b (nth p (setBits filter) 0).
Proof.
  intros Wf. unfold modByFilter.
  rewrite forEachSetBit_spec by reflexivity.
  rewrite <- setBits_eq, (getNumberOfSetBits_spec Wf).
  destruct (@modByFilter_loop b (setBits filter) 0 (zeros (length (setBits filter))))
    as (W & C & I); [apply wf_zeros|cbn; lia|].
  cbn zeta in *. split; [exact W|]. split; [exact C|].
  intros p Hp. rewrite I, index_zeros, Nat.sub_0_r. cbn [orb Nat.add Nat.leb andb].
  replace (p <? length (setBits filter)) with true by (symmetry; apply Nat.ltb_lt; exact Hp).
  reflexivity.
Qed.

(** The loop of the second branch: every set bit of [b] that the filter has
    too sets the bit of the result at its rank in the filter. *)
Lemma modBySelf_loop filter L :
  forall res,
  wf filter -> wf res -> bitCount res = length (setBits filter) ->
  (forall x, In x L -> x < bitCount filter) ->
  let res' := fold_left
                (fun result bit =>
                   if index filter bit
                   then set (getNumberOfSetBitsBeforeIndex filter bit) true result
                   else result)
                L res in
  wf res' /\ bitCount res' = bitCount res /\
  forall p, index res' p =
            index res p ||
            existsb (fun x => index filter x && (rank (bucketVector filter) x =? p)) L.
Proof.
  induction L as [|x L IH]; intros res Wf W HC HL res'; subst res'.
  - cbn [fold_left existsb]. split; [exact W|]. split; [reflexivity|].
    intros p. rewrite orb_false_r. reflexivity.
  - cbn [fold_left existsb].
    set (res1 := if index filter x
                 then set (getNumberOfSetBitsBeforeIndex filter x) true res else res).
    assert (Rk : index filter x = true ->
                 rank (bucketVector filter) x < length (setBits filter)).
    { intros E. rewrite setBits_eq. unfold rank.
      apply (@nth_rank (bitIn (bucketVector filter)) (bitCount filter) x 0).
      - apply HL. left. reflexivity.
      - rewrite <- index_bitIn. exact E. }
    assert (W1 : wf res1).
    { unfold res1. destruct (index filter x) eqn:E; [|exact W].
      apply wf_set; [exact W|]. rewrite getNumberOfSetBitsBeforeIndex_spec, HC.
      apply Rk. reflexivity. }
    assert (C1 : bitCount res1 = bitCount res).
    { unfold res1. destruct (index filter x); [apply bitCount_set|reflexivity]. }
    assert (I1 : forall p, index res1 p =
                           index res p || (index filter x && (rank (bucketVector filter) x =? p))).
    { intros p. unfold res1. destruct (index filter x) eqn:E.
      - rewrite index_set, getNumberOfSetBitsBeforeIndex_spec.
        + rewrite (Nat.eqb_sym p). cbn [andb].
          destruct (rank (bucketVector filter) x =? p);
            [rewrite orb_true_r|rewrite orb_false_r]; reflexivity.
        + rewrite getNumberOfSetBitsBeforeIndex_spec.
          pose proof (stored_covers (proj1 W)). specialize (Rk eq_refl). lia.
      - cbn [andb]. rewrite orb_false_r. reflexivity. }
    destruct (IH res1 Wf W1 ltac:(congruence)) as (W2 & C2 & I2).
    { intros y Hy. apply HL. right. exact Hy. }
    split; [exact W2|]. split; [congruence|].
    intros p. rewrite I2, I1, orb_assoc. reflexivity.
Qed.

Lemma modBySelf_spec b filter :
  wf filter -> bitCount b = bitCount filter ->
  wf (modBySelf b filter) /\
  bitCount (modBySelf b filter) = length (setBits filter) /\
  forall p, p < length (setBits filter) ->
            index (modBySelf b filter) p = index b (nth p (setBits filter) 0).
Proof.
  intros Wf HC. unfold modBySelf.
  rewrite forEachSetBit_spec by reflexivity.
  rewrite <- setBits_eq, (getNumberOfSetBits_spec Wf).
  destruct (@modBySelf_loop filter (setBits b) (zeros (length (setBits filter))))
    as (W & C & I); try assumption; [apply wf_zeros|reflexivity| |].
  { intros x Hx. unfold setBits in Hx. apply filter_In in Hx. destruct Hx as [Hx _].
    apply in_seq in Hx. lia. }
  cbn zeta in *. split; [exact W|]. split; [exact C|].
  intros p Hp. rewrite I, index_zeros. cbn [orb].
  rewrite setBits_eq in Hp.
  destruct (@rank_nth (bitIn (bucketVector filter)) (bitCount filter) p 0 Hp) as (X1 & X2 & X3).
  rewrite <- setBits_eq in *.
  set (x := nth p (setBits filter) 0) in *.
  apply eq_true_iff_eq. rewrite existsb_exists. split.
  - intros (y & Hy & Hb). apply andb_true_iff in Hb. destruct Hb as [Fy Ry].
    apply Nat.eqb_eq in Ry. unfold setBits in Hy. apply filter_In in Hy.
    destruct Hy as [Hy By]. apply in_seq in Hy.
    destruct (@nth_rank (bitIn (bucketVector filter)) (bitCount filter) y 0) as [_ N].
    { lia. } { rewrite <- index_bitIn. exact Fy. }
    fold (rank (bucketVector filter) y) in N. rewrite Ry, <- setBits_eq in N.
    fold x in N. rewrite N. exact By.
  - intros Bx. exists x. split.
    + unfold setBits. apply filter_In. split; [apply in_seq; lia|exact Bx].
    + rewrite index_bitIn, X2. cbn [andb]. apply Nat.eqb_eq. exact X3.
Qed.

(** C9.  For bit vectors [b] and [filter] of the same size, the two branches
    of [operator%] (the walk over the set bits of [filter] and the walk over
    the set bits of [b]) compute the same result, whichever the heuristic
    picks: a bit vector of length [filter.getNumberOfSetBits()] whose bit
    [i] is set exactly when the [i]-th set bit of [filter], in increasing
    order of the index, is set in [b]. *)
Theorem modulo_branches_agree b filter :
  wf filter -> bitCount b = bitCount filter ->
  modByFilter b filter = modBySelf b filter /\
  modulo b filter = modByFilter b filter /\
  bitCount (modulo b filter) = getNumberOfSetBits filter /\
  getNumberOfSetBits filter = length (setBits filter) /\
  forall i, i < getNumberOfSetBits filter ->
            get (modulo b filter) i = get b (nth i (setBits filter) 0).
Proof.
  intros Wf HC.
  destruct (@modByFilter_spec b filter Wf) as (W1 & C1 & I1).
  destruct (@modBySelf_spec b filter Wf HC) as (W2 & C2 & I2).
  assert (Eq : modByFilter b filter = modBySelf b filter).
  { apply wf_ext; try assumption; [congruence|].
    intros i Hi. rewrite C1 in Hi. rewrite I1, I2 by exact Hi. reflexivity. }
  assert (Em : modulo b filter = modByFilter b filter).
  { unfold modulo. destruct (_ <? _); [reflexivity|]. symmetry. exact Eq. }
  split; [exact Eq|]. split; [exact Em|].
  rewrite Em, (getNumberOfSetBits_spec Wf). split; [exact C1|]. split; [reflexivity|].
  intros i Hi. unfold get. apply I1. exact Hi.
Qed.

Lemma modulo_branches_agree_witness :
  wf exampleFilter /\ bitCount exampleVector = bitCount exampleFilter /\
  modByFilter exampleVector exampleFilter = modBySelf exampleVector exampleFilter /\
  modulo exampleVector exampleFilter = modByFilter exampleVector exampleFilter /\
  bitCount (modulo exampleVector exampleFilter) = getNumberOfSetBits exampleFilter /\
  getNumberOfSetBits exampleFilter = length (setBits exampleFilter) /\
  forall i, i < getNumberOfSetBits exampleFilter ->
            get (modulo exampleVector exampleFilter) i
            = get exampleVector (nth i (setBits exampleFilter) 0).
Proof.
  assert (W : wf exampleFilter) by (apply wfb_wf; vm_compute; reflexivity).
  assert (C : bitCount exampleVector = bitCount exampleFilter) by reflexivity.
  split; [exact W|]. split; [exact C|].
  exact (@modulo_branches_agree exampleVector exampleFilter W C).
Defined.

(** On the example the filter has six set bits, of which the second, the
    fourth and the sixth are set in the vector. *)
Example modulo_example :
  modulo exampleVector exampleFilter = fold_left (fun b i => set i true b) [1; 3; 5] (zeros 6).
Proof. vm_compute. reflexivity. Qed.

End BitVectorModulo.

(** ** Closing a Markov automaton *)

Module MarkovAutomatonFacts.
Import BitVector BitVectorFacts BitVectorIteration MarkovAutomaton.

(** *** Row group indices *)

Lemma list_sum_cons a l : list_sum (a :: l) = a + list_sum l.
Proof. reflexivity. Qed.

Lemma sum_firstn_S (l : list (list Row)) s :
  s < length l ->
  list_sum (map (@length Row) (firstn (S s) l)) =
  list_sum (map (@length Row) (firstn s l)) + length (nth s l []).
Proof.
  revert s. induction l as [|g l IH]; intros s Hs; simpl in Hs; [lia|].
  destruct s as [|s].
  - simpl. lia.
  - rewrite !firstn_cons. cbn [map nth]. rewrite !list_sum_cons, IH by lia. lia.
Qed.

Lemma getRowGroupIndex_S M s :
  s < getRowGroupCount M ->
  getRowGroupIndex M (S s) = getRowGroupIndex M s + getRowGroupSize M s.
Proof. apply sum_firstn_S. Qed.

Lemma getRowGroupIndex_mono M s t : s <= t -> getRowGroupIndex M s <= getRowGroupIndex M t.
Proof.
  unfold getRowGroupIndex. generalize (rowGroups M) as l. intros l. revert s t.
  induction l as [|g l IH]; intros s t H.
  - rewrite !firstn_nil. lia.
  - destruct s as [|s]; [simpl; lia|]. destruct t as [|t]; [lia|].
    rewrite !firstn_cons. cbn [map]. rewrite !list_sum_cons.
    specialize (IH s t ltac:(lia)). lia.
Qed.

Lemma getRowGroupIndex_all M : getRowGroupIndex M (getRowGroupCount M) = getRowCount M.
Proof. unfold getRowGroupIndex, getRowGroupCount, getRowCount. rewrite firstn_all. reflexivity. Qed.

(** The rows of a state lie before the rows of every later state and within
    the rows of the matrix. *)
Lemma group_before M s t :
  s < t -> t <= getRowGroupCount M ->
  getRowGroupIndex M s + getRowGroupSize M s <= getRowGroupIndex M t.
Proof.
  intros Hst Ht. rewrite <- getRowGroupIndex_S by lia.
  apply getRowGroupIndex_mono. lia.
Qed.

Lemma group_within M s :
  s < getRowGroupCount M ->
  getRowGroupIndex M s + getRowGroupSize M s <= getRowCount M.
Proof.
  intros Hs. rewrite <- getRowGroupIndex_all. apply group_before; lia.
Qed.

(** *** [checkIsClosed] *)

Lemma checkIsClosed_loop M L :
  forall returned,
  fold_left
    (fun (returned : option bool) state =>
       match returned with
       | Some v => Some v
       | None => if 1 <? getRowGroupSize M state then Some false else None
       end) L returned =
  match returned with
  | Some v => Some v
  | None => if forallb (fun state => negb (1 <? getRowGroupSize M state)) L
            then None else Some false
  end.
Proof.
  induction L as [|s L IH]; intros [v|]; cbn [fold_left forallb]; try reflexivity.
  - rewrite IH. reflexivity.
  - rewrite IH. destruct (1 <? getRowGroupSize M s); reflexivity.
Qed.

(** [checkIsClosed] holds exactly when no Markovian state has more than one
    choice. *)
Lemma checkIsClosed_spec m :
  checkIsClosed m =
  forallb (fun state => negb (1 <? getRowGroupSize (transitionMatrix m) state))
          (setBits (markovianStates m)).
Proof.
  unfold checkIsClosed. rewrite forEachSetBit_spec by reflexivity.
  rewrite <- setBits_eq, checkIsClosed_loop.
  destruct (forallb _ _); reflexivity.
Qed.

Lemma checkIsClosed_true m :
  checkIsClosed m = true <->
  forall state, state < bitCount (markovianStates m) ->
                isMarkovianState m state = true ->
                getRowGroupSize (transitionMatrix m) state <= 1.
Proof.
  rewrite checkIsClosed_spec, forallb_forall. unfold setBits, isMarkovianState, get. split.
  - intros H s Hs Hm. specialize (H s). rewrite filter_In, in_seq in H.
    specialize (H (conj (conj (Nat.le_0_l _) Hs) Hm)).
    apply negb_true_iff, Nat.ltb_ge in H. exact H.
  - intros H s Hs. apply filter_In in Hs. destruct Hs as [Hs Hm]. apply in_seq in Hs.
    apply negb_true_iff, Nat.ltb_ge. apply H; [lia|exact Hm].
Qed.

(** *** The loop of [close] *)

Lemma closeStep_later M i st j :
  i < j -> bitIn (bucketVector (markovian (closeStep M i st))) j
           = bitIn (bucketVector (markovian st)) j.
Proof.
  intros H. unfold closeStep. destruct (1 <? getRowGroupSize M i); [|reflexivity].
  cbn [markovian]. rewrite <- !index_bitIn. apply index_set_other. lia.
Qed.

Lemma close_loop M L :
  forall st,
  wf (markovian st) -> wf (keptChoices st) ->
  (forall s, In s L -> s < bitCount (markovian st)) ->
  (forall s, In s L -> 1 < getRowGroupSize M s ->
             getRowGroupIndex M s < bitCount (keptChoices st)) ->
  let st' := fold_left (fun st i => closeStep M i st) L st in
  wf (markovian st') /\ bitCount (markovian st') = bitCount (markovian st) /\
  wf (keptChoices st') /\ bitCount (keptChoices st') = bitCount (keptChoices st) /\
  (forall s, index (markovian st') s =
             index (markovian st) s &&
             negb (existsb (fun h => (1 <? getRowGroupSize M h) && (h =? s)) L)) /\
  (forall r, index (keptChoices st') r =
             index (keptChoices st) r &&
             negb (existsb (fun h => (1 <? getRowGroupSize M h) && (getRowGroupIndex M h =? r)) L)).
Proof.
  induction L as [|h L IH]; intros st Wm Wk Hin Hidx st'; subst st'.
  - cbn [fold_left existsb negb]. repeat split; try assumption; try apply Wm; try apply Wk.
    + intros s. rewrite andb_true_r. reflexivity.
    + intros r. rewrite andb_true_r. reflexivity.
  - cbn [fold_left existsb].
    assert (Wm1 : wf (markovian (closeStep M h st))).
    { unfold closeStep. destruct (1 <? _); [|exact Wm]. cbn [markovian].
      apply wf_set; [exact Wm|]. apply Hin. left. reflexivity. }
    assert (Cm1 : bitCount (markovian (closeStep M h st)) = bitCount (markovian st)).
    { unfold closeStep. destruct (1 <? _); [|reflexivity]. apply bitCount_set. }
    assert (Wk1 : wf (keptChoices (closeStep M h st))).
    { unfold closeStep. destruct (1 <? _) eqn:E; [|exact Wk]. cbn [keptChoices].
      apply wf_set; [exact Wk|]. apply Hidx; [left; reflexivity|].
      apply Nat.ltb_lt. exact E. }
    assert (Ck1 : bitCount (keptChoices (closeStep M h st)) = bitCount (keptChoices st)).
    { unfold closeStep. destruct (1 <? _); [|reflexivity]. apply bitCount_set. }
    destruct (IH (closeStep M h st) Wm1 Wk1) as (A1 & A2 & A3 & A4 & A5 & A6).
    { intros s Hs. rewrite Cm1. apply Hin. right. exact Hs. }
    { intros s Hs Hg. rewrite Ck1. apply Hidx; [right; exact Hs|exact Hg]. }
    split; [exact A1|]. split; [congruence|]. split; [exact A3|]. split; [congruence|].
    split.
    + intros s. rewrite A5. unfold closeStep.
      destruct (1 <? getRowGroupSize M h) eqn:E; cbn [markovian andb orb].
      * destruct (Nat.eq_dec s h) as [->|Hne].
        -- rewrite Nat.eqb_refl. cbn [orb negb]. rewrite !andb_false_r.
           rewrite index_set.
           ++ rewrite Nat.eqb_refl. reflexivity.
           ++ pose proof (stored_covers (proj1 Wm)).
              specialize (Hin h (or_introl eq_refl)). lia.
        -- rewrite index_set_other by exact Hne.
           replace (h =? s) with false by (symmetry; apply Nat.eqb_neq; congruence).
           reflexivity.
      * reflexivity.
    + intros r. rewrite A6. unfold closeStep.
      destruct (1 <? getRowGroupSize M h) eqn:E; cbn [keptChoices andb orb].
      * destruct (Nat.eq_dec r (getRowGroupIndex M h)) as [->|Hne].
        -- rewrite Nat.eqb_refl. cbn [orb negb]. rewrite !andb_false_r.
           rewrite index_set.
           ++ rewrite Nat.eqb_refl. reflexivity.
           ++ pose proof (stored_covers (proj1 Wk)).
              specialize (Hidx h (or_introl eq_refl)). apply Nat.ltb_lt in E.
              specialize (Hidx E). lia.
        -- rewrite index_set_other by exact Hne.
           replace (getRowGroupIndex M h =? r) with false
             by (symmetry; apply Nat.eqb_neq; congruence).
           reflexivity.
      * reflexivity.
Qed.

Lemma forallb_false_witness (A : Type) (f : A -> bool) l :
  forallb f l = false -> exists x, In x l /\ f x = false.
Proof.
  induction l as [|x l IH]; cbn [forallb]; [discriminate|].
  destruct (f x) eqn:E; cbn [andb].
  - intros H. destruct (IH H) as (y & Hy & Fy). exists y. split; [right; exact Hy|exact Fy].
  - intros _. exists x. split; [left; reflexivity|exact E].
Qed.

Lemma existsb_false_forall (A : Type) (f : A -> bool) l :
  existsb f l = false <-> forall x, In x l -> f x = false.
Proof.
  split.
  - intros H x Hx. destruct (f x) eqn:E; [|reflexivity].
    rewrite <- H. symmetry. apply existsb_exists. exists x. split; assumption.
  - intros H. destruct (existsb f l) eqn:E; [|reflexivity].
    apply existsb_exists in E. destruct E as (x & Hx & Fx). rewrite (H x Hx) in Fx. discriminate.
Qed.

(** *** [close] *)

Section CloseCorrect.
Variable build : MarkovAutomaton -> BitVector -> BitVector -> bool -> MarkovAutomaton.
Hypothesis contract : subsystemContract build.

(** The automaton that [close] returns. *)
Lemma close_result m :
  wellFormed m ->
  exists m', close build m = Some m' /\
    isClosed m' = true /\ checkIsClosed m' = true /\
    forall state, state < getNumberOfStates m' -> isMarkovianState m' state = true ->
                  getRowGroupSize (transitionMatrix m') state = 1.
Proof.
  intros (Wm & Cn & Hsz & Hcl). unfold close. destruct (closed m) eqn:Ec; cbn [negb].
  - exists m. split; [reflexivity|]. split; [exact Ec|]. split; [congruence|].
    intros s Hs Hm. symmetry in Hcl. rewrite checkIsClosed_true in Hcl.
    specialize (Hcl s ltac:(lia) Hm). specialize (Hsz s Hs). lia.
  - destruct (make_spec (getNumberOfChoices m) true) as (k0 & E & Wk0 & Ck0 & Ik0).
    rewrite E. rewrite forEachSetBit_spec by (intros; apply closeStep_later; assumption).
    cbn [markovian]. rewrite <- setBits_eq.
    set (M := transitionMatrix m) in *. set (L := setBits (markovianStates m)).
    assert (Cn' : bitCount (markovianStates m) = getRowGroupCount M) by exact Cn.
    assert (Hsz' : forall s, s < getRowGroupCount M -> 1 <= getRowGroupSize M s) by exact Hsz.
    assert (Nc : getNumberOfChoices m = getRowCount M) by reflexivity.
    assert (InL : forall s, In s L <-> s < bitCount (markovianStates m) /\
                                       index (markovianStates m) s = true).
    { intros s. unfold L, setBits. rewrite filter_In, in_seq. split; intros [A B]; split; auto; lia. }
    destruct (@close_loop M L (mkCloseState k0 (markovianStates m) (exitRates m)))
      as (A1 & A2 & A3 & A4 & A5 & A6); cbn [markovian keptChoices] in *; try assumption.
    { intros s Hs. apply InL in Hs. apply Hs. }
    { intros s Hs Hg. apply InL in Hs. rewrite Ck0.
      pose proof (@group_within M s ltac:(lia)). lia. }
    set (st' := fold_left (fun st i => closeStep M i st) L
                  (mkCloseState k0 (markovianStates m) (exitRates m))) in *.
    (* a Markovian state that survives the loop has one choice, which is kept *)
    assert (Surv : forall s, s < getRowGroupCount M -> index (markovian st') s = true ->
                             getRowGroupSize M s = 1 /\
                             index (keptChoices st') (getRowGroupIndex M s) = true).
    { intros s Hs Hm. rewrite A5 in Hm. apply andb_true_iff in Hm. destruct Hm as [Hm Hx].
      apply negb_true_iff in Hx. rewrite existsb_false_forall in Hx.
      assert (HsL : In s L) by (apply InL; split; [lia|exact Hm]).
      pose proof (Hx s HsL) as Hxs. rewrite Nat.eqb_refl, andb_true_r in Hxs.
      apply Nat.ltb_ge in Hxs. pose proof (Hsz' s Hs) as Hs1.
      assert (S1 : getRowGroupSize M s = 1) by lia. split; [exact S1|].
      rewrite A6. apply andb_true_iff. split.
      - apply Ik0. pose proof (@group_within M s Hs). lia.
      - apply negb_true_iff, existsb_false_forall. intros h Hh.
        destruct (1 <? getRowGroupSize M h) eqn:Eh; [|reflexivity]. cbn [andb].
        apply Nat.eqb_neq. apply Nat.ltb_lt in Eh. apply InL in Hh. destruct Hh as [Hh _].
        destruct (Nat.lt_trichotomy h s) as [Lt|[Eq|Gt]].
        + pose proof (@group_before M h s Lt ltac:(lia)). lia.
        + subst h. lia.
        + pose proof (@group_before M s h Gt ltac:(lia)). lia. }
    (* the automaton was not closed, so there are choices and [full] returns *)
    assert (NZ : bitCount (keptChoices st') <> 0).
    { rewrite A4, Ck0. symmetry in Hcl. rewrite checkIsClosed_spec in Hcl.
      apply forallb_false_witness in Hcl. destruct Hcl as (h & Hh & Eh).
      apply negb_false_iff, Nat.ltb_lt in Eh. apply InL in Hh. destruct Hh as [Hh _].
      change (transitionMatrix m) with M in Eh.
      pose proof (@group_within M h ltac:(lia)). lia. }
    destruct (full_spec A3 NZ) as (v & Ev & _). rewrite Ev.
    destruct v; cbn [negb].
    + eexists. split; [reflexivity|]. cbn [isClosed closed].
      split; [reflexivity|].
      assert (One : forall state, state < getRowGroupCount M ->
                 index (markovian st') state = true -> getRowGroupSize M state = 1).
      { intros s Hs Hm. apply (Surv s Hs Hm). }
      split.
      * apply checkIsClosed_true. cbn [markovianStates transitionMatrix isMarkovianState].
        intros s Hs Hm. unfold get in Hm. rewrite A2 in Hs.
        rewrite (One s) by (lia || assumption). lia.
      * intros s Hs Hm. apply One; assumption.
    + destruct (make_spec (getNumberOfStates
                  (mkMarkovAutomaton M (markovian st') (rates st') false)) true)
        as (allStates & E2 & _). rewrite E2.
      set (m1 := mkMarkovAutomaton M (markovian st') (rates st') false) in *.
      destruct (contract m1 allStates (keptChoices st') false) as (W2 & C2 & Hst).
      { exact A1. }
      { cbn. rewrite A2. exact Cn. }
      cbn zeta in *. set (m2 := build m1 allStates (keptChoices st') false) in *.
      eexists. split; [reflexivity|]. cbn [isClosed closed]. split; [reflexivity|].
      assert (One : forall state, state < getNumberOfStates m2 ->
                 isMarkovianState m2 state = true ->
                 getRowGroupSize (transitionMatrix m2) state = 1).
      { intros s' Hs' Hm'. destruct (Hst s' Hs') as (s & Hs & Em & Eg).
        rewrite Em in Hm'. unfold isMarkovianState, get in Hm'. cbn in Hm', Hs.
        destruct (Surv s Hs Hm') as [S1 K1].
        rewrite Eg. unfold keptInGroup. cbn [transitionMatrix m1]. rewrite S1.
        cbn [seq filter]. rewrite K1. reflexivity. }
      split.
      * apply checkIsClosed_true. cbn [markovianStates transitionMatrix].
        intros s Hs Hm. rewrite C2 in Hs. rewrite (One s Hs Hm). lia.
      * intros s Hs Hm. apply One; assumption.
Qed.

End CloseCorrect.

(** The builder that keeps the selected choices of every state is a
    subsystem builder. *)
Lemma keepChoices_contract : subsystemContract keepChoices.
Proof.
  intros m states choices k Wm Cn m'. subst m'. unfold keepChoices. cbn zeta.
  unfold getNumberOfStates, getRowGroupCount, isMarkovianState.
  cbn [transitionMatrix rowGroups markovianStates].
  rewrite length_map, length_seq.
  split; [exact Wm|]. split; [exact Cn|].
  intros s Hs. exists s. split; [exact Hs|]. split; [reflexivity|].
  unfold getRowGroupSize at 1. cbn [transitionMatrix rowGroups].
  set (g := fun state => map (fun row => getRow (transitionMatrix m) row)
              (filter (index choices)
                 (seq (getRowGroupIndex (transitionMatrix m) state)
                      (getRowGroupSize (transitionMatrix m) state)))).
  rewrite nth_indep with (d' := g 0) by (rewrite length_map, length_seq; exact Hs).
  rewrite (map_nth g), seq_nth by exact Hs. unfold g. rewrite length_map. reflexivity.
Qed.


Lemma hybridExample_wellFormed : wellFormed hybridExample.
Proof.
  split; [apply wfb_wf; vm_compute; reflexivity|]. split; [reflexivity|]. split.
  - intros state Hs. change (getNumberOfStates hybridExample) with 2 in Hs.
    destruct state as [|[|state]]; cbn; lia.
  - vm_compute. reflexivity.
Qed.

(** On the example, [close] drops the Markovian choice of the hybrid state. *)
Example close_hybridExample :
  close keepChoices hybridExample =
  Some (mkMarkovAutomaton
          (mkSparseMatrix [ [ [(0, 1%Q)] ]; [ [(1, 1%Q)] ] ])
          (zeros 2) [0%Q; 0%Q] true).
Proof. vm_compute. reflexivity. Qed.


End MarkovAutomatonFacts.

(** ** The constructors of a Markov automaton *)

Module MarkovAutomatonRates.
Import BitVector MarkovAutomaton MarkovAutomatonFacts.

(** The row with index [getRowGroupIndex M state + k] is the choice [k] of
    the state. *)
Lemma nth_concat_group (groups : list (list Row)) state k :
  k < length (nth state groups []) ->
  nth (list_sum (map (@length Row) (firstn state groups)) + k) (concat groups) []
  = nth k (nth state groups []) [].
Proof.
  revert state. induction groups as [|g groups IH]; intros state Hk.
  - destruct state; simpl in Hk; lia.
  - destruct state as [|state].
    + cbn [firstn map list_sum nth concat Nat.add] in *.
      rewrite app_nth1 by exact Hk. reflexivity.
    + rewrite firstn_cons. cbn [map nth concat] in *. rewrite list_sum_cons.
      rewrite app_nth2 by lia.
      replace (length g + list_sum (map (@length Row) (firstn state groups)) + k - length g)
        with (list_sum (map (@length Row) (firstn state groups)) + k) by lia.
      apply IH. exact Hk.
Qed.

Lemma getRow_choice M state k :
  k < getRowGroupSize M state ->
  nth (getRowGroupIndex M state + k) (allRows M) [] = choiceRow M state k.
Proof. apply nth_concat_group. Qed.

Lemma nth_setRowAt_other row r rows j :
  j <> row -> nth j (setRowAt row r rows) [] = nth j rows [].
Proof.
  revert row j. induction rows as [|x rows IH]; intros row j Hne.
  - destruct row; reflexivity.
  - destruct row as [|row]; destruct j as [|j]; cbn [setRowAt nth]; try reflexivity.
    + contradiction.
    + apply IH. lia.
Qed.

Lemma ratesLoop_thrown M markovianStates assertRates states e :
  ratesLoop M markovianStates assertRates states (inl e) = inl e.
Proof. induction states as [|s states IH]; [reflexivity|exact IH]. Qed.

(** A row that is checked and does not sum to one makes the check fail. *)
Lemma checkProbabilisticRows_fails rows row next r :
  row <= r < next -> isOne (rowSumOf (nth r rows [])) = false ->
  checkProbabilisticRows rows row next = false.
Proof.
  intros Hr Hbad. unfold checkProbabilisticRows.
  destruct (forallb _ _) eqn:E; [|reflexivity].
  rewrite forallb_forall in E. rewrite <- Hbad. symmetry. apply E. apply in_seq. lia.
Qed.

Section Rejection.

Variable M : SparseMatrix.
Variable markovianStates : BitVector.
Variable assertRates : bool.
Variables state k : nat.

Hypothesis choices : forall s, s < getRowGroupCount M -> 1 <= getRowGroupSize M s.
Hypothesis inRange : state < getRowGroupCount M.
Hypothesis isChoice : k < getRowGroupSize M state.
Hypothesis probabilistic : probabilisticChoice markovianStates state k = true.
Hypothesis lossy : isOne (rowSumOf (choiceRow M state k)) = false.

(** The body of the loop throws at the state of the choice, when the rows of
    that state are still those of the matrix. *)
Lemma ratesStep_rejects rows rates :
  (forall r, getRowGroupIndex M state <= r -> nth r rows [] = nth r (allRows M) []) ->
  ratesStep M markovianStates assertRates state (rows, rates) = inl InvalidArgumentException.
Proof.
  intros Same. unfold ratesStep.
  pose proof (getRowGroupIndex_S M inRange) as Next.
  set (row := getRowGroupIndex M state) in *.
  assert (Bad : isOne (rowSumOf (nth (row + k) rows [])) = false).
  { rewrite Same by lia. unfold row. rewrite getRow_choice by exact isChoice. exact lossy. }
  unfold probabilisticChoice in probabilistic.
  destruct (get markovianStates state) eqn:Mk.
  - cbn [negb orb] in probabilistic. apply Nat.leb_le in probabilistic.
    destruct (assertRates && _); [reflexivity|].
    match goal with |- context [checkProbabilisticRows ?rows' _ _] =>
      rewrite (@checkProbabilisticRows_fails rows' (S row) _ (row + k)) end.
    + reflexivity.
    + lia.
    + rewrite nth_setRowAt_other by lia. exact Bad.
  - destruct (assertRates && _); [reflexivity|].
    rewrite (@checkProbabilisticRows_fails rows row _ (row + k)); [reflexivity|lia|exact Bad].
Qed.

(** The body of the loop leaves the rows of the later states alone. *)
Lemma ratesStep_later s rows rates rows' rates' :
  s < getRowGroupCount M ->
  ratesStep M markovianStates assertRates s (rows, rates) = inr (rows', rates') ->
  forall r, getRowGroupIndex M (S s) <= r -> nth r rows' [] = nth r rows [].
Proof.
  intros Hs H r Hr. pose proof (getRowGroupIndex_S M Hs) as Next.
  pose proof (choices Hs) as One. unfold ratesStep in H.
  destruct (get markovianStates s).
  - destruct (assertRates && _); [discriminate|].
    destruct (checkProbabilisticRows _ _ _); [|discriminate].
    match type of H with inr (?a, _) = _ => assert (E : rows' = a) by congruence end.
    rewrite E. apply nth_setRowAt_other. lia.
  - destruct (assertRates && _); [discriminate|].
    destruct (checkProbabilisticRows _ _ _); [|discriminate].
    assert (E : rows' = rows) by congruence.
    rewrite E. reflexivity.
Qed.

Lemma ratesLoop_rejects count : forall s rows rates,
  s <= state < s + count -> s + count <= getRowGroupCount M ->
  (forall r, getRowGroupIndex M s <= r -> nth r rows [] = nth r (allRows M) []) ->
  ratesLoop M markovianStates assertRates (seq s count) (inr (rows, rates))
  = inl InvalidArgumentException.
Proof.
  induction count as [|count IH]; intros s rows rates Hs Hn Same; [lia|].
  cbn [seq]. unfold ratesLoop. cbn [fold_left].
  fold (ratesLoop M markovianStates assertRates (seq (S s) count)).
  destruct (Nat.eq_dec s state) as [->|Hne].
  - rewrite ratesStep_rejects by exact Same. apply ratesLoop_thrown.
  - destruct (ratesStep M markovianStates assertRates s (rows, rates))
      as [[]|[rows' rates']] eqn:Step.
    + apply ratesLoop_thrown.
    + apply IH; [lia|lia|].
      intros r Hr.
      transitivity (nth r rows []);
        [exact (@ratesStep_later s rows rates rows' rates' ltac:(lia) Step r Hr)|].
      apply Same. pose proof (@getRowGroupIndex_mono M s (S s) ltac:(lia)). lia.
Qed.

End Rejection.

(** [turnRatesToProbabilities] throws when some probabilistic choice does
    not sum to one. *)
Lemma turnRatesToProbabilities_rejects m state k :
  (forall s, s < getNumberOfStates m -> 1 <= getRowGroupSize (transitionMatrix m) s) ->
  state < getNumberOfStates m ->
  k < getRowGroupSize (transitionMatrix m) state ->
  probabilisticChoice (markovianStates m) state k = true ->
  isOne (rowSumOf (choiceRow (transitionMatrix m) state k)) = false ->
  turnRatesToProbabilities m = inl InvalidArgumentException.
Proof.
  intros Hc Hs Hk Hp Hbad. unfold turnRatesToProbabilities.
  destruct (negb _ && negb _); [reflexivity|].
  rewrite (@ratesLoop_rejects (transitionMatrix m) (markovianStates m) _ state k
             Hc Hs Hk Hp Hbad (getNumberOfStates m) 0); try reflexivity;
    unfold getNumberOfStates in *; lia.
Qed.

Lemma fromComponents_rejects components state k :
  rateTransitions components = true ->
  (forall s, s < getRowGroupCount (componentsTransitionMatrix components) ->
             1 <= getRowGroupSize (componentsTransitionMatrix components) s) ->
  state < getRowGroupCount (componentsTransitionMatrix components) ->
  k < getRowGroupSize (componentsTransitionMatrix components) state ->
  probabilisticChoice (componentsMarkovianStates components) state k = true ->
  isOne (rowSumOf (choiceRow (componentsTransitionMatrix components) state k)) = false ->
  fromComponents components = inl InvalidArgumentException.
Proof.
  intros Hr Hc Hs Hk Hp Hbad. unfold fromComponents. rewrite Hr.
  rewrite (@turnRatesToProbabilities_rejects _ state k); try assumption. reflexivity.
Qed.

(** Without [rateTransitions] the constructor checks no row. *)
Lemma fromComponents_unchecked components :
  rateTransitions components = false ->
  exists m, fromComponents components = inr m /\
            transitionMatrix m = componentsTransitionMatrix components.
Proof.
  intros Hr. unfold fromComponents. rewrite Hr. eexists. split; reflexivity.
Qed.

End MarkovAutomatonRates.

(** ** State elimination: rows *)

Module EliminationRows.
Import StateElimination.
Local Open Scope Q_scope.

Lemma simplify_correct v : simplify v == v.
Proof. apply Qred_correct. Qed.

(** *** Containers *)

Lemma length_setRow i r M : length (setRow i r M) = length M.
Proof.
  revert i. induction M as [|r0 M IH]; intros [|i]; simpl; try reflexivity.
  rewrite IH. reflexivity.
Qed.

Lemma getRow_setRow_same i r M : (i < length M)%nat -> getRow (setRow i r M) i = r.
Proof.
  unfold getRow. revert i. induction M as [|r0 M IH]; intros [|i] H; simpl in *; try lia.
  - reflexivity.
  - apply IH. lia.
Qed.

Lemma getRow_setRow_other i j r M : i <> j -> getRow (setRow i r M) j = getRow M j.
Proof.
  unfold getRow. revert i j. induction M as [|r0 M IH]; intros [|i] [|j] H; simpl;
    try reflexivity; try congruence.
  apply IH. congruence.
Qed.

Lemma getRow_nonempty M i : getRow M i <> [] -> (i < length M)%nat.
Proof.
  unfold getRow. intros H. destruct (Nat.lt_ge_cases i (length M)) as [L|L]; [exact L|].
  rewrite nth_overflow in H by exact L. congruence.
Qed.

Lemma length_setValue i v l : length (setValue i v l) = length l.
Proof.
  revert i. induction l as [|v0 l IH]; intros [|i]; simpl; try reflexivity.
  rewrite IH. reflexivity.
Qed.

Lemma valueAt_setValue_same i v l : (i < length l)%nat -> valueAt (setValue i v l) i = v.
Proof.
  unfold valueAt. revert i. induction l as [|v0 l IH]; intros [|i] H; simpl in *; try lia.
  - reflexivity.
  - apply IH. lia.
Qed.

Lemma valueAt_setValue_other i j v l : i <> j -> valueAt (setValue i v l) j = valueAt l j.
Proof.
  unfold valueAt. revert i j. induction l as [|v0 l IH]; intros [|i] [|j] H; simpl;
    try reflexivity; try congruence.
  apply IH. congruence.
Qed.

(** *** The value of a row *)

Lemma rowValue_ext row x y :
  (forall c, In c (columns row) -> x c == y c) -> rowValue row x == rowValue row y.
Proof.
  induction row as [|[c w] row IH]; intros H; cbn [rowValue]; [reflexivity|].
  rewrite (H c) by (left; reflexivity). rewrite IH; [reflexivity|].
  intros c' Hc'. apply H. right. exact Hc'.
Qed.

Lemma columns_dropColumn s row c :
  In c (columns (dropColumn s row)) <-> In c (columns row) /\ c <> s.
Proof.
  unfold columns, dropColumn. rewrite !in_map_iff. split.
  - intros ([c' w] & Hc & Hin). apply filter_In in Hin. destruct Hin as [Hin Hne].
    cbn [fst] in *. subst c'. apply negb_true_iff, Nat.eqb_neq in Hne.
    split; [exists (c, w); split; [reflexivity|exact Hin]|exact Hne].
  - intros [([c' w] & Hc & Hin) Hne]. cbn [fst] in *. subst c'.
    exists (c, w). split; [reflexivity|]. apply filter_In. split; [exact Hin|].
    cbn [fst]. apply negb_true_iff, Nat.eqb_neq. exact Hne.
Qed.

Lemma dropColumn_cons s c w row :
  dropColumn s ((c, w) :: row) =
  if (c =? s)%nat then dropColumn s row else (c, w) :: dropColumn s row.
Proof. unfold dropColumn. cbn [filter fst]. destruct (c =? s)%nat; reflexivity. Qed.

(** A sorted row has at most one entry per target. *)
Lemma sorted_tail c w row : sortedRow ((c, w) :: row) -> sortedRow row.
Proof. intros H. inversion H; subst. assumption. Qed.

Lemma sorted_head c w row c' :
  sortedRow ((c, w) :: row) -> In c' (columns row) -> (c < c')%nat.
Proof.
  intros H Hin. inversion H as [|? ? _ HF]; subst.
  rewrite Forall_forall in HF. apply HF. exact Hin.
Qed.

Lemma findEntry_none s row : findEntry s row = None <-> ~ In s (columns row).
Proof.
  induction row as [|[c w] row IH]; cbn [findEntry columns map fst In].
  - split; [intros _ []|reflexivity].
  - destruct (c =? s)%nat eqn:E.
    + apply Nat.eqb_eq in E. split; [discriminate|]. intros H. exfalso. apply H. left. exact E.
    + apply Nat.eqb_neq in E. rewrite IH. unfold columns. tauto.
Qed.

Lemma dropColumn_absent s row : ~ In s (columns row) -> dropColumn s row = row.
Proof.
  induction row as [|[c w] row IH]; intros H; [reflexivity|].
  rewrite dropColumn_cons. cbn [columns map fst In] in H.
  replace (c =? s)%nat with false by (symmetry; apply Nat.eqb_neq; tauto).
  f_equal. apply IH. tauto.
Qed.

(** The value of a sorted row splits into the entry for [s] and the rest. *)
Lemma rowValue_split s row x :
  sortedRow row ->
  rowValue row x ==
  match findEntry s row with Some L => L | None => 0 end * x s
  + rowValue (dropColumn s row) x.
Proof.
  induction row as [|[c w] row IH]; intros HS.
  - cbn. ring.
  - rewrite dropColumn_cons. cbn [rowValue findEntry].
    destruct (c =? s)%nat eqn:E.
    + apply Nat.eqb_eq in E. subst c.
      rewrite dropColumn_absent; [reflexivity|].
      intros Hin. pose proof (@sorted_head _ _ _ _ HS Hin). lia.
    + cbn [rowValue]. rewrite (IH (@sorted_tail _ _ _ HS)). ring.
Qed.

Lemma eraseEntry_sorted s row :
  sortedRow row -> eraseEntry s row = dropColumn s row.
Proof.
  induction row as [|[c w] row IH]; intros HS; [reflexivity|].
  rewrite dropColumn_cons. cbn [eraseEntry]. destruct (c =? s)%nat eqn:E.
  - apply Nat.eqb_eq in E. subst c. symmetry. apply dropColumn_absent.
    intros Hin. pose proof (@sorted_head _ _ _ _ HS Hin). lia.
  - f_equal. apply IH. exact (@sorted_tail _ _ _ HS).
Qed.

Lemma dropColumn_idem s row : dropColumn s (dropColumn s row) = dropColumn s row.
Proof.
  apply dropColumn_absent. rewrite columns_dropColumn. tauto.
Qed.

Lemma columns_scaleOthers s f row : columns (scaleOthers s f row) = columns row.
Proof.
  unfold columns, scaleOthers. rewrite map_map. apply map_ext.
  intros [c w]. cbn [fst]. destruct (c =? s)%nat; reflexivity.
Qed.

Lemma dropColumn_scaleOthers s f row :
  dropColumn s (scaleOthers s f row) = scaleOthers s f (dropColumn s row).
Proof.
  induction row as [|[c w] row IH]; [reflexivity|].
  rewrite (dropColumn_cons s c w row). unfold scaleOthers at 1. cbn [map fst snd].
  fold (scaleOthers s f row).
  destruct (c =? s)%nat eqn:E.
  - rewrite dropColumn_cons, E. exact IH.
  - rewrite dropColumn_cons, E. unfold scaleOthers at 2. cbn [map fst snd].
    fold (scaleOthers s f (dropColumn s row)). rewrite E. f_equal. exact IH.
Qed.

Lemma rowValue_scaled s f row x :
  ~ In s (columns row) -> rowValue (scaleOthers s f row) x == f * rowValue row x.
Proof.
  induction row as [|[c w] row IH]; intros H; cbn [scaleOthers map rowValue fst snd].
  - ring.
  - cbn [columns map fst In] in H.
    replace (c =? s)%nat with false by (symmetry; apply Nat.eqb_neq; tauto).
    cbn [rowValue]. fold (scaleOthers s f row). rewrite IH by tauto.
    rewrite simplify_correct. ring.
Qed.

(** *** The merge *)

(** The value of the merged row: the predecessor's row without the
    eliminated state plus [m] times the row of the eliminated state without
    it. *)
Lemma mergeRows_nil_nil s m : mergeRows s m [] [] = [].
Proof. reflexivity. Qed.

Lemma mergeRows_nil_cons s m c2 w2 row2 :
  mergeRows s m [] ((c2, w2) :: row2) =
  if (c2 =? s)%nat then mergeRows s m [] row2
  else (c2, simplify (m * w2)) :: mergeRows s m [] row2.
Proof. reflexivity. Qed.

Lemma mergeRows_cons_nil s m c1 w1 row1 :
  mergeRows s m ((c1, w1) :: row1) [] =
  if (c1 =? s)%nat then mergeRows s m row1 []
  else (c1, w1) :: mergeRows s m row1 [].
Proof. reflexivity. Qed.

Lemma mergeRows_cons_cons s m c1 w1 row1 c2 w2 row2 :
  mergeRows s m ((c1, w1) :: row1) ((c2, w2) :: row2) =
  if (c1 =? s)%nat then mergeRows s m row1 ((c2, w2) :: row2)
  else if (c2 =? s)%nat then mergeRows s m ((c1, w1) :: row1) row2
  else if (c1 <? c2)%nat then (c1, w1) :: mergeRows s m row1 ((c2, w2) :: row2)
  else if (c2 <? c1)%nat then (c2, simplify (m * w2)) :: mergeRows s m ((c1, w1) :: row1) row2
  else (c1, simplify (w1 + simplify (m * w2))) :: mergeRows s m row1 row2.
Proof. reflexivity. Qed.

Lemma rowValue_mergeRows s m row1 row2 x :
  rowValue (mergeRows s m row1 row2) x ==
  rowValue (dropColumn s row1) x + m * rowValue (dropColumn s row2) x.
Proof.
  revert row2. induction row1 as [|[c1 w1] row1 IH1].
  - induction row2 as [|[c2 w2] row2 IH2].
    + cbn. ring.
    + rewrite mergeRows_nil_cons, dropColumn_cons. destruct (c2 =? s)%nat.
      * exact IH2.
      * cbn [rowValue]. rewrite IH2, simplify_correct. cbn [dropColumn filter rowValue]. ring.
  - induction row2 as [|[c2 w2] row2 IH2].
    + rewrite mergeRows_cons_nil, dropColumn_cons. destruct (c1 =? s)%nat.
      * rewrite IH1. reflexivity.
      * cbn [rowValue]. rewrite IH1. cbn [dropColumn filter rowValue]. ring.
    + rewrite mergeRows_cons_cons, (dropColumn_cons s c1), (dropColumn_cons s c2).
      destruct (c1 =? s)%nat eqn:E1.
      * rewrite IH1, dropColumn_cons. reflexivity.
      * destruct (c2 =? s)%nat eqn:E2.
        -- rewrite IH2, dropColumn_cons, E1. reflexivity.
        -- destruct (c1 <? c2)%nat eqn:L1.
           ++ cbn [rowValue]. rewrite IH1, dropColumn_cons, E2. cbn [rowValue]. ring.
           ++ destruct (c2 <? c1)%nat eqn:L2.
              ** cbn [rowValue]. rewrite IH2, dropColumn_cons, E1, simplify_correct.
                 cbn [rowValue]. ring.
              ** apply Nat.ltb_ge in L1, L2. assert (c1 = c2) by lia. subst c2.
                 cbn [rowValue]. rewrite IH1, !simplify_correct. ring.
Qed.

Lemma sorted_cons c w row :
  sortedRow row -> (forall c', In c' (columns row) -> (c < c')%nat) ->
  sortedRow ((c, w) :: row).
Proof.
  intros HS H. unfold sortedRow. cbn [columns map fst]. constructor; [exact HS|].
  apply Forall_forall. exact H.
Qed.

Lemma columns_mergeRows s m row1 row2 c :
  In c (columns (mergeRows s m row1 row2)) ->
  (In c (columns row1) \/ In c (columns row2)) /\ c <> s.
Proof.
  revert row2. induction row1 as [|[c1 w1] row1 IH1].
  - induction row2 as [|[c2 w2] row2 IH2].
    + intros [].
    + rewrite mergeRows_nil_cons. destruct (c2 =? s)%nat eqn:E2.
      * intros H. destruct (IH2 H) as [[[]|H2] Hne]. cbn [columns map fst In] in *. tauto.
      * apply Nat.eqb_neq in E2. cbn [columns map fst In]. intros [->|H]; [tauto|].
        destruct (IH2 H) as [[[]|H2] Hne]. unfold columns in *. tauto.
  - induction row2 as [|[c2 w2] row2 IH2].
    + rewrite mergeRows_cons_nil. destruct (c1 =? s)%nat eqn:E1.
      * intros H. destruct (IH1 _ H) as [[H1|[]] Hne]. cbn [columns map fst In] in *. tauto.
      * apply Nat.eqb_neq in E1. cbn [columns map fst In]. intros [->|H]; [tauto|].
        destruct (IH1 _ H) as [[H1|[]] Hne]. unfold columns in *. tauto.
    + rewrite mergeRows_cons_cons.
      destruct (c1 =? s)%nat eqn:E1; [|destruct (c2 =? s)%nat eqn:E2;
        [|destruct (c1 <? c2)%nat eqn:L1; [|destruct (c2 <? c1)%nat eqn:L2]]];
        rewrite ?Nat.eqb_neq in *; cbn [columns map fst In] in *.
      * intros H. destruct (IH1 _ H) as [HH Hne]. cbn [columns map fst In] in HH. tauto.
      * intros H. destruct (IH2 H) as [HH Hne]. tauto.
      * intros [->|H]; [tauto|]. destruct (IH1 _ H) as [HH Hne].
        cbn [columns map fst In] in HH. tauto.
      * intros [->|H]; [tauto|]. destruct (IH2 H) as [HH Hne]. tauto.
      * intros [->|H]; [tauto|]. destruct (IH1 _ H) as [HH Hne]. tauto.
Qed.

(** The merge of two sorted rows is sorted. *)
Lemma sorted_mergeRows s m row1 row2 :
  sortedRow row1 -> sortedRow row2 -> sortedRow (mergeRows s m row1 row2).
Proof.
  revert row2. induction row1 as [|[c1 w1] row1 IH1].
  - induction row2 as [|[c2 w2] row2 IH2]; intros H1 H2.
    + constructor.
    + rewrite mergeRows_nil_cons. pose proof (IH2 H1 (@sorted_tail _ _ _ H2)) as T.
      destruct (c2 =? s)%nat; [exact T|]. apply sorted_cons; [exact T|].
      intros c' Hc'. apply columns_mergeRows in Hc'. destruct Hc' as [[[]|Hc'] _].
      exact (@sorted_head _ _ _ _ H2 Hc').
  - induction row2 as [|[c2 w2] row2 IH2]; intros H1 H2.
    + rewrite mergeRows_cons_nil. pose proof (IH1 [] (@sorted_tail _ _ _ H1) H2) as T.
      destruct (c1 =? s)%nat; [exact T|]. apply sorted_cons; [exact T|].
      intros c' Hc'. apply columns_mergeRows in Hc'. destruct Hc' as [[Hc'|[]] _].
      exact (@sorted_head _ _ _ _ H1 Hc').
    + rewrite mergeRows_cons_cons.
      destruct (c1 =? s)%nat eqn:E1; [|destruct (c2 =? s)%nat eqn:E2;
        [|destruct (c1 <? c2)%nat eqn:L1; [|destruct (c2 <? c1)%nat eqn:L2]]].
      * apply IH1; [exact (@sorted_tail _ _ _ H1)|exact H2].
      * apply IH2; [exact H1|exact (@sorted_tail _ _ _ H2)].
      * apply Nat.ltb_lt in L1. apply sorted_cons.
        -- apply IH1; [exact (@sorted_tail _ _ _ H1)|exact H2].
        -- intros c' Hc'. apply columns_mergeRows in Hc'. destruct Hc' as [[Hc'|Hc'] _].
           ++ exact (@sorted_head _ _ _ _ H1 Hc').
           ++ cbn [columns map fst In] in Hc'. destruct Hc' as [<-|Hc']; [exact L1|].
              pose proof (@sorted_head _ _ _ _ H2 Hc'). lia.
      * apply Nat.ltb_lt in L2. apply sorted_cons.
        -- apply IH2; [exact H1|exact (@sorted_tail _ _ _ H2)].
        -- intros c' Hc'. apply columns_mergeRows in Hc'. destruct Hc' as [[Hc'|Hc'] _].
           ++ cbn [columns map fst In] in Hc'. destruct Hc' as [<-|Hc']; [exact L2|].
              pose proof (@sorted_head _ _ _ _ H1 Hc'). lia.
           ++ exact (@sorted_head _ _ _ _ H2 Hc').
      * apply Nat.ltb_ge in L1, L2. assert (c1 = c2) by lia. subst c2. apply sorted_cons.
        -- apply IH1; [exact (@sorted_tail _ _ _ H1)|exact (@sorted_tail _ _ _ H2)].
        -- intros c' Hc'. apply columns_mergeRows in Hc'. destruct Hc' as [[Hc'|Hc'] _].
           ++ exact (@sorted_head _ _ _ _ H1 Hc').
           ++ exact (@sorted_head _ _ _ _ H2 Hc').
Qed.

Lemma findEntry_mergeRows s m row1 row2 : findEntry s (mergeRows s m row1 row2) = None.
Proof.
  apply findEntry_none. intros H. apply columns_mergeRows in H. tauto.
Qed.

Lemma sorted_dropColumn s row : sortedRow row -> sortedRow (dropColumn s row).
Proof.
  induction row as [|[c w] row IH]; intros HS; [constructor|].
  rewrite dropColumn_cons. pose proof (IH (@sorted_tail _ _ _ HS)) as T.
  destruct (c =? s)%nat; [exact T|]. apply sorted_cons; [exact T|].
  intros c' Hc'. apply columns_dropColumn in Hc'. destruct Hc' as [Hc' _].
  exact (@sorted_head _ _ _ _ HS Hc').
Qed.

Lemma sorted_scaleOthers s f row : sortedRow row -> sortedRow (scaleOthers s f row).
Proof. unfold sortedRow. rewrite columns_scaleOthers. tauto. Qed.

(** *** Predecessor lists *)

Lemma unionRows_nil_l row2 : unionRows [] row2 = row2.
Proof. destruct row2; reflexivity. Qed.

Lemma unionRows_nil_r row1 : unionRows row1 [] = row1.
Proof. destruct row1 as [|[c w] r]; reflexivity. Qed.

Lemma unionRows_cons_cons c1 w1 row1 c2 w2 row2 :
  unionRows ((c1, w1) :: row1) ((c2, w2) :: row2) =
  if (c1 <? c2)%nat then (c1, w1) :: unionRows row1 ((c2, w2) :: row2)
  else if (c2 <? c1)%nat then (c2, w2) :: unionRows ((c1, w1) :: row1) row2
  else (c1, w1) :: unionRows row1 row2.
Proof. reflexivity. Qed.

(** The union lists every predecessor of either list. *)
Lemma columns_unionRows row1 row2 c :
  In c (columns row1) \/ In c (columns row2) -> In c (columns (unionRows row1 row2)).
Proof.
  revert row2. induction row1 as [|[c1 w1] row1 IH1].
  - intros row2 [[]|H]. rewrite unionRows_nil_l. exact H.
  - induction row2 as [|[c2 w2] row2 IH2].
    + intros [H|[]]. rewrite unionRows_nil_r. exact H.
    + rewrite unionRows_cons_cons. intros H.
      destruct (c1 <? c2)%nat eqn:L1; [|destruct (c2 <? c1)%nat eqn:L2].
      * cbn [columns map fst In] in *. destruct H as [[->|H]|H]; [tauto| |].
        -- right. apply IH1. left. exact H.
        -- right. apply IH1. right. exact H.
      * cbn [columns map fst In] in *. destruct H as [H|[->|H]]; [|tauto|].
        -- right. apply IH2. left. exact H.
        -- right. apply IH2. right. exact H.
      * apply Nat.ltb_ge in L1, L2. assert (c1 = c2) by lia. subst c2.
        cbn [columns map fst In] in *. destruct H as [[->|H]|[->|H]]; try tauto.
        -- right. apply IH1. left. exact H.
        -- right. apply IH1. right. exact H.
Qed.

Lemma columns_eraseEntry s row c :
  In c (columns row) -> c <> s -> In c (columns (eraseEntry s row)).
Proof.
  induction row as [|[c0 w] row IH]; intros H Hne; [destruct H|].
  cbn [eraseEntry]. cbn [columns map fst In] in H.
  destruct (c0 =? s)%nat eqn:E.
  - apply Nat.eqb_eq in E. destruct H as [->|H]; [congruence|exact H].
  - cbn [columns map fst In]. destruct H as [->|H]; [tauto|]. right. apply IH; assumption.
Qed.

End EliminationRows.

(** ** State elimination: one state *)

Module EliminationStep.
Import StateElimination EliminationRows.
Local Open Scope Q_scope.

(** *** Steps 1 and 2: the self-loop *)

(** Solving the equation of a state for its own value. *)
Lemma loop_equation (xs b L D : Q) :
  ~ L == 1 ->
  (xs == b + (L * xs + D) <-> xs == b * (1 / (1 - L)) + (1 / (1 - L)) * D).
Proof.
  intros HL. assert (NZ : ~ 1 - L == 0) by (intros C; apply HL; lra).
  split; intros H.
  - assert (K : xs * (1 - L) == b + D) by lra.
    transitivity ((xs * (1 - L)) * (1 / (1 - L))); [field; exact NZ|].
    rewrite K. field. exact NZ.
  - assert (K : xs * (1 - L) == b + D).
    { rewrite H. field. exact NZ. }
    lra.
Qed.

Lemma eliminateLoop_spec s flag row0 values row values' :
  eliminateLoop s flag row0 values = Some (row, values') ->
  sortedRow row0 -> (s < length values)%nat ->
  sortedRow row /\
  columns (dropColumn s row) = columns (dropColumn s row0) /\
  (flag = false -> ~ In s (columns row)) /\
  length values' = length values /\
  (forall i, i <> s -> valueAt values' i = valueAt values i) /\
  (forall x, x s == valueAt values s + rowValue row0 x <->
             x s == valueAt values' s + rowValue (dropColumn s row) x).
Proof.
  unfold eliminateLoop. intros H HS Hs.
  set (row1 := if flag then row0 else eraseEntry s row0) in *.
  assert (S1 : sortedRow row1).
  { unfold row1. destruct flag; [exact HS|]. rewrite eraseEntry_sorted by exact HS.
    apply sorted_dropColumn. exact HS. }
  assert (D1 : dropColumn s row1 = dropColumn s row0).
  { unfold row1. destruct flag; [reflexivity|]. rewrite eraseEntry_sorted by exact HS.
    apply dropColumn_idem. }
  assert (F1 : flag = false -> ~ In s (columns row1)).
  { intros ->. unfold row1. rewrite eraseEntry_sorted by exact HS.
    rewrite columns_dropColumn. tauto. }
  assert (Plain : forall L, L == 0 ->
            match findEntry s row0 with Some L' => L' | None => 0 end == L ->
            forall x, x s == valueAt values s + rowValue row0 x <->
                      x s == valueAt values s + rowValue (dropColumn s row1) x).
  { intros L HL HE x. rewrite D1, (rowValue_split s x HS), HE, HL. split; intros K; lra. }
  destruct (findEntry s row0) as [L|] eqn:EL.
  - destruct (Qeq_bool L 0) eqn:E0.
    + apply Qeq_bool_iff in E0. match type of H with Some (?a, ?b) = _ =>
        assert (Er : row = a) by congruence; assert (Ev : values' = b) by congruence end.
      subst row values'. clear H.
      repeat split; try assumption; try (rewrite D1; reflexivity);
        try (apply (Plain L E0); reflexivity).
    + destruct (Qeq_bool L 1) eqn:E1; [discriminate|].
      apply Qeq_bool_neq in E1.
      match type of H with Some (?a, ?b) = _ =>
        assert (Er : row = a) by congruence; assert (Ev : values' = b) by congruence end.
      subst row values'. clear H.
      set (f := simplify (1 / (1 - L))).
      split; [apply sorted_scaleOthers; exact S1|].
      split; [rewrite dropColumn_scaleOthers, columns_scaleOthers, D1; reflexivity|].
      split; [intros Hf; rewrite columns_scaleOthers; apply F1; exact Hf|].
      split; [apply length_setValue|].
      split; [intros i Hi; apply valueAt_setValue_other; congruence|].
      intros x. rewrite valueAt_setValue_same by exact Hs.
      rewrite dropColumn_scaleOthers, D1.
      rewrite rowValue_scaled by (rewrite columns_dropColumn; tauto).
      rewrite (rowValue_split s x HS), EL.
      rewrite (simplify_correct (valueAt values s * f)). unfold f.
      rewrite (simplify_correct (1 / (1 - L))).
      apply loop_equation. exact E1.
  - match type of H with Some (?a, ?b) = _ =>
      assert (Er : row = a) by congruence; assert (Ev : values' = b) by congruence end.
    subst row values'. clear H.
    repeat split; try assumption; try (rewrite D1; reflexivity).
    + apply (Plain 0); [reflexivity|reflexivity].
    + apply (Plain 0); [reflexivity|reflexivity].
Qed.

(** *** Step 3: the predecessors *)

Lemma findEntry_some_bound s M p m : findEntry s (getRow M p) = Some m -> (p < length M)%nat.
Proof.
  intros H. apply getRow_nonempty. intros C. rewrite C in H. discriminate.
Qed.

(** The loop over the predecessors, when it runs through: every listed
    predecessor is listed once, has a transition into the eliminated state,
    and gets the merged row and the updated value; nothing else changes. *)
Lemma eliminateInPredecessors_spec s row preds :
  forall M values M' values',
  eliminateInPredecessors s row preds (M, values) = Some (M', values') ->
  ~ In s preds -> length values = length M ->
  length M' = length M /\ length values' = length values /\
  NoDup preds /\
  (forall i, ~ In i preds ->
             getRow M' i = getRow M i /\ valueAt values' i = valueAt values i) /\
  (forall i, In i preds ->
     exists m, findEntry s (getRow M i) = Some m /\
       getRow M' i = mergeRows s m (getRow M i) row /\
       valueAt values' i = simplify (valueAt values i + simplify (m * valueAt values s))).
Proof.
  induction preds as [|p rest IH]; intros M values M' values' H Hs HL.
  - cbn [eliminateInPredecessors] in H.
    assert (M' = M) by congruence. assert (values' = values) by congruence. subst.
    repeat split; try reflexivity; [constructor|]. intros i [].
  - cbn [eliminateInPredecessors eliminateInPredecessor] in H.
    destruct (findEntry s (getRow M p)) as [m|] eqn:Em; [|discriminate].
    pose proof (@findEntry_some_bound _ _ _ _ Em) as Hp.
    assert (Hps : p <> s) by (intros ->; apply Hs; left; reflexivity).
    set (M1 := setRow p (mergeRows s m (getRow M p) row) M) in *.
    set (v1 := setValue p (simplify (valueAt values p + simplify (m * valueAt values s)))
                 values) in *.
    destruct (IH M1 v1 M' values' H) as (L1 & L2 & ND & Out & In1).
    { intros C. apply Hs. right. exact C. }
    { unfold M1, v1. rewrite length_setRow, length_setValue. exact HL. }
    assert (Hnp : ~ In p rest).
    { intros C. destruct (In1 p C) as (m' & Em' & _).
      unfold M1 in Em'. rewrite getRow_setRow_same in Em' by exact Hp.
      rewrite findEntry_mergeRows in Em'. discriminate. }
    unfold M1, v1 in L1, L2. rewrite length_setRow in L1. rewrite length_setValue in L2.
    split; [exact L1|]. split; [exact L2|]. split; [constructor; assumption|]. split.
    + intros i Hi. assert (Hip : i <> p) by (intros ->; apply Hi; left; reflexivity).
      destruct (Out i) as [O1 O2]; [intros C; apply Hi; right; exact C|].
      rewrite O1, O2. unfold M1, v1.
      rewrite getRow_setRow_other, valueAt_setValue_other by congruence. split; reflexivity.
    + intros i [<-|Hi].
      * exists m. split; [exact Em|]. destruct (Out p Hnp) as [O1 O2].
        rewrite O1, O2. unfold M1, v1.
        rewrite getRow_setRow_same by exact Hp.
        rewrite valueAt_setValue_same by (rewrite HL; exact Hp). split; reflexivity.
      * assert (Hip : i <> p) by (intros ->; exact (Hnp Hi)).
        destruct (In1 i Hi) as (m' & Em' & R & V). unfold M1, v1 in *.
        rewrite getRow_setRow_other in Em', R by congruence.
        rewrite !valueAt_setValue_other in V by congruence.
        exists m'. repeat split; assumption.
Qed.

(** *** Step 4: the predecessor lists of the successors *)

Lemma updateSuccessors_length s flag newPreds succs :
  forall B, length (updateSuccessors s flag newPreds succs B) = length B.
Proof.
  unfold updateSuccessors. induction succs as [|t succs IH]; intros B; [reflexivity|].
  cbn [fold_left]. rewrite IH. apply length_setRow.
Qed.

Lemma updateSuccessors_other s flag newPreds succs :
  forall B t, ~ In t succs -> getRow (updateSuccessors s flag newPreds succs B) t = getRow B t.
Proof.
  unfold updateSuccessors. induction succs as [|t0 succs IH]; intros B t Ht; [reflexivity|].
  cbn [fold_left]. rewrite IH by (intros C; apply Ht; right; exact C).
  apply getRow_setRow_other. intros ->. apply Ht. left. reflexivity.
Qed.

(** A predecessor other than the eliminated state stays listed. *)
Lemma updateSuccessors_keeps s flag newPreds succs :
  forall B t c,
  (forall t', In t' succs -> (t' < length B)%nat) ->
  In c (columns (getRow B t)) -> c <> s ->
  In c (columns (getRow (updateSuccessors s flag newPreds succs B) t)).
Proof.
  unfold updateSuccessors. induction succs as [|t0 succs IH]; intros B t c Hb Hc Hne;
    [exact Hc|].
  cbn [fold_left]. apply IH.
  - intros t' Ht'. rewrite length_setRow. apply Hb. right. exact Ht'.
  - destruct (Nat.eq_dec t t0) as [->|Hn].
    + rewrite getRow_setRow_same by (apply Hb; left; reflexivity).
      apply columns_unionRows. left. destruct flag; [|exact Hc].
      apply columns_eraseEntry; assumption.
    + rewrite getRow_setRow_other by congruence. exact Hc.
  - exact Hne.
Qed.

(** The predecessors of the eliminated state become predecessors of its
    successors. *)
Lemma updateSuccessors_adds s flag newPreds succs :
  forall B t c,
  (forall t', In t' succs -> (t' < length B)%nat) ->
  In t succs -> In c (columns newPreds) -> c <> s ->
  In c (columns (getRow (updateSuccessors s flag newPreds succs B) t)).
Proof.
  induction succs as [|t0 succs IH]; intros B t c Hb Ht Hc Hne; [destruct Ht|].
  change (updateSuccessors s flag newPreds (t0 :: succs) B)
    with (updateSuccessors s flag newPreds succs
            (setRow t0 (unionRows (if flag then eraseEntry s (getRow B t0) else getRow B t0)
                          newPreds) B)).
  assert (Hb' : forall t', In t' succs ->
            (t' < length (setRow t0 (unionRows (if flag then eraseEntry s (getRow B t0)
                                                else getRow B t0) newPreds) B))%nat).
  { intros t' Ht'. rewrite length_setRow. apply Hb. right. exact Ht'. }
  destruct (Nat.eq_dec t t0) as [->|Hn].
  - apply updateSuccessors_keeps; [exact Hb'| |exact Hne].
    rewrite getRow_setRow_same by (apply Hb; left; reflexivity).
    apply columns_unionRows. right. exact Hc.
  - apply IH; try assumption. destruct Ht as [->|Ht]; [congruence|exact Ht].
Qed.

(** *** The parts of [eliminateState] *)

Lemma filter_none (A : Type) (f : A -> bool) l : (forall x, f x = false) -> filter f l = [].
Proof.
  intros H. induction l as [|x l IH]; [reflexivity|]. cbn [filter]. rewrite H. exact IH.
Qed.

Lemma eliminateState_parts s flag E E' :
  eliminateState s flag None E = Some E' ->
  exists row values M2 values2,
    eliminateLoop s flag (getRow (matrix E) s) (oneStepProbabilities E) = Some (row, values) /\
    eliminateInPredecessors s row (columns (dropColumn s (getRow (backward E) s)))
      (setRow s row (matrix E), values) = Some (M2, values2) /\
    E' = mkElimination
           (if flag then setRow s [] M2 else M2)
           (setRow s []
              (updateSuccessors s flag (dropColumn s (getRow (backward E) s))
                 (columns (dropColumn s row)) (backward E)))
           values2.
Proof.
  unfold eliminateState. intros H.
  destruct (eliminateLoop s flag (getRow (matrix E) s) (oneStepProbabilities E))
    as [[row values]|] eqn:EL; [|discriminate].
  assert (T : filter (fun entry : nat * Q => negb (fst entry =? s)%nat && true)
                (getRow (backward E) s) = dropColumn s (getRow (backward E) s)).
  { unfold dropColumn. apply filter_ext. intros e. apply andb_true_r. }
  assert (K : filter (fun entry : nat * Q => negb (fst entry =? s)%nat && negb true)
                (getRow (backward E) s) = []).
  { apply filter_none. intros e. apply andb_false_r. }
  rewrite T, K in H. fold (columns (dropColumn s (getRow (backward E) s))) in H.
  destruct (eliminateInPredecessors s row _ _) as [[M2 values2]|] eqn:EP; [|discriminate].
  exists row, values, M2, values2. split; [reflexivity|]. split; [exact EP|].
  fold (dropColumn s row) in H. fold (columns (dropColumn s row)) in H. congruence.
Qed.

(** *** One elimination *)

(** Eliminating a live state with [removeForwardTransitions] keeps the data
    consistent on the remaining states, and the equations of reachability
    before and after have the same solutions on them. *)
Lemma eliminateState_step n live E s E' :
  consistent n live E -> live s ->
  eliminateState s true None E = Some E' ->
  consistent n (fun i => live i /\ i <> s) E' /\
  (forall x, solves live E x -> solves (fun i => live i /\ i <> s) E' x) /\
  (forall y, solves (fun i => live i /\ i <> s) E' y ->
     exists x, solves live E x /\ forall i, i <> s -> x i = y i).
Proof.
  intros [cm cb cv cl cs ct cli] Hs H.
  destruct (@eliminateState_parts _ _ _ _ H) as (row & values & M2 & values2 & EL & EP & ->).
  clear H. pose proof (cl s Hs) as Hsn.
  destruct (@eliminateLoop_spec _ _ _ _ _ _ EL (cs s Hs) ltac:(lia))
    as (Srow & Dcols & _ & Lv & Vo & LoopEq).
  set (M := matrix E) in *. set (B := backward E) in *.
  set (b := oneStepProbabilities E) in *.
  set (treated := dropColumn s (getRow B s)) in *.
  destruct (@eliminateInPredecessors_spec _ _ _ _ _ _ _ EP) as (L1 & L2 & ND & Out & In1).
  { unfold treated. rewrite columns_dropColumn. tauto. }
  { rewrite length_setRow. lia. }
  rewrite length_setRow in L1.
  (* the rows and values of the remaining states *)
  assert (Pred : forall i, live i -> i <> s -> In i (columns treated) ->
            exists m, findEntry s (getRow M i) = Some m /\
              getRow (setRow s [] M2) i = mergeRows s m (getRow M i) row /\
              valueAt values2 i == valueAt b i + m * valueAt values s).
  { intros i Hi Hne Hin. destruct (In1 i Hin) as (m & Em & R & V).
    rewrite getRow_setRow_other in Em, R by congruence.
    exists m. split; [exact Em|]. split.
    - rewrite getRow_setRow_other by congruence. exact R.
    - rewrite V, simplify_correct, simplify_correct, (Vo i Hne). reflexivity. }
  assert (Other : forall i, live i -> i <> s -> ~ In i (columns treated) ->
            getRow (setRow s [] M2) i = getRow M i /\
            valueAt values2 i = valueAt b i /\
            ~ In s (columns (getRow M i))).
  { intros i Hi Hne Hin. destruct (Out i Hin) as [R V].
    rewrite getRow_setRow_other in R by congruence.
    split; [rewrite getRow_setRow_other by congruence; exact R|].
    split; [rewrite V; apply Vo; exact Hne|].
    intros C. apply Hin. unfold treated. rewrite columns_dropColumn.
    split; [apply cli; assumption|exact Hne]. }
  assert (RowCols : forall c, In c (columns (dropColumn s row)) -> live c /\ c <> s).
  { intros c Hc. rewrite Dcols in Hc. apply columns_dropColumn in Hc.
    destruct Hc as [Hc Hne]. split; [apply (ct s c Hs Hc)|exact Hne]. }
  assert (Split : forall i m x, live i -> findEntry s (getRow M i) = Some m ->
            rowValue (getRow M i) x == m * x s + rowValue (dropColumn s (getRow M i)) x).
  { intros i m x Hi Em. rewrite (rowValue_split s x (cs i Hi)), Em. reflexivity. }
  split; [|split].
  - (* consistency *)
    assert (Targets : forall i c, live i /\ i <> s ->
              In c (columns (getRow (setRow s [] M2) i)) ->
              (live c /\ c <> s) /\
              (In c (columns (dropColumn s row)) /\ In i (columns treated)
               \/ In c (columns (getRow M i)))).
    { intros i c [Hi Hne] Hc.
      destruct (in_dec Nat.eq_dec i (columns treated)) as [Hin|Hin].
      - destruct (Pred i Hi Hne Hin) as (m & Em & R & V). rewrite R in Hc.
        apply columns_mergeRows in Hc. destruct Hc as [[Hc|Hc] Hcs].
        + split; [split; [apply (ct i c Hi Hc)|exact Hcs]|right; exact Hc].
        + assert (Hd : In c (columns (dropColumn s row)))
            by (apply columns_dropColumn; split; assumption).
          split; [apply RowCols; exact Hd|left; split; assumption].
      - destruct (Other i Hi Hne Hin) as (R & V & Ns). rewrite R in Hc.
        split; [split; [apply (ct i c Hi Hc)|intros ->; exact (Ns Hc)]|right; exact Hc]. }
    constructor; cbn [matrix backward oneStepProbabilities].
    + rewrite length_setRow. lia.
    + rewrite length_setRow, updateSuccessors_length. exact cb.
    + lia.
    + intros i [Hi _]. apply cl. exact Hi.
    + intros i [Hi Hne]. destruct (in_dec Nat.eq_dec i (columns treated)) as [Hin|Hin].
      * destruct (Pred i Hi Hne Hin) as (m & Em & R & V). rewrite R.
        apply sorted_mergeRows; [apply cs; exact Hi|exact Srow].
      * destruct (Other i Hi Hne Hin) as (R & V & Ns). rewrite R. apply cs. exact Hi.
    + intros i c Hi Hc. apply (Targets i c Hi Hc).
    + intros i c Hi Hc. destruct (Targets i c Hi Hc) as [[Hlc Hcs] Src].
      rewrite getRow_setRow_other by congruence.
      assert (Bound : forall t, In t (columns (dropColumn s row)) -> (t < length B)%nat).
      { intros t Ht. rewrite cb. apply cl. apply RowCols. exact Ht. }
      destruct Src as [[Hc1 Hi1]|Hc2].
      * apply updateSuccessors_adds; try assumption. apply Hi.
      * apply updateSuccessors_keeps; try assumption; [|apply Hi].
        apply cli; [apply Hi|exact Hc2].
  - (* a solution before is a solution after *)
    intros x Hx i [Hi Hne]. cbn [matrix oneStepProbabilities].
    destruct (in_dec Nat.eq_dec i (columns treated)) as [Hin|Hin].
    + destruct (Pred i Hi Hne Hin) as (m & Em & R & V).
      rewrite R, V, rowValue_mergeRows.
      pose proof (Hx i Hi) as Hxi. fold M b in Hxi. rewrite (Split i m x Hi Em) in Hxi.
      pose proof (proj1 (LoopEq x) (Hx s Hs)) as Hxs.
      rewrite Hxi. rewrite Hxs at 1. ring.
    + destruct (Other i Hi Hne Hin) as (R & V & Ns). rewrite R, V. apply Hx. exact Hi.
  - (* a solution after extends to a solution before *)
    intros y Hy.
    set (x := fun i => if (i =? s)%nat
                       then valueAt values s + rowValue (dropColumn s row) y else y i).
    assert (Xo : forall i, i <> s -> x i = y i).
    { intros i Hne. unfold x. replace (i =? s)%nat with false; [reflexivity|].
      symmetry. apply Nat.eqb_neq. exact Hne. }
    assert (Xs : x s = valueAt values s + rowValue (dropColumn s row) y).
    { unfold x. rewrite Nat.eqb_refl. reflexivity. }
    assert (Same : forall r, ~ In s (columns r) -> rowValue r x == rowValue r y).
    { intros r Hr. apply rowValue_ext. intros c Hc. rewrite Xo; [reflexivity|].
      intros ->. exact (Hr Hc). }
    exists x. split; [|exact Xo]. intros i Hi.
    destruct (Nat.eq_dec i s) as [->|Hne].
    + apply (proj2 (LoopEq x)). rewrite Same by (rewrite columns_dropColumn; tauto).
      rewrite Xs. reflexivity.
    + pose proof (Hy i (conj Hi Hne)) as Hyi. cbn [matrix oneStepProbabilities] in Hyi.
      rewrite (Xo i Hne). fold M b.
      destruct (in_dec Nat.eq_dec i (columns treated)) as [Hin|Hin].
      * destruct (Pred i Hi Hne Hin) as (m & Em & R & V).
        rewrite R, V, rowValue_mergeRows in Hyi.
        rewrite (Split i m x Hi Em), Xs.
        rewrite Same by (rewrite columns_dropColumn; tauto).
        rewrite Hyi. ring.
      * destruct (Other i Hi Hne Hin) as (R & V & Ns). rewrite R, V in Hyi.
        rewrite Same by exact Ns. exact Hyi.
Qed.

End EliminationStep.

(** ** State elimination: the engine *)

Module EliminationEngine.
Import StateElimination EliminationRows EliminationStep.
Local Open Scope Q_scope.

(** *** Changing the description of the live states *)

Lemma consistent_ext n live1 live2 E :
  (forall i, live1 i <-> live2 i) -> consistent n live1 E -> consistent n live2 E.
Proof.
  intros H [cm cb cv cl cs ct cli]. constructor; try assumption.
  - intros i Hi. apply cl, H, Hi.
  - intros i Hi. apply cs, H, Hi.
  - intros i c Hi Hc. apply H. apply (ct i c); [apply H; exact Hi|exact Hc].
  - intros i c Hi Hc. apply cli; [apply H; exact Hi|exact Hc].
Qed.

Lemma solves_ext live1 live2 E x :
  (forall i, live1 i <-> live2 i) -> solves live1 E x -> solves live2 E x.
Proof. intros H Hx i Hi. apply Hx, H, Hi. Qed.

(** *** A sequence of eliminations *)

(** Eliminating a duplicate-free sequence of live states leaves consistent
    data on the states outside the sequence; the equations before and after
    have the same solutions there. *)
Lemma eliminateStates_run n order :
  forall live E E1,
  consistent n live E -> NoDup order -> (forall s, In s order -> live s) ->
  eliminateStates order E = Some E1 ->
  consistent n (fun i => live i /\ ~ In i order) E1 /\
  (forall x, solves live E x -> solves (fun i => live i /\ ~ In i order) E1 x) /\
  (forall y, solves (fun i => live i /\ ~ In i order) E1 y ->
     exists x, solves live E x /\ forall i, ~ In i order -> x i = y i).
Proof.
  induction order as [|s order IH]; intros live E E1 C ND Hl H.
  - cbn [eliminateStates] in H. assert (E1 = E) by congruence. subst E1.
    assert (Eq : forall i, live i <-> live i /\ ~ In i []) by (intros i; cbn; tauto).
    split; [exact (@consistent_ext _ _ _ _ Eq C)|]. split.
    + intros x Hx. exact (@solves_ext _ _ _ _ Eq Hx).
    + intros y Hy. exists y. split; [|reflexivity].
      apply (@solves_ext _ _ _ _ (fun i => iff_sym (Eq i)) Hy).
  - cbn [eliminateStates] in H.
    destruct (eliminateState s true None E) as [E'|] eqn:ES; [|discriminate].
    inversion ND as [|? ? Hns ND']; subst.
    destruct (@eliminateState_step n live E s E' C (Hl s (or_introl eq_refl)) ES)
      as (C' & Fwd & Bwd).
    destruct (IH (fun i => live i /\ i <> s) E' E1 C' ND') as (C1 & Fwd1 & Bwd1).
    { intros t Ht. split; [apply Hl; right; exact Ht|]. intros ->. exact (Hns Ht). }
    { exact H. }
    assert (Eq : forall i, (live i /\ i <> s) /\ ~ In i order <-> live i /\ ~ In i (s :: order)).
    { intros i. cbn [In]. split.
      - intros [[A B] D]. split; [exact A|]. intros [->|K]; [congruence|exact (D K)].
      - intros [A D]. split; [split; [exact A|]|]; intros K; apply D; [left|right]; congruence. }
    split; [exact (@consistent_ext _ _ _ _ Eq C1)|]. split.
    + intros x Hx. apply (@solves_ext _ _ _ _ Eq). apply Fwd1, Fwd, Hx.
    + intros y Hy. destruct (Bwd1 y (@solves_ext _ _ _ _ (fun i => iff_sym (Eq i)) Hy)) as (x1 & S1 & A1).
      destruct (Bwd x1 S1) as (x & S0 & A0). exists x. split; [exact S0|].
      intros i Hi. rewrite A0 by (intros ->; apply Hi; left; reflexivity).
      apply A1. intros K. apply Hi. right. exact K.
Qed.

(** *** The last step: the initial state *)

Lemma columns_nil row : columns row = [] -> row = [].
Proof. destruct row; [reflexivity|discriminate]. Qed.

Lemma no_columns row : (forall c, ~ In c (columns row)) -> row = [].
Proof.
  intros H. destruct row as [|[c w] row]; [reflexivity|].
  exfalso. apply (H c). left. reflexivity.
Qed.

(** When the initial state is the only state left, the one-step value that
    step 7 leaves for it is the value of the initial state in every
    solution, and it is a solution. *)
Lemma last_step n init E1 E2 :
  consistent n (fun i => i = init) E1 ->
  (init < n)%nat ->
  match getRow (backward E1) init with
  | [] => Some E1
  | _ => eliminateState init false None E1
  end = Some E2 ->
  forall x, solves (fun i => i = init) E1 x <->
            x init == valueAt (oneStepProbabilities E2) init.
Proof.
  intros [cm cb cv cl cs ct cli] Hn H x.
  assert (Only : forall c, In c (columns (getRow (matrix E1) init)) -> c = init).
  { intros c Hc. apply (ct init c eq_refl Hc). }
  assert (Eqn : solves (fun i => i = init) E1 x <->
                x init == valueAt (oneStepProbabilities E1) init
                          + rowValue (getRow (matrix E1) init) x).
  { split; [intros Hx; apply Hx; reflexivity|intros Hx i ->; exact Hx]. }
  rewrite Eqn. clear Eqn.
  destruct (getRow (backward E1) init) as [|e rest] eqn:EB.
  - assert (E2 = E1) by congruence. subst E2.
    rewrite (no_columns (getRow (matrix E1) init)).
    + cbn [rowValue]. split; intros K; rewrite K; ring.
    + intros c Hc. pose proof (Only c Hc). subst c.
      pose proof (cli init init eq_refl Hc) as K. rewrite EB in K. destruct K.
  - destruct (@eliminateState_parts _ _ _ _ H) as (row & values & M2 & values2 & EL & EP & ->).
    cbn [oneStepProbabilities].
    destruct (@eliminateLoop_spec _ _ _ _ _ _ EL (cs init eq_refl) ltac:(lia))
      as (Srow & Dcols & _ & Lv & Vo & LoopEq).
    destruct (@eliminateInPredecessors_spec _ _ _ _ _ _ _ EP) as (_ & _ & _ & Out & _).
    { rewrite columns_dropColumn. tauto. }
    { rewrite length_setRow. lia. }
    destruct (Out init) as [_ V]; [rewrite columns_dropColumn; tauto|].
    rewrite V, LoopEq.
    rewrite (no_columns (dropColumn init row)).
    + cbn [rowValue]. split; intros K; rewrite K; ring.
    + intros c Hc. rewrite Dcols in Hc. apply columns_dropColumn in Hc.
      destruct Hc as [Hc Hne]. exact (Hne (Only c Hc)).
Qed.

(** *** The value that the engine returns *)

(** For an order that lists every state but the initial one once, the value
    returned is the value of the initial state in every solution of the
    equations of the chain, and such a solution exists. *)
Lemma computeReachabilityValue_spec n order init E v k :
  consistent n (fun i => (i < n)%nat) E -> (init < n)%nat ->
  NoDup order -> (forall s, In s order <-> (s < n)%nat /\ s <> init) ->
  computeReachabilityValue order init E = Some (v, k) ->
  (forall x, solves (fun i => (i < n)%nat) E x -> x init == v) /\
  (exists x, solves (fun i => (i < n)%nat) E x /\ x init == v).
Proof.
  intros C Hn ND Hall H. unfold computeReachabilityValue in H.
  destruct (eliminateStates order E) as [E1|] eqn:ER; [|discriminate].
  destruct (@eliminateStates_run n order (fun i => (i < n)%nat) E E1 C ND) as (C1 & Fwd & Bwd).
  { intros s Hs. apply Hall in Hs. tauto. }
  { exact ER. }
  assert (Eq : forall i, (i < n)%nat /\ ~ In i order <-> i = init).
  { intros i. rewrite Hall. split.
    - intros [A B]. destruct (Nat.eq_dec i init); [assumption|tauto].
    - intros ->. tauto. }
  pose proof (@consistent_ext _ _ _ _ Eq C1) as C1'.
  assert (Fin : exists E2,
            match getRow (backward E1) init with
            | [] => Some E1
            | _ => eliminateState init false None E1
            end = Some E2 /\ v = simplify (valueAt (oneStepProbabilities E2) init)).
  { destruct (getRow (backward E1) init) as [|e rest].
    - exists E1. split; [reflexivity|congruence].
    - destruct (eliminateState init false None E1) as [E2|]; [|discriminate].
      exists E2. split; [reflexivity|congruence]. }
  destruct Fin as (E2 & EF & K).
  pose proof (@last_step n init E1 E2 C1' Hn EF) as Last.
  assert (v == valueAt (oneStepProbabilities E2) init).
  { rewrite K. apply simplify_correct. }
  split.
  - intros x Hx. rewrite H0. apply Last. apply (@solves_ext _ _ _ _ Eq). apply Fwd. exact Hx.
  - destruct (Bwd (fun _ => v)) as (x & Sx & Ax).
    + apply (@solves_ext _ _ _ _ (fun i => iff_sym (Eq i))). apply Last. exact H0.
    + exists x. split; [exact Sx|]. rewrite Ax; [reflexivity|].
      rewrite Hall. tauto.
Qed.

(** *** Sorting by priority *)

Lemma insertBy_perm key descending state sorted :
  Permutation (insertBy key descending state sorted) (state :: sorted).
Proof.
  induction sorted as [|s rest IH]; cbn [insertBy]; [apply Permutation_refl|].
  destruct (if descending then _ else _); [apply Permutation_refl|].
  eapply Permutation_trans; [apply perm_skip, IH|apply perm_swap].
Qed.

Lemma sortBy_perm key descending states :
  Permutation (sortBy key descending states) states.
Proof.
  induction states as [|s states IH]; cbn [sortBy fold_right]; [apply Permutation_refl|].
  eapply Permutation_trans; [apply insertBy_perm|]. apply perm_skip, IH.
Qed.

(** Whatever the priorities, the engine eliminates every state but the
    initial one, once. *)
Lemma order_covers key n init :
  let order := sortBy key false
                 (filter (fun state => negb (state =? init)%nat) (seq 0 n)) in
  NoDup order /\ (forall s, In s order <-> (s < n)%nat /\ s <> init).
Proof.
  intros order. pose proof (sortBy_perm key false
    (filter (fun state => negb (state =? init)%nat) (seq 0 n))) as P. fold order in P.
  split.
  - apply (Permutation_NoDup (Permutation_sym P)). apply NoDup_filter, seq_NoDup.
  - intros s. split.
    + intros Hs. apply (Permutation_in _ P) in Hs. apply filter_In in Hs.
      destruct Hs as [Hs Hne]. apply in_seq in Hs. apply negb_true_iff, Nat.eqb_neq in Hne.
      split; [lia|exact Hne].
    + intros [Hs Hne]. apply (Permutation_in _ (Permutation_sym P)). apply filter_In.
      split; [apply in_seq; lia|]. apply negb_true_iff, Nat.eqb_neq. exact Hne.
Qed.

(** The value returned is in lowest terms. *)
Lemma computeReachabilityValue_reduced order init E v k :
  computeReachabilityValue order init E = Some (v, k) -> Qred v = v.
Proof.
  unfold computeReachabilityValue. intros H.
  destruct (eliminateStates order E) as [E1|]; [|discriminate].
  assert (K : exists a, v = simplify a).
  { destruct (getRow (backward E1) init) as [|e rest].
    - exists (valueAt (oneStepProbabilities E1) init). congruence.
    - destruct (eliminateState init false None E1) as [E2|]; [|discriminate].
      exists (valueAt (oneStepProbabilities E2) init). congruence. }
  destruct K as (a & ->). unfold simplify. apply Qred_complete, Qred_correct.
Qed.


(** *** Written-out chains *)

Lemma sortedRowb_correct row : sortedRowb row = true -> sortedRow row.
Proof.
  induction row as [|[c w] row IH]; intros H; [constructor|].
  cbn [sortedRowb] in H. apply andb_true_iff in H. destruct H as [Hh Ht].
  apply sorted_cons; [apply IH; exact Ht|].
  intros c' Hc'. rewrite forallb_forall in Hh. unfold columns in Hc'.
  apply in_map_iff in Hc'. destruct Hc' as (e & <- & He).
  apply Nat.ltb_lt. apply Hh. exact He.
Qed.

Lemma consistentb_correct n E :
  consistentb n E = true -> consistent n (fun i => (i < n)%nat) E.
Proof.
  unfold consistentb. rewrite !andb_true_iff. intros [[[H1 H2] H3] H4].
  apply Nat.eqb_eq in H1, H2, H3. rewrite forallb_forall in H4.
  assert (Row : forall i, (i < n)%nat ->
            sortedRowb (getRow (matrix E) i) = true /\
            forall c, In c (columns (getRow (matrix E) i)) ->
                      (c < n)%nat /\ In i (columns (getRow (backward E) c))).
  { intros i Hi. specialize (H4 i). rewrite in_seq in H4. specialize (H4 ltac:(lia)).
    apply andb_true_iff in H4. destruct H4 as [A B]. split; [exact A|].
    intros c Hc. rewrite forallb_forall in B. specialize (B c Hc).
    apply andb_true_iff in B. destruct B as [B1 B2]. apply Nat.ltb_lt in B1.
    split; [exact B1|]. apply existsb_exists in B2. destruct B2 as (p & Hp & Ep).
    apply Nat.eqb_eq in Ep. subst p. exact Hp. }
  constructor; try assumption.
  - intros i Hi. exact Hi.
  - intros i Hi. apply sortedRowb_correct. apply (Row i Hi).
  - intros i c Hi Hc. apply (proj2 (Row i Hi) c Hc).
  - intros i c Hi Hc. apply (proj2 (Row i Hi) c Hc).
Qed.


(** *** Elimination invariance *)

Lemma rowValue_nonneg row x :
  (forall c w, In (c, w) row -> 0 <= w) ->
  (forall c, In c (columns row) -> 0 <= x c) -> 0 <= rowValue row x.
Proof.
  induction row as [|[c w] row IH]; intros Hw Hx; cbn [rowValue]; [lra|].
  assert (0 <= w) by (apply (Hw c); left; reflexivity).
  assert (0 <= x c) by (apply Hx; left; reflexivity).
  assert (0 <= rowValue row x).
  { apply IH; [intros c' w' H'; apply (Hw c'); right; exact H'|].
    intros c' H'. apply Hx. right. exact H'. }
  assert (0 <= w * x c) by (apply Qmult_le_0_compat; assumption). lra.
Qed.

Lemma rowValue_mono row x y :
  (forall c w, In (c, w) row -> 0 <= w) ->
  (forall c, In c (columns row) -> x c <= y c) -> rowValue row x <= rowValue row y.
Proof.
  induction row as [|[c w] row IH]; intros Hw Hx; cbn [rowValue]; [lra|].
  assert (0 <= w) by (apply (Hw c); left; reflexivity).
  assert (x c <= y c) by (apply Hx; left; reflexivity).
  assert (rowValue row x <= rowValue row y).
  { apply IH; [intros c' w' H'; apply (Hw c'); right; exact H'|].
    intros c' H'. apply Hx. right. exact H'. }
  assert (w * x c <= w * y c).
  { rewrite (Qmult_comm w (x c)), (Qmult_comm w (y c)). apply Qmult_le_compat_r; assumption. }
  lra.
Qed.

Lemma hasSelfLoop_false M s :
  hasSelfLoop M s = false -> ~ In s (columns (getRow M s)).
Proof.
  unfold hasSelfLoop. intros H Hin. unfold columns in Hin. apply in_map_iff in Hin.
  destruct Hin as (e & He & Hin).
  assert (K : existsb (fun entry => (fst entry =? s)%nat) (getRow M s) = true).
  { apply existsb_exists. exists e. split; [exact Hin|]. apply Nat.eqb_eq. exact He. }
  congruence.
Qed.


Lemma smallChain_nonnegative : nonnegative (fun i => (i < 3)%nat) smallChain.
Proof.
  intros i Hi. destruct i as [|[|[|i]]]; try lia; cbn; (split; [discriminate|]);
    intros c w H; repeat (destruct H as [H|H]; [injection H as <- <-; discriminate|]);
    destruct H.
Qed.


(** *** Self-loops *)

Lemma scaledBy_scaleOthers s f factor row :
  f == factor -> ~ In s (columns row) -> scaledBy factor row (scaleOthers s f row).
Proof.
  intros Hf. induction row as [|[c w] row IH]; intros Hs; [constructor|].
  cbn [columns map fst In] in Hs. unfold scaleOthers. cbn [map fst snd].
  replace (c =? s)%nat with false by (symmetry; apply Nat.eqb_neq; tauto).
  constructor.
  - cbn [fst snd]. split; [reflexivity|]. rewrite simplify_correct, Hf. reflexivity.
  - apply IH. tauto.
Qed.



Lemma selfLoopChain_consistent : consistent 2 (fun i => (i < 2)%nat) selfLoopChain.
Proof. apply consistentb_correct. vm_compute. reflexivity. Qed.


End EliminationEngine.

(** ** The orchestration of a query *)

Module OrchestrationFacts.
Import BitVector BitVectorFacts BitVectorIteration StateElimination Orchestration.
Local Open Scope Q_scope.

(** *** Row sums *)

Lemma rowSum_cons entry row : rowSum (entry :: row) = snd entry + rowSum row.
Proof. reflexivity. Qed.

Lemma rowSum_renumbered (f : nat -> nat) row :
  rowSum (map (fun entry : nat * Q => (f (fst entry), snd entry)) row) = rowSum row.
Proof.
  induction row as [|entry row IH]; [reflexivity|].
  cbn [map]. rewrite !rowSum_cons, IH. reflexivity.
Qed.

(** The weight of a row splits over two disjoint state sets and the rest. *)
Lemma rowSum_partition (p q : nat -> bool) row :
  (forall c, p c = true -> q c = false) ->
  rowSum row ==
  rowSum (filter (fun entry : nat * Q => p (fst entry)) row)
  + rowSum (filter (fun entry : nat * Q => q (fst entry)) row)
  + rowSum (filter (fun entry : nat * Q => negb (p (fst entry)) && negb (q (fst entry))) row).
Proof.
  intros Disjoint. induction row as [|[c w] row IH]; [cbn; lra|].
  cbn [filter fst]. destruct (p c) eqn:P.
  - rewrite (Disjoint c P). cbn [negb andb]. rewrite !rowSum_cons. cbn [snd]. lra.
  - destruct (q c); cbn [negb andb]; rewrite !rowSum_cons; cbn [snd]; lra.
Qed.

Lemma rowSum_nonneg row :
  (forall c w, In (c, w) row -> 0 <= w) -> 0 <= rowSum row.
Proof.
  induction row as [|[c w] row IH]; intros H; [cbn; lra|].
  rewrite rowSum_cons. cbn [snd].
  assert (0 <= w) by (apply (H c); left; reflexivity).
  assert (0 <= rowSum row) by (apply IH; intros c' w' H'; apply (H c'); right; exact H').
  lra.
Qed.

Lemma nth_map_in (A B : Type) (f : A -> B) l k d d' :
  (k < length l)%nat -> nth k (map f l) d = f (nth k l d').
Proof.
  revert k. induction l as [|x l IH]; intros k Hk; [simpl in Hk; lia|].
  destruct k as [|k]; [reflexivity|]. cbn [map nth]. apply IH. simpl in Hk. lia.
Qed.

(** *** The prepared subsystem *)

Lemma length_prepared M maybeStates prob1 :
  length (matrix (prepareSubsystem M maybeStates prob1)) = length (setBits maybeStates).
Proof. unfold prepareSubsystem, getSubmatrix. cbn [matrix]. apply length_map. Qed.

(** The row of a state of the prepared subsystem and its one-step
    probability make up the weight of the row of the model, but for the
    weight of the transitions that leave the subsystem for states that are
    not probability-1 states. *)
Lemma prepared_row M maybeStates prob1 k :
  (k < length (setBits maybeStates))%nat ->
  (forall c, get maybeStates c = true -> get prob1 c = false) ->
  let state := nth k (setBits maybeStates) O in
  let E := prepareSubsystem M maybeStates prob1 in
  rowSum (getRow (matrix E) k) + valueAt (oneStepProbabilities E) k
  + lostWeight maybeStates prob1 (getRow M state)
  == rowSum (getRow M state).
Proof.
  intros Hk Disjoint state E. unfold E, prepareSubsystem.
  cbn [matrix oneStepProbabilities].
  unfold getSubmatrix, getOneStepProbabilities, valueAt.
  unfold getRow at 1.
  rewrite 2!(@nth_map_in nat _ _ (setBits maybeStates) k _ O Hk).
  fold state. rewrite rowSum_renumbered. unfold restrictRow, lostWeight.
  symmetry. apply rowSum_partition. exact Disjoint.
Qed.

(** What step 2 leaves as maybe states holds no probability-1 state. *)
Lemma maybe_disjoint prob0 prob1 reachable maybeStates :
  wf prob0 -> wf prob1 -> bitCount prob0 = bitCount prob1 ->
  wf reachable -> bitCount reachable = bitCount prob0 ->
  complemented (or prob0 prob1) = Some maybeStates ->
  forall c, get (and maybeStates reachable) c = true -> get prob1 c = false.
Proof.
  intros W0 W1 HC WR HR E c. unfold get.
  destruct (@or_spec prob0 prob1 W0 W1 HC) as (Wo & Co & Io).
  destruct (@complemented_spec (or prob0 prob1) Wo) as (r & Er & Wr & Cr & Ir).
  assert (r = maybeStates) by congruence. subst r.
  destruct (@and_spec maybeStates reachable Wr WR ltac:(lia)) as (_ & _ & Ia).
  rewrite Ia, Ir, Io. destruct (index prob1 c); [|reflexivity].
  rewrite orb_true_r. cbn [negb andb]. discriminate.
Qed.

(** Step 2 finds the maybe states, and none of them when the initial state
    is a probability-0 or a probability-1 state. *)
Lemma maybe_states prob0 prob1 :
  wf prob0 -> wf prob1 -> bitCount prob0 = bitCount prob1 ->
  exists maybeStates, complemented (or prob0 prob1) = Some maybeStates /\
    forall c, get prob0 c || get prob1 c = true -> get maybeStates c = false.
Proof.
  intros W0 W1 HC.
  destruct (@or_spec prob0 prob1 W0 W1 HC) as (Wo & Co & Io).
  destruct (@complemented_spec (or prob0 prob1) Wo) as (r & Er & Wr & Cr & Ir).
  exists r. split; [exact Er|]. intros c Hc. unfold get in *.
  rewrite Ir, Io, Hc. reflexivity.
Qed.

(** *** The driver *)

Lemma eliminateByPriority_depth priority states d d' :
  eliminateByPriority priority states d = Some d' -> maximalDepth d' = maximalDepth d.
Proof.
  unfold eliminateByPriority.
  destruct (eliminateStates _ _); [|discriminate].
  intros H.
  match type of H with Some ?x = _ => assert (E : d' = x) by congruence end.
  rewrite E. reflexivity.
Qed.

Section DriverDepth.

Variable decompose : FlexibleSparseMatrix -> list nat -> list (list nat).
Variable forwardTransitions : FlexibleSparseMatrix.
Variable priority : nat -> nat.
Variable settings : EliminationSettings.

(** A pass over blocks whose steps do not lower the depth and raise it to
    [bound] ends, when it is not empty, at a depth of [bound] or more. *)
Lemma blocks_depth (step : DriverState -> list nat -> option DriverState) bound blocks :
  (forall d block d', step d block = Some d' ->
     (maximalDepth d <= maximalDepth d')%nat /\ (bound <= maximalDepth d')%nat) ->
  forall start d',
    fold_left (fun acc block =>
                 match acc with None => None | Some d1 => step d1 block end)
              blocks start = Some d' ->
    exists d, start = Some d /\ (maximalDepth d <= maximalDepth d')%nat /\
              (blocks <> [] -> (bound <= maximalDepth d')%nat).
Proof.
  intros Step. induction blocks as [|block blocks IH]; intros start d' H.
  - cbn [fold_left] in H. exists d'. split; [exact H|]. split; [lia|]. intros K. contradiction.
  - cbn [fold_left] in H. destruct (IH _ _ H) as (d1 & E1 & L1 & B1).
    destruct start as [d|]; [|discriminate]. exists d. split; [reflexivity|].
    destruct (Step _ _ _ E1) as [S1 S2]. split; [lia|]. intros _.
    lia.
Qed.

(** The driver ends at a depth that is at least its own level and at least
    the depth it started from. *)
Lemma treatScc_depth fuel : forall entryStates scc flag level d d',
  treatScc decompose forwardTransitions priority settings fuel entryStates scc flag level d
  = Some d' ->
  (Nat.max level (maximalDepth d) <= maximalDepth d')%nat.
Proof.
  induction fuel as [|fuel IH]; intros entryStates scc flag level d d' H; [discriminate|].
  cbn [treatScc] in H.
  match type of H with match ?h with _ => _ end = _ => destruct h as [d2|] eqn:Handled end;
    [|discriminate].
  assert (D2 : (Nat.max level (maximalDepth d) <= maximalDepth d2)%nat).
  { destruct (maximalSccSize settings <? length scc)%nat.
    - apply (@blocks_depth
               (fun d1 block =>
                  treatScc decompose forwardTransitions priority settings fuel
                    (entryStatesOf (backward (elimination d1)) block) block
                    (flag || negb (eliminateEntryStatesLast settings)) (S level) d1)
               (S level)) in Handled.
      + destruct Handled as (d0 & E0 & L0 & _).
        apply eliminateByPriority_depth in E0. cbn [maximalDepth] in E0. lia.
      + intros d1 block d1' K. apply IH in K. lia.
    - apply eliminateByPriority_depth in Handled. cbn [maximalDepth] in Handled. lia. }
  destruct flag.
  - apply eliminateByPriority_depth in H. lia.
  - match type of H with Some ?x = _ => assert (E : d' = x) by congruence end.
    rewrite E. cbn [maximalDepth]. lia.
Qed.

Lemma withoutRecursion_depth states entryStates flag level d d' :
  withoutRecursion priority states entryStates flag level d = Some d' ->
  maximalDepth d' = Nat.max level (maximalDepth d).
Proof.
  unfold withoutRecursion.
  destruct (eliminateByPriority _ _ _) as [d2|] eqn:E2; [|discriminate].
  apply eliminateByPriority_depth in E2. cbn [maximalDepth] in E2.
  destruct flag; intros H.
  - apply eliminateByPriority_depth in H. lia.
  - match type of H with Some ?x = _ => assert (E : d' = x) by congruence end.
    rewrite E. cbn [maximalDepth]. lia.
Qed.

(** A subset within the threshold is handled by the flat pass. *)
Lemma treatScc_flat fuel entryStates scc flag level d :
  (length scc <= maximalSccSize settings)%nat ->
  treatScc decompose forwardTransitions priority settings (S fuel) entryStates scc flag level d
  = withoutRecursion priority (without scc entryStates) entryStates flag level d.
Proof.
  intros Hle. cbn [treatScc].
  replace (maximalSccSize settings <? length scc)%nat with false
    by (symmetry; apply Nat.ltb_ge; exact Hle).
  reflexivity.
Qed.

Lemma filter_none_when (A : Type) (f : A -> bool) l :
  forallb f l = true -> filter (fun x => negb (f x)) l = [].
Proof.
  induction l as [|x l IH]; [reflexivity|]. cbn [forallb filter].
  intros H. apply andb_true_iff in H. destruct H as [Hx Hl].
  rewrite Hx. cbn [negb]. apply IH. exact Hl.
Qed.

Lemma filter_some_when (A : Type) (f : A -> bool) l :
  forallb f l = false -> filter (fun x => negb (f x)) l <> [].
Proof.
  induction l as [|x l IH]; [discriminate|]. cbn [forallb filter].
  destruct (f x); cbn [negb andb]; [exact IH|discriminate].
Qed.

Lemma filter_all_when (A : Type) (f : A -> bool) l :
  forallb f l = true -> filter f l = l.
Proof.
  induction l as [|x l IH]; [reflexivity|]. cbn [forallb filter].
  intros H. apply andb_true_iff in H. destruct H as [Hx Hl].
  rewrite Hx. f_equal. apply IH. exact Hl.
Qed.

(** A subset over the threshold whose decomposition has only trivial blocks
    is handled without recursion: the states of the blocks are
    eliminated. *)
Lemma treatScc_trivial fuel entryStates scc flag level d :
  (maximalSccSize settings < length scc)%nat ->
  forallb isTrivial (decompose forwardTransitions (without scc entryStates)) = true ->
  treatScc decompose forwardTransitions priority settings (S fuel) entryStates scc flag level d
  = withoutRecursion priority (concat (decompose forwardTransitions (without scc entryStates)))
      entryStates flag level d.
Proof.
  intros Hlt Triv. cbn [treatScc].
  replace (maximalSccSize settings <? length scc)%nat with true
    by (symmetry; apply Nat.ltb_lt; exact Hlt).
  rewrite (filter_none_when _ _ Triv), (filter_all_when _ _ Triv). reflexivity.
Qed.

(** A subset over the threshold whose decomposition has a block of more
    than one state is handled by recursion: the depth reached is beyond the
    level of the call. *)
Lemma treatScc_recursion fuel entryStates scc flag level d d' :
  (maximalSccSize settings < length scc)%nat ->
  forallb isTrivial (decompose forwardTransitions (without scc entryStates)) = false ->
  treatScc decompose forwardTransitions priority settings fuel entryStates scc flag level d
  = Some d' ->
  (S level <= maximalDepth d')%nat.
Proof.
  intros Hlt Some' H. destruct fuel as [|fuel]; [discriminate|]. cbn [treatScc] in H.
  replace (maximalSccSize settings <? length scc)%nat with true in H
    by (symmetry; apply Nat.ltb_lt; exact Hlt).
  match type of H with match ?h with _ => _ end = _ => destruct h as [d2|] eqn:Handled end;
    [|discriminate].
  assert (D2 : (S level <= maximalDepth d2)%nat).
  { apply (@blocks_depth
             (fun d1 block =>
                treatScc decompose forwardTransitions priority settings fuel
                  (entryStatesOf (backward (elimination d1)) block) block
                  (flag || negb (eliminateEntryStatesLast settings)) (S level) d1)
             (S level)) in Handled.
    - destruct Handled as (d0 & _ & _ & B). apply B. apply filter_some_when. exact Some'.
    - intros d1 block d1' K. apply treatScc_depth in K. lia. }
  destruct flag.
  - apply eliminateByPriority_depth in H. lia.
  - match type of H with Some ?x = _ => assert (E : d' = x) by congruence end.
    rewrite E. cbn [maximalDepth]. lia.
Qed.

(** With no fuel for a recursive call, such a subset is not handled. *)
Lemma treatScc_needs_recursion entryStates scc flag level d :
  (maximalSccSize settings < length scc)%nat ->
  forallb isTrivial (decompose forwardTransitions (without scc entryStates)) = false ->
  treatScc decompose forwardTransitions priority settings 1 entryStates scc flag level d = None.
Proof.
  intros Hlt Some'. cbn [treatScc].
  replace (maximalSccSize settings <? length scc)%nat with true
    by (symmetry; apply Nat.ltb_lt; exact Hlt).
  pose proof (filter_some_when _ _ Some') as NE.
  destruct (filter (fun block => negb (isTrivial block)) _) as [|block blocks];
    [contradiction|].
  cbn [fold_left].
  match goal with |- match fold_left ?f blocks ?start with _ => _ end = _ =>
    assert (R : fold_left f blocks start = None) end.
  { destruct (eliminateByPriority _ _ _); clear; induction blocks; auto. }
  rewrite R. reflexivity.
Qed.

End DriverDepth.

(** *** Conservation *)




(** *** The threshold of the driver *)




(** *** The short-circuit *)



(** The same on a chain whose initial state is a probability-0 state. *)
Example short_circuit_zero :
  computeUntilProbabilities graphProb01 allReachable exampleDistances exampleShuffle
    mutualReachability (exampleSettings Hybrid 1) hopelessChain (allStates 2) (onlyState 2 1)
  = Some (0, 0%nat).
Proof. vm_compute. reflexivity. Qed.

End OrchestrationFacts.

(** ** Simplification of weights *)

Module SimplifyFacts.
Import RationalFunction.

Section Cancellation.

Variable P : GcdDomain.
Hypothesis laws : GcdDomainLaws P.

Lemma mul_one_r a : mul P a (one P) = a.
Proof. rewrite (mul_comm laws). apply (mul_one laws). Qed.

Lemma divides_zero a : divides P (zero P) a -> a = zero P.
Proof. intros [c Hc]. rewrite Hc. apply (mul_zero laws). Qed.

Lemma one_not_zero a : a <> zero P -> one P <> zero P.
Proof.
  intros Ha H. apply Ha. rewrite <- (mul_one laws a), H, (mul_comm laws).
  apply (mul_zero laws).
Qed.

Lemma quot_one a : a <> zero P \/ one P <> zero P -> quot P a (one P) = a.
Proof.
  intros H. assert (N : one P <> zero P).
  { destruct H as [H|H]; [exact (one_not_zero H)|exact H]. }
  rewrite <- (mul_one_r (quot P a (one P))). apply (quot_exact laws); [exact N|].
  exists a. symmetry. apply mul_one_r.
Qed.

(** After the cancellation numerator and denominator have no common factor
    left. *)
Lemma cancelled_coprime n d :
  d <> zero P ->
  let g := gcd P n d in
  g <> zero P /\ gcd P (quot P n g) (quot P d g) = one P.
Proof.
  intros Hd g.
  assert (Hg : g <> zero P).
  { intros K. apply Hd. apply divides_zero. rewrite <- K. apply (gcd_right laws). }
  split; [exact Hg|].
  pose proof (quot_exact laws Hg (gcd_left laws n d)) as En.
  pose proof (quot_exact laws Hg (gcd_right laws n d)) as Ed.
  fold g in En, Ed.
  set (n' := quot P n g) in *. set (d' := quot P d g) in *.
  apply (gcd_normal laws).
  destruct (gcd_left laws n' d') as [a Ha]. destruct (gcd_right laws n' d') as [b Hb].
  set (g' := gcd P n' d') in *.
  assert (Dn : divides P (mul P g' g) n).
  { exists a. rewrite (mul_assoc laws), <- Ha. symmetry. exact En. }
  assert (Dd : divides P (mul P g' g) d).
  { exists b. rewrite (mul_assoc laws), <- Hb. symmetry. exact Ed. }
  destruct (gcd_greatest laws Dn Dd) as [c Hc]. fold g in Hc.
  exists c. apply (mul_cancel laws) with (c := g); [exact Hg|].
  rewrite (mul_one laws), <- (mul_assoc laws). exact Hc.
Qed.

Lemma fraction_simplify_idempotent (w : RationalFunction P) :
  snd w <> zero P -> simplify (simplify w) = simplify w.
Proof.
  intros Hd. destruct w as [n d]. cbn [snd] in Hd.
  destruct (@cancelled_coprime n d Hd) as [Hg Co]. cbn zeta in Co.
  unfold simplify at 1. cbn [fst snd simplify]. rewrite Co.
  assert (N : one P <> zero P) by exact (one_not_zero Hg).
  rewrite !quot_one by (right; exact N). reflexivity.
Qed.

End Cancellation.

Lemma integers_laws : GcdDomainLaws integers.
Proof.
  constructor; cbn [carrier zero one mul gcd quot integers].
  - intros a b. apply Z.mul_comm.
  - intros a b c. apply Z.mul_assoc.
  - intros a. apply Z.mul_1_l.
  - intros a. apply Z.mul_0_r.
  - intros a b c Hc H. apply Z.mul_cancel_r in H; assumption.
  - intros a b. apply Z.gcd_divide_l.
  - intros a b. apply Z.gcd_divide_r.
  - intros a b c [x Hx] [y Hy]. apply Z.gcd_greatest; [exists x|exists y]; assumption.
  - intros a b [x Hx]. apply Z.divide_1_r_nonneg; [apply Z.gcd_nonneg|exists x; exact Hx].
  - intros a b Hb [x Hx]. cbn [carrier mul integers] in Hx. rewrite Hx.
    rewrite Z.div_mul by exact Hb. reflexivity.
Qed.

(** C7.  For every rational transition weight, and for every parametric
    one, a fraction of polynomials with a denominator other than zero,
    simplifying twice gives what simplifying once gives. *)
Theorem simplify_idempotent :
  (forall w : Q,
     StateElimination.simplify (StateElimination.simplify w) = StateElimination.simplify w) /\
  (forall (P : GcdDomain) (w : RationalFunction P),
     GcdDomainLaws P -> snd w <> zero P -> simplify (simplify w) = simplify w).
Proof.
  split.
  - intros w. unfold StateElimination.simplify. apply Qred_complete, Qred_correct.
  - intros P w laws Hd. apply fraction_simplify_idempotent; assumption.
Qed.

Lemma simplify_idempotent_witness :
  GcdDomainLaws integers /\ (4 <> 0)%Z /\
  simplify (simplify ((6, 4)%Z : RationalFunction integers))
  = simplify ((6, 4)%Z : RationalFunction integers).
Proof.
  split; [exact integers_laws|]. split; [lia|].
  refine (proj2 simplify_idempotent integers (6, 4)%Z integers_laws _).
  cbn. lia.
Defined.

End SimplifyFacts.

(** ** Bit vectors: construction from indices, comparison, tests *)

Module BitVectorOpsFacts.
Import Word64 Word64Facts BitVector BitVectorFacts BitVectorIteration BitVectorOps.

(** *** Buckets and bits *)

Lemma index_at b j k : k < 64 -> index b (64 * j + k) = bitOf (bucketAt (bucketVector b) j) k.
Proof. intros Hk. rewrite index_bitIn. apply bitIn_at. exact Hk. Qed.

Lemma set_bit_below b i : wf b -> index b i = true -> i < bitCount b.
Proof.
  intros [HS HT] Hi. destruct (Nat.lt_ge_cases i (bitCount b)) as [L|L]; [exact L|].
  destruct (Nat.lt_ge_cases i (64 * length (bucketVector b))) as [L'|L'].
  - rewrite HT in Hi by lia. discriminate.
  - rewrite index_beyond in Hi by exact L'. discriminate.
Qed.

(** Two buckets are the same when they have the same bits. *)
Lemma buckets_agree b other j :
  stored b -> stored other ->
  (bucketAt (bucketVector b) j = bucketAt (bucketVector other) j <->
   forall k, k < 64 -> index b (64 * j + k) = index other (64 * j + k)).
Proof.
  intros [_ Wb] [_ Wo]. split.
  - intros E k Hk. rewrite !index_at by exact Hk. rewrite E. reflexivity.
  - intros H. apply word_ext; [apply bucketAt_ok; exact Wb|apply bucketAt_ok; exact Wo|].
    intros k Hk. rewrite <- !index_at by exact Hk. apply H. exact Hk.
Qed.

(** *** Construction from a range of indices *)

Lemma setAll_spec indices : forall b,
  wf b -> (forall i, In i indices -> i < bitCount b) ->
  wf (setAll indices b) /\ bitCount (setAll indices b) = bitCount b /\
  forall j, index (setAll indices b) j = index b j || existsb (Nat.eqb j) indices.
Proof.
  induction indices as [|i indices IH]; intros b W Hin.
  - split; [exact W|]. split; [reflexivity|]. intros j. cbn. rewrite orb_false_r. reflexivity.
  - assert (Hi : i < bitCount b) by (apply Hin; left; reflexivity).
    pose proof (stored_covers (proj1 W)) as Cov.
    destruct (IH (set i true b)) as (W' & C' & I').
    + apply wf_set; assumption.
    + intros k Hk. rewrite bitCount_set. apply Hin. right. exact Hk.
    + cbn [setAll fold_left]. fold (setAll indices (set i true b)).
      split; [exact W'|]. split; [rewrite C'; apply bitCount_set|].
      intros j. rewrite I', index_set by lia. cbn [existsb].
      destruct (j =? i); cbn [orb]; [rewrite orb_true_r|]; reflexivity.
Qed.

(** A strictly increasing list is determined by its elements. *)
Lemma sorted_unique (l1 : list nat) : forall l2,
  StronglySorted lt l1 -> StronglySorted lt l2 ->
  (forall x, In x l1 <-> In x l2) -> l1 = l2.
Proof.
  induction l1 as [|a l1 IH]; intros l2 S1 S2 Same.
  - destruct l2 as [|b l2]; [reflexivity|].
    exfalso. apply (proj2 (Same b)). left. reflexivity.
  - destruct l2 as [|b l2]; [exfalso; apply (proj1 (Same a)); left; reflexivity|].
    inversion S1 as [|? ? S1' F1]. inversion S2 as [|? ? S2' F2]. subst.
    rewrite Forall_forall in F1, F2.
    assert (a = b).
    { destruct (proj1 (Same a) (or_introl eq_refl)) as [E|Ha]; [congruence|].
      destruct (proj2 (Same b) (or_introl eq_refl)) as [E|Hb]; [congruence|].
      specialize (F1 b Hb). specialize (F2 a Ha). lia. }
    subst b. f_equal. apply IH; try assumption.
    intros x. split; intros Hx.
    + destruct (proj1 (Same x) (or_intror Hx)) as [E|H]; [|exact H].
      specialize (F1 x Hx). lia.
    + destruct (proj2 (Same x) (or_intror Hx)) as [E|H]; [|exact H].
      specialize (F2 x Hx). lia.
Qed.

Lemma filter_seq_sorted (P : nat -> bool) n a : StronglySorted lt (filter P (seq a n)).
Proof.
  revert a. induction n as [|n IH]; intros a; [constructor|].
  cbn [seq filter]. destruct (P a); [|apply IH].
  constructor; [apply IH|]. apply Forall_forall. intros x Hx.
  apply filter_In in Hx. destruct Hx as [Hx _]. apply in_seq in Hx. lia.
Qed.

Lemma setBits_sorted b : StronglySorted lt (setBits b).
Proof. apply filter_seq_sorted. Qed.

Lemma in_setBits b i : In i (setBits b) <-> i < bitCount b /\ index b i = true.
Proof.
  unfold setBits. rewrite filter_In, in_seq. split; intros [A B]; split; try assumption; lia.
Qed.

(** *** Tests on all buckets *)

Lemma forallb_seq (P : nat -> bool) n :
  forallb P (seq 0 n) = true <-> forall j, j < n -> P j = true.
Proof.
  rewrite forallb_forall. split.
  - intros H j Hj. apply H. apply in_seq. lia.
  - intros H j Hj. apply in_seq in Hj. apply H. lia.
Qed.

(** A test of every bucket by a test of every bit. *)
Lemma bucket_test (f : Z -> Z -> bool) (g : bool -> bool -> bool) b other :
  (forall x y, wordOK x -> wordOK y ->
     (f x y = true <-> forall k, k < 64 -> g (bitOf x k) (bitOf y k) = true)) ->
  g false false = true ->
  stored b -> stored other -> bitCount b = bitCount other ->
  (forallb (fun i => f (bucketAt (bucketVector b) i) (bucketAt (bucketVector other) i))
     (seq 0 (length (bucketVector b))) = true
   <-> forall i, g (index b i) (index other i) = true).
Proof.
  intros Hf G0 Sb So HC. rewrite forallb_seq.
  assert (HL : length (bucketVector other) = length (bucketVector b)).
  { destruct Sb as [Lb _], So as [Lo _]. rewrite Lb, Lo, HC. reflexivity. }
  split.
  - intros H i. destruct (Nat.lt_ge_cases i (64 * length (bucketVector b))) as [L|L].
    + divmod64 i. specialize (H (i / 64) ltac:(lia)).
      rewrite Hf in H by (apply bucketAt_ok; first [apply Sb|apply So]).
      specialize (H (i mod 64) ltac:(lia)).
      rewrite !index_bitOf. exact H.
    + rewrite !index_beyond by lia. exact G0.
  - intros H j Hj. apply Hf; [apply bucketAt_ok, Sb|apply bucketAt_ok, So|].
    intros k Hk. rewrite <- !index_at by exact Hk. apply H.
Qed.

Lemma land_same x y :
  wordOK x -> wordOK y ->
  ((Z.land x y =? x)%Z = true <-> forall k, k < 64 -> implb (bitOf x k) (bitOf y k) = true).
Proof.
  intros Hx Hy. rewrite Z.eqb_eq. split.
  - intros E k Hk. rewrite <- E at 1. rewrite bitOf_land.
    destruct (bitOf x k), (bitOf y k); reflexivity.
  - intros H. apply word_ext; [apply land_ok; assumption|exact Hx|].
    intros k Hk. rewrite bitOf_land. specialize (H k Hk).
    destruct (bitOf x k), (bitOf y k); try reflexivity; discriminate.
Qed.

Lemma land_none x y :
  wordOK x -> wordOK y ->
  ((Z.land x y =? 0)%Z = true <-> forall k, k < 64 -> negb (bitOf x k && bitOf y k) = true).
Proof.
  intros Hx Hy. rewrite Z.eqb_eq. split.
  - intros E k Hk. rewrite <- bitOf_land, E, bitOf_zero. reflexivity.
  - intros H. apply word_ext; [apply land_ok; assumption|apply zero_ok|].
    intros k Hk. rewrite bitOf_land, bitOf_zero. specialize (H k Hk).
    apply negb_true_iff in H. exact H.
Qed.

Lemma isSubsetOf_bits b other :
  stored b -> stored other -> bitCount b = bitCount other ->
  (isSubsetOf b other = true <-> forall i, index b i = true -> index other i = true).
Proof.
  intros Sb So HC. unfold isSubsetOf.
  rewrite (@bucket_test (fun x y => (Z.land x y =? x)%Z) implb b other land_same eq_refl Sb So HC).
  split; intros H i; specialize (H i).
  - intros Hi. rewrite Hi in H. exact H.
  - destruct (index b i); [rewrite H by reflexivity|]; reflexivity.
Qed.

Lemma isDisjointFrom_bits b other :
  stored b -> stored other -> bitCount b = bitCount other ->
  (isDisjointFrom b other = true <->
   forall i, index b i = true -> index other i = false).
Proof.
  intros Sb So HC. unfold isDisjointFrom.
  rewrite (@bucket_test (fun x y => (Z.land x y =? 0)%Z) (fun p q => negb (p && q)) b other
             land_none eq_refl Sb So HC).
  split; intros H i; specialize (H i).
  - intros Hi. rewrite Hi in H. destruct (index other i); [discriminate|reflexivity].
  - destruct (index b i); [rewrite H by reflexivity|]; reflexivity.
Qed.

Lemma empty_bits b :
  stored b -> (empty b = true <-> forall i, index b i = false).
Proof.
  intros Sb. unfold empty. rewrite forallb_forall. split.
  - intros H i. destruct (Nat.lt_ge_cases i (64 * length (bucketVector b))) as [L|L].
    + divmod64 i. rewrite index_bitOf.
      assert (Z0 : bucketAt (bucketVector b) (i / 64) = 0%Z).
      { apply Z.eqb_eq, H. apply nth_In. lia. }
      rewrite Z0. apply bitOf_zero.
    + apply index_beyond. exact L.
  - intros H w Hw. apply Z.eqb_eq. apply In_nth with (d := 0%Z) in Hw.
    destruct Hw as (j & Hj & <-). fold (bucketAt (bucketVector b) j).
    apply word_ext; [apply bucketAt_ok, Sb|apply zero_ok|].
    intros k Hk. rewrite <- index_at by exact Hk. rewrite H, bitOf_zero. reflexivity.
Qed.

Lemma index_clear b i : index (clear b) i = false.
Proof.
  unfold clear. rewrite index_mk, bucketAt_map. destruct (_ <? _); apply bitOf_zero.
Qed.

Lemma wf_clear b : stored b -> wf (clear b).
Proof.
  intros [HL HW]. split; [split|].
  - unfold clear. cbn [bucketVector bitCount]. rewrite length_map. exact HL.
  - unfold clear. cbn [bucketVector]. apply Forall_forall. intros w Hw.
    apply in_map_iff in Hw. destruct Hw as (x & <- & _). apply zero_ok.
  - intros i _. apply index_clear.
Qed.

(** *** The order of the buckets and the order of the bits *)

Lemma top_bit (m : nat) x :
  (0 <= x < 2 ^ Z.of_nat (S m))%Z ->
  x = ((if Z.testbit x (Z.of_nat m) then 2 ^ Z.of_nat m else 0) + x mod 2 ^ Z.of_nat m)%Z.
Proof.
  intros Hx. rewrite Nat2Z.inj_succ, Z.pow_succ_r in Hx by lia.
  assert (P : (0 < 2 ^ Z.of_nat m)%Z) by (apply Z.pow_pos_nonneg; lia).
  pose proof (Z.div_mod x (2 ^ Z.of_nat m) ltac:(lia)) as D.
  assert (Q0 : (0 <= x / 2 ^ Z.of_nat m)%Z) by (apply Z.div_pos; lia).
  assert (Q1 : (x / 2 ^ Z.of_nat m < 2)%Z) by (apply Z.div_lt_upper_bound; lia).
  destruct (Z.testbit x (Z.of_nat m)) eqn:T.
  - apply Z.testbit_true in T; [|lia].
    assert (x / 2 ^ Z.of_nat m = 1)%Z.
    { destruct (Z.eq_dec (x / 2 ^ Z.of_nat m) 0) as [E|E]; [rewrite E in T; discriminate|lia]. }
    lia.
  - apply Z.testbit_false in T; [|lia].
    assert (x / 2 ^ Z.of_nat m = 0)%Z.
    { destruct (Z.eq_dec (x / 2 ^ Z.of_nat m) 1) as [E|E]; [rewrite E in T; discriminate|lia]. }
    lia.
Qed.

(** Of two different numbers of [n] bits the smaller one has a 0 where the
    other has a 1, at the highest bit in which they differ. *)
Lemma lt_first_bit (n : nat) : forall x y,
  (0 <= x < 2 ^ Z.of_nat n)%Z -> (0 <= y < 2 ^ Z.of_nat n)%Z -> (x < y)%Z ->
  exists p, p < n /\
    (forall q, p < q < n -> Z.testbit x (Z.of_nat q) = Z.testbit y (Z.of_nat q)) /\
    Z.testbit x (Z.of_nat p) = false /\ Z.testbit y (Z.of_nat p) = true.
Proof.
  induction n as [|m IH]; intros x y Hx Hy Hlt.
  - change (2 ^ Z.of_nat 0)%Z with 1%Z in *. lia.
  - pose proof (top_bit m Hx) as Ex. pose proof (top_bit m Hy) as Ey.
    assert (P : (0 < 2 ^ Z.of_nat m)%Z) by (apply Z.pow_pos_nonneg; lia).
    pose proof (Z.mod_pos_bound x (2 ^ Z.of_nat m) P) as Bx.
    pose proof (Z.mod_pos_bound y (2 ^ Z.of_nat m) P) as By.
    destruct (Z.testbit x (Z.of_nat m)) eqn:Tx, (Z.testbit y (Z.of_nat m)) eqn:Ty.
    + destruct (IH _ _ Bx By ltac:(lia)) as (p & Hp & Above & Px & Py).
      exists p. split; [lia|]. rewrite Z.mod_pow2_bits_low in Px, Py by lia.
      split; [|split; assumption]. intros q Hq.
      destruct (Nat.eq_dec q m) as [->|Hne]; [congruence|].
      specialize (Above q ltac:(lia)). rewrite !Z.mod_pow2_bits_low in Above by lia.
      exact Above.
    + lia.
    + exists m. split; [lia|]. split; [intros q Hq; lia|]. split; assumption.
    + destruct (IH _ _ Bx By ltac:(lia)) as (p & Hp & Above & Px & Py).
      exists p. split; [lia|]. rewrite Z.mod_pow2_bits_low in Px, Py by lia.
      split; [|split; assumption]. intros q Hq.
      destruct (Nat.eq_dec q m) as [->|Hne]; [congruence|].
      specialize (Above q ltac:(lia)). rewrite !Z.mod_pow2_bits_low in Above by lia.
      exact Above.
Qed.

(** The same for buckets, in the numbering of the bit vector: the first bit
    in which two buckets differ decides their order. *)
Lemma bucket_lt_first_bit x y :
  wordOK x -> wordOK y ->
  ((x < y)%Z <->
   exists k, k < 64 /\ (forall j, j < k -> bitOf x j = bitOf y j) /\
             bitOf x k = false /\ bitOf y k = true).
Proof.
  intros Hx Hy.
  assert (Fwd : forall a b, wordOK a -> wordOK b -> (a < b)%Z ->
            exists k, k < 64 /\ (forall j, j < k -> bitOf a j = bitOf b j) /\
                      bitOf a k = false /\ bitOf b k = true).
  { intros a b Ha Hb Hlt.
    destruct (@lt_first_bit 64 a b Ha Hb Hlt) as (p & Hp & Above & Pa & Pb).
    exists (63 - p). split; [lia|]. unfold bitOf.
    replace (63 - (63 - p)) with p by lia. split; [|split; assumption].
    intros j Hj. apply Above. lia. }
  split; [apply Fwd; assumption|].
  intros (k & Hk & Before & Kx & Ky).
  destruct (Z.lt_trichotomy x y) as [L|[E|G]]; [exact L| |].
  - subst y. congruence.
  - destruct (Fwd y x Hy Hx G) as (k' & Hk' & Before' & Ky' & Kx').
    destruct (Nat.lt_trichotomy k k') as [L|[E|L]].
    + rewrite <- (Before' k L) in Kx. congruence.
    + subst k'. congruence.
    + rewrite (Before k' L) in Kx'. congruence.
Qed.

Lemma lessLoop_spec l1 l2 n : forall s,
  lessLoop (seq s n) l1 l2 = true <->
  exists j, s <= j < s + n /\
    (forall i, s <= i < j -> bucketAt l1 i = bucketAt l2 i) /\
    (bucketAt l1 j < bucketAt l2 j)%Z.
Proof.
  induction n as [|n IH]; intros s.
  - cbn [seq lessLoop]. split; [discriminate|]. intros (j & Hj & _). lia.
  - cbn [seq lessLoop]. destruct (Z.ltb_spec (bucketAt l1 s) (bucketAt l2 s)) as [L|L].
    + split; [|reflexivity]. intros _. exists s. split; [lia|]. split; [intros i Hi; lia|exact L].
    + destruct (Z.ltb_spec (bucketAt l2 s) (bucketAt l1 s)) as [G|G].
      * split; [discriminate|]. intros (j & Hj & Before & Lt).
        destruct (Nat.eq_dec j s) as [->|Hne]; [lia|].
        specialize (Before s ltac:(lia)). lia.
      * assert (E : bucketAt l1 s = bucketAt l2 s) by lia.
        rewrite IH. split; intros (j & Hj & Before & Lt).
        -- exists j. split; [lia|]. split; [|exact Lt]. intros i Hi.
           destruct (Nat.eq_dec i s) as [->|Hne]; [exact E|apply Before; lia].
        -- destruct (Nat.eq_dec j s) as [->|Hne]; [lia|].
           exists j. split; [lia|]. split; [|exact Lt]. intros i Hi. apply Before. lia.
Qed.

(** On vectors of one length, [operator<] is decided by the first bit in
    which the vectors differ. *)
Lemma ltb_bits b other :
  wf b -> wf other -> bitCount b = bitCount other ->
  (ltb b other = true <->
   exists i, i < bitCount b /\ (forall j, j < i -> get b j = get other j) /\
             get b i = false /\ get other i = true).
Proof.
  intros Wb Wo HC. unfold ltb, get. rewrite HC, Nat.ltb_irrefl, lessLoop_spec.
  pose proof (proj1 Wb) as Sb. pose proof (proj1 Wo) as So.
  assert (HL : length (bucketVector other) = length (bucketVector b)).
  { destruct Sb as [Lb _], So as [Lo _]. rewrite Lb, Lo, HC. reflexivity. }
  split.
  - intros (j & Hj & Before & Lt).
    apply bucket_lt_first_bit in Lt; [|apply bucketAt_ok, Sb|apply bucketAt_ok, So].
    destruct Lt as (k & Hk & Bk & Kb & Ko).
    exists (64 * j + k). rewrite !index_at by exact Hk.
    split; [|split; [|split; assumption]].
    + apply (@set_bit_below other _ Wo). rewrite index_at by exact Hk. exact Ko.
    + intros i Hi. divmod64 i. rewrite !index_bitOf.
      destruct (Nat.eq_dec (i / 64) j) as [E|Hne].
      * rewrite E. apply Bk. lia.
      * rewrite (Before (i / 64)) by lia. reflexivity.
  - intros (i & Hi & Before & Ib & Io). divmod64 i.
    pose proof (stored_covers So) as Cov.
    exists (i / 64). split; [lia|]. split.
    + intros j Hj. apply (@buckets_agree b other j Sb So). intros k Hk. apply Before. lia.
    + apply bucket_lt_first_bit; [apply bucketAt_ok, Sb|apply bucketAt_ok, So|].
      exists (i mod 64). split; [lia|]. rewrite <- !index_bitOf.
      split; [|split; assumption].
      intros k Hk. rewrite <- !index_at by lia. apply Before. lia.
Qed.

(** [operator<] on the buckets is irreflexive, transitive and total. *)
Lemma lessLoop_irrefl l n s : lessLoop (seq s n) l l = false.
Proof.
  destruct (lessLoop (seq s n) l l) eqn:E; [|reflexivity].
  apply lessLoop_spec in E. destruct E as (j & _ & _ & Lt). lia.
Qed.

Lemma lessLoop_trans l1 l2 l3 n s :
  lessLoop (seq s n) l1 l2 = true -> lessLoop (seq s n) l2 l3 = true ->
  lessLoop (seq s n) l1 l3 = true.
Proof.
  rewrite !lessLoop_spec. intros (j1 & H1 & B1 & L1) (j2 & H2 & B2 & L2).
  destruct (Nat.lt_trichotomy j1 j2) as [L|[E|L]].
  - exists j1. split; [lia|]. split.
    + intros i Hi. rewrite B1 by lia. apply B2. lia.
    + rewrite <- (B2 j1) by lia. exact L1.
  - subst j2. exists j1. split; [lia|]. split; [|lia].
    intros i Hi. rewrite B1 by lia. apply B2. lia.
  - exists j2. split; [lia|]. split.
    + intros i Hi. rewrite B1 by lia. apply B2. lia.
    + rewrite (B1 j2) by lia. exact L2.
Qed.

Lemma lessLoop_total l1 l2 n : forall s,
  lessLoop (seq s n) l1 l2 = false -> lessLoop (seq s n) l2 l1 = false ->
  forall i, s <= i < s + n -> bucketAt l1 i = bucketAt l2 i.
Proof.
  induction n as [|n IH]; intros s H1 H2 i Hi; [lia|].
  cbn [seq lessLoop] in H1, H2.
  destruct (Z.ltb_spec (bucketAt l1 s) (bucketAt l2 s)) as [L|L]; [discriminate|].
  destruct (Z.ltb_spec (bucketAt l2 s) (bucketAt l1 s)) as [G|G]; [discriminate|].
  destruct (Nat.eq_dec i s) as [->|Hne]; [lia|].
  apply (IH (S s) H1 H2). lia.
Qed.

Lemma stored_same_length b other :
  stored b -> stored other -> bitCount b = bitCount other ->
  length (bucketVector b) = length (bucketVector other).
Proof. intros [Lb _] [Lo _] HC. rewrite Lb, Lo, HC. reflexivity. Qed.

(** *** Copying buckets *)

Lemma copy_buckets (source : list Z) idx m : forall l,
  let copy := fold_left (fun l j => updateAt (fun _ => bucketAt source j) (idx + j) l)
                (seq 0 m) l in
  length copy = length l /\
  forall i, bucketAt copy i =
            if (idx <=? i) && (i <? idx + m) && (i <? length l)
            then bucketAt source (i - idx) else bucketAt l i.
Proof.
  induction m as [|m IH]; intros l copy.
  - split; [reflexivity|]. intros i. unfold copy. cbn [seq fold_left].
    destruct (Nat.leb_spec idx i), (Nat.ltb_spec i (idx + 0)); cbn [andb];
      try reflexivity; lia.
  - unfold copy. rewrite seq_S, fold_left_app. cbn [fold_left Nat.add].
    destruct (IH l) as [Len At]. cbn zeta in Len, At.
    split; [rewrite length_updateAt; exact Len|].
    intros i. rewrite bucketAt_updateAt, At, Len.
    destruct (Nat.eq_dec i (idx + m)) as [->|Hne].
    + rewrite Nat.eqb_refl. cbn [andb].
      replace (idx <=? idx + m) with true by (symmetry; apply Nat.leb_le; lia).
      replace (idx + m <? idx + S m) with true by (symmetry; apply Nat.ltb_lt; lia).
      replace (idx + m <? idx + m) with false by (symmetry; apply Nat.ltb_ge; lia).
      cbn [andb]. replace (idx + m - idx) with m by lia.
      destruct (idx + m <? length l); reflexivity.
    + replace (i =? idx + m) with false by (symmetry; apply Nat.eqb_neq; exact Hne).
      cbn [andb].
      replace (i <? idx + S m) with (i <? idx + m); [reflexivity|].
      destruct (Nat.ltb_spec i (idx + m)), (Nat.ltb_spec i (idx + S m)); try reflexivity; lia.
Qed.

Lemma length_setVector bitIndex other b :
  length (bucketVector (setVector bitIndex other b)) = length (bucketVector b).
Proof. unfold setVector. cbn [bucketVector]. apply copy_buckets. Qed.

Lemma bucketAt_setVector bitIndex other b i :
  bitIndex / 64 + length (bucketVector other) <= length (bucketVector b) ->
  bucketAt (bucketVector (setVector bitIndex other b)) i =
  if (bitIndex / 64 <=? i) && (i <? bitIndex / 64 + length (bucketVector other))
  then bucketAt (bucketVector other) (i - bitIndex / 64)
  else bucketAt (bucketVector b) i.
Proof.
  intros Fits. unfold setVector. cbn [bucketVector]. rewrite shiftr6.
  destruct (@copy_buckets (bucketVector other) (bitIndex / 64) (length (bucketVector other))
              (bucketVector b)) as [_ At].
  cbn zeta in At. rewrite At.
  destruct (Nat.leb_spec (bitIndex / 64) i), (Nat.ltb_spec i (bitIndex / 64 + length (bucketVector other)));
    cbn [andb]; try reflexivity.
  replace (i <? length (bucketVector b)) with true by (symmetry; apply Nat.ltb_lt; lia).
  reflexivity.
Qed.

Lemma matches_buckets bitIndex other b :
  matches bitIndex other b = true <->
  forall j, j < length (bucketVector other) ->
            bucketAt (bucketVector b) (bitIndex / 64 + j) = bucketAt (bucketVector other) j.
Proof.
  unfold matches. rewrite shiftr6, forallb_seq. split; intros H j Hj.
  - apply Z.eqb_eq. apply H. exact Hj.
  - apply Z.eqb_eq. apply H. exact Hj.
Qed.

(** *** The hash *)

Lemma hash_loop bv indices :
  fold_left
    (fun result index =>
       let result1 := Z.lxor result (shl result 3) in
       Z.lxor result1 (shrBy result1 (getAsInt (Nat.shiftl index 6) 5 bv)))
    indices 0%Z = 0%Z.
Proof.
  induction indices as [|index indices IH]; [reflexivity|].
  cbn [fold_left]. cbn zeta.
  assert (E : Z.lxor 0 (shl 0 3) = 0%Z) by reflexivity.
  rewrite E. unfold shrBy. rewrite Z.shiftr_0_l. cbn [Z.lxor]. exact IH.
Qed.

Lemma no_bit_beyond b i : wf b -> bitCount b <= i -> index b i = false.
Proof.
  intros W Hi. destruct (index b i) eqn:E; [|reflexivity].
  apply (@set_bit_below b i W) in E. lia.
Qed.

Lemma Forall_bucketAt l :
  (forall i, i < length l -> wordOK (bucketAt l i)) -> Forall wordOK l.
Proof.
  intros H. apply Forall_forall. intros w Hw. apply In_nth with (d := 0%Z) in Hw.
  destruct Hw as (j & Hj & <-). apply H. exact Hj.
Qed.

Lemma fits_in_buckets bitIndex other b :
  stored b -> stored other -> bitIndex mod 64 = 0 ->
  bitIndex + bitCount other <= bitCount b ->
  bitIndex / 64 + length (bucketVector other) <= length (bucketVector b).
Proof.
  intros Sb So Hm Hfit. divmod64 bitIndex.
  pose proof (stored_covers Sb) as Cov. destruct So as [Lo _]. rewrite Lo.
  pose proof (bucketCountFor_bounds (bitCount other)). lia.
Qed.

(** The bits of a vector into which the buckets of another one were
    copied. *)
Lemma index_setVector bitIndex other b j :
  bitIndex mod 64 = 0 ->
  bitIndex / 64 + length (bucketVector other) <= length (bucketVector b) ->
  index (setVector bitIndex other b) j =
  if (bitIndex <=? j) && (j <? bitIndex + 64 * length (bucketVector other))
  then index other (j - bitIndex) else index b j.
Proof.
  intros Hm Fits. rewrite !index_bitOf, bucketAt_setVector by exact Fits.
  divmod64 bitIndex. divmod64 j.
  set (m := length (bucketVector other)) in *.
  destruct (Nat.leb_spec (bitIndex / 64) (j / 64)), (Nat.ltb_spec (j / 64) (bitIndex / 64 + m));
    cbn [andb];
    destruct (Nat.leb_spec bitIndex j), (Nat.ltb_spec j (bitIndex + 64 * m));
    cbn [andb]; try reflexivity; try lia.
  assert (D : (j - bitIndex) / 64 = j / 64 - bitIndex / 64).
  { symmetry. apply Nat.div_unique with (j mod 64); lia. }
  assert (M : (j - bitIndex) mod 64 = j mod 64).
  { symmetry. apply Nat.mod_unique with (j / 64 - bitIndex / 64); lia. }
  rewrite D, M. reflexivity.
Qed.

(** *** Statements about the operations *)

(** A vector that is built from a range of indices below its length holds
    exactly these indices; iterating over it gives them in increasing order
    and without repetition, and gives back the range when that was already
    strictly increasing. *)
Theorem fromIndices_round_trip length indices :
  (forall i, In i indices -> i < length) ->
  wf (fromIndices length indices) /\ size (fromIndices length indices) = length /\
  (forall j, get (fromIndices length indices) j = true <-> In j indices) /\
  StronglySorted lt (setBits (fromIndices length indices)) /\
  (StronglySorted lt indices -> setBits (fromIndices length indices) = indices).
Proof.
  intros Hin. unfold fromIndices, size, get.
  destruct (@setAll_spec indices (zeros length) (wf_zeros length) Hin) as (W & C & I).
  assert (Mem : forall j, index (setAll indices (zeros length)) j = true <-> In j indices).
  { intros j. rewrite I, index_zeros. cbn [orb]. rewrite existsb_exists. split.
    - intros (x & Hx & E). apply Nat.eqb_eq in E. subst x. exact Hx.
    - intros Hj. exists j. split; [exact Hj|apply Nat.eqb_refl]. }
  split; [exact W|]. split; [exact C|]. split; [exact Mem|].
  split; [apply setBits_sorted|].
  intros Sorted. apply sorted_unique; [apply setBits_sorted|exact Sorted|].
  intros x. rewrite in_setBits, Mem, C. cbn [bitCount zeros]. split; [tauto|].
  intros Hx. split; [apply Hin; exact Hx|exact Hx].
Qed.

Lemma fromIndices_round_trip_witness :
  (forall i, In i [3; 5; 69] -> i < 70) /\
  setBits (fromIndices 70 [3; 5; 69]) = [3; 5; 69].
Proof.
  assert (H : forall i, In i [3; 5; 69] -> i < 70).
  { intros i Hi. cbn [In] in Hi. lia. }
  split; [exact H|].
  apply (proj2 (proj2 (proj2 (proj2 (@fromIndices_round_trip 70 [3; 5; 69] H))))).
  repeat constructor; lia.
Defined.

(** On two vectors of one length that satisfy the invariant, [isSubsetOf]
    holds exactly if every set bit of the first vector is set in the
    second. *)
Theorem isSubsetOf_correct b other :
  wf b -> wf other -> bitCount b = bitCount other ->
  (isSubsetOf b other = true <->
   forall i, i < bitCount b -> get b i = true -> get other i = true).
Proof.
  intros Wb Wo HC. rewrite (@isSubsetOf_bits b other (proj1 Wb) (proj1 Wo) HC). unfold get.
  split; intros H i.
  - intros _. apply H.
  - intros Hi. apply H; [|exact Hi]. apply (@set_bit_below b i Wb Hi).
Qed.

Lemma isSubsetOf_correct_witness :
  wf (fromIndices 70 [3; 69]) /\ wf exampleFilter /\
  bitCount (fromIndices 70 [3; 69]) = bitCount exampleFilter /\
  (isSubsetOf (fromIndices 70 [3; 69]) exampleFilter = true <->
   forall i, i < bitCount (fromIndices 70 [3; 69]) ->
             get (fromIndices 70 [3; 69]) i = true -> get exampleFilter i = true).
Proof.
  assert (W1 : wf (fromIndices 70 [3; 69])) by (apply wfb_wf; vm_compute; reflexivity).
  assert (W2 : wf exampleFilter) by (apply wfb_wf; vm_compute; reflexivity).
  split; [exact W1|]. split; [exact W2|]. split; [reflexivity|].
  exact (@isSubsetOf_correct (fromIndices 70 [3; 69]) exampleFilter W1 W2 eq_refl).
Defined.

(** On two vectors of one length that satisfy the invariant,
    [isDisjointFrom] holds exactly if no bit is set in both, which is to say
    that their conjunction is [empty]. *)
Theorem isDisjointFrom_correct b other :
  wf b -> wf other -> bitCount b = bitCount other ->
  (isDisjointFrom b other = true <->
   forall i, i < bitCount b -> get b i = true -> get other i = false) /\
  isDisjointFrom b other = empty (and b other).
Proof.
  intros Wb Wo HC.
  pose proof (@isDisjointFrom_bits b other (proj1 Wb) (proj1 Wo) HC) as D.
  assert (Bits : isDisjointFrom b other = true <->
                 forall i, i < bitCount b -> get b i = true -> get other i = false).
  { rewrite D. unfold get. split; intros H i.
    - intros _. apply H.
    - intros Hi. apply H; [|exact Hi]. apply (@set_bit_below b i Wb Hi). }
  split; [exact Bits|].
  destruct (@and_spec b other Wb Wo HC) as (Wa & _ & Ia).
  pose proof (@empty_bits (and b other) (proj1 Wa)) as Em.
  destruct (isDisjointFrom b other) eqn:E1, (empty (and b other)) eqn:E2; try reflexivity.
  - assert (K : forall i, index (and b other) i = false).
    { intros i. rewrite Ia. destruct (index b i) eqn:Eb; [|reflexivity].
      rewrite (proj1 D eq_refl i Eb). reflexivity. }
    apply Em in K. congruence.
  - assert (K : forall i, index b i = true -> index other i = false).
    { intros i Hi. pose proof (proj1 Em eq_refl i) as Z0. rewrite Ia, Hi in Z0. exact Z0. }
    apply D in K. congruence.
Qed.

Lemma isDisjointFrom_correct_witness :
  wf exampleVector /\ wf exampleFilter /\ bitCount exampleVector = bitCount exampleFilter /\
  isDisjointFrom exampleVector exampleFilter = empty (and exampleVector exampleFilter).
Proof.
  assert (W1 : wf exampleVector) by (apply wfb_wf; vm_compute; reflexivity).
  assert (W2 : wf exampleFilter) by (apply wfb_wf; vm_compute; reflexivity).
  split; [exact W1|]. split; [exact W2|]. split; [reflexivity|].
  exact (proj2 (@isDisjointFrom_correct exampleVector exampleFilter W1 W2 eq_refl)).
Defined.

(** On a vector that satisfies the invariant, [empty] holds exactly if no
    bit is set; [clear] keeps the length and the invariant and leaves a
    vector that is [empty]. *)
Theorem empty_and_clear b :
  wf b ->
  (empty b = true <-> forall i, i < bitCount b -> get b i = false) /\
  wf (clear b) /\ size (clear b) = size b /\ empty (clear b) = true /\
  (forall i, get (clear b) i = false).
Proof.
  intros W. split; [|split; [|split; [|split]]].
  - rewrite (@empty_bits b (proj1 W)). unfold get. split; intros H i.
    + intros _. apply H.
    + destruct (Nat.lt_ge_cases i (bitCount b)) as [L|L]; [apply H; exact L|].
      apply no_bit_beyond; assumption.
  - apply wf_clear, W.
  - reflexivity.
  - apply empty_bits; [apply wf_clear, W|]. apply index_clear.
  - apply index_clear.
Qed.

Lemma empty_and_clear_witness :
  wf exampleVector /\ empty exampleVector = false /\ empty (clear exampleVector) = true.
Proof.
  assert (W : wf exampleVector) by (apply wfb_wf; vm_compute; reflexivity).
  split; [exact W|]. split; [vm_compute; reflexivity|].
  exact (proj1 (proj2 (proj2 (proj2 (@empty_and_clear exampleVector W))))).
Defined.

(** On vectors whose buckets cover their length, [operator<] is a strict
    total order: no vector is less than itself, the order is transitive,
    and of two vectors that are not the same one is less than the other. *)
Theorem ltb_strict_total_order a b c :
  stored a -> stored b -> stored c ->
  ltb a a = false /\
  (ltb a b = true -> ltb b a = false) /\
  (ltb a b = true -> ltb b c = true -> ltb a c = true) /\
  (ltb a b = false -> ltb b a = false -> a = b).
Proof.
  intros Sa Sb Sc.
  assert (Irrefl : forall x, ltb x x = false).
  { intros x. unfold ltb. rewrite Nat.ltb_irrefl. apply lessLoop_irrefl. }
  assert (Trans : forall x y z, stored x -> stored y -> stored z ->
            ltb x y = true -> ltb y z = true -> ltb x z = true).
  { intros x y z Sx Sy Sz. unfold ltb.
    destruct (Nat.ltb_spec (bitCount x) (bitCount y)) as [L1|L1].
    - intros _. destruct (Nat.ltb_spec (bitCount y) (bitCount z)) as [L2|L2].
      + intros _. replace (bitCount x <? bitCount z) with true
          by (symmetry; apply Nat.ltb_lt; lia). reflexivity.
      + destruct (Nat.ltb_spec (bitCount z) (bitCount y)) as [L3|L3]; [discriminate|].
        intros _. replace (bitCount x <? bitCount z) with true
          by (symmetry; apply Nat.ltb_lt; lia). reflexivity.
    - destruct (Nat.ltb_spec (bitCount y) (bitCount x)) as [L2|L2]; [discriminate|].
      assert (Exy : bitCount x = bitCount y) by lia. intros H1.
      destruct (Nat.ltb_spec (bitCount y) (bitCount z)) as [L3|L3].
      + intros _. replace (bitCount x <? bitCount z) with true
          by (symmetry; apply Nat.ltb_lt; lia). reflexivity.
      + destruct (Nat.ltb_spec (bitCount z) (bitCount y)) as [L4|L4]; [discriminate|].
        intros H2.
        replace (bitCount x <? bitCount z) with false by (symmetry; apply Nat.ltb_ge; lia).
        replace (bitCount z <? bitCount x) with false by (symmetry; apply Nat.ltb_ge; lia).
        rewrite <- (stored_same_length Sx Sy Exy) in H2.
        exact (lessLoop_trans _ _ _ _ _ H1 H2). }
  split; [apply Irrefl|]. split; [|split].
  - intros H1. destruct (ltb b a) eqn:H2; [|reflexivity].
    rewrite <- (Irrefl a). symmetry. apply (Trans a b a); assumption.
  - apply Trans; assumption.
  - unfold ltb.
    destruct (Nat.ltb_spec (bitCount a) (bitCount b)) as [L1|L1]; [discriminate|].
    destruct (Nat.ltb_spec (bitCount b) (bitCount a)) as [L2|L2]; [discriminate|].
    assert (E : bitCount a = bitCount b) by lia.
    pose proof (stored_same_length Sa Sb E) as HL. rewrite <- HL. intros H1 H2.
    pose proof (@lessLoop_total _ _ _ 0 H1 H2) as Same.
    assert (EB : bucketVector a = bucketVector b).
    { apply list_ext_bucketAt; [exact HL|]. intros i Hi. apply Same. lia. }
    destruct a as [na la], b as [nb lb]. cbn [bitCount bucketVector] in *. congruence.
Qed.

Lemma ltb_strict_total_order_witness :
  stored exampleVector /\ stored exampleFilter /\ stored wideVector /\
  ltb exampleFilter exampleVector = true /\ ltb exampleVector wideVector = true /\
  ltb exampleFilter wideVector = true.
Proof.
  assert (S1 : stored exampleVector) by (apply wfb_wf; vm_compute; reflexivity).
  assert (S2 : stored exampleFilter) by (apply wfb_wf; vm_compute; reflexivity).
  assert (S3 : stored wideVector) by (apply wfb_wf; vm_compute; reflexivity).
  assert (H1 : ltb exampleFilter exampleVector = true) by (vm_compute; reflexivity).
  assert (H2 : ltb exampleVector wideVector = true) by (vm_compute; reflexivity).
  repeat (split; [assumption|]).
  exact (proj1 (proj2 (proj2 (@ltb_strict_total_order exampleFilter exampleVector wideVector
                                S2 S1 S3))) H1 H2).
Defined.

(** A shorter vector is less than a longer one; of two vectors of one
    length that satisfy the invariant, the lesser is the one that has the
    bit clear at the first index where the two differ. *)
Theorem ltb_first_difference b other :
  wf b -> wf other ->
  (bitCount b < bitCount other -> ltb b other = true) /\
  (bitCount other < bitCount b -> ltb b other = false) /\
  (bitCount b = bitCount other ->
   (ltb b other = true <->
    exists i, i < bitCount b /\ (forall j, j < i -> get b j = get other j) /\
              get b i = false /\ get other i = true)).
Proof.
  intros Wb Wo. split; [|split].
  - intros L. unfold ltb. replace (bitCount b <? bitCount other) with true
      by (symmetry; apply Nat.ltb_lt; exact L). reflexivity.
  - intros L. unfold ltb.
    replace (bitCount b <? bitCount other) with false by (symmetry; apply Nat.ltb_ge; lia).
    replace (bitCount other <? bitCount b) with true by (symmetry; apply Nat.ltb_lt; exact L).
    reflexivity.
  - apply ltb_bits; assumption.
Qed.

Lemma ltb_first_difference_witness :
  wf exampleFilter /\ wf exampleVector /\ bitCount exampleFilter = bitCount exampleVector /\
  (ltb exampleFilter exampleVector = true <->
   exists i, i < bitCount exampleFilter /\
             (forall j, j < i -> get exampleFilter j = get exampleVector j) /\
             get exampleFilter i = false /\ get exampleVector i = true).
Proof.
  assert (W1 : wf exampleFilter) by (apply wfb_wf; vm_compute; reflexivity).
  assert (W2 : wf exampleVector) by (apply wfb_wf; vm_compute; reflexivity).
  split; [exact W1|]. split; [exact W2|]. split; [reflexivity|].
  exact (proj2 (proj2 (@ltb_first_difference exampleFilter exampleVector W1 W2)) eq_refl).
Defined.

(** After [set(bitIndex, other)] with a [bitIndex] that is a multiple of 64
    and an [other] that fits, the vector [matches] the other one at
    [bitIndex] and holds its bits there; the bits up to the end of the last
    bucket copied are clear; every other bit, the length and the invariant
    are kept. *)
Theorem setVector_then_matches bitIndex other b :
  wf b -> wf other -> bitIndex mod 64 = 0 -> bitIndex + bitCount other <= bitCount b ->
  wf (setVector bitIndex other b) /\
  size (setVector bitIndex other b) = size b /\
  matches bitIndex other (setVector bitIndex other b) = true /\
  (forall i, i < bitCount other -> get (setVector bitIndex other b) (bitIndex + i) = get other i) /\
  (forall i, bitCount other <= i < 64 * length (bucketVector other) ->
             get (setVector bitIndex other b) (bitIndex + i) = false) /\
  (forall i, i < bitIndex \/ bitIndex + 64 * length (bucketVector other) <= i ->
             get (setVector bitIndex other b) i = get b i).
Proof.
  intros Wb Wo Hm Hfit. unfold get, size.
  pose proof (@fits_in_buckets bitIndex other b (proj1 Wb) (proj1 Wo) Hm Hfit) as Fits.
  pose proof (fun j => @index_setVector bitIndex other b j Hm Fits) as I.
  pose proof (stored_covers (proj1 Wo)) as CovO.
  set (m := length (bucketVector other)) in *.
  assert (In_range : forall i, i < 64 * m ->
            index (setVector bitIndex other b) (bitIndex + i) = index other i).
  { intros i Hi. rewrite I.
    replace (bitIndex <=? bitIndex + i) with true by (symmetry; apply Nat.leb_le; lia).
    replace (bitIndex + i <? bitIndex + 64 * m) with true by (symmetry; apply Nat.ltb_lt; lia).
    cbn [andb]. replace (bitIndex + i - bitIndex) with i by lia. reflexivity. }
  split; [|split; [reflexivity|split; [|split; [|split]]]].
  - split; [split|].
    + rewrite length_setVector. apply (proj1 Wb).
    + apply Forall_bucketAt. intros i Hi. rewrite bucketAt_setVector by exact Fits.
      destruct (_ && _); apply bucketAt_ok; [apply (proj1 Wo)|apply (proj1 Wb)].
    + intros j Hj. rewrite length_setVector in Hj.
      change (bitCount (setVector bitIndex other b)) with (bitCount b) in Hj.
      rewrite I. destruct ((bitIndex <=? j) && (j <? bitIndex + 64 * m)) eqn:E.
      * apply no_bit_beyond; [exact Wo|].
        apply andb_true_iff in E. destruct E as [E1 E2]. apply Nat.leb_le in E1. lia.
      * apply (proj2 Wb). exact Hj.
  - apply matches_buckets. intros j Hj. rewrite bucketAt_setVector by exact Fits.
    replace (bitIndex / 64 <=? bitIndex / 64 + j) with true by (symmetry; apply Nat.leb_le; lia).
    replace (bitIndex / 64 + j <? bitIndex / 64 + length (bucketVector other)) with true
      by (symmetry; apply Nat.ltb_lt; fold m; lia).
    cbn [andb]. f_equal. lia.
  - intros i Hi. apply In_range. lia.
  - intros i Hi. rewrite In_range by lia. apply no_bit_beyond; [exact Wo|lia].
  - intros i Hi. rewrite I.
    destruct (Nat.leb_spec bitIndex i), (Nat.ltb_spec i (bitIndex + 64 * m));
      cbn [andb]; try reflexivity; lia.
Qed.

Lemma setVector_then_matches_witness :
  wf wideVector /\ wf (fromIndices 3 [0; 2]) /\ 64 mod 64 = 0 /\
  64 + bitCount (fromIndices 3 [0; 2]) <= bitCount wideVector /\
  matches 64 (fromIndices 3 [0; 2]) (setVector 64 (fromIndices 3 [0; 2]) wideVector) = true /\
  setBits (setVector 64 (fromIndices 3 [0; 2]) wideVector) = [1; 62; 63; 64; 66; 129].
Proof.
  assert (W1 : wf wideVector) by (apply wfb_wf; vm_compute; reflexivity).
  assert (W2 : wf (fromIndices 3 [0; 2])) by (apply wfb_wf; vm_compute; reflexivity).
  assert (H3 : 64 mod 64 = 0) by reflexivity.
  assert (H4 : 64 + bitCount (fromIndices 3 [0; 2]) <= bitCount wideVector)
    by (vm_compute; lia).
  repeat (split; [assumption|]).
  split; [|vm_compute; reflexivity].
  exact (proj1 (proj2 (proj2 (@setVector_then_matches 64 (fromIndices 3 [0; 2]) wideVector
                                W1 W2 H3 H4)))).
Defined.

(** [matches] compares whole buckets: with a [bitIndex] that is a multiple
    of 64 and an [other] that fits, it holds exactly if the vector has the
    bits of [other] from [bitIndex] on and, after them, clear bits up to the
    end of the last bucket that [other] occupies. *)
Theorem matches_correct bitIndex other b :
  wf b -> wf other -> bitIndex mod 64 = 0 -> bitIndex + bitCount other <= bitCount b ->
  (matches bitIndex other b = true <->
   (forall i, i < bitCount other -> get b (bitIndex + i) = get other i) /\
   (forall i, bitCount other <= i < 64 * length (bucketVector other) ->
              get b (bitIndex + i) = false)).
Proof.
  intros Wb Wo Hm Hfit. unfold get. rewrite matches_buckets.
  divmod64 bitIndex.
  assert (At : forall j k, k < 64 ->
            index b (bitIndex + (64 * j + k))
            = bitOf (bucketAt (bucketVector b) (bitIndex / 64 + j)) k).
  { intros j k Hk. rewrite <- index_at by exact Hk. f_equal. lia. }
  split.
  - intros Same.
    assert (Bits : forall i, i < 64 * length (bucketVector other) ->
              index b (bitIndex + i) = index other i).
    { intros i Hi. divmod64 i.
      replace i with (64 * (i / 64) + i mod 64) at 1 by lia.
      rewrite At by lia. rewrite Same by lia. rewrite index_bitOf. reflexivity. }
    pose proof (stored_covers (proj1 Wo)) as Cov. split.
    + intros i Hi. apply Bits. lia.
    + intros i Hi. rewrite Bits by lia. apply no_bit_beyond; [exact Wo|lia].
  - intros [Low High] j Hj.
    apply word_ext; [apply bucketAt_ok, (proj1 Wb)|apply bucketAt_ok, (proj1 Wo)|].
    intros k Hk. rewrite <- At by exact Hk. rewrite <- index_at by exact Hk.
    destruct (Nat.lt_ge_cases (64 * j + k) (bitCount other)) as [L|L].
    + apply Low. exact L.
    + rewrite High by lia. symmetry. apply no_bit_beyond; [exact Wo|exact L].
Qed.

Lemma matches_correct_witness :
  wf wideVector /\ wf (fromIndices 3 [0; 2]) /\ 64 mod 64 = 0 /\
  64 + bitCount (fromIndices 3 [0; 2]) <= bitCount wideVector /\
  matches 64 (fromIndices 3 [0; 2]) wideVector = false /\
  (matches 64 (fromIndices 3 [0; 2]) wideVector = true <->
   (forall i, i < bitCount (fromIndices 3 [0; 2]) ->
              get wideVector (64 + i) = get (fromIndices 3 [0; 2]) i) /\
   (forall i, bitCount (fromIndices 3 [0; 2]) <= i
              < 64 * length (bucketVector (fromIndices 3 [0; 2])) ->
              get wideVector (64 + i) = false)).
Proof.
  assert (W1 : wf wideVector) by (apply wfb_wf; vm_compute; reflexivity).
  assert (W2 : wf (fromIndices 3 [0; 2])) by (apply wfb_wf; vm_compute; reflexivity).
  assert (H3 : 64 mod 64 = 0) by reflexivity.
  assert (H4 : 64 + bitCount (fromIndices 3 [0; 2]) <= bitCount wideVector)
    by (vm_compute; lia).
  repeat (split; [assumption|]).
  split; [vm_compute; reflexivity|].
  exact (@matches_correct 64 (fromIndices 3 [0; 2]) wideVector W1 W2 H3 H4).
Defined.

(** [get(bitIndex, numberOfBits)] copies whole buckets, from the bucket of
    [bitIndex] on.  For a number of bits that is a multiple of 64 the result
    satisfies the invariant, holds the bits from the start of that bucket
    on, [matches] the vector at [bitIndex], and written back with
    [set(bitIndex, other)] leaves the vector as it is.  For any other
    number of bits the result has no bucket for its last bits. *)
Theorem getVector_correct bitIndex numberOfBits b :
  stored b -> bitIndex / 64 + numberOfBits / 64 <= length (bucketVector b) ->
  (numberOfBits mod 64 = 0 ->
   wf (getVector bitIndex numberOfBits b) /\
   size (getVector bitIndex numberOfBits b) = numberOfBits /\
   (forall i, i < numberOfBits ->
      get (getVector bitIndex numberOfBits b) i = get b (64 * (bitIndex / 64) + i)) /\
   matches bitIndex (getVector bitIndex numberOfBits b) b = true /\
   setVector bitIndex (getVector bitIndex numberOfBits b) b = b) /\
  (numberOfBits mod 64 <> 0 ->
   length (bucketVector (getVector bitIndex numberOfBits b)) * 64 < numberOfBits /\
   ~ stored (getVector bitIndex numberOfBits b)).
Proof.
  intros Sb Fits. unfold get, size.
  assert (Len : length (bucketVector (getVector bitIndex numberOfBits b)) = numberOfBits / 64).
  { unfold getVector. cbn [bucketVector]. rewrite length_map, length_seq. apply shiftr6. }
  assert (At : forall j, j < numberOfBits / 64 ->
            bucketAt (bucketVector (getVector bitIndex numberOfBits b)) j
            = bucketAt (bucketVector b) (bitIndex / 64 + j)).
  { intros j Hj. unfold getVector. cbn [bucketVector]. rewrite !shiftr6.
    unfold bucketAt at 1.
    rewrite (nth_indep _ 0%Z (bucketAt (bucketVector b) (bitIndex / 64 + 0)))
      by (rewrite length_map, length_seq; exact Hj).
    rewrite (map_nth (fun j => bucketAt (bucketVector b) (bitIndex / 64 + j))).
    rewrite seq_nth by exact Hj. reflexivity. }
  divmod64 numberOfBits. split.
  - intros Hm.
    assert (Bits : forall i, i < numberOfBits ->
              index (getVector bitIndex numberOfBits b) i
              = index b (64 * (bitIndex / 64) + i)).
    { intros i Hi. divmod64 i. rewrite !index_bitOf, At by lia. f_equal.
      - f_equal. apply Nat.div_unique with (i mod 64); lia.
      - apply Nat.mod_unique with (bitIndex / 64 + i / 64); lia. }
    assert (M : matches bitIndex (getVector bitIndex numberOfBits b) b = true).
    { apply matches_buckets. intros j Hj. rewrite Len in Hj. symmetry. apply At. exact Hj. }
    split; [|split; [reflexivity|split; [exact Bits|split; [exact M|]]]].
    + split; [split|].
      * rewrite Len. change (bitCount (getVector bitIndex numberOfBits b)) with numberOfBits.
        rewrite bucketCountFor_eq, Hm. reflexivity.
      * apply Forall_bucketAt. intros j Hj. rewrite Len in Hj. rewrite At by exact Hj.
        apply bucketAt_ok, Sb.
      * intros i Hi. rewrite Len in Hi.
        change (bitCount (getVector bitIndex numberOfBits b)) with numberOfBits in Hi. lia.
    + assert (EB : bucketVector (setVector bitIndex (getVector bitIndex numberOfBits b) b)
                   = bucketVector b).
      { apply list_ext_bucketAt; [apply length_setVector|].
        intros i Hi. rewrite bucketAt_setVector by (rewrite Len; exact Fits).
        rewrite Len.
        destruct (Nat.leb_spec (bitIndex / 64) i), (Nat.ltb_spec i (bitIndex / 64 + numberOfBits / 64));
          cbn [andb]; try reflexivity.
        rewrite At by lia. f_equal. lia. }
      destruct b as [n l]. unfold setVector in *. cbn [bitCount bucketVector] in *.
      f_equal. exact EB.
  - intros Hm. rewrite Len. split; [lia|].
    intros [HL _]. rewrite Len in HL.
    change (bitCount (getVector bitIndex numberOfBits b)) with numberOfBits in HL.
    rewrite bucketCountFor_eq in HL.
    destruct (numberOfBits mod 64 =? 0) eqn:E; [apply Nat.eqb_eq in E; contradiction|lia].
Qed.

Lemma getVector_correct_witness :
  stored wideVector /\ 70 / 64 + 64 / 64 <= length (bucketVector wideVector) /\
  64 mod 64 = 0 /\
  setBits (getVector 70 64 wideVector) = [0; 2; 63] /\
  setVector 70 (getVector 70 64 wideVector) wideVector = wideVector.
Proof.
  assert (S1 : stored wideVector) by (apply wfb_wf; vm_compute; reflexivity).
  assert (H2 : 70 / 64 + 64 / 64 <= length (bucketVector wideVector)) by (vm_compute; lia).
  split; [exact S1|]. split; [exact H2|]. split; [reflexivity|].
  split; [vm_compute; reflexivity|].
  exact (proj2 (proj2 (proj2 (proj2
           (proj1 (@getVector_correct 70 64 wideVector S1 H2) eq_refl))))).
Defined.

(** The hash of every bit vector is 1: the loop xors a value that starts
    at 0 with shifts of itself. *)
Theorem nonZeroBitVectorHash_constant bv : nonZeroBitVectorHash bv = 1%Z.
Proof. unfold nonZeroBitVectorHash. rewrite hash_loop. reflexivity. Qed.

End BitVectorOpsFacts.

(** ** Bit vectors: integers stored in a range of bits *)

Module BitVectorIntFacts.
Import Word64 Word64Facts BitVector BitVectorFacts BitVectorIteration BitVectorOps.
Import BitVectorOpsFacts.

(** *** Bits of the words that the code builds *)

Lemma lowBit_high w p : wordOK w -> 64 <= p -> lowBit w p = false.
Proof. intros Hw Hp. unfold lowBit. apply testbit_high; [exact Hw|lia]. Qed.

Lemma lowBit_above (n : nat) v p : (0 <= v < 2 ^ Z.of_nat n)%Z -> n <= p -> lowBit v p = false.
Proof.
  intros Hv Hp. unfold lowBit. rewrite <- (Z.mod_small v (2 ^ Z.of_nat n)) by exact Hv.
  apply Z.mod_pow2_bits_high. lia.
Qed.

Lemma below_of_bits (n : nat) v :
  (0 <= v)%Z -> (forall p, n <= p -> lowBit v p = false) -> (v < 2 ^ Z.of_nat n)%Z.
Proof.
  intros H0 H. destruct (Z.eq_dec v 0) as [->|Hne]; [apply Z.pow_pos_nonneg; lia|].
  apply Z.log2_lt_pow2; [lia|].
  destruct (Z.lt_ge_cases (Z.log2 v) (Z.of_nat n)) as [L|L]; [exact L|].
  pose proof (Z.bit_log2 v ltac:(lia)) as B.
  pose proof (Z.log2_nonneg v) as N.
  rewrite <- (Z2Nat.id (Z.log2 v)) in B by exact N.
  unfold lowBit in H. rewrite H in B by lia. discriminate.
Qed.

Lemma bitOf_lowBit w k : bitOf w k = lowBit w (63 - k).
Proof. reflexivity. Qed.

Lemma lowBit_land x y p : lowBit (Z.land x y) p = lowBit x p && lowBit y p.
Proof. apply Z.land_spec. Qed.

Lemma lowBit_lor x y p : lowBit (Z.lor x y) p = lowBit x p || lowBit y p.
Proof. apply Z.lor_spec. Qed.

Lemma lowBit_wrap x p : lowBit (wrap x) p = (p <? 64) && lowBit x p.
Proof.
  unfold lowBit, wrap, modulus. destruct (Nat.ltb_spec p 64) as [L|L]; cbn [andb].
  - apply Z.mod_pow2_bits_low. lia.
  - apply Z.mod_pow2_bits_high. lia.
Qed.

Lemma lowBit_shl x c p : c < 64 -> lowBit (shl x c) p = (p <? 64) && (c <=? p) && lowBit x (p - c).
Proof.
  intros Hc. unfold shl. rewrite lowBit_wrap, Nat.mod_small by exact Hc.
  unfold lowBit. rewrite Z.shiftl_spec by lia. rewrite <- andb_assoc. f_equal.
  destruct (Nat.leb_spec c p) as [L|L]; cbn [andb].
  - f_equal. lia.
  - apply Z.testbit_neg_r. lia.
Qed.

Lemma lowBit_shr x c p : c < 64 -> lowBit (shr x c) p = lowBit x (p + c).
Proof.
  intros Hc. unfold lowBit, shr. rewrite Nat.mod_small by exact Hc.
  rewrite Z.shiftr_spec by lia. f_equal. lia.
Qed.

Lemma lowBit_not x p : lowBit (not x) p = (p <? 64) && negb (lowBit x p).
Proof. unfold not. rewrite lowBit_wrap. f_equal. unfold lowBit. apply Z.lnot_spec. lia. Qed.

Lemma lowBit_allOnes p : lowBit allOnes p = (p <? 64).
Proof.
  unfold lowBit, allOnes, modulus. change (2 ^ 64 - 1)%Z with (Z.ones 64).
  rewrite Z.testbit_ones_nonneg by lia.
  destruct (Nat.ltb_spec p 64), (Z.ltb_spec (Z.of_nat p) 64); try reflexivity; lia.
Qed.

(** The mask [(1 << k) - 1]. *)
Lemma lowBit_ones k p : k < 64 -> lowBit (sub (shl 1 k) 1) p = (p <? k).
Proof.
  intros Hk. unfold lowBit, sub, shl. rewrite Nat.mod_small by exact Hk.
  rewrite Z.shiftl_1_l.
  assert (P : (0 < 2 ^ Z.of_nat k < 2 ^ 64)%Z).
  { split; [apply Z.pow_pos_nonneg; lia|apply Z.pow_lt_mono_r; lia]. }
  rewrite (wrap_small (w := (2 ^ Z.of_nat k)%Z)) by (unfold wordOK, modulus; lia).
  rewrite (wrap_small (w := (2 ^ Z.of_nat k - 1)%Z)) by (unfold wordOK, modulus; lia).
  change (2 ^ Z.of_nat k - 1)%Z with (Z.pred (2 ^ Z.of_nat k)). rewrite <- Z.ones_equiv.
  rewrite Z.testbit_ones_nonneg by lia.
  destruct (Nat.ltb_spec p k), (Z.ltb_spec (Z.of_nat p) (Z.of_nat k)); try reflexivity; lia.
Qed.

Lemma lowBit_scanMask c p : c < 64 -> lowBit (scanMask c) p = (p <? 64 - c).
Proof.
  intros Hc. unfold scanMask. destruct (Nat.eqb_spec c 0) as [->|Hne].
  - rewrite lowBit_allOnes. reflexivity.
  - apply lowBit_ones. lia.
Qed.

Lemma shr_ok x c : wordOK x -> wordOK (shr x c).
Proof.
  intros Hx. apply ok_of_bits.
  - unfold shr. apply Z.shiftr_nonneg. apply Hx.
  - intros i Hi. unfold shr. rewrite Z.shiftr_spec by lia.
    apply testbit_high; [exact Hx|lia].
Qed.

Lemma index_lowBit b j :
  index b j = lowBit (bucketAt (bucketVector b) (j / 64)) (63 - j mod 64).
Proof. apply index_bitOf. Qed.

Ltac bool_cases :=
  repeat match goal with
  | |- context [?a <? ?b] => destruct (Nat.ltb_spec a b)
  | |- context [?a <=? ?b] => destruct (Nat.leb_spec a b)
  end; cbn [andb orb negb].

(** The bit at offset [o] from the start of bucket [q]. *)
Lemma index_offset b q o :
  index b (64 * q + o) = lowBit (bucketAt (bucketVector b) (q + o / 64)) (63 - o mod 64).
Proof.
  rewrite index_lowBit. divmod64 o.
  assert (D : (64 * q + o) / 64 = q + o / 64)
    by (symmetry; apply Nat.div_unique with (o mod 64); lia).
  assert (M : (64 * q + o) mod 64 = o mod 64)
    by (symmetry; apply Nat.mod_unique with (q + o / 64); lia).
  rewrite D, M. reflexivity.
Qed.

Lemma small_offset o : o < 64 -> o / 64 = 0 /\ o mod 64 = o.
Proof. intros H. split; [apply Nat.div_small|apply Nat.mod_small]; exact H. Qed.

Lemma next_offset o : 64 <= o < 128 -> o / 64 = 1 /\ o mod 64 = o - 64.
Proof.
  intros H. split.
  - symmetry. apply Nat.div_unique with (o - 64); lia.
  - symmetry. apply Nat.mod_unique with 1; lia.
Qed.

(** The bits of the integer that [getAsInt] returns: its bit [p], for [p]
    below the number of bits, is the bit of the vector at the index
    [bitIndex + (numberOfBits - 1 - p)], and it has no bits above. *)
Lemma getAsInt_bit b bitIndex numberOfBits p :
  stored b -> 1 <= numberOfBits <= 64 ->
  lowBit (getAsInt bitIndex numberOfBits b) p
  = (p <? numberOfBits) && index b (bitIndex + (numberOfBits - 1 - p)).
Proof.
  intros [_ HW] Hn. unfold getAsInt. rewrite shiftr6, land63.
  divmod64 bitIndex.
  set (c := bitIndex mod 64) in *. set (q := bitIndex / 64) in *.
  fold (scanMask c).
  replace (bitIndex + (numberOfBits - 1 - p)) with (64 * q + (c + (numberOfBits - 1 - p)))
    by lia.
  rewrite index_offset.
  pose proof (@bucketAt_ok (bucketVector b) q HW) as W0.
  pose proof (@bucketAt_ok (bucketVector b) (S q) HW) as W1.
  destruct (Nat.ltb_spec (c + numberOfBits) 64) as [C1|C1].
  - rewrite lowBit_shr, !lowBit_land, lowBit_scanMask, lowBit_not, lowBit_ones by lia.
    destruct (Nat.ltb_spec p numberOfBits) as [Lp|Lp]; cbn [andb].
    + destruct (@small_offset (c + (numberOfBits - 1 - p)) ltac:(lia)) as [D M].
      rewrite D, M, Nat.add_0_r. bool_cases; try lia.
      rewrite andb_true_r. f_equal. lia.
    + bool_cases; try lia; rewrite !andb_false_r; reflexivity.
  - destruct (Nat.ltb_spec 64 (c + numberOfBits)) as [C2|C2].
    + rewrite lowBit_lor, lowBit_shl, lowBit_shr, !lowBit_land, lowBit_scanMask, lowBit_not,
        lowBit_ones by lia.
      destruct (Nat.ltb_spec p numberOfBits) as [Lp|Lp]; cbn [andb].
      * destruct (Nat.lt_ge_cases (c + (numberOfBits - 1 - p)) 64) as [Lo|Lo].
        -- destruct (@small_offset (c + (numberOfBits - 1 - p)) Lo) as [D M].
           rewrite D, M, Nat.add_0_r. bool_cases; try lia.
           rewrite andb_true_r.
           rewrite (lowBit_high W1) by lia. cbn [andb]. rewrite orb_false_r. f_equal. lia.
        -- destruct (@next_offset (c + (numberOfBits - 1 - p)) ltac:(lia)) as [D M].
           rewrite D, M. replace (q + 1) with (S q) by lia. bool_cases; try lia.
           rewrite andb_true_r. f_equal. lia.
      * bool_cases; try lia; cbn [andb orb]; rewrite ?andb_false_r; cbn [orb];
          try (rewrite (lowBit_high W1) by lia); reflexivity.
    + rewrite lowBit_land, lowBit_scanMask by lia.
      destruct (Nat.ltb_spec p numberOfBits) as [Lp|Lp]; cbn [andb].
      * destruct (@small_offset (c + (numberOfBits - 1 - p)) ltac:(lia)) as [D M].
        rewrite D, M, Nat.add_0_r. bool_cases; try lia.
        rewrite andb_true_r. f_equal. lia.
      * bool_cases; try lia; apply andb_false_r.
Qed.

Ltac eqb_cases :=
  repeat match goal with
  | |- context [?a =? ?b] => destruct (Nat.eqb_spec a b)
  end; cbn [andb orb negb].

Ltac settle High :=
  rewrite ?andb_true_r, ?andb_false_r, ?orb_false_r; cbn [negb andb orb];
  rewrite ?andb_true_r, ?andb_false_r, ?orb_false_r;
  first [reflexivity | f_equal; lia
        | rewrite High by lia; first [reflexivity | apply orb_false_r]].

(** The bits of the vector after [setFromInt]: the bits of the range are
    those of the value, most significant bit first, and the other bits are
    as before. *)
Lemma setFromInt_bit b bitIndex numberOfBits value j :
  stored b -> 1 <= numberOfBits <= 64 ->
  bitIndex + numberOfBits <= 64 * length (bucketVector b) ->
  (0 <= value < 2 ^ Z.of_nat numberOfBits)%Z ->
  index (setFromInt bitIndex numberOfBits value b) j
  = if (bitIndex <=? j) && (j <? bitIndex + numberOfBits)
    then valueBit numberOfBits value (j - bitIndex) else index b j.
Proof.
  intros [_ HW] Hn Hfit Hv. unfold setFromInt, valueBit. rewrite shiftr6, land63.
  divmod64 bitIndex. divmod64 j.
  set (c := bitIndex mod 64) in *. set (q := bitIndex / 64) in *.
  set (jo := j mod 64) in *. set (jq := j / 64) in *.
  fold (scanMask c). rewrite (index_lowBit b j). fold jq jo.
  pose proof (fun p => @lowBit_above numberOfBits value p Hv) as High.
  destruct (Nat.ltb_spec (c + numberOfBits) 64) as [C1|C1].
  - rewrite index_mk, bitOf_lowBit, bucketAt_updateAt. fold jq jo.
    destruct (Nat.eqb_spec jq q) as [Eq|Nq]; cbn [andb].
    + replace (q <? length (bucketVector b)) with true by (symmetry; apply Nat.ltb_lt; lia).
      rewrite lowBit_lor, lowBit_shl, !lowBit_land, lowBit_not, lowBit_land, lowBit_scanMask,
        lowBit_not, lowBit_ones by lia.
      rewrite Eq. bool_cases; try lia; settle High.
    + bool_cases; try lia; reflexivity.
  - destruct (Nat.ltb_spec 64 (c + numberOfBits)) as [C2|C2].
    + rewrite index_mk, bitOf_lowBit, !bucketAt_updateAt, length_updateAt. fold jq jo.
      destruct (Nat.eqb_spec jq (S q)) as [Eq1|Nq1]; cbn [andb].
      * replace (S q <? length (bucketVector b)) with true by (symmetry; apply Nat.ltb_lt; lia).
        replace (jq =? q) with false by (symmetry; apply Nat.eqb_neq; lia). cbn [andb].
        rewrite lowBit_lor, lowBit_shl, lowBit_land, lowBit_ones by lia.
        rewrite Eq1. bool_cases; try lia; settle High.
      * destruct (Nat.eqb_spec jq q) as [Eq|Nq]; cbn [andb].
        -- replace (q <? length (bucketVector b)) with true by (symmetry; apply Nat.ltb_lt; lia).
           rewrite lowBit_lor, lowBit_shr, lowBit_land, lowBit_not, lowBit_scanMask by lia.
           rewrite Eq. bool_cases; try lia; settle High.
        -- bool_cases; try lia; reflexivity.
    + rewrite index_mk, bitOf_lowBit, bucketAt_updateAt. fold jq jo.
      destruct (Nat.eqb_spec jq q) as [Eq|Nq]; cbn [andb].
      * replace (q <? length (bucketVector b)) with true by (symmetry; apply Nat.ltb_lt; lia).
        rewrite lowBit_lor, lowBit_land, lowBit_not, lowBit_scanMask by lia.
        rewrite Eq. bool_cases; try lia; settle High.
      * bool_cases; try lia; reflexivity.
Qed.

Lemma getAsInt_nonneg b bitIndex numberOfBits :
  stored b -> (0 <= getAsInt bitIndex numberOfBits b)%Z.
Proof.
  intros [_ HW]. unfold getAsInt.
  set (w0 := bucketAt (bucketVector b) (Nat.shiftr bitIndex 6)).
  set (w1 := bucketAt (bucketVector b) (S (Nat.shiftr bitIndex 6))).
  assert (W0 : wordOK w0) by (apply bucketAt_ok; exact HW).
  assert (W1 : wordOK w1) by (apply bucketAt_ok; exact HW).
  destruct (_ <? 64).
  - unfold shr. apply Z.shiftr_nonneg. apply Z.land_nonneg. left. apply W0.
  - destruct (64 <? _).
    + apply Z.lor_nonneg. split.
      * apply shl_ok.
      * unfold shr. apply Z.shiftr_nonneg. apply Z.land_nonneg. left. apply W1.
    + apply Z.land_nonneg. left. apply W0.
Qed.

Lemma value_ok (n : nat) value :
  n <= 64 -> (0 <= value < 2 ^ Z.of_nat n)%Z -> wordOK value.
Proof.
  intros Hn Hv. unfold wordOK, modulus. split; [lia|].
  assert ((2 ^ Z.of_nat n <= 2 ^ 64)%Z) by (apply Z.pow_le_mono_r; lia). lia.
Qed.

Lemma stored_setFromInt b bitIndex numberOfBits value :
  stored b -> numberOfBits <= 64 -> (0 <= value < 2 ^ Z.of_nat numberOfBits)%Z ->
  stored (setFromInt bitIndex numberOfBits value b).
Proof.
  intros [HL HW] Hn Hv. pose proof (value_ok Hn Hv) as Wv. unfold setFromInt.
  destruct (_ <? 64); [|destruct (64 <? _)]; split; cbn [bitCount bucketVector];
    rewrite ?length_updateAt; try exact HL;
    repeat (apply Forall_updateAt;
            [intros w Hw; apply lor_ok;
             [first [apply land_ok; [exact Hw|first [apply not_ok|apply sub_ok]]
                    |apply land_ok_r; apply not_ok]
             |first [apply shl_ok|apply shr_ok; exact Wv|exact Wv]]|]);
    exact HW.
Qed.

(** *** Statements about the integers in a vector *)

(** The value that [getAsInt] returns fits into the bits asked for. *)
Lemma getAsInt_range b bitIndex numberOfBits :
  stored b -> 1 <= numberOfBits <= 64 -> bitIndex + numberOfBits <= bitCount b ->
  (0 <= getAsInt bitIndex numberOfBits b < 2 ^ Z.of_nat numberOfBits)%Z.
Proof.
  intros Sb Hn Hfit. split.
  - apply getAsInt_nonneg. exact Sb.
  - apply below_of_bits; [apply getAsInt_nonneg; exact Sb|].
    intros p Hp. rewrite getAsInt_bit by assumption.
    replace (p <? numberOfBits) with false by (symmetry; apply Nat.ltb_ge; exact Hp).
    reflexivity.
Qed.

(** [getAsInt(bitIndex, numberOfBits)], for 1 to 64 bits that lie inside the
    vector, returns the integer below [2^numberOfBits] whose binary digits,
    most significant first, are the bits of the vector from [bitIndex]
    on. *)
Theorem getAsInt_correct b bitIndex numberOfBits :
  stored b -> 1 <= numberOfBits <= 64 -> bitIndex + numberOfBits <= bitCount b ->
  (0 <= getAsInt bitIndex numberOfBits b < 2 ^ Z.of_nat numberOfBits)%Z /\
  forall k, k < numberOfBits ->
    valueBit numberOfBits (getAsInt bitIndex numberOfBits b) k = get b (bitIndex + k).
Proof.
  intros Sb Hn Hfit. split; [apply getAsInt_range; assumption|].
  intros k Hk. unfold valueBit, get. rewrite getAsInt_bit by assumption.
  replace (numberOfBits - 1 - k <? numberOfBits) with true
    by (symmetry; apply Nat.ltb_lt; lia).
  cbn [andb]. f_equal. lia.
Qed.

Lemma getAsInt_correct_witness :
  stored wideVector /\ 1 <= 4 <= 64 /\ 62 + 4 <= bitCount wideVector /\
  getAsInt 62 4 wideVector = 14%Z /\
  forall k, k < 4 -> valueBit 4 (getAsInt 62 4 wideVector) k = get wideVector (62 + k).
Proof.
  assert (S1 : stored wideVector) by (apply wfb_wf; vm_compute; reflexivity).
  assert (H2 : 1 <= 4 <= 64) by lia.
  assert (H3 : 62 + 4 <= bitCount wideVector) by (vm_compute; lia).
  split; [exact S1|]. split; [exact H2|]. split; [exact H3|].
  split; [vm_compute; reflexivity|].
  exact (proj2 (@getAsInt_correct wideVector 62 4 S1 H2 H3)).
Defined.

(** [setFromInt(bitIndex, numberOfBits, value)], for 1 to 64 bits that lie
    inside the vector and a value that fits into them, keeps the length and
    the invariant, writes the binary digits of the value, most significant
    first, into the bits from [bitIndex] on and changes no other bit;
    [getAsInt] on the same range then returns the value, and writing back
    what [getAsInt] returned leaves the vector as it is. *)
Theorem setFromInt_round_trip b bitIndex numberOfBits value :
  wf b -> 1 <= numberOfBits <= 64 -> bitIndex + numberOfBits <= bitCount b ->
  (0 <= value < 2 ^ Z.of_nat numberOfBits)%Z ->
  wf (setFromInt bitIndex numberOfBits value b) /\
  size (setFromInt bitIndex numberOfBits value b) = size b /\
  getAsInt bitIndex numberOfBits (setFromInt bitIndex numberOfBits value b) = value /\
  (forall k, k < numberOfBits ->
     get (setFromInt bitIndex numberOfBits value b) (bitIndex + k)
     = valueBit numberOfBits value k) /\
  (forall j, j < bitIndex \/ bitIndex + numberOfBits <= j ->
     get (setFromInt bitIndex numberOfBits value b) j = get b j) /\
  setFromInt bitIndex numberOfBits (getAsInt bitIndex numberOfBits b) b = b.
Proof.
  intros Wb Hn Hfit Hv. pose proof (proj1 Wb) as Sb.
  pose proof (stored_covers Sb) as Cov.
  assert (Fit64 : bitIndex + numberOfBits <= 64 * length (bucketVector b)) by lia.
  pose proof (fun v Hv' j => @setFromInt_bit b bitIndex numberOfBits v j Sb Hn Fit64 Hv') as I.
  pose proof (@stored_setFromInt b bitIndex numberOfBits value Sb (proj2 Hn) Hv) as Sr.
  assert (SameSize : forall v, bitCount (setFromInt bitIndex numberOfBits v b) = bitCount b).
  { intros v. unfold setFromInt. destruct (_ <? 64); [|destruct (64 <? _)]; reflexivity. }
  assert (SameLength : forall v,
            length (bucketVector (setFromInt bitIndex numberOfBits v b))
            = length (bucketVector b)).
  { intros v. unfold setFromInt. destruct (_ <? 64); [|destruct (64 <? _)];
      cbn [bucketVector]; rewrite ?length_updateAt; reflexivity. }
  unfold get, size.
  split; [|split; [apply SameSize|split; [|split; [|split]]]].
  - split; [exact Sr|]. intros j Hj. rewrite SameSize, SameLength in Hj.
    rewrite (I value Hv).
    destruct (Nat.leb_spec bitIndex j), (Nat.ltb_spec j (bitIndex + numberOfBits));
      cbn [andb]; try lia; apply (proj2 Wb); exact Hj.
  - apply Z.bits_inj'. intros z Hz. rewrite <- (Z2Nat.id z) by exact Hz.
    change (lowBit (getAsInt bitIndex numberOfBits (setFromInt bitIndex numberOfBits value b))
              (Z.to_nat z) = lowBit value (Z.to_nat z)).
    set (p := Z.to_nat z). rewrite getAsInt_bit by assumption. rewrite (I value Hv).
    destruct (Nat.ltb_spec p numberOfBits) as [Lp|Lp]; cbn [andb].
    + replace (bitIndex <=? bitIndex + (numberOfBits - 1 - p)) with true
        by (symmetry; apply Nat.leb_le; lia).
      replace (bitIndex + (numberOfBits - 1 - p) <? bitIndex + numberOfBits) with true
        by (symmetry; apply Nat.ltb_lt; lia).
      cbn [andb]. unfold valueBit. f_equal. lia.
    + symmetry. apply (@lowBit_above numberOfBits value p Hv Lp).
  - intros k Hk. rewrite (I value Hv).
    replace (bitIndex <=? bitIndex + k) with true by (symmetry; apply Nat.leb_le; lia).
    replace (bitIndex + k <? bitIndex + numberOfBits) with true
      by (symmetry; apply Nat.ltb_lt; lia).
    cbn [andb]. f_equal. lia.
  - intros j Hj. rewrite (I value Hv).
    destruct (Nat.leb_spec bitIndex j), (Nat.ltb_spec j (bitIndex + numberOfBits));
      cbn [andb]; try reflexivity; lia.
  - pose proof (@getAsInt_range b bitIndex numberOfBits Sb Hn Hfit) as Range.
    assert (Digits : forall k, k < numberOfBits ->
              valueBit numberOfBits (getAsInt bitIndex numberOfBits b) k
              = get b (bitIndex + k)).
    { intros k Hk. unfold valueBit, get. rewrite getAsInt_bit by assumption.
      replace (numberOfBits - 1 - k <? numberOfBits) with true
        by (symmetry; apply Nat.ltb_lt; lia).
      cbn [andb]. f_equal. lia. }
    apply bitvector_ext.
    + apply stored_setFromInt; [exact Sb|lia|exact Range].
    + exact Sb.
    + apply SameSize.
    + intros j. rewrite (I _ Range).
      destruct (Nat.leb_spec bitIndex j), (Nat.ltb_spec j (bitIndex + numberOfBits));
        cbn [andb]; try reflexivity.
      rewrite Digits by lia. unfold get. f_equal. lia.
Qed.

Lemma setFromInt_round_trip_witness :
  wf wideVector /\ 1 <= 4 <= 64 /\ 62 + 4 <= bitCount wideVector /\
  (0 <= 5 < 2 ^ Z.of_nat 4)%Z /\
  setBits (setFromInt 62 4 5%Z wideVector) = [1; 63; 65; 66; 127; 129] /\
  getAsInt 62 4 (setFromInt 62 4 5%Z wideVector) = 5%Z.
Proof.
  assert (W1 : wf wideVector) by (apply wfb_wf; vm_compute; reflexivity).
  assert (H2 : 1 <= 4 <= 64) by lia.
  assert (H3 : 62 + 4 <= bitCount wideVector) by (vm_compute; lia).
  assert (H4 : (0 <= 5 < 2 ^ Z.of_nat 4)%Z) by (cbn; lia).
  split; [exact W1|]. split; [exact H2|]. split; [exact H3|]. split; [exact H4|].
  split; [vm_compute; reflexivity|].
  exact (proj1 (proj2 (proj2 (@setFromInt_round_trip wideVector 62 4 5%Z W1 H2 H3 H4)))).
Defined.

End BitVectorIntFacts.

(** ** Bit vectors: what the basic operations guarantee *)

Module BitVectorBasics.
Import Word64 Word64Facts BitVector BitVectorFacts BitVectorIteration BitVectorOps.
Import BitVectorOpsFacts.

Lemma index_outside b i : wf b -> bitCount b <= i -> index b i = false.
Proof.
  intros W Hi. destruct (index b i) eqn:E; [|reflexivity].
  pose proof (@set_bit_below b i W E). lia.
Qed.

Lemma collect_all (l : list nat) : forall acc,
  fold_left (fun (s : list nat) i => s ++ [i]) l acc = acc ++ l.
Proof.
  induction l as [|x l IH]; intros acc; cbn [fold_left].
  - rewrite app_nil_r. reflexivity.
  - rewrite IH, <- app_assoc. reflexivity.
Qed.

Lemma rank_get b i : rank (bucketVector b) i = length (filter (get b) (seq 0 i)).
Proof.
  unfold rank. f_equal. apply filter_ext. intros x. unfold get. rewrite index_bitIn. reflexivity.
Qed.

(** *** Writing and reading one bit *)

(** [set] at an index within the length keeps the invariant and the length,
    the bit written reads back, every other bit is as before, and writing
    the value that a bit already has changes nothing. *)
Theorem set_then_get i value b :
  wf b -> i < bitCount b ->
  wf (set i value b) /\ size (set i value b) = size b /\
  get (set i value b) i = value /\
  (forall j, j <> i -> get (set i value b) j = get b j) /\
  set i (get b i) b = b.
Proof.
  intros W Hi. pose proof (stored_covers (proj1 W)) as Cov.
  assert (In64 : i < 64 * length (bucketVector b)) by lia.
  split; [apply wf_set; assumption|]. split; [apply bitCount_set|].
  split; [unfold get; rewrite index_set by exact In64; rewrite Nat.eqb_refl; reflexivity|].
  split; [intros j Hj; unfold get; apply index_set_other; exact Hj|].
  apply wf_ext.
  - apply wf_set; assumption.
  - exact W.
  - apply bitCount_set.
  - intros j _. rewrite index_set by exact In64.
    destruct (Nat.eqb_spec j i) as [->|]; reflexivity.
Qed.

Lemma set_then_get_witness :
  wf exampleVector /\ 3 < bitCount exampleVector /\
  get (set 3 false exampleVector) 3 = false /\ get (set 3 false exampleVector) 64 = true.
Proof.
  assert (W : wf exampleVector) by (apply wfb_wf; vm_compute; reflexivity).
  assert (L : 3 < bitCount exampleVector) by (vm_compute; lia).
  split; [exact W|]. split; [exact L|].
  destruct (@set_then_get 3 false exampleVector W L) as (_ & _ & G & F & _).
  split; [exact G|]. rewrite F by lia. reflexivity.
Defined.

(** *** The constructor *)

(** [BitVector(length, init)] gives a vector of that length that satisfies
    the invariant and whose bits all have the value [init]; no bit from the
    length on is set.  With [init = false] the vector is empty, with
    [init = true] and a length other than zero it is full. *)
Theorem make_uniform length init :
  exists r, make length init = Some r /\ wf r /\ size r = length /\
    (forall i, i < length -> get r i = init) /\
    (forall i, length <= i -> get r i = false) /\
    (init = false -> r = zeros length /\ empty r = true) /\
    (init = true -> length <> 0 -> full r = Some true).
Proof.
  destruct (make_spec length init) as (r & E & W & C & I).
  exists r. split; [exact E|]. split; [exact W|]. split; [exact C|].
  split; [exact I|].
  split; [intros i Hi; apply index_outside; [exact W|unfold size in *; lia]|].
  split.
  - intros ->. unfold make in E. injection E as <-. split; [reflexivity|].
    apply (empty_bits (proj1 (wf_zeros length))). intros i. apply index_zeros.
  - intros -> Hn. destruct (@full_spec r W ltac:(lia)) as (v & Ev & Hv).
    rewrite Ev. f_equal. apply Hv. intros i Hi. apply I. lia.
Qed.

(** *** Resizing *)

(** [resize] gives a vector of the new length that satisfies the invariant,
    keeps the bits that were there and gives the new ones the value [init];
    resizing to the length that the vector has changes nothing.  The
    operation is not defined when bits set to true are added to a vector
    without bits. *)
Theorem resize_keeps_prefix newLength init b :
  wf b -> (init = true -> bitCount b < newLength -> bitCount b <> 0) ->
  exists r, resize newLength init b = Some r /\ wf r /\ size r = newLength /\
    (forall i, i < newLength -> get r i = if i <? bitCount b then get b i else init) /\
    (newLength = bitCount b -> r = b).
Proof.
  intros W H. destruct (@resize_spec newLength init b W H) as (r & E & Wr & C & I).
  exists r. split; [exact E|]. split; [exact Wr|]. split; [exact C|]. split; [exact I|].
  intros ->. apply wf_ext; try assumption.
  intros i Hi. rewrite C in Hi. rewrite I by exact Hi.
  replace (i <? bitCount b) with true by (symmetry; apply Nat.ltb_lt; exact Hi). reflexivity.
Qed.

Lemma resize_keeps_prefix_witness :
  wf exampleVector /\
  exists r, resize 130 true exampleVector = Some r /\ size r = 130 /\
            get r 69 = true /\ get r 68 = false /\ get r 129 = true.
Proof.
  assert (W : wf exampleVector) by (apply wfb_wf; vm_compute; reflexivity).
  split; [exact W|].
  destruct (@resize_keeps_prefix 130 true exampleVector W ltac:(intros _ _; vm_compute; lia))
    as (r & E & _ & C & I & _).
  exists r. split; [exact E|]. split; [exact C|].
  split; [exact (I 69 ltac:(lia))|]. split; [exact (I 68 ltac:(lia))|exact (I 129 ltac:(lia))].
Defined.

(** *** The bitwise operators *)

(** On two vectors of the same length, [operator&] and [operator|] give
    the intersection and the union, bit by bit and within the invariant,
    and the assigning operators [&=] and [|=] leave in the left operand the
    very vector that [&] and [|] return. *)
Theorem and_or_pointwise b other :
  wf b -> wf other -> bitCount b = bitCount other ->
  wf (and b other) /\ wf (or b other) /\
  size (and b other) = size b /\ size (or b other) = size b /\
  (forall i, get (and b other) i = get b i && get other i) /\
  (forall i, get (or b other) i = get b i || get other i) /\
  and_assign b other = and b other /\ or_assign b other = or b other.
Proof.
  intros W Wo C.
  destruct (@and_spec b other W Wo C) as (A1 & A2 & A3).
  destruct (@or_spec b other W Wo C) as (O1 & O2 & O3).
  destruct (@and_assign_spec b other W Wo C) as (B1 & B2 & B3).
  destruct (@or_assign_spec b other W Wo C) as (P1 & P2 & P3).
  split; [exact A1|]. split; [exact O1|]. split; [exact A2|]. split; [exact O2|].
  split; [exact A3|]. split; [exact O3|]. split.
  - apply wf_ext; [assumption|assumption|congruence|]. intros i _. rewrite A3, B3. reflexivity.
  - apply wf_ext; [assumption|assumption|congruence|]. intros i _. rewrite O3, P3. reflexivity.
Qed.

Lemma and_or_pointwise_witness :
  wf exampleVector /\ wf exampleFilter /\ bitCount exampleVector = bitCount exampleFilter /\
  and_assign exampleVector exampleFilter = and exampleVector exampleFilter /\
  or_assign exampleVector exampleFilter = or exampleVector exampleFilter.
Proof.
  assert (W1 : wf exampleVector) by (apply wfb_wf; vm_compute; reflexivity).
  assert (W2 : wf exampleFilter) by (apply wfb_wf; vm_compute; reflexivity).
  split; [exact W1|]. split; [exact W2|]. split; [reflexivity|].
  exact (proj2 (proj2 (proj2 (proj2 (proj2 (proj2
           (@and_or_pointwise exampleVector exampleFilter W1 W2 eq_refl))))))).
Defined.

(** On two vectors of the same length, [operator^], [operator~] and
    [implies] give, within the length and the invariant, the exclusive or,
    the complement and the implication bit by bit.  The in-place
    [complement] gives what [operator~] returns, [implies] gives the union
    of the complement of the left operand with the right one, and the
    complement of the complement is the vector itself. *)
Theorem xor_complement_implies b other :
  wf b -> wf other -> bitCount b = bitCount other ->
  exists x c i,
    xor b other = Some x /\ complemented b = Some c /\ implies b other = Some i /\
    wf x /\ wf c /\ wf i /\
    size x = size b /\ size c = size b /\ size i = size b /\
    (forall k, k < bitCount b ->
       get x k = xorb (get b k) (get other k) /\
       get c k = negb (get b k) /\
       get i k = (negb (get b k) || get other k)) /\
    complement b = Some c /\ i = or c other /\ complemented c = Some b.
Proof.
  intros W Wo C.
  destruct (@xor_spec b other W Wo C) as (x & Ex & Wx & Cx & Ix).
  destruct (@complemented_spec b W) as (c & Ec & Wc & Cc & Ic).
  destruct (@implies_spec b other W Wo C) as (i & Ei & Wi & Ci & Ii).
  destruct (@complement_spec b W) as (c' & Ec' & Wc' & Cc' & Ic').
  destruct (@complemented_spec c Wc) as (d & Ed & Wd & Cd & Id).
  assert (Cco : bitCount c = bitCount other) by congruence.
  destruct (@or_spec c other Wc Wo Cco) as (O1 & O2 & O3).
  exists x, c, i. split; [exact Ex|]. split; [exact Ec|]. split; [exact Ei|].
  split; [exact Wx|]. split; [exact Wc|]. split; [exact Wi|].
  split; [exact Cx|]. split; [exact Cc|]. split; [exact Ci|].
  split.
  { intros k Hk. apply Nat.ltb_lt in Hk. unfold get.
    rewrite Ix, Ic, Ii, Hk, !andb_true_r. repeat split. }
  split.
  { rewrite Ec'. f_equal. apply wf_ext; [assumption|assumption|congruence|].
    intros k _. rewrite Ic, Ic'. reflexivity. }
  split.
  { apply wf_ext; [assumption|assumption|congruence|].
    intros k Hk. rewrite Ci in Hk. apply Nat.ltb_lt in Hk.
    rewrite Ii, O3, Ic, Hk, !andb_true_r. reflexivity. }
  rewrite Ed. f_equal. apply wf_ext; [assumption|assumption|congruence|].
  intros k Hk. rewrite Cd, Cc in Hk. apply Nat.ltb_lt in Hk.
  rewrite Id, Ic, Cc, Hk, !andb_true_r. apply negb_involutive.
Qed.

Lemma xor_complement_implies_witness :
  wf exampleVector /\ wf exampleFilter /\ bitCount exampleVector = bitCount exampleFilter /\
  exists x c i,
    xor exampleVector exampleFilter = Some x /\ complemented exampleVector = Some c /\
    implies exampleVector exampleFilter = Some i /\
    get x 0 = true /\ get x 3 = false /\ get c 0 = false /\ get c 1 = true /\
    get i 0 = false /\ get i 1 = true /\ i = or c exampleFilter.
Proof.
  assert (W1 : wf exampleVector) by (apply wfb_wf; vm_compute; reflexivity).
  assert (W2 : wf exampleFilter) by (apply wfb_wf; vm_compute; reflexivity).
  split; [exact W1|]. split; [exact W2|]. split; [reflexivity|].
  destruct (@xor_complement_implies exampleVector exampleFilter W1 W2 eq_refl)
    as (x & c & i & Ex & Ec & Ei & _ & _ & _ & _ & _ & _ & Bits & _ & Or & _).
  exists x, c, i. split; [exact Ex|]. split; [exact Ec|]. split; [exact Ei|].
  assert (L0 : 0 < bitCount exampleVector) by (vm_compute; lia).
  assert (L1 : 1 < bitCount exampleVector) by (vm_compute; lia).
  assert (L3 : 3 < bitCount exampleVector) by (vm_compute; lia).
  destruct (Bits 0 L0) as (X0 & C0 & I0). destruct (Bits 1 L1) as (X1 & C1 & I1).
  destruct (Bits 3 L3) as (X3 & C3 & I3).
  split; [exact X0|]. split; [exact X3|]. split; [exact C0|]. split; [exact C1|].
  split; [exact I0|]. split; [exact I1|exact Or].
Defined.

(** *** Equality *)

(** On vectors that satisfy the invariant, [operator==] is true exactly when
    the lengths agree and the vectors agree bit by bit, which is when they
    are the same vector; [operator!=] is its negation. *)
Theorem eqb_decides_equality b other :
  wf b -> wf other ->
  (eqb b other = true <->
   size b = size other /\ forall i, i < size b -> get b i = get other i) /\
  (eqb b other = true <-> b = other) /\
  (neqb b other = true <-> b <> other).
Proof.
  intros W Wo. pose proof (@eqb_spec b other W Wo) as S.
  assert (E : eqb b other = true <-> b = other).
  { rewrite S. split.
    - intros [C I]. apply wf_ext; assumption.
    - intros <-. split; [reflexivity|]. intros; reflexivity. }
  split; [exact S|]. split; [exact E|].
  unfold neqb. rewrite negb_true_iff. rewrite <- E.
  destruct (eqb b other); split; congruence.
Qed.

Lemma eqb_decides_equality_witness :
  wf exampleVector /\ wf exampleFilter /\
  (neqb exampleVector exampleFilter = true <-> exampleVector <> exampleFilter).
Proof.
  assert (W1 : wf exampleVector) by (apply wfb_wf; vm_compute; reflexivity).
  assert (W2 : wf exampleFilter) by (apply wfb_wf; vm_compute; reflexivity).
  split; [exact W1|]. split; [exact W2|].
  exact (proj2 (proj2 (@eqb_decides_equality exampleVector exampleFilter W1 W2))).
Defined.

(** *** Full vectors *)

(** On a vector with at least one bit that satisfies the invariant, [full]
    returns true exactly when every bit is set, which is when the vector is
    the one that the constructor builds with [init = true]; a full vector
    has as many set bits as it is long. *)
Theorem full_correct b :
  wf b -> bitCount b <> 0 ->
  exists v, full b = Some v /\
    (v = true <-> forall i, i < bitCount b -> get b i = true) /\
    (v = true <-> make (bitCount b) true = Some b) /\
    (v = true -> getNumberOfSetBits b = size b).
Proof.
  intros W Hn. destruct (@full_spec b W Hn) as (v & E & Hv).
  destruct (make_spec (bitCount b) true) as (r & Er & Wr & Cr & Ir).
  exists v. split; [exact E|]. split; [exact Hv|].
  assert (M : v = true <-> make (bitCount b) true = Some b).
  { rewrite Hv, Er. split.
    - intros All. f_equal. apply wf_ext; try assumption.
      intros i Hi. rewrite Cr in Hi. rewrite Ir by exact Hi. symmetry. apply All. exact Hi.
    - intros Eq i Hi. injection Eq as <-. apply Ir. exact Hi. }
  split; [exact M|].
  intros Hvt. rewrite (getNumberOfSetBits_spec W). unfold setBits, size.
  rewrite (@forallb_filter_id _ (index b) (seq 0 (bitCount b))).
  - apply length_seq.
  - apply forallb_forall. intros i Hi. apply in_seq in Hi. apply Hv; [exact Hvt|lia].
Qed.

Lemma full_correct_witness :
  wf exampleVector /\ bitCount exampleVector <> 0 /\
  exists v, full exampleVector = Some v /\
    (v = true <-> make (bitCount exampleVector) true = Some exampleVector).
Proof.
  assert (W : wf exampleVector) by (apply wfb_wf; vm_compute; reflexivity).
  assert (N : bitCount exampleVector <> 0) by (vm_compute; lia).
  split; [exact W|]. split; [exact N|].
  destruct (@full_correct exampleVector W N) as (v & E & _ & M & _).
  exists v. split; [exact E|exact M].
Defined.

(** *** Searching and iterating *)

(** [getNextSetIndex] returns the least index from the start on whose bit is
    set, and the length when there is none. *)
Theorem getNextSetIndex_least b start :
  stored b -> start <= bitCount b ->
  let r := getNextSetIndex b start in
  start <= r <= bitCount b /\
  (forall i, start <= i < r -> get b i = false) /\
  (r < bitCount b -> get b r = true) /\
  (r = bitCount b <-> forall i, start <= i < bitCount b -> get b i = false).
Proof.
  intros _ Hs r.
  destruct (getNextSetIndexIn_spec (bucketVector b) start (bitCount b)) as (R1 & R2 & R3 & R4).
  fold (getNextSetIndex b start) in R1, R2, R3, R4. fold r in R1, R2, R3, R4.
  specialize (R2 Hs).
  assert (F : forall i, start <= i < r -> get b i = false).
  { intros i Hi. unfold get. rewrite index_bitIn. apply R3. exact Hi. }
  split; [lia|]. split; [exact F|].
  split; [intros Hr; unfold get; rewrite index_bitIn; apply R4; exact Hr|].
  split.
  - intros Er i Hi. apply F. lia.
  - intros Clear. destruct (Nat.eq_dec r (bitCount b)) as [Eq|Ne]; [exact Eq|].
    assert (Hr : r < bitCount b) by lia.
    pose proof (R4 Hr) as Found. rewrite <- index_bitIn in Found.
    specialize (Clear r ltac:(lia)). unfold get in Clear. congruence.
Qed.

Lemma getNextSetIndex_least_witness :
  stored exampleVector /\
  getNextSetIndex exampleVector 4 = 64 /\ getNextSetIndex exampleVector 70 = 70 /\
  forall i, 4 <= i < 64 -> get exampleVector i = false.
Proof.
  assert (S : stored exampleVector) by (apply wfb_wf; vm_compute; reflexivity).
  split; [exact S|]. split; [reflexivity|]. split; [reflexivity|].
  exact (proj1 (proj2 (@getNextSetIndex_least exampleVector 4 S ltac:(vm_compute; lia)))).
Defined.

(** A loop over a vector with the iterator, from [begin()] to [end()], sees
    the indices of the set bits, each one once and in increasing order, and
    as many of them as [getNumberOfSetBits] returns. *)
Theorem iteration_visits_set_bits b :
  wf b ->
  let visited :=
    forEachSetBit (fun _ : list nat => bucketVector b) (bitCount b)
      (fun i seen => seen ++ [i]) [] in
  visited = setBits b /\
  StronglySorted lt visited /\
  (forall i, In i visited <-> i < bitCount b /\ get b i = true) /\
  length visited = getNumberOfSetBits b.
Proof.
  intros W visited.
  assert (E : visited = setBits b).
  { unfold visited. rewrite forEachSetBit_spec by reflexivity.
    rewrite collect_all, setBits_eq. reflexivity. }
  rewrite E. split; [reflexivity|]. split; [apply setBits_sorted|].
  split; [intros i; apply in_setBits|].
  symmetry. apply getNumberOfSetBits_spec. exact W.
Qed.

Lemma iteration_visits_set_bits_witness :
  wf exampleVector /\
  forEachSetBit (fun _ : list nat => bucketVector exampleVector) (bitCount exampleVector)
    (fun i seen => seen ++ [i]) [] = [0; 3; 64; 69].
Proof.
  assert (W : wf exampleVector) by (apply wfb_wf; vm_compute; reflexivity).
  split; [exact W|].
  rewrite (proj1 (@iteration_visits_set_bits exampleVector W)). reflexivity.
Defined.

(** *** Counting *)

(** [getNumberOfSetBitsBeforeIndex] counts the set bits before an index and
    [getNumberOfSetBits] all of them.  The count before a set bit is the
    position of that bit among the set bits, and the set bit at a position
    has that many set bits before it. *)
Theorem set_bit_counts b :
  wf b ->
  getNumberOfSetBits b = length (setBits b) /\
  getNumberOfSetBitsBeforeIndex b (bitCount b) = getNumberOfSetBits b /\
  (forall i, i <= bitCount b ->
     getNumberOfSetBitsBeforeIndex b i = length (filter (get b) (seq 0 i))) /\
  (forall i, i < bitCount b -> get b i = true ->
     getNumberOfSetBitsBeforeIndex b i < getNumberOfSetBits b /\
     nth (getNumberOfSetBitsBeforeIndex b i) (setBits b) 0 = i) /\
  (forall p, p < getNumberOfSetBits b ->
     nth p (setBits b) 0 < bitCount b /\ get b (nth p (setBits b) 0) = true /\
     getNumberOfSetBitsBeforeIndex b (nth p (setBits b) 0) = p).
Proof.
  intros W. pose proof (getNumberOfSetBits_spec W) as N.
  assert (R : forall i, getNumberOfSetBitsBeforeIndex b i = length (filter (get b) (seq 0 i))).
  { intros i. rewrite getNumberOfSetBitsBeforeIndex_spec. apply rank_get. }
  split; [exact N|]. split; [rewrite R, N; reflexivity|]. split; [intros i _; apply R|].
  split.
  - intros i Hi Hg. rewrite R, N. unfold setBits.
    exact (@nth_rank (get b) (bitCount b) i 0 Hi Hg).
  - intros p Hp. rewrite N in Hp. rewrite R.
    exact (@rank_nth (get b) (bitCount b) p 0 Hp).
Qed.

Lemma set_bit_counts_witness :
  wf exampleVector /\ getNumberOfSetBits exampleVector = 4 /\
  getNumberOfSetBitsBeforeIndex exampleVector 64 = 2 /\
  nth (getNumberOfSetBitsBeforeIndex exampleVector 64) (setBits exampleVector) 0 = 64.
Proof.
  assert (W : wf exampleVector) by (apply wfb_wf; vm_compute; reflexivity).
  split; [exact W|]. split; [reflexivity|]. split; [reflexivity|].
  destruct (@set_bit_counts exampleVector W) as (_ & _ & _ & Sel & _).
  exact (proj2 (Sel 64 ltac:(vm_compute; lia) eq_refl)).
Defined.

End BitVectorBasics.

(** ** Markov automata: rates, closing and the queries *)

Module MarkovAutomatonOpsFacts.
Import BitVector BitVectorFacts BitVectorIteration MarkovAutomaton MarkovAutomatonFacts.
Import MarkovAutomatonRates MarkovAutomatonOps.

(** *** Rows written and checked *)

Lemma length_setRowAt row r rows : length (setRowAt row r rows) = length rows.
Proof.
  revert row. induction rows as [|x rows IH]; intros row; [destruct row; reflexivity|].
  destruct row as [|row]; cbn [setRowAt length]; [reflexivity|]. rewrite IH. reflexivity.
Qed.

Lemma nth_setRowAt_same row r rows :
  row < length rows -> nth row (setRowAt row r rows) [] = r.
Proof.
  revert row. induction rows as [|x rows IH]; intros row Hr; [simpl in Hr; lia|].
  destruct row as [|row]; cbn [setRowAt nth]; [reflexivity|]. apply IH. simpl in Hr. lia.
Qed.

Lemma checkProbabilisticRows_passes rows row next :
  checkProbabilisticRows rows row next = true ->
  forall r, row <= r < next -> isOne (rowSumOf (nth r rows [])) = true.
Proof.
  unfold checkProbabilisticRows. rewrite forallb_forall. intros H r Hr.
  apply H. apply in_seq. lia.
Qed.

Lemma length_allRows M : length (allRows M) = getRowCount M.
Proof.
  unfold allRows, getRowCount. induction (rowGroups M) as [|g l IH]; [reflexivity|].
  cbn [concat map]. rewrite length_app, list_sum_cons, IH. reflexivity.
Qed.

Lemma Qeq_bool_same x : Qeq_bool x x = true.
Proof. apply Qeq_bool_iff. reflexivity. Qed.

Section Accepted.

Variable M : SparseMatrix.
Variable markovianStates : BitVector.
Variable assertRates : bool.

Hypothesis choices : forall s, s < getRowGroupCount M -> 1 <= getRowGroupSize M s.

(** What a round of the loop of [turnRatesToProbabilities] that does not
    throw has checked and written. *)
Lemma ratesStep_accepts s (rows : list Row) rates (rows' : list Row) rates' :
  s < getRowGroupCount M -> length rows = getRowCount M ->
  (assertRates = false -> length rates = s) ->
  (forall r, getRowGroupIndex M s <= r -> nth r rows [] = nth r (allRows M) []) ->
  ratesStep M markovianStates assertRates s (rows, rates) = inr (rows', rates') ->
  rates' = (if assertRates then rates
            else rates ++ [if get markovianStates s then rowSumOf (choiceRow M s 0) else 0%Q]) /\
  rows' = (if get markovianStates s
           then setRowAt (getRowGroupIndex M s)
                  (normalised (nth s rates' 0%Q) (choiceRow M s 0)) rows
           else rows) /\
  (if get markovianStates s
   then Qeq_bool (nth s rates' 0%Q) (rowSumOf (choiceRow M s 0)) = true
   else isZero (nth s rates' 0%Q) = true) /\
  (forall k, k < getRowGroupSize M s -> probabilisticChoice markovianStates s k = true ->
             isOne (rowSumOf (choiceRow M s k)) = true).
Proof.
  intros Hs Hlen Hrates Same Step.
  pose proof (getRowGroupIndex_S M Hs) as Next. pose proof (choices Hs) as One.
  pose proof (@group_within M s Hs) as Within.
  assert (First : @nth Row (getRowGroupIndex M s) rows [] = choiceRow M s 0).
  { rewrite Same by lia. rewrite <- (@getRow_choice M s 0) by lia. f_equal. lia. }
  assert (Row : forall k, k < getRowGroupSize M s ->
            @nth Row (getRowGroupIndex M s + k) rows [] = choiceRow M s k).
  { intros k Hk. rewrite Same by lia. apply getRow_choice. exact Hk. }
  unfold ratesStep, probabilisticChoice in *. cbv beta iota zeta in Step.
  rewrite First in Step.
  destruct (get markovianStates s) eqn:Mk.
  - destruct assertRates eqn:Ea; cbn [andb] in Step.
    + destruct (Qeq_bool (nth s rates 0%Q) (rowSumOf (choiceRow M s 0))) eqn:E;
        cbn [negb] in Step; [|discriminate].
      destruct (checkProbabilisticRows _ _ _) eqn:Chk; [|discriminate].
      assert (Er : rates' = rates) by congruence. subst rates'.
      split; [reflexivity|]. split; [unfold normalised; congruence|]. split; [exact E|].
      intros k Hk Hp. cbn [negb orb] in Hp. apply Nat.leb_le in Hp.
      rewrite <- (Row k Hk).
      rewrite <- (@nth_setRowAt_other (getRowGroupIndex M s)
                    (map (fun e : nat * Q => (fst e, Qred (snd e / nth s rates 0)%Q))
                       (choiceRow M s 0)) rows (getRowGroupIndex M s + k)) by lia.
      apply (@checkProbabilisticRows_passes _ _ _ Chk). lia.
    + destruct (checkProbabilisticRows _ _ _) eqn:Chk; [|discriminate].
      assert (Er : rates' = rates ++ [rowSumOf (choiceRow M s 0)]) by congruence.
      assert (Nth : nth s rates' 0%Q = rowSumOf (choiceRow M s 0)).
      { rewrite Er, app_nth2 by (rewrite Hrates by reflexivity; lia).
        rewrite Hrates, Nat.sub_diag by reflexivity. reflexivity. }
      split; [exact Er|]. split.
      * unfold normalised. rewrite Nth. rewrite Er in Step. rewrite <- Er, Nth in Step.
        congruence.
      * split; [rewrite Nth; apply Qeq_bool_same|].
        intros k Hk Hp. cbn [negb orb] in Hp. apply Nat.leb_le in Hp.
        rewrite <- (Row k Hk).
        match type of Chk with checkProbabilisticRows (setRowAt ?i ?r _) _ _ = _ =>
          rewrite <- (@nth_setRowAt_other i r rows (getRowGroupIndex M s + k)) by lia end.
        apply (@checkProbabilisticRows_passes _ _ _ Chk). lia.
  - destruct assertRates eqn:Ea; cbn [andb] in Step.
    + destruct (isZero (nth s rates 0%Q)) eqn:E; cbn [negb] in Step; [|discriminate].
      destruct (checkProbabilisticRows _ _ _) eqn:Chk; [|discriminate].
      assert (Er : rates' = rates) by congruence. subst rates'.
      split; [reflexivity|]. split; [congruence|]. split; [exact E|].
      intros k Hk _. rewrite <- (Row k Hk).
      apply (@checkProbabilisticRows_passes _ _ _ Chk). lia.
    + destruct (checkProbabilisticRows _ _ _) eqn:Chk; [|discriminate].
      assert (Er : rates' = rates ++ [0%Q]) by congruence.
      split; [exact Er|]. split; [congruence|]. split.
      * rewrite Er, app_nth2 by (rewrite Hrates by reflexivity; lia).
        rewrite Hrates, Nat.sub_diag by reflexivity. reflexivity.
      * intros k Hk _. rewrite <- (Row k Hk).
        apply (@checkProbabilisticRows_passes _ _ _ Chk). lia.
Qed.

Lemma ratesLoop_cons s states st :
  ratesLoop M markovianStates assertRates (s :: states) (inr st)
  = ratesLoop M markovianStates assertRates states
      (ratesStep M markovianStates assertRates s st).
Proof. reflexivity. Qed.

(** What the loop of [turnRatesToProbabilities] has checked and written
    when it ends without an exception. *)
Lemma ratesLoop_accepts count : forall s (rows : list Row) rates (rowsF : list Row) ratesF,
  s + count <= getRowGroupCount M -> length rows = getRowCount M ->
  (assertRates = false -> length rates = s) ->
  (assertRates = true -> length rates = getRowGroupCount M) ->
  (forall r, getRowGroupIndex M s <= r -> nth r rows [] = nth r (allRows M) []) ->
  ratesLoop M markovianStates assertRates (seq s count) (inr (rows, rates))
  = inr (rowsF, ratesF) ->
  length rowsF = getRowCount M /\
  length ratesF = (if assertRates then getRowGroupCount M else s + count) /\
  (forall r, r < getRowGroupIndex M s -> nth r rowsF [] = nth r rows []) /\
  (forall t, t < length rates -> nth t ratesF 0%Q = nth t rates 0%Q) /\
  forall state, s <= state < s + count ->
    (if get markovianStates state
     then Qeq_bool (nth state ratesF 0%Q) (rowSumOf (choiceRow M state 0)) = true
     else isZero (nth state ratesF 0%Q) = true) /\
    (forall k, k < getRowGroupSize M state ->
       nth (getRowGroupIndex M state + k) rowsF []
       = if get markovianStates state && (k =? 0)
         then normalised (nth state ratesF 0%Q) (choiceRow M state 0)
         else choiceRow M state k) /\
    (forall k, k < getRowGroupSize M state ->
       probabilisticChoice markovianStates state k = true ->
       isOne (rowSumOf (choiceRow M state k)) = true).
Proof.
  induction count as [|count IH]; intros s rows rates rowsF ratesF Hs Hlen Hr0 Hr1 Same Loop.
  - cbn [seq ratesLoop fold_left] in Loop.
    assert (E1 : rowsF = rows) by congruence. assert (E2 : ratesF = rates) by congruence.
    subst rowsF ratesF. split; [exact Hlen|]. split.
    + destruct assertRates; [apply Hr1; reflexivity|rewrite Hr0 by reflexivity; lia].
    + split; [reflexivity|]. split; [reflexivity|]. intros state Hst. lia.
  - cbn [seq] in Loop. rewrite ratesLoop_cons in Loop.
    destruct (ratesStep M markovianStates assertRates s (rows, rates))
      as [e|[rows1 rates1]] eqn:Step.
    { rewrite ratesLoop_thrown in Loop. discriminate. }
    destruct (@ratesStep_accepts s rows rates rows1 rates1 ltac:(lia) Hlen Hr0 Same Step)
      as (Erates & Erows & Rate & Prob).
    pose proof (@getRowGroupIndex_S M s ltac:(lia)) as Next.
    pose proof (@choices s ltac:(lia)) as One.
    pose proof (@group_within M s ltac:(lia)) as Within.
    assert (Other : forall r, r <> getRowGroupIndex M s -> nth r rows1 [] = nth r rows []).
    { intros r Hr. rewrite Erows. destruct (get markovianStates s); [|reflexivity].
      apply nth_setRowAt_other. exact Hr. }
    assert (Len1 : length rows1 = getRowCount M).
    { rewrite Erows. destruct (get markovianStates s); [|exact Hlen].
      rewrite length_setRowAt. exact Hlen. }
    assert (Keep : forall t, t < length rates -> nth t rates1 0%Q = nth t rates 0%Q).
    { intros t Ht. rewrite Erates. destruct assertRates; [reflexivity|].
      apply app_nth1. exact Ht. }
    assert (LenR : length rates <= length rates1).
    { rewrite Erates. destruct assertRates; [lia|]. rewrite length_app. lia. }
    destruct (IH (S s) rows1 rates1 rowsF ratesF) as (L1 & L2 & F1 & F2 & Post).
    + lia.
    + exact Len1.
    + intros Ea. rewrite Erates, Ea, length_app, Hr0 by exact Ea. cbn [length]. lia.
    + intros Ea. rewrite Erates, Ea. apply Hr1. exact Ea.
    + intros r Hr. rewrite Other by lia. apply Same. lia.
    + exact Loop.
    + assert (Here : s < length rates1).
      { rewrite Erates. destruct assertRates eqn:Ea.
        - rewrite Hr1 by reflexivity. lia.
        - rewrite length_app, Hr0 by reflexivity. cbn [length]. lia. }
      split; [exact L1|]. split.
      { rewrite L2. destruct assertRates; [reflexivity|lia]. }
      split.
      { intros r Hr. rewrite F1 by lia. apply Other. lia. }
      split.
      { intros t Ht. rewrite F2 by lia. apply Keep. exact Ht. }
      intros state Hst. destruct (Nat.eq_dec state s) as [->|Hne].
      * rewrite (F2 s Here). split; [exact Rate|]. split; [|exact Prob].
        intros k Hk. rewrite F1 by lia. rewrite Erows.
        destruct (get markovianStates s) eqn:Mk; cbn [andb].
        -- destruct (Nat.eqb_spec k 0) as [->|Hk0].
           ++ rewrite Nat.add_0_r. apply nth_setRowAt_same. lia.
           ++ rewrite nth_setRowAt_other by lia. rewrite Same by lia.
              apply getRow_choice. exact Hk.
        -- rewrite Same by lia. apply getRow_choice. exact Hk.
      * apply Post. lia.
Qed.

End Accepted.

(** *** Row groups rebuilt *)

Lemma length_regroup sizes : forall rows : list Row, length (regroup sizes rows) = length sizes.
Proof.
  induction sizes as [|size sizes IH]; intros rows; [reflexivity|].
  cbn [regroup length]. rewrite IH. reflexivity.
Qed.

Lemma regroup_nth sizes : forall (rows : list Row) state k,
  length rows = list_sum sizes -> state < length sizes -> k < nth state sizes 0 ->
  length (nth state (regroup sizes rows) []) = nth state sizes 0 /\
  nth k (nth state (regroup sizes rows) []) []
  = nth (list_sum (firstn state sizes) + k) rows [].
Proof.
  induction sizes as [|size sizes IH]; intros rows state k Hlen Hs Hk; [simpl in Hs; lia|].
  rewrite list_sum_cons in Hlen. cbn [regroup]. destruct state as [|state].
  - cbn [nth firstn list_sum Nat.add] in *. split.
    + rewrite length_firstn. lia.
    + rewrite nth_firstn. replace (k <? size) with true by (symmetry; apply Nat.ltb_lt; lia).
      reflexivity.
  - cbn [nth] in *. rewrite firstn_cons, list_sum_cons.
    destruct (IH (skipn size rows) state k) as [L N].
    + rewrite length_skipn. lia.
    + simpl in Hs. lia.
    + exact Hk.
    + split; [exact L|]. rewrite N, nth_skipn. f_equal. lia.
Qed.

Lemma groupSize_as_nth M state :
  getRowGroupSize M state = nth state (map (@length Row) (rowGroups M)) 0.
Proof.
  unfold getRowGroupSize. symmetry.
  exact (map_nth (@length Row) (rowGroups M) [] state).
Qed.

(** *** Sums of rows *)

Lemma rowSum_scaled rate (row : Row) : forall acc acc',
  ~ (rate == 0)%Q -> (acc' == acc / rate)%Q ->
  (fold_left (fun a (e : nat * Q) => Qred (a + snd e)) (normalised rate row) acc'
   == fold_left (fun a (e : nat * Q) => Qred (a + snd e)) row acc / rate)%Q.
Proof.
  induction row as [|[c v] row IH]; intros acc acc' Hr Hacc; [exact Hacc|].
  cbn [normalised map fold_left fst snd]. apply (IH _ _ Hr).
  rewrite !Qred_correct, Hacc. field. exact Hr.
Qed.

Lemma normalised_sums_to_one rate (row : Row) :
  Qeq_bool rate (rowSumOf row) = true -> isZero rate = false ->
  isOne (rowSumOf (normalised rate row)) = true.
Proof.
  intros Hsum Hz. apply Qeq_bool_iff in Hsum.
  assert (Hr : ~ (rate == 0)%Q).
  { intros E. unfold isZero in Hz. apply Qeq_bool_iff in E. congruence. }
  unfold isOne, rowSumOf. apply Qeq_bool_iff.
  rewrite (@rowSum_scaled rate row 0%Q 0%Q Hr) by (field; exact Hr).
  fold (rowSumOf row). rewrite <- Hsum. field. exact Hr.
Qed.

(** *** Statements about the constructors *)





(** [hasOnlyTrivialNondeterminism] holds exactly if no state has more than
    one choice.  An automaton as the constructors leave it which has only
    trivial nondeterminism is closed, and [close] leaves it as it is. *)
Theorem hasOnlyTrivialNondeterminism_correct m :
  (hasOnlyTrivialNondeterminism m = true <->
   forall state, state < getNumberOfStates m ->
                 getRowGroupSize (transitionMatrix m) state <= 1) /\
  (wellFormed m -> hasOnlyTrivialNondeterminism m = true ->
   isClosed m = true /\ forall build, close build m = Some m).
Proof.
  assert (Spec : hasOnlyTrivialNondeterminism m = true <->
                 forall state, state < getNumberOfStates m ->
                               getRowGroupSize (transitionMatrix m) state <= 1).
  { unfold hasOnlyTrivialNondeterminism. rewrite forallb_forall. split.
    - intros H state Hs. specialize (H state ltac:(apply in_seq; lia)).
      cbv zeta in H. rewrite getRowGroupIndex_S in H by exact Hs.
      apply negb_true_iff, Nat.ltb_ge in H. lia.
    - intros H state Hs. apply in_seq in Hs. cbv zeta.
      rewrite getRowGroupIndex_S by (unfold getNumberOfStates in Hs; lia).
      apply negb_true_iff, Nat.ltb_ge. specialize (H state ltac:(lia)). lia. }
  split; [exact Spec|].
  intros (Wm & Cn & Hsz & Hcl) Triv.
  assert (Closed : closed m = true).
  { rewrite Hcl. apply checkIsClosed_true. intros state Hs _.
    apply Spec; [exact Triv|lia]. }
  split; [exact Closed|]. intros build. unfold close. rewrite Closed. reflexivity.
Qed.

Lemma hasOnlyTrivialNondeterminism_correct_witness :
  let m := mkMarkovAutomaton soundRates (set 0 true (zeros 2)) [4%Q; 0%Q] true in
  wellFormed m /\ hasOnlyTrivialNondeterminism m = true /\
  hasOnlyTrivialNondeterminism hybridExample = false /\
  close keepChoices m = Some m.
Proof.
  intros m.
  assert (W : wellFormed m).
  { split; [apply wfb_wf; vm_compute; reflexivity|]. split; [reflexivity|]. split.
    - intros state Hs. change (state < 2) in Hs. destruct state as [|[|state]]; cbn; lia.
    - vm_compute. reflexivity. }
  assert (T : hasOnlyTrivialNondeterminism m = true) by (vm_compute; reflexivity).
  split; [exact W|]. split; [exact T|]. split; [vm_compute; reflexivity|].
  exact (proj2 (proj2 (hasOnlyTrivialNondeterminism_correct m) W T) keepChoices).
Defined.

(** On an automaton as the constructors leave it, with at least one state,
    [isConvertibleToCtmc] holds exactly if every state is Markovian and has
    one choice.  On the automaton without states it has no defined result:
    the automaton is closed, and [full] is called on an empty vector. *)
Theorem isConvertibleToCtmc_correct m :
  wellFormed m ->
  (getNumberOfStates m <> 0 ->
   exists v, isConvertibleToCtmc m = Some v /\
     (v = true <->
      forall state, state < getNumberOfStates m ->
        isMarkovianState m state = true /\
        getRowGroupSize (transitionMatrix m) state = 1)) /\
  (getNumberOfStates m = 0 -> isConvertibleToCtmc m = None).
Proof.
  intros (Wm & Cn & Hsz & Hcl). unfold isConvertibleToCtmc, isClosed. split.
  - intros Hn. destruct (closed m) eqn:Ec.
    + destruct (@full_spec (markovianStates m) Wm ltac:(lia)) as (v & Ev & Hv).
      exists v. split; [exact Ev|]. rewrite Hv, Cn.
      symmetry in Hcl. rewrite checkIsClosed_true in Hcl.
      split; intros H state Hs.
      * split; [apply H; exact Hs|].
        specialize (Hcl state ltac:(lia) (H state Hs)). specialize (Hsz state Hs). lia.
      * apply H. exact Hs.
    + exists false. split; [reflexivity|]. split; [discriminate|].
      intros H. exfalso. assert (C : checkIsClosed m = true).
      { apply checkIsClosed_true. intros state Hs _. rewrite Cn in Hs.
        destruct (H state Hs) as [_ E]. lia. }
      congruence.
  - intros Hn. assert (Ec : closed m = true).
    { rewrite Hcl. apply checkIsClosed_true. intros state Hs. lia. }
    rewrite Ec. unfold full.
    destruct Wm as [[HL _] _]. rewrite Cn, Hn in HL. cbn in HL.
    destruct (bucketVector (markovianStates m)); [reflexivity|discriminate].
Qed.

Lemma isConvertibleToCtmc_correct_witness :
  let empty := mkMarkovAutomaton (mkSparseMatrix []) empty_vector [] true in
  wellFormed empty /\ getNumberOfStates empty = 0 /\ isConvertibleToCtmc empty = None.
Proof.
  intros empty.
  assert (W : wellFormed empty).
  { split; [apply wfb_wf; vm_compute; reflexivity|]. split; [reflexivity|]. split.
    - intros state Hs. cbn in Hs. lia.
    - vm_compute. reflexivity. }
  split; [exact W|]. split; [reflexivity|].
  exact (proj2 (@isConvertibleToCtmc_correct empty W) eq_refl).
Defined.

(** *** What [close] hands to the subsystem builder *)

Lemma length_assign state value l : length (assign state value l) = length l.
Proof.
  revert state. induction l as [|x l IH]; intros state; [destruct state; reflexivity|].
  destruct state; cbn [assign length]; [reflexivity|]. rewrite IH. reflexivity.
Qed.

Lemma nth_assign state value l j :
  nth j (assign state value l) 0%Q
  = if (j =? state) && (state <? length l) then value else nth j l 0%Q.
Proof.
  revert state j. induction l as [|x l IH]; intros state j.
  - destruct state, j; cbn [assign nth length]; rewrite ?andb_false_r; reflexivity.
  - destruct state as [|state], j as [|j]; cbn [assign nth]; try reflexivity.
    rewrite IH. cbn [length Nat.eqb]. reflexivity.
Qed.

Lemma close_rates M L : forall st,
  let st' := fold_left (fun st i => closeStep M i st) L st in
  length (rates st') = length (rates st) /\
  forall s, s < length (rates st) ->
    nth s (rates st') 0%Q
    = if existsb (fun h => (1 <? getRowGroupSize M h) && (h =? s)) L
      then 0%Q else nth s (rates st) 0%Q.
Proof.
  induction L as [|h L IH]; intros st st'; [split; reflexivity|].
  unfold st'. cbn [fold_left existsb].
  destruct (IH (closeStep M h st)) as [Len Nth]. cbn zeta in Len, Nth.
  unfold closeStep in *. destruct (1 <? getRowGroupSize M h); cbn [rates andb orb] in *.
  - rewrite length_assign in Len, Nth. split; [exact Len|].
    intros s Hs. rewrite Nth by exact Hs. rewrite nth_assign.
    replace (h <? length (rates st)) with (h <? length (rates st)) by reflexivity.
    destruct (Nat.eqb_spec h s) as [->|Hne]; cbn [orb].
    + rewrite Nat.eqb_refl.
      replace (s <? length (rates st)) with true by (symmetry; apply Nat.ltb_lt; exact Hs).
      cbn [andb]. destruct (existsb _ L); reflexivity.
    + replace (s =? h) with false by (symmetry; apply Nat.eqb_neq; congruence).
      reflexivity.
  - split; [exact Len|]. intros s Hs. apply Nth. exact Hs.
Qed.

(** Whether a state is among the hybrid states that the loop of [close]
    meets. *)
Lemma met_hybrid m s :
  s < bitCount (markovianStates m) ->
  existsb (fun h => (1 <? getRowGroupSize (transitionMatrix m) h) && (h =? s))
          (setBits (markovianStates m))
  = isHybridState m s.
Proof.
  intros Hs. unfold isHybridState, isMarkovianState, get.
  destruct (existsb _ _) eqn:E.
  - apply existsb_exists in E. destruct E as (h & Hh & Eh).
    apply andb_true_iff in Eh. destruct Eh as [E1 E2]. apply Nat.eqb_eq in E2. subst h.
    apply filter_In in Hh. destruct Hh as [_ Hm]. rewrite Hm, E1. reflexivity.
  - rewrite existsb_false_forall in E.
    destruct (index (markovianStates m) s) eqn:Hm; [|reflexivity]. cbn [andb].
    specialize (E s). rewrite Nat.eqb_refl, andb_true_r in E. symmetry. apply E.
    apply filter_In. split; [apply in_seq; lia|exact Hm].
Qed.

(** On an automaton as the constructors leave it that is not closed and has
    one exit rate per state, [close] calls the subsystem builder for all
    states, with an automaton in which exactly the hybrid states have
    become probabilistic and have the exit rate zero, and with a selection
    of choices that leaves out exactly the first choice of every hybrid
    state; what the builder returns is marked closed. *)
Theorem close_hands_over build m :
  wellFormed m -> isClosed m = false -> length (exitRates m) = getNumberOfStates m ->
  exists markovian' rates' kept allStates,
    make (getNumberOfStates m) true = Some allStates /\
    close build m
    = Some (let m2 := build (mkMarkovAutomaton (transitionMatrix m) markovian' rates' false)
                        allStates kept false in
            mkMarkovAutomaton (transitionMatrix m2) (markovianStates m2) (exitRates m2) true) /\
    bitCount kept = getNumberOfChoices m /\
    (forall state, state < getNumberOfStates m ->
       get markovian' state = isMarkovianState m state && negb (isHybridState m state) /\
       nth state rates' 0%Q
       = (if isHybridState m state then 0%Q else getExitRate m state) /\
       forall k, k < getRowGroupSize (transitionMatrix m) state ->
         get kept (getRowGroupIndex (transitionMatrix m) state + k)
         = negb (isHybridState m state && (k =? 0))).
Proof.
  intros (Wm & Cn & Hsz & Hcl) Ec HR. unfold isClosed in Ec. unfold close.
  rewrite Ec. cbn [negb].
  destruct (make_spec (getNumberOfChoices m) true) as (k0 & E & Wk0 & Ck0 & Ik0).
  rewrite E. rewrite forEachSetBit_spec by (intros; apply closeStep_later; assumption).
  cbn [markovian]. rewrite <- setBits_eq.
  set (M := transitionMatrix m) in *. set (L := setBits (markovianStates m)).
  assert (Cn' : bitCount (markovianStates m) = getRowGroupCount M) by exact Cn.
  assert (Hsz' : forall s, s < getRowGroupCount M -> 1 <= getRowGroupSize M s) by exact Hsz.
  assert (InL : forall s, In s L <-> s < bitCount (markovianStates m) /\
                                     index (markovianStates m) s = true).
  { intros s. unfold L, setBits. rewrite filter_In, in_seq. split; intros [A B]; split; auto; lia. }
  destruct (@close_loop M L (mkCloseState k0 (markovianStates m) (exitRates m)))
    as (A1 & A2 & A3 & A4 & A5 & A6); cbn [markovian keptChoices] in *; try assumption.
  { intros s Hs. apply InL in Hs. apply Hs. }
  { intros s Hs Hg. apply InL in Hs. rewrite Ck0.
    pose proof (@group_within M s ltac:(lia)).
    change (getNumberOfChoices m) with (getRowCount M). lia. }
  destruct (@close_rates M L (mkCloseState k0 (markovianStates m) (exitRates m)))
    as [RL RN]. cbn zeta in RL, RN. cbn [rates] in RL, RN.
  set (st' := fold_left (fun st i => closeStep M i st) L
                (mkCloseState k0 (markovianStates m) (exitRates m))) in *.
  (* the first choice of a hybrid state and no other choice is left out *)
  assert (Kept : forall s k, s < getRowGroupCount M -> k < getRowGroupSize M s ->
            index (keptChoices st') (getRowGroupIndex M s + k)
            = negb (isHybridState m s && (k =? 0))).
  { intros s k Hs Hk. rewrite A6.
    pose proof (@group_within M s Hs) as Within.
    rewrite Ik0 by (change (getNumberOfChoices m) with (getRowCount M); lia).
    cbn [andb]. f_equal.
    destruct (isHybridState m s && (k =? 0)) eqn:Hy.
    - apply andb_true_iff in Hy. destruct Hy as [Hy K0]. apply Nat.eqb_eq in K0. subst k.
      apply existsb_exists. exists s.
      unfold isHybridState, isMarkovianState, get in Hy. apply andb_true_iff in Hy.
      destruct Hy as [Hm Hg]. split; [apply InL; split; [lia|exact Hm]|].
      fold M in Hg. rewrite Hg, Nat.add_0_r, Nat.eqb_refl. reflexivity.
    - apply existsb_false_forall. intros h Hh.
      destruct (1 <? getRowGroupSize M h) eqn:Eh; [|reflexivity]. cbn [andb].
      apply Nat.ltb_lt in Eh. apply InL in Hh. destruct Hh as [Hh Hm].
      apply Nat.eqb_neq. intros Eidx.
      destruct (Nat.lt_trichotomy h s) as [Lt|[Eq|Gt]].
      + pose proof (@group_before M h s Lt ltac:(lia)). lia.
      + subst h. assert (k = 0) by lia. subst k.
        unfold isHybridState, isMarkovianState, get in Hy. fold M in Hy.
        rewrite Hm in Hy. cbn [andb Nat.eqb] in Hy. rewrite andb_true_r in Hy.
        apply Nat.ltb_ge in Hy. lia.
      + pose proof (@group_before M s h Gt ltac:(lia)). lia. }
  (* the automaton is not closed: a choice is left out and [full] returns false *)
  assert (Hybrid : exists h, h < getRowGroupCount M /\ isHybridState m h = true).
  { rewrite Ec in Hcl. symmetry in Hcl. rewrite checkIsClosed_spec in Hcl.
    apply forallb_false_witness in Hcl. destruct Hcl as (h & Hh & Eh).
    apply negb_false_iff in Eh. apply InL in Hh. destruct Hh as [Hh Hm].
    exists h. split; [lia|]. unfold isHybridState, isMarkovianState, get.
    rewrite Hm. exact Eh. }
  destruct Hybrid as (h & Hh & Hy).
  assert (NZ : bitCount (keptChoices st') <> 0).
  { rewrite A4, Ck0. pose proof (@group_within M h Hh). pose proof (Hsz' h Hh).
    change (getNumberOfChoices m) with (getRowCount M). lia. }
  destruct (full_spec A3 NZ) as (v & Ev & Hv). rewrite Ev.
  assert (v = false).
  { destruct v; [|reflexivity]. exfalso.
    pose proof (proj1 Hv eq_refl (getRowGroupIndex M h)) as All.
    rewrite A4, Ck0 in All. pose proof (@group_within M h Hh). pose proof (Hsz' h Hh).
    specialize (All ltac:(change (getNumberOfChoices m) with (getRowCount M); lia)).
    unfold get in All.
    pose proof (Kept h 0 Hh ltac:(lia)) as K. rewrite Nat.add_0_r, Hy in K.
    cbn in K. congruence. }
  subst v. cbn [negb].
  destruct (make_spec (getNumberOfStates
              (mkMarkovAutomaton M (markovian st') (rates st') false)) true)
    as (allStates & E2 & _).
  rewrite E2.
  exists (markovian st'), (rates st'), (keptChoices st'), allStates.
  split; [exact E2|]. split; [reflexivity|]. split; [rewrite A4; exact Ck0|].
  intros state Hs. split; [|split].
  - unfold get. rewrite A5. change (existsb _ L)
      with (existsb (fun h => (1 <? getRowGroupSize (transitionMatrix m) h) && (h =? state))
              (setBits (markovianStates m))).
    rewrite met_hybrid by lia. reflexivity.
  - rewrite RN by (rewrite HR; exact Hs).
    change (existsb _ L)
      with (existsb (fun h => (1 <? getRowGroupSize (transitionMatrix m) h) && (h =? state))
              (setBits (markovianStates m))).
    rewrite met_hybrid by lia. reflexivity.
  - intros k Hk. apply Kept; assumption.
Qed.

Lemma close_hands_over_witness :
  wellFormed hybridExample /\ isClosed hybridExample = false /\
  length (exitRates hybridExample) = getNumberOfStates hybridExample /\
  exists markovian' rates' kept allStates,
    close keepChoices hybridExample
    = Some (let m2 := keepChoices
                        (mkMarkovAutomaton (transitionMatrix hybridExample) markovian' rates'
                           false)
                        allStates kept false in
            mkMarkovAutomaton (transitionMatrix m2) (markovianStates m2) (exitRates m2) true) /\
    get markovian' 0 = false /\ nth 0 rates' 0%Q = 0%Q /\ get kept 0 = false /\
    get kept 1 = true.
Proof.
  assert (W : wellFormed hybridExample) by exact hybridExample_wellFormed.
  assert (C : isClosed hybridExample = false) by reflexivity.
  assert (R : length (exitRates hybridExample) = getNumberOfStates hybridExample)
    by reflexivity.
  split; [exact W|]. split; [exact C|]. split; [exact R|].
  destruct (@close_hands_over keepChoices hybridExample W C R)
    as (markovian' & rates' & kept & allStates & _ & Ecl & _ & Post).
  exists markovian', rates', kept, allStates. split; [exact Ecl|].
  destruct (Post 0 ltac:(cbn; lia)) as (P1 & P2 & P3).
  split; [exact P1|]. split; [exact P2|].
  split; [exact (P3 0 ltac:(cbn; lia))|exact (P3 1 ltac:(cbn; lia))].
Defined.

End MarkovAutomatonOpsFacts.

(** ** The PRISM module: what the mappings hold *)

Module PrismFacts.
Import String List ListNotations Prism.

(** *** Maps and sets *)

Section MapFacts.
Variables K V : Type.
Variable sameKey : K -> K -> bool.
Hypothesis sameKey_eq : forall a b, sameKey a b = true <-> a = b.

Lemma sameKey_refl a : sameKey a a = true.
Proof. apply sameKey_eq. reflexivity. Qed.

Lemma sameKey_neq a b : a <> b -> sameKey a b = false.
Proof.
  intros H. destruct (sameKey a b) eqn:E; [|reflexivity].
  apply sameKey_eq in E. contradiction.
Qed.

Lemma mapFind_assign key value (m : list (K * V)) k :
  mapFind sameKey k (mapAssign sameKey key value m)
  = if sameKey key k then Some value else mapFind sameKey k m.
Proof.
  induction m as [|[k0 v0] rest IH]; cbn [mapAssign mapFind]; [reflexivity|].
  destruct (sameKey k0 key) eqn:E0; cbn [mapFind].
  - apply sameKey_eq in E0. subst k0. destruct (sameKey key k); reflexivity.
  - rewrite IH. destruct (sameKey k0 k) eqn:E1; [|reflexivity].
    apply sameKey_eq in E1. subst k0.
    rewrite sameKey_neq; [reflexivity|].
    intros ->. rewrite sameKey_refl in E0. discriminate.
Qed.

End MapFacts.

Lemma natFind_assign (V : Type) key (value : V) m k :
  mapFind Nat.eqb k (mapAssign Nat.eqb key value m)
  = if key =? k then Some value else mapFind Nat.eqb k m.
Proof. apply mapFind_assign. exact Nat.eqb_eq. Qed.

Lemma nameFind_assign (V : Type) key (value : V) m k :
  mapFind String.eqb k (mapAssign String.eqb key value m)
  = if String.eqb key k then Some value else mapFind String.eqb k m.
Proof. apply mapFind_assign. exact String.eqb_eq. Qed.

Lemma setInsert_in x s y : In y (setInsert x s) <-> y = x \/ In y s.
Proof.
  induction s as [|z rest IH]; cbn [setInsert In].
  - intuition.
  - destruct (x <? z); [cbn [In]; intuition|].
    destruct (Nat.eqb_spec x z) as [->|Hne]; cbn [In]; [intuition|].
    rewrite IH. intuition.
Qed.

Lemma setInsert_sorted x s : StronglySorted lt s -> StronglySorted lt (setInsert x s).
Proof.
  induction 1 as [|z rest Hs IH Hz]; cbn [setInsert].
  - constructor; constructor.
  - destruct (Nat.ltb_spec x z) as [Lt|Ge].
    + constructor; [constructor; assumption|].
      constructor; [exact Lt|]. eapply Forall_impl; [|exact Hz].
      intros a Ha. cbn beta in Ha. lia.
    + destruct (Nat.eqb_spec x z) as [->|Hne]; [constructor; assumption|].
      constructor; [exact IH|]. apply Forall_forall. intros a Ha.
      apply setInsert_in in Ha. destruct Ha as [->|Ha]; [lia|].
      rewrite Forall_forall in Hz. apply Hz. exact Ha.
Qed.

Lemma contains_in x s : contains x s = true <-> In x s.
Proof.
  unfold contains. rewrite existsb_exists. split.
  - intros (y & Hy & E). apply Nat.eqb_eq in E. subst y. exact Hy.
  - intros H. exists x. split; [exact H|apply Nat.eqb_refl].
Qed.

(** *** The loops over the variables *)

Section Names.
Variable A : Type.
Variable name : A -> string.

(** A name that no variable has is left as it was. *)
Lemma registered_none (l : list A) : forall start map key,
  (forall v, In v l -> name v <> key) ->
  mapFind String.eqb key
    (fold_left (fun map (e : nat * A) => mapAssign String.eqb (name (snd e)) (fst e) map)
       (combine (seq start (length l)) l) map)
  = mapFind String.eqb key map.
Proof.
  induction l as [|x l IH]; intros start map key Hno; [reflexivity|].
  cbn [length seq combine fold_left fst snd].
  rewrite IH by (intros v Hv; apply Hno; right; exact Hv).
  rewrite nameFind_assign.
  destruct (String.eqb_spec (name x) key) as [E|_]; [|reflexivity].
  exfalso. apply (Hno x); [left; reflexivity|exact E].
Qed.

(** A name is mapped to the index of the last variable that has it. *)
Lemma registered_last (l : list A) : forall start map i v,
  nth_error l i = Some v ->
  (forall j w, i < j -> nth_error l j = Some w -> name w <> name v) ->
  mapFind String.eqb (name v)
    (fold_left (fun map (e : nat * A) => mapAssign String.eqb (name (snd e)) (fst e) map)
       (combine (seq start (length l)) l) map)
  = Some (start + i).
Proof.
  induction l as [|x l IH]; intros start map i v Hi Hlast.
  - destruct i; discriminate.
  - cbn [length seq combine fold_left fst snd]. destruct i as [|i].
    + cbn [nth_error] in Hi. injection Hi as ->.
      rewrite registered_none.
      * rewrite nameFind_assign, String.eqb_refl. f_equal. lia.
      * intros w Hw. apply In_nth_error in Hw. destruct Hw as [j Hj].
        apply (Hlast (S j) w); [lia|exact Hj].
    + cbn [nth_error] in Hi. rewrite (IH (S start) _ i v Hi).
      * f_equal. lia.
      * intros j w Hj Hw. apply (Hlast (S j) w); [lia|exact Hw].
Qed.

End Names.

(** *** The loop over the commands *)

Section Commands.
Context {L : Language}.

Lemma combine_snoc (A : Type) (l : list A) x : forall start,
  combine (seq start (length l + 1)) (l ++ [x])
  = combine (seq start (length l)) l ++ [(start + length l, x)].
Proof.
  induction l as [|y l IH]; intros start; cbn [length seq combine app Nat.add].
  - rewrite Nat.add_0_r. reflexivity.
  - rewrite IH. replace (start + S (length l)) with (S start + length l) by lia. reflexivity.
Qed.

Lemma indexed_snoc (A : Type) (l : list A) x : indexed (l ++ [x]) = indexed l ++ [(length l, x)].
Proof. unfold indexed. rewrite length_app. cbn [length]. apply combine_snoc. Qed.

Lemma labeledAt_snoc (l : list Command) c a i :
  labeledAt (l ++ [c]) a i <->
  labeledAt l a i \/ (i = length l /\ isLabeled c = true /\ getActionIndex c = a).
Proof.
  unfold labeledAt. split.
  - intros (x & Hx & Hl & Ha).
    destruct (Nat.lt_ge_cases i (length l)) as [Lt|Ge].
    + left. rewrite nth_error_app1 in Hx by exact Lt. exists x. auto.
    + right. rewrite nth_error_app2 in Hx by exact Ge.
      destruct (i - length l) as [|k] eqn:E.
      * cbn in Hx. injection Hx as ->. repeat split; [lia|assumption|assumption].
      * cbn in Hx. destruct k; discriminate.
  - intros [(x & Hx & Hl & Ha)|(-> & Hl & Ha)].
    + exists x. split; [|auto]. rewrite nth_error_app1; [exact Hx|].
      apply nth_error_Some. congruence.
    + exists c. split; [|auto]. rewrite nth_error_app2 by lia.
      rewrite Nat.sub_diag. reflexivity.
Qed.

Lemma labeledAt_in (l : list Command) a :
  (exists i, labeledAt l a i) <->
  exists c, In c l /\ isLabeled c = true /\ getActionIndex c = a.
Proof.
  unfold labeledAt. split.
  - intros (i & c & Hc & H). exists c. split; [eapply nth_error_In; exact Hc|exact H].
  - intros (c & Hc & H). apply In_nth_error in Hc. destruct Hc as [i Hi].
    exists i, c. split; assumption.
Qed.

(** After the loop over the commands, an action index is mapped if and only
    if a labeled command has it, and then to the indices of these commands
    in increasing order; the synchronizing action indices are those that
    are not zero. *)
Lemma commands_loop (l : list Command) :
  let st := fold_left commandStep (indexed l) ([], []) in
  (forall a, match mapFind Nat.eqb a (fst st) with
             | Some s => StronglySorted lt s /\ (forall i, In i s <-> labeledAt l a i) /\
                         exists i, labeledAt l a i
             | None => forall i, ~ labeledAt l a i
             end) /\
  StronglySorted lt (snd st) /\
  (forall a, In a (snd st) <-> a <> 0 /\ exists i, labeledAt l a i).
Proof.
  induction l as [|c l IH] using rev_ind.
  - cbn. split; [|split].
    + intros a i (x & Hx & _). destruct i; discriminate.
    + constructor.
    + intros a. split; [contradiction|].
      intros (_ & i & x & Hx & _). destruct i; discriminate.
  - rewrite indexed_snoc, fold_left_app. cbn [fold_left].
    destruct (fold_left commandStep (indexed l) ([], [])) as [map sync].
    cbn zeta in IH. cbn [fst snd] in IH. destruct IH as (IM & IS & II).
    cbn zeta. unfold commandStep.
    destruct (isLabeled c) eqn:Lab.
    2:{ cbn [fst snd]. split; [|split; [exact IS|]].
        - intros a. specialize (IM a). destruct (mapFind Nat.eqb a map) as [s|].
          + destruct IM as (S1 & S2 & S3). split; [exact S1|]. split.
            * intros i. rewrite S2, labeledAt_snoc. split; [auto|].
              intros [H|(_ & H & _)]; [exact H|congruence].
            * destruct S3 as [i Hi]. exists i. apply labeledAt_snoc. left. exact Hi.
          + intros i H. apply labeledAt_snoc in H.
            destruct H as [H|(_ & H & _)]; [exact (IM i H)|congruence].
        - intros a. rewrite II. split; intros [Hn [i Hi]]; split; try exact Hn; exists i.
          + apply labeledAt_snoc. left. exact Hi.
          + apply labeledAt_snoc in Hi. destruct Hi as [H|(_ & H & _)]; [exact H|congruence]. }
    set (a0 := getActionIndex c).
    assert (Here : labeledAt (l ++ [c]) a0 (length l)).
    { apply labeledAt_snoc. right. repeat split. exact Lab. }
    cbn [fst snd]. split; [|split].
    + intros a. rewrite natFind_assign.
      destruct (Nat.eqb_spec a0 a) as [<-|Hne].
      * assert (Old : match mapFind Nat.eqb a0 map with
                      | Some s => StronglySorted lt s /\ (forall i, In i s <-> labeledAt l a0 i)
                      | None => forall i, ~ labeledAt l a0 i
                      end).
        { specialize (IM a0). destruct (mapFind Nat.eqb a0 map); [|exact IM].
          split; apply IM. }
        destruct (mapFind Nat.eqb a0 map) as [s|] eqn:Fd.
        -- rewrite Fd. destruct Old as [S1 S2].
           split; [apply setInsert_sorted; exact S1|]. split; [|exists (length l); exact Here].
           intros i. rewrite setInsert_in, S2, labeledAt_snoc. split.
           ++ intros [->|H]; [right; repeat split; exact Lab|left; exact H].
           ++ intros [H|(-> & _)]; [right; exact H|left; reflexivity].
        -- rewrite natFind_assign, Nat.eqb_refl.
           split; [apply setInsert_sorted; constructor|].
           split; [|exists (length l); exact Here].
           intros i. rewrite setInsert_in, labeledAt_snoc. split.
           ++ intros [->|[]]. right. repeat split. exact Lab.
           ++ intros [H|(-> & _)]; [exfalso; exact (Old i H)|left; reflexivity].
      * assert (Same : mapFind Nat.eqb a
                         match mapFind Nat.eqb a0 map with
                         | Some _ => map
                         | None => mapAssign Nat.eqb a0 [] map
                         end = mapFind Nat.eqb a map).
        { destruct (mapFind Nat.eqb a0 map); [reflexivity|].
          rewrite natFind_assign. destruct (Nat.eqb_spec a0 a); [contradiction|reflexivity]. }
        rewrite Same. specialize (IM a). destruct (mapFind Nat.eqb a map) as [s|].
        -- destruct IM as (S1 & S2 & S3). split; [exact S1|]. split.
           ++ intros i. rewrite S2, labeledAt_snoc. split; [auto|].
              intros [H|(_ & _ & H)]; [exact H|contradiction].
           ++ destruct S3 as [i Hi]. exists i. apply labeledAt_snoc. left. exact Hi.
        -- intros i H. apply labeledAt_snoc in H.
           destruct H as [H|(_ & _ & H)]; [exact (IM i H)|contradiction].
    + destruct (negb (a0 =? 0)); [apply setInsert_sorted|]; exact IS.
    + intros a. destruct (Nat.eqb_spec a0 0) as [Z|NZ]; cbn [negb].
      * rewrite II. split; intros [Hn [i Hi]]; split; try exact Hn.
        -- exists i. apply labeledAt_snoc. left. exact Hi.
        -- apply labeledAt_snoc in Hi. destruct Hi as [H|(_ & _ & H)]; [exists i; exact H|].
           exfalso. apply Hn. rewrite <- H. exact Z.
      * rewrite setInsert_in, II. split.
        -- intros [->|[Hn [i Hi]]].
           ++ split; [exact NZ|]. exists (length l). exact Here.
           ++ split; [exact Hn|]. exists i. apply labeledAt_snoc. left. exact Hi.
        -- intros [Hn [i Hi]]. apply labeledAt_snoc in Hi.
           destruct Hi as [H|(_ & _ & H)]; [right; split; [exact Hn|exists i; exact H]|].
           left. symmetry. exact H.
Qed.

(** The last loop of [createMappings] finds every index mapped. *)
Lemma addMissing_nothing (sync : list nat) : forall map,
  (forall a, In a sync -> mapFind Nat.eqb a map <> None) ->
  fold_left addMissing sync map = map.
Proof.
  induction sync as [|a sync IH]; intros map H; [reflexivity|].
  cbn [fold_left]. unfold addMissing at 2.
  destruct (mapFind Nat.eqb a map) eqn:E.
  - apply IH. intros b Hb. apply H. right. exact Hb.
  - exfalso. apply (H a); [left; reflexivity|exact E].
Qed.

(** The map of the actions of a module that a constructor built. *)
Lemma action_map name bools ints clocks inv (cmds : list Command) from ren :
  let m := newRenamedModule name bools ints clocks inv cmds from ren in
  (forall a, match mapFind Nat.eqb a (actionIndicesToCommandIndexMap m) with
             | Some s => StronglySorted lt s /\ (forall i, In i s <-> labeledAt cmds a i) /\
                         exists i, labeledAt cmds a i
             | None => forall i, ~ labeledAt cmds a i
             end) /\
  StronglySorted lt (synchronizingActionIndices m) /\
  (forall a, In a (synchronizingActionIndices m) <-> a <> 0 /\ exists i, labeledAt cmds a i).
Proof.
  intros m. destruct (commands_loop cmds) as (IM & IS & II). cbn zeta in IM, IS, II.
  unfold m, newRenamedModule, createMappings.
  cbn [actionIndicesToCommandIndexMap synchronizingActionIndices commands].
  rewrite addMissing_nothing.
  - split; [exact IM|]. split; [exact IS|exact II].
  - intros a Ha. apply II in Ha. destruct Ha as [_ [i Hi]].
    specialize (IM a). destruct (mapFind Nat.eqb a _); [discriminate|].
    exfalso. exact (IM i Hi).
Qed.

Lemma hasActionIndex_new name bools ints clocks inv (cmds : list Command) from ren a :
  hasActionIndex a (newRenamedModule name bools ints clocks inv cmds from ren) = true <->
  exists c, In c cmds /\ isLabeled c = true /\ getActionIndex c = a.
Proof.
  rewrite <- labeledAt_in. unfold hasActionIndex.
  pose proof (proj1 (action_map name bools ints clocks inv cmds from ren) a) as H.
  cbn zeta in H. destruct (mapFind Nat.eqb a _).
  - split; [intros _; apply H|reflexivity].
  - split; [discriminate|]. intros [i Hi]. exfalso. exact (H i Hi).
Qed.

(** *** Looking a variable up *)

(** In a module that a constructor built, [getIntegerVariable] returns the
    last integer variable with the given name and throws
    [InvalidArgumentException] when no integer variable has it.
    [getClockVariable] throws it for every name, also for the names of the
    clock variables of the module: [createMappings] writes these into the
    map of the boolean variables, so that [getBooleanVariable] with the
    name of the clock variable at index [i] reads the boolean variable at
    that index, which need not exist.  For the other names
    [getBooleanVariable] does what [getIntegerVariable] does. *)
Theorem variable_lookup name bools ints clocks inv (cmds : list Command) from ren :
  let m := newRenamedModule name bools ints clocks inv cmds from ren in
  (forall i v, nth_error ints i = Some v ->
     (forall j w, i < j -> nth_error ints j = Some w -> integerName w <> integerName v) ->
     getIntegerVariable (integerName v) m = Returned v) /\
  (forall key, (forall v, In v ints -> integerName v <> key) ->
     getIntegerVariable key m = Thrown InvalidArgumentException) /\
  (forall key, getClockVariable key m = Thrown InvalidArgumentException) /\
  (forall i c, nth_error clocks i = Some c ->
     (forall j w, i < j -> nth_error clocks j = Some w -> clockName w <> clockName c) ->
     getBooleanVariable (clockName c) m = at_ bools i) /\
  (forall i v, nth_error bools i = Some v ->
     (forall j w, i < j -> nth_error bools j = Some w -> booleanName w <> booleanName v) ->
     (forall c, In c clocks -> clockName c <> booleanName v) ->
     getBooleanVariable (booleanName v) m = Returned v) /\
  (forall key, (forall v, In v bools -> booleanName v <> key) ->
     (forall c, In c clocks -> clockName c <> key) ->
     getBooleanVariable key m = Thrown InvalidArgumentException).
Proof.
  intros m. unfold m, newRenamedModule, createMappings, getIntegerVariable, getClockVariable,
    getBooleanVariable, indexed.
  cbn [integerVariableToIndexMap clockVariableToIndexMap booleanVariableToIndexMap
       integerVariables clockVariables booleanVariables].
  split; [|split; [|split; [|split; [|split]]]].
  - intros i v Hi Hlast. rewrite (@registered_last _ integerName ints 0 [] i _ Hi Hlast).
    unfold at_. cbn [Nat.add]. rewrite Hi. reflexivity.
  - intros key Hno. rewrite (@registered_none _ integerName ints 0 [] _ Hno). reflexivity.
  - intros key. reflexivity.
  - intros i c Hi Hlast. rewrite (@registered_last _ clockName clocks 0 _ i _ Hi Hlast). reflexivity.
  - intros i v Hi Hlast Hclock. rewrite (@registered_none _ clockName clocks 0 _ _ Hclock).
    rewrite (@registered_last _ booleanName bools 0 [] i _ Hi Hlast).
    unfold at_. cbn [Nat.add]. rewrite Hi. reflexivity.
  - intros key Hno Hclock. rewrite (@registered_none _ clockName clocks 0 _ _ Hclock).
    rewrite (@registered_none _ booleanName bools 0 [] _ Hno). reflexivity.
Qed.

(** *** The commands of an action *)

(** In a module that a constructor built, [hasActionIndex] is true exactly
    for the action indices of the labeled commands.  For such an index
    [getCommandIndicesByActionIndex] returns the indices of the commands
    labeled with it, in increasing order, and for any other index it throws
    [OutOfRangeException]; the synchronizing action indices are the action
    indices of the labeled commands other than zero. *)
Theorem action_index_mapping name bools ints clocks inv (cmds : list Command) from ren :
  let m := newRenamedModule name bools ints clocks inv cmds from ren in
  (forall a, hasActionIndex a m = true <-> exists i, labeledAt cmds a i) /\
  (forall a, (exists i, labeledAt cmds a i) ->
     exists s, getCommandIndicesByActionIndex a m = Returned s /\
               StronglySorted lt s /\ forall i, In i s <-> labeledAt cmds a i) /\
  (forall a, (forall i, ~ labeledAt cmds a i) ->
     getCommandIndicesByActionIndex a m = Thrown OutOfRangeException) /\
  StronglySorted lt (synchronizingActionIndices m) /\
  (forall a, In a (synchronizingActionIndices m) <-> a <> 0 /\ exists i, labeledAt cmds a i).
Proof.
  intros m. destruct (action_map name bools ints clocks inv cmds from ren) as (IM & IS & II).
  cbn zeta in IM, IS, II. fold m in IM, IS, II.
  split; [|split; [|split; [|split; [exact IS|exact II]]]].
  - intros a. unfold hasActionIndex. specialize (IM a).
    destruct (mapFind Nat.eqb a _).
    + split; [intros _; apply IM|reflexivity].
    + split; [discriminate|]. intros [i Hi]. exfalso. exact (IM i Hi).
  - intros a [i Hi]. unfold getCommandIndicesByActionIndex. specialize (IM a).
    destruct (mapFind Nat.eqb a _) as [s|].
    + exists s. split; [reflexivity|]. split; apply IM.
    + exfalso. exact (IM i Hi).
  - intros a Hno. unfold getCommandIndicesByActionIndex. specialize (IM a).
    destruct (mapFind Nat.eqb a _) as [s|]; [|reflexivity].
    destruct IM as (_ & _ & i & Hi). exfalso. exact (Hno i Hi).
Qed.

(** *** Restricting a module *)

(** [restrictCommands] and [restrictActionIndices] build a module that is
    not renamed from another one, whatever the module they are called on
    is, so that [getBaseModule] throws [InvalidAccessException] on it.
    Restricting twice to the same index set gives what restricting once
    gives, and two restrictions can be swapped.  The restricted module has
    an action index exactly when a labeled command with this action index
    was kept; [restrictActionIndices] selects by the action index of a
    command whether the command is labeled or not. *)
Theorem restriction_laws (m : PrismModule) (S T : list nat) :
  getBaseModule (restrictCommands S m) = Thrown InvalidAccessException /\
  getBaseModule (restrictActionIndices S m) = Thrown InvalidAccessException /\
  restrictCommands S (restrictCommands S m) = restrictCommands S m /\
  restrictCommands S (restrictCommands T m) = restrictCommands T (restrictCommands S m) /\
  restrictActionIndices S (restrictCommands T m)
  = restrictCommands T (restrictActionIndices S m) /\
  (forall a, hasActionIndex a (restrictCommands S m) = true <->
     exists c, In c (commands m) /\ isLabeled c = true /\ getActionIndex c = a /\
               In (getGlobalIndex c) S) /\
  (forall a, hasActionIndex a (restrictActionIndices S m) = true <->
     In a S /\ exists c, In c (commands m) /\ isLabeled c = true /\ getActionIndex c = a) /\
  (forall c, In c (commands (restrictActionIndices S m)) <->
     In c (commands m) /\ In (getActionIndex c) S).
Proof.
  assert (Swap : forall (P Q : Command -> bool) l,
            filter P (filter Q l) = filter Q (filter P l)).
  { intros P Q l. induction l as [|x l IH]; [reflexivity|].
    cbn [filter]. destruct (Q x) eqn:EQ, (P x) eqn:EP; cbn [filter];
      rewrite ?EQ, ?EP, IH; reflexivity. }
  assert (Twice : forall (P : Command -> bool) l, filter P (filter P l) = filter P l).
  { intros P l. induction l as [|x l IH]; [reflexivity|].
    cbn [filter]. destruct (P x) eqn:EP; cbn [filter]; rewrite ?EP, IH; reflexivity. }
  assert (Restricted : forall (P : Command -> bool) (m' : PrismModule) l,
            commands m' = l ->
            moduleName m' = moduleName m -> booleanVariables m' = booleanVariables m ->
            integerVariables m' = integerVariables m ->
            clockVariables m' = clockVariables m -> invariant m' = invariant m ->
            newModule (moduleName m') (booleanVariables m') (integerVariables m')
              (clockVariables m') (invariant m') (filter P (commands m'))
            = newModule (moduleName m) (booleanVariables m) (integerVariables m)
                (clockVariables m) (invariant m) (filter P l)).
  { intros P m' l -> -> -> -> -> ->. reflexivity. }
  assert (RC : forall S' (m' : PrismModule),
            restrictCommands S' m'
            = newModule (moduleName m') (booleanVariables m') (integerVariables m')
                (clockVariables m') (invariant m')
                (filter (fun command => contains (getGlobalIndex command) S') (commands m')))
    by reflexivity.
  assert (RA : forall S' (m' : PrismModule),
            restrictActionIndices S' m'
            = newModule (moduleName m') (booleanVariables m') (integerVariables m')
                (clockVariables m') (invariant m')
                (filter (fun command => contains (getActionIndex command) S') (commands m')))
    by reflexivity.
  split; [reflexivity|]. split; [reflexivity|].
  split.
  { rewrite (RC S (restrictCommands S m)).
    rewrite (Restricted _ (restrictCommands S m) _ eq_refl) by reflexivity.
    change (commands (restrictCommands S m))
      with (filter (fun command => contains (getGlobalIndex command) S) (commands m)).
    rewrite Twice. reflexivity. }
  split.
  { rewrite (RC S (restrictCommands T m)), (RC T (restrictCommands S m)).
    rewrite (Restricted _ (restrictCommands T m) _ eq_refl) by reflexivity.
    rewrite (Restricted _ (restrictCommands S m) _ eq_refl) by reflexivity.
    change (commands (restrictCommands S m))
      with (filter (fun command => contains (getGlobalIndex command) S) (commands m)).
    change (commands (restrictCommands T m))
      with (filter (fun command => contains (getGlobalIndex command) T) (commands m)).
    rewrite Swap. reflexivity. }
  split.
  { rewrite (RA S (restrictCommands T m)), (RC T (restrictActionIndices S m)).
    rewrite (Restricted _ (restrictCommands T m) _ eq_refl) by reflexivity.
    rewrite (Restricted _ (restrictActionIndices S m) _ eq_refl) by reflexivity.
    change (commands (restrictActionIndices S m))
      with (filter (fun command => contains (getActionIndex command) S) (commands m)).
    change (commands (restrictCommands T m))
      with (filter (fun command => contains (getGlobalIndex command) T) (commands m)).
    rewrite Swap. reflexivity. }
  split.
  { intros a. unfold restrictCommands, newModule. rewrite hasActionIndex_new. split.
    - intros (c & Hc & Hl & Ha). apply filter_In in Hc. destruct Hc as [Hc Hs].
      apply contains_in in Hs. exists c. auto.
    - intros (c & Hc & Hl & Ha & Hs). exists c. split; [|auto].
      apply filter_In. split; [exact Hc|]. apply contains_in. exact Hs. }
  split.
  { intros a. unfold restrictActionIndices, newModule. rewrite hasActionIndex_new. split.
    - intros (c & Hc & Hl & Ha). apply filter_In in Hc. destruct Hc as [Hc Hs].
      apply contains_in in Hs. split; [congruence|]. exists c. auto.
    - intros (Hs & c & Hc & Hl & Ha). exists c. split; [|auto].
      apply filter_In. split; [exact Hc|]. apply contains_in. congruence. }
  intros c. unfold restrictActionIndices, newModule, newRenamedModule, createMappings.
  cbn [commands]. rewrite filter_In, contains_in. reflexivity.
Qed.

End Commands.

(** *** Examples *)

Lemma variable_lookup_witness :
  @getIntegerVariable exampleLanguage "queue" exampleModule = Returned "queue"%string /\
  @getBooleanVariable exampleLanguage "done" exampleModule = Returned "done"%string /\
  @getClockVariable exampleLanguage "timer" exampleModule = Thrown InvalidArgumentException /\
  @getBooleanVariable exampleLanguage "timer" exampleModule = Returned "busy"%string.
Proof.
  pose proof (@variable_lookup exampleLanguage "station"
                ["busy"%string; "done"%string] ["queue"%string] ["timer"%string] tt
                [(true, 1, 10); (false, 0, 11); (true, 2, 12); (true, 1, 13)]
                EmptyString []) as H.
  cbn zeta in H. destruct H as (H1 & _ & H3 & H4 & H5 & _).
  split.
  { apply (H1 0 "queue"%string eq_refl). intros j w Hj Hw.
    destruct j as [|[|j]]; [lia|discriminate|discriminate]. }
  split.
  { apply (H5 1 "done"%string eq_refl).
    - intros j w Hj Hw. destruct j as [|[|[|j]]]; [lia|lia|discriminate|discriminate].
    - intros c [<-|[]]. discriminate. }
  split; [apply H3|].
  apply (H4 0 "timer"%string eq_refl). intros j w Hj Hw.
  destruct j as [|[|j]]; [lia|discriminate|discriminate].
Defined.

Lemma action_index_mapping_witness :
  (exists i, @labeledAt exampleLanguage (commands exampleModule) 1 i) /\
  exists s, @getCommandIndicesByActionIndex exampleLanguage 1 exampleModule = Returned s /\
            forall i, In i s <-> @labeledAt exampleLanguage (commands exampleModule) 1 i.
Proof.
  assert (H : exists i, @labeledAt exampleLanguage (commands exampleModule) 1 i).
  { exists 0, (true, 1, 10). repeat split. }
  split; [exact H|].
  destruct (proj1 (proj2 (@action_index_mapping exampleLanguage "station"
                ["busy"%string; "done"%string] ["queue"%string] ["timer"%string] tt
                [(true, 1, 10); (false, 0, 11); (true, 2, 12); (true, 1, 13)]
                EmptyString [])) 1 H) as (s & E & _ & I).
  exists s. split; [exact E|exact I].
Defined.

End PrismFacts.
